(** * SQL lineage engine: parser and graph assembler

    A shallow embedding of [src/app/frontend/src/lib/flowLayoutEngine.ts]
    (the graph assembler [buildFlowElements] followed by the SQL parser
    [parseSQL] and its helpers) together with the properties the
    specification states about them.

    Conventions of the embedding.
    - A JavaScript string is a list of code units.  Code units are the
      8-bit characters of [ascii], read as the Latin-1 range U+0000..U+00FF;
      [toLowerCase], [\s], [\w] and case-insensitive matching are the
      ECMAScript ones restricted to that range.
    - Indices and lengths are [nat]; the JavaScript results [-1], [null]
      and [undefined] are [None].
    - A [Set] or [Map] of the source is an insertion-ordered list, because
      the source iterates over them and takes the first hit.
    - Regular expressions are values of [regex], run by a backtracking
      matcher that enumerates the matches in ECMAScript priority order.
    - A computation that may throw or loop returns [res].
    - The fixed labels of the source that lie outside Latin-1 are kept
      as the bytes of the literal; the engine never looks inside them. *)

From Stdlib Require Import Ascii String Numbers.DecimalString Decimal.
From Stdlib Require Import Arith ZArith Bool Lia PeanoNat List.
From Stdlib Require DecimalNat.
Import ListNotations.

Set Implicit Arguments.
Local Open Scope list_scope.

(* ================================================================== *)
(** * Characters and strings *)

Module Js.

Definition str := list ascii.

(** String literals of the source are written [lit "..."]. *)
Definition lit (s : string) : str := list_ascii_of_string s.

Definition code (c : ascii) : nat := nat_of_ascii c.

Definition ch_eqb (a b : ascii) : bool := Ascii.eqb a b.

Fixpoint str_eqb (a b : str) : bool :=
  match a, b with
  | [], [] => true
  | x :: a', y :: b' => ch_eqb x y && str_eqb a' b'
  | _, _ => false
  end.

Definition in_range (lo hi : nat) (c : ascii) : bool :=
  (lo <=? code c) && (code c <=? hi).

(** [String.prototype.toLowerCase] on one Latin-1 code unit: A-Z and the
    accented capitals U+00C0..U+00DE (except the multiplication sign). *)
Definition lower_ch (c : ascii) : ascii :=
  if in_range 65 90 c || in_range 192 214 c || in_range 216 222 c
  then ascii_of_nat (code c + 32) else c.

(** The capital of an ASCII letter; what a letter of a pattern under the
    [i] flag is compared through. *)
Definition upper_ch (c : ascii) : ascii :=
  if in_range 97 122 c then ascii_of_nat (code c - 32) else c.

Definition toLowerCase (s : str) : str := map lower_ch s.

(** [String.prototype.toUpperCase] on Latin-1: a-z and the accented
    small letters U+00E0..U+00FE (except the division sign) move down by
    32 and the sharp s becomes [SS].  The capitals of U+00B5 and U+00FF
    lie outside Latin-1; those two are left as they are, which no
    pattern of the source can tell from their capitals. *)
Definition toUpperCase (s : str) : str :=
  flat_map
    (fun c =>
       if in_range 97 122 c || in_range 224 246 c || in_range 248 254 c
       then [ascii_of_nat (code c - 32)]
       else if code c =? 223 then lit "SS"
       else [c])
    s.

(** [\s] of ECMAScript on Latin-1: TAB, LF, VT, FF, CR, SP, NBSP. *)
Definition is_space (c : ascii) : bool :=
  in_range 9 13 c || (code c =? 32) || (code c =? 160).

(** [\w] without the unicode flag: [A-Za-z0-9_]. *)
Definition is_word (c : ascii) : bool :=
  in_range 65 90 c || in_range 97 122 c || in_range 48 57 c || (code c =? 95).

(** Line terminators, as used by [.] and by [$] under the [m] flag. *)
Definition is_newline (c : ascii) : bool := (code c =? 10) || (code c =? 13).

(** [s.substring(a, b)]: both ends clamped to the length, swapped when
    [a > b]. *)
Definition substring (a b : nat) (s : str) : str :=
  let a' := Nat.min a (length s) in
  let b' := Nat.min b (length s) in
  let lo := Nat.min a' b' in
  let hi := Nat.max a' b' in
  firstn (hi - lo) (skipn lo s).

(** [s.substring(a)]. *)
Definition substring_from (a : nat) (s : str) : str := skipn a s.

Fixpoint startsWith (p s : str) : bool :=
  match p, s with
  | [], _ => true
  | x :: p', y :: s' => ch_eqb x y && startsWith p' s'
  | _ :: _, [] => false
  end.

Definition endsWith (p s : str) : bool := startsWith (rev p) (rev s).

Fixpoint trimStart (s : str) : str :=
  match s with
  | c :: s' => if is_space c then trimStart s' else s
  | [] => []
  end.

Definition trimEnd (s : str) : str := rev (trimStart (rev s)).

(** [s.trim()]. *)
Definition trim (s : str) : str := trimEnd (trimStart s).

(** [s.indexOf(p)] for a one-character [p]. *)
Fixpoint indexOf_ch (c : ascii) (s : str) : option nat :=
  match s with
  | [] => None
  | x :: s' => if ch_eqb x c then Some 0
               else option_map S (indexOf_ch c s')
  end.

(** [s.includes(p)]. *)
Fixpoint includes (p s : str) : bool :=
  startsWith p s ||
  match s with
  | [] => false
  | _ :: s' => includes p s'
  end.

(** Decimal rendering of a number inside a template literal. *)
Definition of_nat (n : nat) : str :=
  lit (NilZero.string_of_uint (Nat.to_uint n)).

(** A string is truthy when it is not empty. *)
Definition truthy (s : str) : bool :=
  match s with [] => false | _ => true end.

(** [xs.includes(x)] and [xs.find(p)] on arrays of strings. *)
Definition mem (x : str) (xs : list str) : bool := existsb (str_eqb x) xs.

End Js.

Import Js.

(* ================================================================== *)
(** * The name matcher *)

(** [getMatchName]: lower-case, then drop a [${...}] wrapper. *)
Definition getMatchName (name : str) : str :=
  let cleaned := toLowerCase name in
  if startsWith (lit "${") cleaned && endsWith (lit "}") cleaned
  then substring 2 (length cleaned - 1) cleaned
  else cleaned.

Definition wrapped (s : str) : bool :=
  startsWith (lit "${") s && endsWith (lit "}") s.

(* ================================================================== *)
(** * Results of computations that may throw or loop *)

Inductive res (A : Type) : Type :=
| Ok (a : A)
| Throw          (* an uncaught exception *)
| OutOfFuel.     (* the iteration bound of the model was reached *)

Arguments Ok {A} a.
Arguments Throw {A}.
Arguments OutOfFuel {A}.

Definition bind {A B : Type} (x : res A) (f : A -> res B) : res B :=
  match x with
  | Ok a => f a
  | Throw => Throw
  | OutOfFuel => OutOfFuel
  end.

Notation "x <- c ;; k" := (bind c (fun x => k))
  (at level 61, c at next level, right associativity).
Notation "' p <- c ;; k" := (bind c (fun p => k))
  (at level 61, p pattern, c at next level, right associativity).

(** A value the source goes on to use as a string: on [undefined] that
    use is a TypeError.  The model raises it where the value is read. *)
Definition must {A : Type} (o : option A) : res A :=
  match o with Some a => Ok a | None => Throw end.

(** A [for] loop over [l] whose body may throw. *)
Fixpoint fold_res {A B : Type} (f : A -> B -> res A) (l : list B) (a : A)
  : res A :=
  match l with
  | [] => Ok a
  | b :: l' => a' <- f a b ;; fold_res f l' a'
  end.

(* ================================================================== *)
(** * Regular expressions

    The fragment of ECMAScript regular expressions the source uses:
    character tests, sequence, alternation, greedy and lazy repetition,
    capture groups, lookahead, [^], [$] and [\b].  The flags [i] and [m]
    are folded into the expression: a case-insensitive letter is a
    character test, [$] under [m] is [EolM]. *)

Module Re.

Inductive regex : Type :=
| Eps
| Chr (p : ascii -> bool)
| Seq (r1 r2 : regex)
| Alt (r1 r2 : regex)
| Star (greedy : bool) (r : regex)
| Group (k : nat) (r : regex)
| Look (positive : bool) (r : regex)   (* (?=r) and (?!r) *)
| Bol                                  (* ^ *)
| Eol                                  (* $ *)
| EolM                                 (* $ with the m flag *)
| WordB.                               (* \b *)

(** The matcher's position inside the subject: the index, the code unit
    before it and the text from it on. *)
Record state : Type := St { pos : nat; prev : option ascii; rest : str }.

Definition caps := list (nat * (nat * nat)).

Definition step (st : state) : option (ascii * state) :=
  match rest st with
  | [] => None
  | c :: t => Some (c, St (S (pos st)) (Some c) t)
  end.

Definition at_word (o : option ascii) : bool :=
  match o with Some c => is_word c | None => false end.

Definition head (s : str) : option ascii :=
  match s with [] => None | c :: _ => Some c end.

(** Repetition of a matcher [run0]: an iteration that consumed nothing
    is given up, as ECMAScript does; the bound [n] is the length of the
    remaining text, which no sequence of non-empty iterations exceeds. *)
Fixpoint star_loop (run0 : state -> caps -> list (state * caps))
  (greedy : bool) (n : nat) (st : state) (c : caps)
  : list (state * caps) :=
  match n with
  | 0 => [(st, c)]
  | S n' =>
      let more :=
        flat_map (fun sc =>
                    if pos (fst sc) =? pos st then []
                    else star_loop run0 greedy n' (fst sc) (snd sc))
                 (run0 st c) in
      if greedy then more ++ [(st, c)] else (st, c) :: more
  end.

(** All the ways [r] matches at [st], in the order in which a backtracking
    matcher tries them; the head of the list is the match ECMAScript
    reports.  No capture group of the source sits inside a lookahead, so
    [Look] keeps the captures it started with. *)
Fixpoint run (r : regex) (st : state) (c : caps) : list (state * caps) :=
  match r with
  | Eps => [(st, c)]
  | Chr p =>
      match step st with
      | Some (x, st') => if p x then [(st', c)] else []
      | None => []
      end
  | Seq r1 r2 =>
      flat_map (fun sc => run r2 (fst sc) (snd sc)) (run r1 st c)
  | Alt r1 r2 => run r1 st c ++ run r2 st c
  | Star greedy r0 => star_loop (run r0) greedy (length (rest st)) st c
  | Group k r0 =>
      map (fun sc => (fst sc, (k, (pos st, pos (fst sc))) :: snd sc))
          (run r0 st c)
  | Look positive r0 =>
      match run r0 st c with
      | [] => if positive then [] else [(st, c)]
      | _ :: _ => if positive then [(st, c)] else []
      end
  | Bol => match prev st with None => [(st, c)] | Some _ => [] end
  | Eol => match rest st with [] => [(st, c)] | _ :: _ => [] end
  | EolM =>
      match rest st with
      | [] => [(st, c)]
      | x :: _ => if is_newline x then [(st, c)] else []
      end
  | WordB =>
      if xorb (at_word (prev st)) (at_word (head (rest st)))
      then [(st, c)] else []
  end.

(** The least number of code units a match of [r] consumes. *)
Fixpoint min_len (r : regex) : nat :=
  match r with
  | Chr _ => 1
  | Seq r1 r2 => min_len r1 + min_len r2
  | Alt r1 r2 => Nat.min (min_len r1) (min_len r2)
  | Group _ r0 => min_len r0
  | _ => 0
  end.

(** The groups a match of [r] can set. *)
Fixpoint groups_of (r : regex) : list nat :=
  match r with
  | Seq r1 r2 => groups_of r1 ++ groups_of r2
  | Alt r1 r2 => groups_of r1 ++ groups_of r2
  | Star _ r0 => groups_of r0
  | Group k r0 => k :: groups_of r0
  | _ => []
  end.

(** A match: [index] and end of the whole match, and the groups. *)
Record rmatch : Type := Match { index : nat; stop : nat; groups : caps }.

(** Leftmost match starting at or after the position of [st]. *)
Fixpoint search_at (r : regex) (p : nat) (pv : option ascii) (s : str)
  {struct s} : option rmatch :=
  match run r (St p pv s) [] with
  | (st', c) :: _ => Some (Match p (pos st') c)
  | [] =>
      match s with
      | [] => None
      | x :: t => search_at r (S p) (Some x) t
      end
  end.

(** The state of the matcher at index [i] of [s]. *)
Definition state_at (i : nat) (s : str) : state :=
  St i (match i with 0 => None | S j => nth_error s j end) (skipn i s).

(** [r.exec(s)] with [lastIndex = from] for a global [r]; [None] also
    when [from] is beyond the end. *)
Definition exec_from (r : regex) (from : nat) (s : str) : option rmatch :=
  if length s <? from then None
  else let st := state_at from s in search_at r (pos st) (prev st) (rest st).

(** [s.match(r)] and [r.exec(s)] for a [r] without the [g] flag. *)
Definition exec (r : regex) (s : str) : option rmatch := exec_from r 0 s.

(** [r.test(s)]. *)
Definition test (r : regex) (s : str) : bool :=
  match exec r s with Some _ => true | None => false end.

(** [m[0]] and [m[k]]; a group that took no part is [undefined]. *)
Definition whole (s : str) (m : rmatch) : str :=
  substring (index m) (stop m) s.

Fixpoint lookup (k : nat) (c : caps) : option (nat * nat) :=
  match c with
  | [] => None
  | (k', se) :: c' => if k' =? k then Some se else lookup k c'
  end.

Definition group (s : str) (m : rmatch) (k : nat) : option str :=
  match lookup k (groups m) with
  | Some (a, b) => Some (substring a b s)
  | None => None
  end.

(** [m[k] || ''] *)
Definition group_or_empty (s : str) (m : rmatch) (k : nat) : str :=
  match group s m k with Some g => g | None => [] end.

(** The successive results of [while ((m = r.exec(s)) !== null)] for a
    global [r]: each search starts where the previous match stopped.
    The bound is the number of searches a matcher that always advances
    can make. *)
Fixpoint exec_loop (fuel : nat) (r : regex) (from : nat) (s : str)
  : res (list rmatch) :=
  match fuel with
  | 0 => OutOfFuel
  | S fuel' =>
      match exec_from r from s with
      | None => Ok []
      | Some m =>
          ms <- exec_loop fuel' r (stop m) s ;;
          Ok (m :: ms)
      end
  end.

Definition exec_all (r : regex) (s : str) : res (list rmatch) :=
  exec_loop (length s + 2) r 0 s.

(** [s.replace(r, f)] for a global [r] ([f] computes the replacement):
    after an empty match the built-in copies one code unit and moves on. *)
Fixpoint replace_loop (fuel : nat) (r : regex) (f : rmatch -> str)
  (from : nat) (s : str) : str :=
  match fuel with
  | 0 => skipn from s
  | S fuel' =>
      match exec_from r from s with
      | None => skipn from s
      | Some m =>
          substring from (index m) s ++ f m ++
          (if stop m =? index m
           then substring (stop m) (S (stop m)) s ++
                replace_loop fuel' r f (S (stop m)) s
           else replace_loop fuel' r f (stop m) s)
      end
  end.

Definition replace_all (r : regex) (repl : str) (s : str) : str :=
  replace_loop (length s + 1) r (fun _ => repl) 0 s.

(** [s.replace(r, repl)] for a [r] without the [g] flag. *)
Definition replace_first (r : regex) (repl : str) (s : str) : str :=
  match exec r s with
  | None => s
  | Some m => substring 0 (index m) s ++ repl ++ skipn (stop m) s
  end.

(** ** Notation for writing the source's patterns *)

Definition ci (x : ascii) : ascii -> bool :=
  fun c => ch_eqb (upper_ch c) (upper_ch x).

Definition only (x : ascii) : ascii -> bool := fun c => ch_eqb c x.

Definition any : ascii -> bool := fun _ => true.       (* [\s\S] *)
Definition dot : ascii -> bool := fun c => negb (is_newline c).

Fixpoint seqs (rs : list regex) : regex :=
  match rs with
  | [] => Eps
  | [r] => r
  | r :: rs' => Seq r (seqs rs')
  end.

Fixpoint alts (rs : list regex) : regex :=
  match rs with
  | [] => Look false Eps
  | [r] => r
  | r :: rs' => Alt r (alts rs')
  end.

(** A keyword under the [i] flag, and a case-sensitive literal. *)
Definition kw (s : string) : regex := seqs (map (fun x => Chr (ci x)) (lit s)).
Definition tx (s : string) : regex := seqs (map (fun x => Chr (only x)) (lit s)).

Definition star (r : regex) : regex := Star true r.          (* r*  *)
Definition plus (r : regex) : regex := Seq r (Star true r).  (* r+  *)
Definition opt (r : regex) : regex := Alt r Eps.             (* r?  *)
Definition lazy_star (r : regex) : regex := Star false r.    (* r*? *)
Definition lazy_plus (r : regex) : regex := Seq r (Star false r). (* r+? *)

Definition sp : regex := Chr is_space.      (* \s *)
Definition wd : regex := Chr is_word.       (* \w *)

End Re.

Import Re.

(* ================================================================== *)
(** * Data model (the interfaces of the parser) *)

Inductive TableType : Type := fact | dimension.

Record TableRef : Type := mkTableRef {
  tr_name : str;
  tr_schema : str;
  tr_tableName : str;
  tr_alias : str;
  tr_type : option TableType
}.

Record FieldInfo : Type := mkFieldInfo {
  fi_expression : str;
  fi_alias : str;
  fi_originalName : str;
  fi_displayText : str;
  fi_transformation : str
}.

Record JoinInfo : Type := mkJoinInfo {
  ji_type : str;
  ji_table : TableRef;
  ji_condition : str
}.

Record FilterInfo : Type := mkFilterInfo {
  fl_clause : str;
  fl_condition : str
}.

Inductive UnionType : Type := UNION_ALL | UNION.

Definition UnionType_text (t : UnionType) : str :=
  match t with UNION_ALL => lit "UNION ALL" | UNION => lit "UNION" end.

Record UnionInfo : Type := mkUnionInfo {
  ui_type : UnionType;
  ui_sources : list str
}.

Record SubQuery : Type := mkSubQuery {
  id : str;
  name : str;
  isCTE : bool;
  isSubQuery : bool;
  isTempTable : option bool;
  tables : list TableRef;
  fields : list FieldInfo;
  joins : list JoinInfo;
  filters : list FilterInfo;
  groupBy : list str;
  orderBy : list str;
  dependsOn : list str;
  unionInfo : option UnionInfo
}.

Record ParsedSQL : Type := mkParsedSQL {
  ctes : list SubQuery;
  mainQuery : SubQuery;
  subQueries : list SubQuery;
  allQueries : list SubQuery
}.

(* ================================================================== *)
(** * Lexical utilities *)

(** Named characters. *)
Definition c_lparen : ascii := "("%char.
Definition c_rparen : ascii := ")"%char.
Definition c_dquote : ascii := ascii_of_nat 34.
Definition c_squote : ascii := "'"%char.
Definition c_bquote : ascii := "`"%char.
Definition c_semi : ascii := ";"%char.
Definition c_bslash : ascii := "\"%char.
Definition c_dot : ascii := "."%char.
Definition c_comma : ascii := ","%char.

(** [classifyTable] *)
Definition classifyTable (fullName : str) : TableType :=
  let lowerName := toLowerCase fullName in
  if includes (lit "app") lowerName || includes (lit "dm") lowerName
     || includes (lit "dwd") lowerName || includes (lit "dws") lowerName
  then fact else dimension.

(** [removeComments]: [/--.*$/gm] then [/\/\*[\s\S]*?\*\//g]. *)
Definition re_line_comment : regex := seqs [tx "--"; star (Chr dot); EolM].
Definition re_block_comment : regex :=
  seqs [tx "/*"; lazy_star (Chr any); tx "*/"].

Definition removeComments (sql : str) : str :=
  replace_all re_block_comment [] (replace_all re_line_comment [] sql).

(** [normalizeWhitespace]: [/\s+/g] to one space, then [trim]. *)
Definition re_spaces : regex := plus sp.

Definition normalizeWhitespace (sql : str) : str :=
  trim (replace_all re_spaces (lit " ") sql).

(** [findMatchingParen]: the loop from [start], with [i] the index of
    the head of the remaining text. *)
Fixpoint findMatchingParen_loop (s : str) (i : nat) (depth : Z)
  : option nat :=
  match s with
  | [] => None
  | c :: t =>
      let depth := if ch_eqb c c_lparen then (depth + 1)%Z else depth in
      if ch_eqb c c_rparen then
        let depth := (depth - 1)%Z in
        if (depth =? 0)%Z then Some i
        else findMatchingParen_loop t (S i) depth
      else findMatchingParen_loop t (S i) depth
  end.

Definition findMatchingParen (sql : str) (start : nat) : option nat :=
  findMatchingParen_loop (skipn start sql) start 0%Z.

(** [splitByUnion]: [/^UNION\s+ALL\s/i] and [/^UNION\s(?!ALL)/i] tried
    on the text from [i] on whenever the depth is zero. *)
Definition re_union_all : regex :=
  seqs [Bol; kw "UNION"; plus sp; kw "ALL"; sp].
Definition re_union : regex :=
  seqs [Bol; kw "UNION"; sp; Look false (kw "ALL")].

Definition push_trimmed (parts : list str) (current : str) : list str :=
  parts ++ [trim current].

Fixpoint splitByUnion_loop (fuel : nat) (sql : str) (i : nat) (depth : Z)
  (current : str) (parts : list str) (detectedType : option UnionType)
  : res (list str * option UnionType) :=
  match fuel with
  | 0 => OutOfFuel
  | S fuel' =>
      match nth_error sql i with
      | None =>
          let parts :=
            if truthy (trim current) then push_trimmed parts current
            else parts in
          Ok (parts, if 1 <? length parts then detectedType else None)
      | Some c =>
          let depth := if ch_eqb c c_lparen then (depth + 1)%Z else depth in
          let depth := if ch_eqb c c_rparen then (depth - 1)%Z else depth in
          let remaining := substring_from i sql in
          let uaMatch :=
            if (depth =? 0)%Z then exec re_union_all remaining else None in
          let uMatch :=
            if (depth =? 0)%Z then exec re_union remaining else None in
          match uaMatch, uMatch with
          | Some ua, _ =>
              splitByUnion_loop fuel' sql (i + length (whole remaining ua))
                depth [] (push_trimmed parts current) (Some UNION_ALL)
          | None, Some u =>
              splitByUnion_loop fuel' sql (i + length (whole remaining u))
                depth [] (push_trimmed parts current) (Some UNION)
          | None, None =>
              splitByUnion_loop fuel' sql (S i) depth (current ++ [c])
                parts detectedType
          end
      end
  end.

Definition splitByUnion (sql : str) : res (list str * option UnionType) :=
  splitByUnion_loop (length sql + 1) sql 0 0%Z [] [] None.

(** The union operators [splitByUnion] meets, in the order of the text:
    the same loop, recording the operator of every match instead of
    keeping one. *)
Fixpoint unionOperators_loop (fuel : nat) (sql : str) (i : nat) (depth : Z)
  (current : str) (parts : list str) (ops : list UnionType)
  : res (list str * list UnionType) :=
  match fuel with
  | 0 => OutOfFuel
  | S fuel' =>
      match nth_error sql i with
      | None =>
          Ok (if truthy (trim current) then push_trimmed parts current
              else parts, ops)
      | Some c =>
          let depth := if ch_eqb c c_lparen then (depth + 1)%Z else depth in
          let depth := if ch_eqb c c_rparen then (depth - 1)%Z else depth in
          let remaining := substring_from i sql in
          let uaMatch :=
            if (depth =? 0)%Z then exec re_union_all remaining else None in
          let uMatch :=
            if (depth =? 0)%Z then exec re_union remaining else None in
          match uaMatch, uMatch with
          | Some ua, _ =>
              unionOperators_loop fuel' sql
                (i + length (whole remaining ua)) depth []
                (push_trimmed parts current) (ops ++ [UNION_ALL])
          | None, Some u =>
              unionOperators_loop fuel' sql
                (i + length (whole remaining u)) depth []
                (push_trimmed parts current) (ops ++ [UNION])
          | None, None =>
              unionOperators_loop fuel' sql (S i) depth (current ++ [c])
                parts ops
          end
      end
  end.

Definition unionOperators (sql : str) : res (list str * list UnionType) :=
  unionOperators_loop (length sql + 1) sql 0 0%Z [] [] [].

(** The last of the operators met. *)
Definition last_op (ops : list UnionType) : option UnionType :=
  match rev ops with [] => None | o :: _ => Some o end.

(** A chain that mixes the two operators. *)
Definition mixed_union_script : str := lit "a UNION b UNION ALL c".

(** [cleanName]: trims and drops one pair of surrounding quotes.  The
    source's [if (!name) return name] returns the empty string as it is. *)
Definition is_quote (c : ascii) : bool :=
  ch_eqb c c_dquote || ch_eqb c c_squote || ch_eqb c c_bquote.

Definition cleanName (name : str) : str :=
  if negb (truthy name) then name
  else
    let trimmed := trim name in
    if 2 <=? length trimmed then
      match head trimmed, head (rev trimmed) with
      | Some first, Some last =>
          if (ch_eqb first c_dquote && ch_eqb last c_dquote)
             || (ch_eqb first c_squote && ch_eqb last c_squote)
             || (ch_eqb first c_bquote && ch_eqb last c_bquote)
          then substring 1 (length trimmed - 1) trimmed
          else trimmed
      | _, _ => trimmed
      end
    else trimmed.


(* ================================================================== *)
(** * The graph assembler *)

Module Flow.

Inductive NodeType : Type :=
| nt_source | nt_cte | nt_subquery | nt_main | nt_output | nt_temp.

(** The payload of a node: [QueryNodeData] or [JoinNodeData]. *)
Inductive NodeData : Type :=
| QueryNodeData (label : str) (subQuery : SubQuery) (nodeType : NodeType)
| JoinNodeData (label : str) (joinType : str) (condition : str).

(** A node of the graph.  Its position is assigned by the external
    layout and is not part of the model. *)
Record Node : Type := mkNode {
  n_id : str;
  n_data : NodeData
}.

Definition n_label (n : Node) : str :=
  match n_data n with
  | QueryNodeData l _ _ => l
  | JoinNodeData l _ _ => l
  end.

Inductive EdgeStyle : Type :=
| plain                  (* grey arrow *)
| union (label : str)    (* dashed amber arrow with the operator *)
| terminal.              (* the heavier arrow into the output node *)

Record Edge : Type := mkEdge {
  e_id : str;
  source : str;
  target : str;
  style : EdgeStyle
}.

(** The accumulators of [buildFlowElements]. *)
Record Acc : Type := mkAcc {
  nodes : list Node;
  edges : list Edge;
  addedEdges : list str;       (* Set<string> *)
  joinNodeCounter : nat
}.

Definition set_nodes (a : Acc) (ns : list Node) : Acc :=
  mkAcc ns (edges a) (addedEdges a) (joinNodeCounter a).

(** [Set.add] *)
Definition set_add (x : str) (xs : list str) : list str :=
  if mem x xs then xs else xs ++ [x].

(** [Map.set]: an existing key keeps its place. *)
Fixpoint map_set (k v : str) (m : list (str * str)) : list (str * str) :=
  match m with
  | [] => [(k, v)]
  | (k', v') :: m' =>
      if str_eqb k' k then (k, v) :: m' else (k', v') :: map_set k v m'
  end.

Definition edgeKey (sourceId targetId : str) : str :=
  sourceId ++ lit "->" ++ targetId.

(** The value of the first entry of [nodeIdMap] whose key passes [p]
    (the [for ... break] searches). *)
Fixpoint first_entry (p : str -> bool) (m : list (str * str))
  : option str :=
  match m with
  | [] => None
  | (k, v) :: m' => if p k then Some v else first_entry p m'
  end.

(** Truthiness of a [string | undefined]. *)
Definition defined (o : option str) : option str :=
  match o with
  | Some v => if truthy v then Some v else None
  | None => None
  end.

(** The id [ensureSourceNode] gives to a physical table: lower case,
    [/\./g] to [_], then [/[^a-z0-9_]/g] removed. *)
Definition sourceIdOf (tableName : str) : str :=
  let dots := map (fun c => if ch_eqb c c_dot then "_"%char else c)
                  (toLowerCase tableName) in
  lit "source_" ++
  filter (fun c => in_range 97 122 c || in_range 48 57 c || (code c =? 95))
         dots.

(** [s.split('.')[0]] and [s.split('.').slice(1).join('.')] for a [s]
    that includes a dot. *)
Fixpoint before_dot (s : str) : str :=
  match s with
  | [] => []
  | c :: t => if ch_eqb c c_dot then [] else c :: before_dot t
  end.

Fixpoint after_dot (s : str) : str :=
  match s with
  | [] => []
  | c :: t => if ch_eqb c c_dot then t else after_dot t
  end.

Definition or_else (a b : str) : str := if truthy a then a else b.

Definition ensureSourceNode (tableName alias : str) (ns : list Node)
  : str * list Node :=
  let sourceId := sourceIdOf tableName in
  if existsb (fun n => str_eqb (n_id n) sourceId) ns then (sourceId, ns)
  else
    let dotted := includes (lit ".") tableName in
    let tableRef :=
      mkTableRef tableName
        (if dotted then before_dot tableName else [])
        (if dotted then after_dot tableName else tableName)
        (or_else alias tableName)
        (Some (classifyTable tableName)) in
    let sourceLabel := or_else (tr_schema tableRef) (tr_name tableRef) in
    (sourceId,
     ns ++ [mkNode sourceId
              (QueryNodeData sourceLabel
                 (mkSubQuery sourceId (tr_name tableRef) false false None
                    [tableRef] [] [] [] [] [] [] None)
                 nt_source)]).

(** [addEdge] *)
Definition addEdge (sourceId targetId : str) (isUnion : bool)
  (unionLabel : str) (a : Acc) : Acc :=
  let edgeKey := edgeKey sourceId targetId in
  if mem edgeKey (addedEdges a) then a
  else
    let e :=
      if isUnion
      then mkEdge (lit "e_union_" ++ sourceId ++ lit "_" ++ targetId)
             sourceId targetId (union (or_else unionLabel (lit "UNION ALL")))
      else mkEdge (lit "e_" ++ sourceId ++ lit "_" ++ targetId)
             sourceId targetId plain in
    mkAcc (nodes a) (edges a ++ [e]) (set_add edgeKey (addedEdges a))
      (joinNodeCounter a).

(** The guarded push the join handling writes out three times. *)
Definition pushJoinEdge (sourceId targetId : str) (a : Acc) : Acc :=
  let ek := edgeKey sourceId targetId in
  if negb (mem ek (addedEdges a)) then
    mkAcc (nodes a)
      (edges a ++ [mkEdge (lit "e_" ++ sourceId ++ lit "_" ++ targetId)
                     sourceId targetId plain])
      (set_add ek (addedEdges a)) (joinNodeCounter a)
  else a.

Definition unionLabelOf (sq : SubQuery) : str :=
  match unionInfo sq with
  | Some u => UnionType_text (ui_type u)
  | None => lit "UNION ALL"
  end.

Definition matches2 (a b : str) (k : str) : bool :=
  let m := getMatchName k in str_eqb m a || str_eqb m b.

Section Assemble.

Variable parsed : ParsedSQL.

(** [nodeIdMap] after the node-creation loops. *)
Definition nodeIdMap : list (str * str) :=
  let m1 :=
    fold_left (fun m cte =>
                 map_set (id cte) (id cte)
                   (map_set (toLowerCase (name cte)) (id cte) m))
              (ctes parsed) [] in
  fold_left (fun m sq => map_set (id sq) (id sq) m) (subQueries parsed) m1.

Definition mainId : str := id (mainQuery parsed).
Definition outputId : str := lit "output".
Definition outputLabel : str := lit "输出结果".

(** The nodes pushed before any edge is made. *)
Definition initialNodes : list Node :=
  map (fun cte =>
         mkNode (id cte)
           (QueryNodeData (name cte) cte
              (match isTempTable cte with
               | Some true => nt_temp
               | _ => nt_cte
               end)))
      (ctes parsed)
  ++ map (fun sq => mkNode (id sq) (QueryNodeData (name sq) sq nt_subquery))
         (subQueries parsed)
  ++ [mkNode mainId
        (QueryNodeData (name (mainQuery parsed)) (mainQuery parsed) nt_main);
      mkNode outputId
        (QueryNodeData outputLabel
           (mkSubQuery outputId outputLabel false false None
              [] (fields (mainQuery parsed)) [] [] [] [] [] None)
           nt_output)].

(** The union pre-pass: [unionDeps] and [unionPhysicalSources]. *)
Definition knownNode (nm : str) : option str :=
  defined (first_entry (fun k => str_eqb (getMatchName k) nm) nodeIdMap).

Definition unionPass : list str * list (str * list str) :=
  fold_left
    (fun (st : list str * list (str * list str)) sq =>
       match unionInfo sq with
       | None => st
       | Some u =>
           let '(deps, phys) :=
             fold_left
               (fun (dp : list str * list str) src =>
                  match knownNode (getMatchName src) with
                  | Some foundNodeId =>
                      (set_add (edgeKey foundNodeId (id sq)) (fst dp), snd dp)
                  | None => (fst dp, snd dp ++ [src])
                  end)
               (ui_sources u) (fst st, []) in
           (deps,
            match phys with
            | [] => snd st
            | _ :: _ =>
                (fix set (m : list (str * list str)) :=
                   match m with
                   | [] => [(id sq, phys)]
                   | (k, v) :: m' =>
                       if str_eqb k (id sq) then (k, phys) :: m'
                       else (k, v) :: set m'
                   end) (snd st)
            end)
       end)
    (allQueries parsed) ([], []).

Definition unionDeps : list str := fst unionPass.

Fixpoint unionPhysicalSources_get (k : str) (m : list (str * list str))
  : option (list str) :=
  match m with
  | [] => None
  | (k', v) :: m' =>
      if str_eqb k' k then Some v else unionPhysicalSources_get k m'
  end.

Section PerQuery.

Variable sq : SubQuery.

Definition joinTableNames : list str :=
  fold_left (fun s j => set_add (toLowerCase (tr_name (ji_table j))) s)
            (joins sq) [].

Definition isJoinName (tableLower : str) : bool :=
  existsb (fun j => str_eqb (getMatchName j) tableLower) joinTableNames.

(** The FROM table: the first table that is not the table of a join. *)
Fixpoint fromTable (ts : list TableRef) (ns : list Node)
  : option str * list Node :=
  match ts with
  | [] => (None, ns)
  | table :: ts' =>
      let tableLower := getMatchName (tr_name table) in
      let tableNameLower := getMatchName (tr_tableName table) in
      match defined (first_entry (matches2 tableLower tableNameLower)
                       nodeIdMap) with
      | Some knownNodeId =>
          if negb (isJoinName tableLower) then (Some knownNodeId, ns)
          else fromTable ts' ns
      | None =>
          if negb (isJoinName tableLower) then
            let '(sid, ns') :=
              ensureSourceNode (tr_name table) (tr_alias table) ns in
            (Some sid, ns')
          else fromTable ts' ns
      end
  end.

(** The names the join handling marks for the FROM table. *)
Fixpoint markFromTable (ts : list TableRef) (handled : list str)
  : list str :=
  match ts with
  | [] => handled
  | table :: ts' =>
      if negb (mem (toLowerCase (tr_name table)) joinTableNames) then
        set_add (toLowerCase (tr_tableName table))
          (set_add (toLowerCase (tr_name table)) handled)
      else markFromTable ts' handled
  end.

Definition joinStep (fromTableNodeId : option str)
  (st : Acc * list str) (join : JoinInfo) : Acc * list str :=
  let '(a, handledDeps) := st in
  let tableLower := getMatchName (tr_name (ji_table join)) in
  let tableNameLower := getMatchName (tr_tableName (ji_table join)) in
  let '(joinSourceNodeId, ns) :=
    match defined (first_entry (matches2 tableLower tableNameLower)
                     nodeIdMap) with
    | Some v => (v, nodes a)
    | None =>
        ensureSourceNode (tr_name (ji_table join))
          (tr_alias (ji_table join)) (nodes a)
    end in
  let joinId := lit "join_" ++ of_nat (joinNodeCounter a) in
  let a :=
    mkAcc (ns ++ [mkNode joinId
                    (JoinNodeData (ji_type join) (ji_type join)
                       (ji_condition join))])
      (edges a) (addedEdges a) (S (joinNodeCounter a)) in
  let a :=
    match defined fromTableNodeId with
    | Some f => pushJoinEdge f joinId a
    | None => a
    end in
  let a := pushJoinEdge joinSourceNodeId joinId a in
  let a := pushJoinEdge joinId (id sq) a in
  let handledDeps := set_add tableNameLower (set_add tableLower handledDeps) in
  let handledDeps :=
    match defined fromTableNodeId with
    | Some _ => markFromTable (tables sq) handledDeps
    | None => handledDeps
    end in
  (a, handledDeps).

Definition unionStep (st : Acc * list str) (tableName : str)
  : Acc * list str :=
  let '(a, handledDeps) := st in
  let '(sourceNodeId, ns) := ensureSourceNode tableName [] (nodes a) in
  let a := addEdge sourceNodeId (id sq) true (unionLabelOf sq)
             (set_nodes a ns) in
  (a, set_add (toLowerCase tableName) handledDeps).

Definition dependsStep (st : Acc * list str) (dep : str)
  : Acc * list str :=
  let '(a, handledDeps) := st in
  let depMatch := getMatchName dep in
  if existsb (fun h => str_eqb (getMatchName h) depMatch) handledDeps
  then st
  else
    match knownNode depMatch with
    | None => st
    | Some depNodeId =>
        if str_eqb depNodeId (id sq) then st
        else if mem (edgeKey depNodeId (id sq)) (addedEdges a) then st
        else
          let isUnion := mem (edgeKey depNodeId (id sq)) unionDeps in
          (addEdge depNodeId (id sq) isUnion (unionLabelOf sq) a,
           set_add dep handledDeps)
    end.

Definition tableStep (st : Acc * list str) (table : TableRef)
  : Acc * list str :=
  let '(a, handledDeps) := st in
  let tableMatch := getMatchName (tr_name table) in
  let tableNameMatch := getMatchName (tr_tableName table) in
  if existsb (matches2 tableMatch tableNameMatch) handledDeps then st
  else
    match defined (first_entry (matches2 tableMatch tableNameMatch)
                     nodeIdMap) with
    | Some depNodeId =>
        let a :=
          if negb (str_eqb depNodeId (id sq)) then
            if negb (mem (edgeKey depNodeId (id sq)) (addedEdges a))
            then addEdge depNodeId (id sq) false [] a
            else a
          else a in
        (a, set_add (tr_name table) handledDeps)
    | None =>
        let '(sourceId, ns) :=
          ensureSourceNode (tr_name table) (tr_alias table) (nodes a) in
        (addEdge sourceId (id sq) false [] (set_nodes a ns),
         set_add (tr_name table) handledDeps)
    end.

(** The orphan rescue for one table; [incomingEdges] was computed
    before the loop. *)
Definition rescueStep (incomingEdges : list Edge) (a : Acc)
  (table : TableRef) : Acc :=
  let tableMatch := getMatchName (tr_name table) in
  let tableNameMatch := getMatchName (tr_tableName table) in
  let alreadyConnected :=
    existsb
      (fun edge =>
         match find (fun n => str_eqb (n_id n) (source edge)) (nodes a) with
         | Some sourceNode =>
             matches2 tableMatch tableNameMatch (n_label sourceNode)
         | None => false
         end)
      incomingEdges in
  if alreadyConnected then a
  else
    let '(sourceNodeId, ns) :=
      match defined (first_entry (matches2 tableMatch tableNameMatch)
                       nodeIdMap) with
      | Some v => (v, nodes a)
      | None => ensureSourceNode (tr_name table) (tr_alias table) (nodes a)
      end in
    addEdge sourceNodeId (id sq) false [] (set_nodes a ns).

Definition flagged : bool :=
  isCTE sq
  || match isTempTable sq with Some b => b | None => false end
  || isSubQuery sq.

(** The body of [for (const sq of parsed.allQueries)]. *)
Definition processQuery (a : Acc) : Acc :=
  let '(fromTableNodeId, ns) := fromTable (tables sq) (nodes a) in
  let st := fold_left (joinStep fromTableNodeId) (joins sq)
              (set_nodes a ns, []) in
  let st :=
    match unionPhysicalSources_get (id sq) (snd unionPass) with
    | Some physicalUnionSources =>
        fold_left unionStep physicalUnionSources st
    | None => st
    end in
  let st := fold_left dependsStep (dependsOn sq) st in
  let st := fold_left tableStep (tables sq) st in
  let a := fst st in
  let incomingEdges :=
    filter (fun e => str_eqb (target e) (id sq)) (edges a) in
  if (length incomingEdges =? 0) && flagged
  then fold_left (rescueStep incomingEdges) (tables sq) a
  else a.

End PerQuery.

(** Restyle the first edge from the main query to the output node. *)
Fixpoint restyleMainOutput (es : list Edge) : list Edge :=
  match es with
  | [] => []
  | e :: es' =>
      if str_eqb (source e) mainId && str_eqb (target e) outputId
      then mkEdge (e_id e) (source e) (target e) terminal :: es'
      else e :: restyleMainOutput es'
  end.

Definition buildFlowElements : list Node * list Edge :=
  let a := mkAcc initialNodes [] [] 0 in
  let a := fold_left (fun a sq => processQuery sq a) (allQueries parsed) a in
  let a := addEdge mainId outputId false [] a in
  (nodes a, restyleMainOutput (edges a)).

End Assemble.

End Flow.

(* ================================================================== *)
(** * The parser: statements, temp tables and CTEs *)

Import Flow.

Definition if_nonempty_push (xs : list str) (current : str) : list str :=
  if truthy (trim current) then xs ++ [trim current] else xs.

(** [splitStatements]: one step per character; [before] is [sql[i-1]]. *)
Record SplitState : Type := mkSplitState {
  ss_statements : list str;
  ss_depth : Z;
  ss_current : str;
  ss_inQuote : bool;
  ss_quoteChar : ascii
}.

Definition splitStatements_step (before : option ascii) (char : ascii)
  (s : SplitState) : SplitState :=
  let '(mkSplitState statements depth current inQuote quoteChar) := s in
  if inQuote then
    let inQuote :=
      if ch_eqb char quoteChar then
        match before with
        | Some b => if negb (ch_eqb b c_bslash) then false else inQuote
        | None => inQuote
        end
      else inQuote in
    mkSplitState statements depth (current ++ [char]) inQuote quoteChar
  else if is_quote char then
    mkSplitState statements depth (current ++ [char]) true char
  else
    let depth := if ch_eqb char c_lparen then (depth + 1)%Z else depth in
    let depth := if ch_eqb char c_rparen then (depth - 1)%Z else depth in
    if ch_eqb char c_semi && (depth =? 0)%Z then
      mkSplitState (if_nonempty_push statements current) depth []
        inQuote quoteChar
    else
      mkSplitState statements depth (current ++ [char]) inQuote quoteChar.

Fixpoint splitStatements_loop (before : option ascii) (sql : str)
  (s : SplitState) : SplitState :=
  match sql with
  | [] => s
  | char :: t =>
      splitStatements_loop (Some char) t (splitStatements_step before char s)
  end.

Definition splitStatements (sql : str) : list str :=
  let s := splitStatements_loop None sql
             (mkSplitState [] 0%Z [] false "000"%char) in
  if_nonempty_push (ss_statements s) (ss_current s).

(** [/^\s*CREATE\s+TABLE\s+(?:IF\s+NOT\s+EXISTS\s+)?([^\s(]+)(?:\s+AS)?\s+((?:SELECT|WITH)[\s\S]+)$/i] *)
Definition createTableRegex : regex :=
  seqs [Bol; star sp; kw "CREATE"; plus sp; kw "TABLE"; plus sp;
        opt (seqs [kw "IF"; plus sp; kw "NOT"; plus sp; kw "EXISTS"; plus sp]);
        Group 1 (plus (Chr (fun c => negb (is_space c || ch_eqb c c_lparen))));
        opt (seqs [plus sp; kw "AS"]);
        plus sp;
        Group 2 (seqs [alts [kw "SELECT"; kw "WITH"]; plus (Chr any)]);
        Eol].

Record Named : Type := mkNamed { nm_name : str; nm_body : str }.

(** [xs.join(sep)] *)
Fixpoint join_with (sep : str) (xs : list str) : str :=
  match xs with
  | [] => []
  | [x] => x
  | x :: xs' => x ++ sep ++ join_with sep xs'
  end.

Definition semicolon_newline : str := [c_semi; "010"%char].

Definition preprocessTempTables_step (st : list Named * list str)
  (stmt : str) : res (list Named * list str) :=
  let '(tempTables, nonTempStatements) := st in
  match exec createTableRegex stmt with
  | Some m =>
      rawTableName <- must (group stmt m 1) ;;
      let tableName := cleanName rawTableName in
      let body := group_or_empty stmt m 2 in
      if truthy body then
        let cleanedBody := trim body in
        let cleanedBody :=
          if startsWith [c_lparen] cleanedBody
             && endsWith [c_rparen] cleanedBody
             && match findMatchingParen cleanedBody 0 with
                | Some c => c =? length cleanedBody - 1
                | None => false
                end
          then substring 1 (length cleanedBody - 1) cleanedBody
          else cleanedBody in
        Ok (tempTables ++ [mkNamed tableName cleanedBody], nonTempStatements)
      else Ok st
  | None =>
      if truthy (trim stmt) then Ok (tempTables, nonTempStatements ++ [stmt])
      else Ok st
  end.

Definition preprocessTempTables (sql : str) : res (list Named * str) :=
  '(tempTables, nonTempStatements) <-
    fold_res preprocessTempTables_step (splitStatements sql) ([], []) ;;
  Ok (tempTables, join_with semicolon_newline nonTempStatements).

(** [extractCTEs]: [/^\s*WITH\s+/i], [/^\s*(\w+)\s+AS\s*\(/i] and
    [/^\s*,\s*/]. *)
Definition re_with : regex := seqs [Bol; star sp; kw "WITH"; plus sp].
Definition re_cte_name : regex :=
  seqs [Bol; star sp; Group 1 (plus wd); plus sp; kw "AS"; star sp;
        Chr (only c_lparen)].
Definition re_cte_comma : regex :=
  seqs [Bol; star sp; Chr (only c_comma); star sp].

Fixpoint extractCTEs_loop (fuel : nat) (sql : str) (pos : nat)
  (ctes : list Named) : res (list Named * str) :=
  match fuel with
  | 0 => OutOfFuel
  | S fuel' =>
      if pos <? length sql then
        let tail := substring_from pos sql in
        match exec re_cte_name tail with
        | None => Ok (ctes, sql)
        | Some nameMatch =>
            rawName <- must (group tail nameMatch 1) ;;
            let cteName := cleanName rawName in
            let pos := pos + length (whole tail nameMatch) - 1 in
            match findMatchingParen sql pos with
            | None => Ok (ctes, sql)
            | Some closePos =>
                let ctes :=
                  ctes ++ [mkNamed cteName
                             (trim (substring (pos + 1) closePos sql))] in
                let pos := closePos + 1 in
                let tail := substring_from pos sql in
                match exec re_cte_comma tail with
                | Some afterCTE =>
                    extractCTEs_loop fuel' sql
                      (pos + length (whole tail afterCTE)) ctes
                | None => Ok (ctes, trim tail)
                end
            end
        end
      else Ok (ctes, sql)
  end.

Definition extractCTEs (sql : str) : res (list Named * str) :=
  match exec re_with sql with
  | None => Ok ([], sql)
  | Some withMatch =>
      extractCTEs_loop (length sql + 1) sql (length (whole sql withMatch)) []
  end.

(* ================================================================== *)
(** * The parser: union detection *)

(** [TABLE_NAME_PATTERN]: one or more [\w], then any number of a dot
    and one or more [\w]; as group [k]. *)
Definition table_name (k : nat) : regex :=
  Group k (seqs [plus wd; star (seqs [Chr (only c_dot); plus wd])]).

(** [FROM\s+] and [TABLE_NAME_PATTERN], under [i]. *)
Definition re_from_table : regex := seqs [kw "FROM"; plus sp; table_name 1].

(** [/FROM\s*\(/gi] *)
Definition fromSubRegex : regex :=
  seqs [kw "FROM"; star sp; Chr (only c_lparen)].

(** [knownNames.find(k => getMatchName(k) === lower)], as a condition. *)
Definition findKnown (p : str -> bool) (knownNames : list str)
  : option str :=
  defined (find p knownNames).

(** The body of the loop over the branches in [detectUnionAllTopLevel]. *)
Definition unionSource (knownNames : list str) (sources : list str)
  (part : str) : res (list str) :=
  let trimmed := trim part in
  match exec re_from_table trimmed with
  | Some fromMatch =>
      tableName <- must (group trimmed fromMatch 1) ;;
      let lower := getMatchName tableName in
      match findKnown (fun k => str_eqb (getMatchName k) lower)
              knownNames with
      | Some knownMatch => Ok (sources ++ [knownMatch])
      | None => Ok (sources ++ [tableName])
      end
  | None => Ok sources
  end.

Definition detectUnionAllTopLevel (sql : str) (knownNames : list str)
  : res (option UnionInfo) :=
  '(parts, unionType) <- splitByUnion sql ;;
  match unionType with
  | None => Ok None
  | Some unionType =>
      if length parts <=? 1 then Ok None
      else
        sources <- fold_res (unionSource knownNames) parts [] ;;
        match sources with
        | [] => Ok None
        | _ :: _ => Ok (Some (mkUnionInfo unionType sources))
        end
  end.

(** The [open] of a match of a pattern that ends with a parenthesis. *)
Definition open_of (m : rmatch) : nat :=
  index m + (stop m - index m) - 1.

Fixpoint detectUnionAllInSubquery_loop (sql : str) (knownNames : list str)
  (ms : list rmatch) : res (option UnionInfo) :=
  match ms with
  | [] => Ok None
  | m :: ms' =>
      let open := open_of m in
      match findMatchingParen sql open with
      | None => detectUnionAllInSubquery_loop sql knownNames ms'
      | Some close =>
          let body := trim (substring (open + 1) close sql) in
          info <- detectUnionAllTopLevel body knownNames ;;
          match info with
          | Some i => Ok (Some i)
          | None => detectUnionAllInSubquery_loop sql knownNames ms'
          end
      end
  end.

Definition detectUnionAllInSubquery (sql : str) (knownNames : list str)
  : res (option UnionInfo) :=
  ms <- exec_all fromSubRegex sql ;;
  detectUnionAllInSubquery_loop sql knownNames ms.

Definition detectUnionAll (sql : str) (knownNames : list str)
  : res (option UnionInfo) :=
  let n := normalizeWhitespace sql in
  top <- detectUnionAllTopLevel n knownNames ;;
  match top with
  | Some i => Ok (Some i)
  | None => detectUnionAllInSubquery n knownNames
  end.

(* ================================================================== *)
(** * The parser: subquery extraction *)

Inductive SubContext : Type := ctx_from | ctx_join.

Record SubInfo : Type := mkSubInfo {
  si_body : str;
  si_alias : str;
  si_context : SubContext;
  si_joinType : option str;
  si_joinCondition : option str
}.

Definition join_kinds : regex :=
  alts [kw "INNER"; kw "LEFT"; kw "RIGHT"; kw "FULL"; kw "CROSS"].

(** [/^\s*SELECT\s/i] *)
Definition re_select_head : regex := seqs [Bol; star sp; kw "SELECT"; sp].

(** [/^\s*(?:AS\s+)?(\w+)/i] *)
Definition re_alias : regex :=
  seqs [Bol; star sp; opt (seqs [kw "AS"; plus sp]); Group 1 (plus wd)].

(** [/((?:INNER|LEFT|RIGHT|FULL|CROSS)\s+)?JOIN\s*\(/gi] *)
Definition joinSubRegex : regex :=
  seqs [opt (Group 1 (seqs [join_kinds; plus sp])); kw "JOIN"; star sp;
        Chr (only c_lparen)].

(** The lookahead that ends an ON condition:
    [(?=(?:(?:INNER|LEFT|RIGHT|FULL|CROSS)\s+)?JOIN\s|WHERE\s|GROUP\s|HAVING\s|ORDER\s|LIMIT\s|UNION\s|$)] *)
Definition clause_ahead : regex :=
  Look true
    (alts [seqs [opt (seqs [join_kinds; plus sp]); kw "JOIN"; sp];
           seqs [kw "WHERE"; sp]; seqs [kw "GROUP"; sp];
           seqs [kw "HAVING"; sp]; seqs [kw "ORDER"; sp];
           seqs [kw "LIMIT"; sp]; seqs [kw "UNION"; sp]; Eol]).

(** [/^\s*(?:AS\s+)?(\w+)\s+ON\s+([\s\S]*?)(?=...)/i] *)
Definition re_alias_on : regex :=
  seqs [Bol; star sp; opt (seqs [kw "AS"; plus sp]); Group 1 (plus wd);
        plus sp; kw "ON"; plus sp; Group 2 (lazy_star (Chr any));
        clause_ahead].

(** [/\s*\($/] *)
Definition re_trailing_paren : regex :=
  seqs [star sp; Chr (only c_lparen); Eol].

Definition placeholderOf (counter : nat) : str :=
  lit "__SUBQ_" ++ of_nat counter ++ lit "__".

(** The first match of the inner [while] that is not skipped by a
    [continue]: its parenthesis closes and the body is a SELECT. *)
Fixpoint firstSubquery (result : str) (ms : list rmatch)
  : option (rmatch * nat * str) :=
  match ms with
  | [] => None
  | m :: ms' =>
      match findMatchingParen result (open_of m) with
      | None => firstSubquery result ms'
      | Some close =>
          let body := trim (substring (open_of m + 1) close result) in
          if test re_select_head body then Some (m, close, body)
          else firstSubquery result ms'
      end
  end.

Record Replaced : Type := mkReplaced {
  rp_result : str;
  rp_counter : nat;
  rp_subs : list (str * SubInfo)          (* Map, in insertion order *)
}.

(** The [FROM ( SELECT ... ) alias] loop. *)
Fixpoint replaceFrom_loop (fuel : nat) (r : Replaced) : res Replaced :=
  match fuel with
  | 0 => OutOfFuel
  | S fuel' =>
      let result := rp_result r in
      ms <- exec_all fromSubRegex result ;;
      match firstSubquery result ms with
      | None => Ok r
      | Some (m, close, body) =>
          let afterParen := substring_from (close + 1) result in
          let aliasMatch := exec re_alias afterParen in
          let alias :=
            match aliasMatch with
            | Some am => group_or_empty afterParen am 1
            | None => []
            end in
          let placeholder := placeholderOf (rp_counter r) in
          let beforeFrom := substring 0 (index m) result in
          let afterAlias :=
            match aliasMatch with
            | Some am =>
                substring_from (close + 1 + length (whole afterParen am))
                  result
            | None => substring_from (close + 1) result
            end in
          replaceFrom_loop fuel'
            (mkReplaced
               (beforeFrom ++ lit "FROM " ++ placeholder ++ lit " " ++ alias
                ++ afterAlias)
               (S (rp_counter r))
               (rp_subs r ++
                [(placeholder, mkSubInfo body alias ctx_from None None)]))
      end
  end.

(** The [JOIN ( SELECT ... ) alias ON ...] loop. *)
Fixpoint replaceJoin_loop (fuel : nat) (r : Replaced) : res Replaced :=
  match fuel with
  | 0 => OutOfFuel
  | S fuel' =>
      let result := rp_result r in
      ms <- exec_all joinSubRegex result ;;
      match firstSubquery result ms with
      | None => Ok r
      | Some (m, close, body) =>
          let joinType :=
            trim (match group result m 1 with
                  | Some g => or_else g (lit "INNER ")
                  | None => lit "INNER "
                  end) ++ lit " JOIN" in
          let afterParen := substring_from (close + 1) result in
          let aliasOnMatch := exec re_alias_on afterParen in
          let alias :=
            match aliasOnMatch with
            | Some am => group_or_empty afterParen am 1
            | None => []
            end in
          joinCondition <-
            match aliasOnMatch with
            | Some am => cond <- must (group afterParen am 2) ;; Ok (trim cond)
            | None => Ok []
            end ;;
          let placeholder := placeholderOf (rp_counter r) in
          let beforeJoin := substring 0 (index m) result in
          let joinKeyword :=
            replace_first re_trailing_paren [] (whole result m) in
          let result' :=
            match aliasOnMatch with
            | Some am =>
                let afterOnCond :=
                  substring_from (close + 1 + length (whole afterParen am))
                    result in
                beforeJoin ++ joinKeyword ++ lit " " ++ placeholder
                ++ lit " " ++ alias ++ lit " ON " ++ joinCondition
                ++ afterOnCond
            | None =>
                beforeJoin ++ joinKeyword ++ lit " " ++ placeholder
                ++ substring_from (close + 1) result
            end in
          replaceJoin_loop fuel'
            (mkReplaced result' (S (rp_counter r))
               (rp_subs r ++
                [(placeholder,
                  mkSubInfo body alias ctx_join (Some joinType)
                    (Some joinCondition))]))
      end
  end.

(** [replaceSubqueries]; each loop makes at most one pass per closing
    parenthesis of its text, and one more that finds nothing. *)
Definition replaceSubqueries (sql : str) : res Replaced :=
  r <- replaceFrom_loop (length sql + 1) (mkReplaced sql 0 []) ;;
  replaceJoin_loop (length (rp_result r) + 1) r.

(* ================================================================== *)
(** * The parser: fields *)

Definition kws (ks : list string) : regex := alts (map kw ks).

Definition re_aggregate : regex :=
  seqs [WordB;
        Group 1 (kws ["SUM"; "COUNT"; "AVG"; "MAX"; "MIN"; "GROUP_CONCAT";
                      "STRING_AGG"; "ARRAY_AGG"; "LISTAGG"; "COLLECT_LIST";
                      "COLLECT_SET"]%string);
        star sp; Chr (only c_lparen)].

Definition re_over : regex :=
  seqs [WordB; kw "OVER"; star sp; Chr (only c_lparen)].

Definition re_window : regex :=
  seqs [WordB;
        Group 1 (kws ["ROW_NUMBER"; "RANK"; "DENSE_RANK"; "NTILE"; "LAG";
                      "LEAD"; "FIRST_VALUE"; "LAST_VALUE"; "SUM"; "COUNT";
                      "AVG"; "MAX"; "MIN"]%string);
        star sp; Chr (only c_lparen); lazy_star (Chr any);
        Chr (only c_rparen); star sp; kw "OVER"].

Definition re_explode : regex :=
  seqs [WordB;
        Group 1 (alts [kw "UNNEST"; kw "EXPLODE";
                       seqs [kw "LATERAL"; plus sp; kw "FLATTEN"]]);
        star sp; Chr (only c_lparen)].

Definition re_concat : regex :=
  seqs [WordB; Group 1 (kws ["CONCAT"; "CONCAT_WS"]%string); star sp;
        Chr (only c_lparen)].

Definition re_bars : regex := tx "||".

Definition re_case : regex := seqs [WordB; kw "CASE"; WordB].

Definition re_cast : regex :=
  seqs [WordB;
        Group 1 (kws ["CAST"; "CONVERT"; "TO_DATE"; "TO_CHAR"; "TO_NUMBER";
                      "DATE_FORMAT"]%string);
        star sp; Chr (only c_lparen)].

Definition re_null : regex :=
  seqs [WordB; Group 1 (kws ["COALESCE"; "NVL"; "IFNULL"; "ISNULL"]%string);
        star sp; Chr (only c_lparen)].

Definition re_string_fn : regex :=
  seqs [WordB;
        Group 1 (kws ["SUBSTR"; "SUBSTRING"; "LEFT"; "RIGHT"; "TRIM";
                      "LTRIM"; "RTRIM"; "UPPER"; "LOWER"; "REPLACE";
                      "REGEXP"]%string);
        star sp; Chr (only c_lparen)].

Definition re_date_fn : regex :=
  seqs [Group 1 (kws ["DATEADD"; "DATEDIFF"; "DATE_ADD"; "DATE_SUB";
                      "EXTRACT"; "YEAR"; "MONTH"; "DAY"]%string);
        star sp; Chr (only c_lparen)].

Definition is_arith (c : ascii) : bool :=
  ch_eqb c "+"%char || ch_eqb c "-"%char || ch_eqb c "*"%char
  || ch_eqb c "/"%char.

Definition re_arith : regex := Chr is_arith.
Definition re_paren : regex := Chr (only c_lparen).

(** A group inside a template literal: an undefined one is spelled out. *)
Definition interpolate (g : option str) : str :=
  match g with Some x => x | None => lit "undefined" end.

(** [detectTransformation]; [m![1]] throws when the match failed. *)
Definition detectTransformation (expr : str) : res str :=
  let upper := toUpperCase expr in
  if test re_aggregate upper then
    match exec re_aggregate upper with
    | Some m => Ok (lit "聚合:" ++ interpolate (group upper m 1))
    | None => Throw
    end
  else if test re_over upper then
    match exec re_window upper with
    | Some fm => Ok (lit "开窗:" ++ interpolate (group upper fm 1))
    | None => Ok (lit "开窗函数")
    end
  else if test re_explode upper then Ok (lit "炸开(展开)")
  else if test re_concat upper || test re_bars expr then Ok (lit "拼接")
  else if test re_case upper then Ok (lit "条件判断(CASE)")
  else if test re_cast upper then Ok (lit "类型转换")
  else if test re_null upper then Ok (lit "空值处理")
  else if test re_string_fn upper then Ok (lit "字符串处理")
  else if test re_date_fn upper then Ok (lit "日期处理")
  else if str_eqb expr (lit "*") then Ok (lit "原始字段")
  else if test re_arith expr && negb (test re_paren expr)
  then Ok (lit "算术运算")
  else Ok (lit "原始字段").

(** The patterns of [parseField]: [^(.+?)\s+AS\s+(\w+)$],
    [^(.+?)\s+(\w+)$] (with [.] any character), the operator and keyword
    tests on the candidate expression, [^\w+\.\w+$], [\.(\w+)$] and
    [^\w+$]. *)
Definition re_as_alias : regex :=
  seqs [Bol; Group 1 (lazy_plus (Chr any)); plus sp; kw "AS"; plus sp;
        Group 2 (plus wd); Eol].

Definition re_implicit_alias : regex :=
  seqs [Bol; Group 1 (lazy_plus (Chr any)); plus sp; Group 2 (plus wd); Eol].

Definition re_operator : regex :=
  Chr (fun c => is_arith c || ch_eqb c "|"%char).

Definition re_function_word : regex :=
  seqs [WordB;
        Group 1 (kws ["CASE"; "WHEN"; "THEN"; "END"; "OVER"; "SUM"; "COUNT";
                      "AVG"; "MAX"; "MIN"; "CONCAT"; "COALESCE"; "NVL";
                      "ROW_NUMBER"; "RANK"; "COLLECT_LIST"; "CONCAT_WS";
                      "CAST"]%string);
        WordB].

Definition re_dotted : regex :=
  seqs [Bol; plus wd; Chr (only c_dot); plus wd; Eol].

Definition re_last_segment : regex :=
  seqs [Chr (only c_dot); Group 1 (plus wd); Eol].

Definition re_word_only : regex := seqs [Bol; plus wd; Eol].

Definition aliased (expression alias : str) : res FieldInfo :=
  t <- detectTransformation expression ;;
  Ok (mkFieldInfo expression alias expression
        (expression ++ lit " AS " ++ alias) t).

Definition parseField (fieldStr : str) : res FieldInfo :=
  let trimmed := trim fieldStr in
  let plainField :=
    transformation <- detectTransformation trimmed ;;
    let simpleAlias :=
      match exec re_last_segment trimmed with
      | Some dotMatch => group_or_empty trimmed dotMatch 1
      | None => if test re_word_only trimmed then trimmed else []
      end in
    Ok (mkFieldInfo trimmed simpleAlias trimmed trimmed transformation) in
  match exec re_as_alias trimmed with
  | Some asMatch =>
      expression <- must (group trimmed asMatch 1) ;;
      aliased (trim expression) (group_or_empty trimmed asMatch 2)
  | None =>
      match exec re_implicit_alias trimmed with
      | Some implicitMatch =>
          potentialExpr <- must (group trimmed implicitMatch 1) ;;
          let potentialExpr := trim potentialExpr in
          let potentialAlias := group_or_empty trimmed implicitMatch 2 in
          if endsWith [c_rparen] potentialExpr
             || test re_operator potentialExpr
             || test re_function_word potentialExpr
          then aliased potentialExpr potentialAlias
          else if test re_dotted potentialExpr
          then aliased potentialExpr potentialAlias
          else plainField
      | None => plainField
      end
  end.

(** [splitTopLevel] *)
Fixpoint splitTopLevel_loop (s : str) (delimiter : ascii) (depth : Z)
  (current : str) (result : list str) : list str :=
  match s with
  | [] => if truthy (trim current) then result ++ [current] else result
  | c :: t =>
      let depth := if ch_eqb c c_lparen then (depth + 1)%Z else depth in
      let depth := if ch_eqb c c_rparen then (depth - 1)%Z else depth in
      if ch_eqb c delimiter && (depth =? 0)%Z
      then splitTopLevel_loop t delimiter depth [] (result ++ [current])
      else splitTopLevel_loop t delimiter depth (current ++ [c]) result
  end.

Definition splitTopLevel (s : str) (delimiter : ascii) : list str :=
  splitTopLevel_loop s delimiter 0%Z [] [].

(** [s.split(',')] *)
Fixpoint split_comma_loop (s : str) (current : str) : list str :=
  match s with
  | [] => [current]
  | c :: t =>
      if ch_eqb c c_comma then current :: split_comma_loop t []
      else split_comma_loop t (current ++ [c])
  end.

Definition split_comma (s : str) : list str := split_comma_loop s [].

(** [s.split(',').map(s => s.trim()).filter(Boolean)] *)
Definition terms (s : str) : list str :=
  filter truthy (map trim (split_comma s)).

(* ================================================================== *)
(** * The parser: the flat SELECT *)

(** [parseTableName] *)
Definition parseTableName (raw : str) : str * str * str :=
  match indexOf_ch c_dot raw with
  | Some dotIndex =>
      (raw, substring 0 dotIndex raw, substring_from (dotIndex + 1) raw)
  | None => (raw, [], raw)
  end.

Definition invalidAliases : list str :=
  map lit ["WHERE"; "GROUP"; "HAVING"; "ORDER"; "LIMIT"; "UNION"; "LEFT";
           "RIGHT"; "INNER"; "FULL"; "CROSS"; "JOIN"; "ON"; "LATERAL";
           "VIEW"; "EXPLODE"; "UNNEST"]%string.

Definition isKnownName (knownNames : list str) (a b : str) : bool :=
  existsb (matches2 a b) knownNames.

(** [createTableRef], always called with [knownNames]. *)
Definition createTableRef (rawName alias : str) (knownNames : list str)
  : TableRef :=
  let cleanedRawName := cleanName rawName in
  let '(fullName, schema, tableName) := parseTableName cleanedRawName in
  let finalAlias :=
    if truthy alias && negb (mem (toUpperCase alias) invalidAliases)
    then alias else fullName in
  let type :=
    if isKnownName knownNames (getMatchName tableName) (getMatchName fullName)
    then None else Some (classifyTable fullName) in
  mkTableRef fullName schema tableName finalAlias type.

(** [/GROUP\s+BY|JOIN|WHERE|HAVING|\(SELECT/i] *)
Definition re_complex : regex :=
  alts [seqs [kw "GROUP"; plus sp; kw "BY"]; kw "JOIN"; kw "WHERE";
        kw "HAVING"; seqs [Chr (only c_lparen); kw "SELECT"]].

Definition isComplex (unionParts : list str) : bool :=
  existsb (test re_complex) unionParts.

(** [FROM\s+], [TABLE_NAME_PATTERN] as group 1 and the optional alias
    [(\s+(?:AS\s+)?(\w+))?] as groups 2 and 3. *)
Definition opt_alias (outer inner : nat) : regex :=
  opt (Group outer (seqs [plus sp; opt (seqs [kw "AS"; plus sp]);
                          Group inner (plus wd)])).

Definition fromRegex : regex :=
  seqs [kw "FROM"; plus sp; table_name 1; opt_alias 2 3].

(** [/^(WHERE|GROUP|HAVING|ORDER|LIMIT|UNION|LEFT|RIGHT|INNER|FULL|CROSS|JOIN)$/i] *)
Definition re_keyword_alias : regex :=
  seqs [Bol;
        Group 1 (kws ["WHERE"; "GROUP"; "HAVING"; "ORDER"; "LIMIT"; "UNION";
                      "LEFT"; "RIGHT"; "INNER"; "FULL"; "CROSS";
                      "JOIN"]%string);
        Eol].

(** [/SELECT\s+(DISTINCT\s+)?([\s\S]*?)\s+FROM\s/i] *)
Definition re_select_list : regex :=
  seqs [kw "SELECT"; plus sp; opt (Group 1 (seqs [kw "DISTINCT"; plus sp]));
        Group 2 (lazy_star (Chr any)); plus sp; kw "FROM"; sp].

(** The JOIN pattern: the optional kind as group 1, the table as group 2,
    the optional alias as groups 3 and 4, [\s+ON\s+], the lazy condition
    as group 5 and the lookahead of [clause_ahead]. *)
Definition joinRegex : regex :=
  seqs [opt (Group 1 (seqs [join_kinds; plus sp])); kw "JOIN"; plus sp;
        table_name 2; opt_alias 3 4; plus sp; kw "ON"; plus sp;
        Group 5 (lazy_star (Chr any)); clause_ahead].

Definition ahead (ks : list string) : regex :=
  Look true (alts (map (fun k => seqs [kw k; sp]) ks ++ [Eol])).

Definition re_where : regex :=
  seqs [kw "WHERE"; plus sp; Group 1 (lazy_star (Chr any));
        ahead ["GROUP"; "HAVING"; "ORDER"; "LIMIT"; "UNION"]%string].

Definition re_having : regex :=
  seqs [kw "HAVING"; plus sp; Group 1 (lazy_star (Chr any));
        ahead ["ORDER"; "LIMIT"; "UNION"]%string].

Definition re_group_by : regex :=
  seqs [kw "GROUP"; plus sp; kw "BY"; plus sp; Group 1 (lazy_star (Chr any));
        ahead ["HAVING"; "ORDER"; "LIMIT"; "UNION"]%string].

Definition re_order_by : regex :=
  seqs [kw "ORDER"; plus sp; kw "BY"; plus sp; Group 1 (lazy_star (Chr any));
        ahead ["LIMIT"; "UNION"]%string].

(** [/\s+$/] *)
Definition re_trailing_space : regex := seqs [plus sp; Eol].

Definition placeholderPrefix : str := lit "__SUBQ_".

(** The tables and dependencies a parse has collected so far. *)
Record Refs : Type := mkRefs {
  rf_tables : list TableRef;
  rf_dependsOn : list str
}.

(** What each of the three extraction sites does with a table
    reference: add it unless one of that name is there, and record the
    known name it resolves to. *)
Definition addTable (tableRef : TableRef) (knownNames : list str)
  (r : Refs) : Refs :=
  let tables :=
    if existsb (fun t => str_eqb (tr_name t) (tr_name tableRef)) (rf_tables r)
    then rf_tables r else rf_tables r ++ [tableRef] in
  let lookupName := getMatchName (tr_tableName tableRef) in
  let lookupFull := getMatchName (tr_name tableRef) in
  match findKnown (matches2 lookupName lookupFull) knownNames with
  | Some depName =>
      mkRefs tables
        (if mem depName (rf_dependsOn r) then rf_dependsOn r
         else rf_dependsOn r ++ [depName])
  | None => mkRefs tables (rf_dependsOn r)
  end.

Definition dropKeywordAlias (alias : str) : str :=
  if test re_keyword_alias alias then [] else alias.

(** [[...new Set(xs)]] *)
Definition dedupe (xs : list str) : list str :=
  fold_left (fun acc x => set_add x acc) xs [].

Definition simpleUnionBranch (knownNames : list str) (r : Refs)
  (part : str) : res Refs :=
  match exec fromRegex part with
  | Some fromMatch =>
      rawTableName <- must (group part fromMatch 1) ;;
      if startsWith placeholderPrefix rawTableName then Ok r
      else
        let alias := dropKeywordAlias (group_or_empty part fromMatch 3) in
        Ok (addTable (createTableRef rawTableName alias knownNames)
              knownNames r)
  | None => Ok r
  end.

Definition joinMatchStep (normalized : str) (knownNames : list str)
  (st : Refs * list JoinInfo) (joinMatch : rmatch)
  : res (Refs * list JoinInfo) :=
  let '(r, joins) := st in
  let joinType :=
    trim (or_else (group_or_empty normalized joinMatch 1) (lit "INNER "))
    ++ lit " JOIN" in
  rawTableName <- must (group normalized joinMatch 2) ;;
  if startsWith placeholderPrefix rawTableName then Ok st
  else
    let alias := dropKeywordAlias (group_or_empty normalized joinMatch 4) in
    condition <- must (group normalized joinMatch 5) ;;
    let condition := replace_first re_trailing_space [] (trim condition) in
    let tableRef :=
      createTableRef rawTableName (or_else alias rawTableName) knownNames in
    Ok (addTable tableRef knownNames r,
        joins ++ [mkJoinInfo joinType tableRef condition]).

Fixpoint parseFields (fs : list str) : res (list FieldInfo) :=
  match fs with
  | [] => Ok []
  | f :: fs' =>
      let trimmed := trim f in
      if truthy trimmed then
        x <- parseField trimmed ;;
        xs <- parseFields fs' ;;
        Ok (x :: xs)
      else parseFields fs'
  end.

(** [s.match(r)] and, on a match, [m[1]] used as a string. *)
Definition capture1 (r : regex) (s : str) : res (option str) :=
  match exec r s with
  | Some m => g <- must (group s m 1) ;; Ok (Some g)
  | None => Ok None
  end.

(** The FROM table of a query that is not a union. *)
Definition fromTableStep (normalized : str) (knownNames : list str)
  (refs : Refs) : res Refs :=
  match exec fromRegex normalized with
  | Some fromMatch =>
      rawTableName <- must (group normalized fromMatch 1) ;;
      if negb (startsWith placeholderPrefix rawTableName) then
        let alias :=
          dropKeywordAlias (group_or_empty normalized fromMatch 3) in
        Ok (addTable
              (createTableRef rawTableName (or_else alias rawTableName)
                 knownNames)
              knownNames refs)
      else Ok refs
  | None => Ok refs
  end.

(** [parseFlatSelect] *)
Definition parseFlatSelect (sql id name : str) (isCTE isSubQuery : bool)
  (knownNames : list str) : res SubQuery :=
  let normalized := normalizeWhitespace sql in
  unionInfo <- detectUnionAll normalized knownNames ;;
  '(unionParts, _) <- splitByUnion normalized ;;
  let dependsOn :=
    match unionInfo with
    | Some u =>
        if isComplex unionParts then []
        else
          fold_left
            (fun dependsOn src =>
               match findKnown
                       (fun k => str_eqb (getMatchName k) (getMatchName src))
                       knownNames with
               | Some knownMatch =>
                   if mem knownMatch dependsOn then dependsOn
                   else dependsOn ++ [knownMatch]
               | None => dependsOn
               end)
            (ui_sources u) []
    | None => []
    end in
  let refs := mkRefs [] dependsOn in
  refs <-
    (if 1 <? length unionParts then
       if isComplex unionParts then Ok refs
       else fold_res (simpleUnionBranch knownNames) unionParts refs
     else Ok refs) ;;
  fields <-
    match exec re_select_list normalized with
    | Some selectMatch =>
        list <- must (group normalized selectMatch 2) ;;
        parseFields (splitTopLevel list c_comma)
    | None => Ok []
    end ;;
  refs <-
    (if length unionParts <=? 1 then fromTableStep normalized knownNames refs
     else Ok refs) ;;
  joinMatches <- exec_all joinRegex normalized ;;
  '(refs, joins) <-
    fold_res (joinMatchStep normalized knownNames) joinMatches (refs, []) ;;
  whereCond <- capture1 re_where normalized ;;
  havingCond <- capture1 re_having normalized ;;
  let filters :=
    match whereCond with
    | Some c => [mkFilterInfo (lit "WHERE") (trim c)]
    | None => []
    end ++
    match havingCond with
    | Some c => [mkFilterInfo (lit "HAVING") (trim c)]
    | None => []
    end in
  groupByList <- capture1 re_group_by normalized ;;
  let groupBy := match groupByList with Some c => terms c | None => [] end in
  orderByList <- capture1 re_order_by normalized ;;
  let orderBy := match orderByList with Some c => terms c | None => [] end in
  Ok (mkSubQuery id name isCTE isSubQuery None (rf_tables refs) fields joins
        filters groupBy orderBy (dedupe (rf_dependsOn refs)) unionInfo).

(* ================================================================== *)
(** * The parser: recursive processing *)

(** The objects [processSQL] shares with its callers and mutates:
    [subQueryCollector], [subQueryCounter] and [processedBodies]. *)
Record Shared : Type := mkShared {
  subQueryCollector : list SubQuery;
  count : nat;
  processedBodies : list (str * str)        (* Map, in insertion order *)
}.

(** [Map.get] *)
Fixpoint map_get (k : str) (m : list (str * str)) : option str :=
  match m with
  | [] => None
  | (k', v) :: m' => if str_eqb k' k then Some v else map_get k m'
  end.

Definition subqueryLabel : str := lit "子查询".
Definition branchLabel : str := lit "分支".

Definition subIdOf (n : nat) : str := lit "subquery_" ++ of_nat n.

Definition branchIdOf (id : str) (i : nat) : str :=
  id ++ lit "_union_" ++ of_nat i.

Definition branchNameOf (name : str) (i : nat) : str :=
  name ++ lit " (" ++ branchLabel ++ lit " " ++ of_nat (i + 1) ++ lit ")".

(** [xs.findIndex(p)] followed by [xs.splice(i, 1)] when it is found. *)
Fixpoint remove_first {A : Type} (p : A -> bool) (xs : list A) : list A :=
  match xs with
  | [] => []
  | x :: xs' => if p x then xs' else x :: remove_first p xs'
  end.

(** The fix-up of one placeholder on the flat query.  A body that is
    missing from [processedBodies] would make [subId] undefined, which
    [createTableRef] cannot take. *)
Definition fixupStep (processed : list (str * str)) (knownNames : list str)
  (flatQuery : SubQuery) (entry : str * SubInfo) : res SubQuery :=
  let '(placeholder, info) := entry in
  let bodyKey := normalizeWhitespace (si_body info) in
  match map_get bodyKey processed with
  | None => Throw
  | Some subId =>
      let tables :=
        remove_first
          (fun t => str_eqb (tr_name t) placeholder
                    || str_eqb (tr_tableName t) placeholder)
          (tables flatQuery) in
      let joins :=
        remove_first
          (fun j => str_eqb (tr_name (ji_table j)) placeholder
                    || str_eqb (tr_tableName (ji_table j)) placeholder)
          (joins flatQuery) in
      let dependsOn :=
        filter (fun d => negb (str_eqb d (toLowerCase placeholder)))
               (dependsOn flatQuery) in
      let dependsOn :=
        if mem subId dependsOn then dependsOn else dependsOn ++ [subId] in
      let subQueryRef :=
        createTableRef subId (or_else (si_alias info) subId) knownNames in
      let pushRef (ts : list TableRef) :=
        if existsb (fun t => str_eqb (tr_name t) (tr_name subQueryRef)) ts
        then ts else ts ++ [subQueryRef] in
      let asJoin :=
        match si_context info, si_joinType info, si_joinCondition info with
        | ctx_join, Some joinType, Some joinCondition =>
            if truthy joinType && truthy joinCondition
            then Some (joinType, joinCondition) else None
        | _, _, _ => None
        end in
      let '(tables, joins) :=
        match asJoin with
        | Some (joinType, joinCondition) =>
            (pushRef tables,
             joins ++ [mkJoinInfo joinType subQueryRef joinCondition])
        | None =>
            match si_context info with
            | ctx_from => (pushRef tables, joins)
            | ctx_join => (tables, joins)
            end
        end in
      Ok (mkSubQuery (id flatQuery) (name flatQuery) (isCTE flatQuery)
            (isSubQuery flatQuery) (isTempTable flatQuery) tables
            (fields flatQuery) joins (filters flatQuery) (groupBy flatQuery)
            (orderBy flatQuery) dependsOn (unionInfo flatQuery))
  end.

Fixpoint fixup (processed : list (str * str)) (knownNames : list str)
  (flatQuery : SubQuery) (subs : list (str * SubInfo)) : res SubQuery :=
  match subs with
  | [] => Ok flatQuery
  | entry :: subs' =>
      q <- fixupStep processed knownNames flatQuery entry ;;
      fixup processed knownNames q subs'
  end.

(** The type of [processSQL] once the bound of the recursion is fixed. *)
Definition Process : Type :=
  str -> str -> str -> bool -> bool -> list str -> Shared
  -> res (SubQuery * Shared).

(** The first loop of [processSQL], over the extracted subqueries: a
    body that [processedBodies] knows keeps its id, a new one is
    processed by [rec], collected and registered; either way the id joins
    [knownNames]. *)
Fixpoint eachSub (rec : Process) (subs : list (str * SubInfo))
  (knownNames : list str) (sh : Shared) : res (list str * Shared) :=
  match subs with
  | [] => Ok (knownNames, sh)
  | (placeholder, info) :: subs' =>
      let bodyKey := normalizeWhitespace (si_body info) in
      '(subId, sh) <-
        match defined (map_get bodyKey (processedBodies sh)) with
        | Some existingId => Ok (existingId, sh)
        | None =>
            let subId := subIdOf (count sh) in
            let sh :=
              mkShared (subQueryCollector sh) (S (count sh))
                (processedBodies sh) in
            let subName :=
              if truthy (si_alias info)
              then subqueryLabel ++ lit " (" ++ si_alias info ++ lit ")"
              else subqueryLabel ++ lit "_" ++ of_nat (count sh) in
            '(subQuery, sh) <-
              rec (si_body info) subId subName false true knownNames sh ;;
            Ok (subId,
                mkShared (subQueryCollector sh ++ [subQuery]) (count sh)
                  (map_set bodyKey subId (processedBodies sh)))
        end ;;
      eachSub rec subs'
        (if mem subId knownNames then knownNames else knownNames ++ [subId])
        sh
  end.

(** The loop over the branches of a complex union; [i] is the index of
    the head of [parts]. *)
Fixpoint unionBranches (rec : Process) (id name : str)
  (knownNames : list str) (parts : list str) (i : nat)
  (unionSourceIds : list str) (sh : Shared) : res (list str * Shared) :=
  match parts with
  | [] => Ok (unionSourceIds, sh)
  | part :: parts' =>
      let branchId := branchIdOf id i in
      let branchName := branchNameOf name i in
      '(branchQuery, sh) <-
        rec part branchId branchName false true knownNames sh ;;
      unionBranches rec id name knownNames parts' (S i)
        (unionSourceIds ++ [branchId])
        (mkShared (subQueryCollector sh ++ [branchQuery]) (count sh)
           (processedBodies sh))
  end.

(** [processSQL].  [fuel] bounds the depth of the recursion.  The array
    [knownNames] is always a fresh copy at the call, so the pushes on it
    stay inside the call. *)
Fixpoint processSQL (fuel : nat) (sql id name : str)
  (isCTE isSubQuery : bool) (knownNames : list str) (sh : Shared)
  : res (SubQuery * Shared) :=
  match fuel with
  | 0 => OutOfFuel
  | S fuel' =>
      let normalized := normalizeWhitespace sql in
      r <- replaceSubqueries normalized ;;
      let subs := rp_subs r in
      '(knownNames, sh) <- eachSub (processSQL fuel') subs knownNames sh ;;
      '(unionParts, unionType) <- splitByUnion normalized ;;
      let isComplexUnion :=
        (1 <? length unionParts) && isComplex unionParts in
      match isComplexUnion, unionType with
      | true, Some unionType =>
          '(unionSourceIds, sh) <-
            unionBranches (processSQL fuel') id name knownNames unionParts
              0 [] sh ;;
          Ok (mkSubQuery id name isCTE isSubQuery None [] [] [] [] [] []
                unionSourceIds
                (Some (mkUnionInfo unionType unionSourceIds)),
              sh)
      | _, _ =>
          flatQuery <-
            parseFlatSelect (rp_result r) id name isCTE isSubQuery
              knownNames ;;
          q <- fixup (processedBodies sh) knownNames flatQuery subs ;;
          Ok (q, sh)
      end
  end.

(* ================================================================== *)
(** * The parser: entry point *)

Definition with_temp_id (parsed : SubQuery) (newId : str) : SubQuery :=
  mkSubQuery newId (name parsed) (isCTE parsed) (isSubQuery parsed)
    (Some true) (tables parsed) (fields parsed) (joins parsed)
    (filters parsed) (groupBy parsed) (orderBy parsed) (dependsOn parsed)
    (unionInfo parsed).

Definition mainLabel : str := lit "最终查询".

(** The loop over the temp tables; [i] is the index of the head of
    [ts]. *)
Fixpoint processTempTables (fuel : nat) (tempTableNames : list str)
  (ts : list Named) (i : nat) (ctes : list SubQuery) (sh : Shared)
  : res (list SubQuery * Shared) :=
  match ts with
  | [] => Ok (ctes, sh)
  | t :: ts' =>
      let knownForTemp := firstn i tempTableNames in
      '(parsed, sh) <-
        processSQL fuel (nm_body t) (lit "temp_" ++ nm_name t) (nm_name t)
          false false knownForTemp sh ;;
      processTempTables fuel tempTableNames ts' (S i)
        (ctes ++ [with_temp_id parsed (lit "temp_node_" ++ nm_name t)]) sh
  end.

(** The loop over the CTEs. *)
Fixpoint processCTEs (fuel : nat) (tempTableNames cteNames : list str)
  (cs : list Named) (i : nat) (ctes : list SubQuery) (sh : Shared)
  : res (list SubQuery * Shared) :=
  match cs with
  | [] => Ok (ctes, sh)
  | cte :: cs' =>
      let knownForCTE := tempTableNames ++ firstn i cteNames in
      '(parsed, sh) <-
        processSQL fuel (nm_body cte) (lit "cte_" ++ of_nat i) (nm_name cte)
          true false knownForCTE sh ;;
      processCTEs fuel tempTableNames cteNames cs' (S i) (ctes ++ [parsed]) sh
  end.

(** [parseSQL] *)
Definition parseSQL (fuel : nat) (sql : str) : res ParsedSQL :=
  let cleaned := removeComments sql in
  '(tempTables, sqlAfterTemp) <- preprocessTempTables cleaned ;;
  let normalized := normalizeWhitespace sqlAfterTemp in
  '(rawCTEs, remainingSQL) <- extractCTEs normalized ;;
  let tempTableNames := map (fun t => toLowerCase (nm_name t)) tempTables in
  let cteNames := map (fun c => toLowerCase (nm_name c)) rawCTEs in
  '(ctes, sh) <-
    processTempTables fuel tempTableNames tempTables 0 []
      (mkShared [] 0 []) ;;
  '(ctes, sh) <-
    processCTEs fuel tempTableNames cteNames rawCTEs 0 ctes sh ;;
  let allKnown :=
    tempTableNames ++ cteNames
    ++ map (fun sq => toLowerCase (id sq)) (subQueryCollector sh) in
  let finalSQL :=
    if truthy (trim remainingSQL) then remainingSQL
    else lit "SELECT * FROM "
         ++ or_else (last tempTableNames []) (lit "dual") in
  '(mainQuery, sh) <-
    processSQL fuel finalSQL (lit "main") mainLabel false false allKnown sh ;;
  let subQueries := subQueryCollector sh in
  Ok (mkParsedSQL ctes mainQuery subQueries
        (ctes ++ subQueries ++ [mainQuery])).

(* ================================================================== *)
(** * Predicates of the statements about the graph *)

Definition keyOf (e : Edge) : str := edgeKey (source e) (target e).

Definition endsOf (e : Edge) : str * str := (source e, target e).

(** Every edge has its key in [addedEdges], and no key occurs twice. *)
Definition edges_keyed (a : Acc) : Prop :=
  NoDup (map keyOf (edges a))
  /\ forall e, In e (edges a) -> In (keyOf e) (addedEdges a).

Definition keyed1 (st : Acc * list str) : Prop := edges_keyed (fst st).

(** An identifier without the character [>], so that it cannot hold the
    arrow of an edge key. *)
Definition c_gt : ascii := ">"%char.

Definition no_gt (s : str) : Prop :=
  forallb (fun c => negb (ch_eqb c c_gt)) s = true.

(** Every key of [addedEdges] is the key of an edge, and the targets of
    the edges are free of [>]. *)
Definition edges_sound (a : Acc) : Prop :=
  (forall k, In k (addedEdges a) -> exists e, In e (edges a) /\ keyOf e = k)
  /\ (forall e, In e (edges a) -> no_gt (target e)).

(** The unit [t] has an incoming edge. *)
Definition has_in (es : list Edge) (t : str) : Prop :=
  exists e, In e es /\ target e = t.

(** What an insertion of an edge into [t] does: the bookkeeping stays
    sound, no edge is lost, and [t] has an incoming edge afterwards,
    whether the edge was added or its key was already there. *)
Definition inserts (t : str) (a a' : Acc) : Prop :=
  edges_sound a' /\ incl (edges a) (edges a') /\ has_in (edges a') t.

(** The ids of the CTEs, temp tables and subqueries of a document. *)
Definition unit_ids (parsed : ParsedSQL) : list str :=
  map id (ctes parsed ++ subQueries parsed).

(** While the joins, the union sources and the dependencies of [sq] are
    being handled, a name is marked as handled only after an edge into
    the unit exists. *)
Definition marked_after_edge (sq : SubQuery) (st : Acc * list str) : Prop :=
  edges_sound (fst st)
  /\ (snd st = [] \/ has_in (edges (fst st)) (id sq)).

Definition keeps_edges (st st' : Acc * list str) : Prop :=
  incl (edges (fst st)) (edges (fst st')).

Definition sound1 (st : Acc * list str) : Prop := edges_sound (fst st).

(** A document with one CTE over a physical table and a main query over
    the CTE, as the parser builds it for
    [WITH c AS (SELECT x FROM t1) SELECT x FROM c]. *)
Definition example_cte : SubQuery :=
  mkSubQuery (lit "cte_0") (lit "c") true false None
    [mkTableRef (lit "t1") [] (lit "t1") (lit "t1") (Some dimension)]
    [mkFieldInfo (lit "x") (lit "x") (lit "x") (lit "x") (lit "原始字段")]
    [] [] [] [] [] None.

Definition example_main : SubQuery :=
  mkSubQuery (lit "main") (lit "最终查询") false false None
    [mkTableRef (lit "c") [] (lit "c") (lit "c") None]
    [mkFieldInfo (lit "x") (lit "x") (lit "x") (lit "x") (lit "原始字段")]
    [] [] [] [] [lit "c"] None.

Definition example_parsed : ParsedSQL :=
  mkParsedSQL [example_cte] example_main [] [example_cte; example_main].

Definition example_script : str :=
  lit "WITH c AS (SELECT x FROM t1) SELECT x FROM c".

(* ================================================================== *)
(** * Scripts used as examples *)

(** A main query over one subquery. *)
Definition nested_script : str :=
  lit "SELECT a FROM (SELECT a FROM t) x".

(** A temp table that is declared twice. *)
Definition redeclared_temp_script : str :=
  lit "CREATE TABLE t AS SELECT 1 FROM a; CREATE TABLE t AS SELECT 2 FROM b".

(** The same subquery, with a subquery of its own, once after FROM and
    once after JOIN. *)
Definition twice_nested_script : str :=
  lit "SELECT * FROM (SELECT * FROM (SELECT 1 FROM t) x) a JOIN (SELECT * FROM (SELECT 1 FROM t) x) b ON a.k=b.k".

(** Three temp tables: the second is a complex union, and the quoted
    names of the second and the third hold the arrow of an edge key. *)
Definition key_clash_script : str :=
  lit "CREATE TABLE z AS SELECT 1 FROM a; CREATE TABLE `node_z->temp_node_y` AS SELECT 1 FROM b WHERE 1=1 UNION SELECT 2 FROM c; CREATE TABLE `y_union_0->temp_node_node_z->temp_node_y` AS SELECT 1 FROM z".

(** A union with a filtered branch. *)
Definition complex_union_script : str :=
  lit "SELECT a FROM t WHERE x = 1 UNION SELECT b FROM u".

(** Malformed scripts: an open parenthesis, a JOIN that stops short, an
    open quote. *)
Definition malformed_scripts : list str :=
  [lit "SELECT a FROM (SELECT b FROM t";
   lit "SELECT a FROM t LEFT JOIN";
   lit "SELECT 'abc FROM t; SELECT 1"].

(* ================================================================== *)
(** * Predicates of the statements about the parser *)

(** The unit returned carries the id, the name and the flags it was
    asked for. *)
Definition headed (id0 name0 : str) (c s : bool) (q : SubQuery) : Prop :=
  id q = id0 /\ name q = name0 /\ isCTE q = c /\ isSubQuery q = s.

(** A step of the parse only adds to the collector. *)
Definition collects (rec : Process) : Prop :=
  forall sql id0 name0 c s known sh q sh',
    rec sql id0 name0 c s known sh = Ok (q, sh') ->
    incl (subQueryCollector sh) (subQueryCollector sh').


(* ================================================================== *)
(** * Predicates of the statements about the matcher *)

(** [st'] is [st] moved on by [k] code units. *)
Definition adv (k : nat) (st st' : state) : Prop :=
  pos st' = pos st + k
  /\ rest st' = skipn k (rest st)
  /\ k <= length (rest st).

(** The captures lie between two positions. *)
Definition caps_within (lo hi : nat) (c : caps) : Prop :=
  forall g a b, In (g, (a, b)) c -> lo <= a /\ a <= b /\ b <= hi.

(** What is known of a match of [r] in [s] searched from [from]. *)
Definition match_of (r : regex) (from : nat) (s : str) (m : rmatch) : Prop :=
  from <= index m
  /\ index m + min_len r <= stop m
  /\ stop m <= length s
  /\ caps_within (index m) (stop m) (groups m).

(** A pattern that matches at the start of the subject only. *)
Definition anchored (r : regex) : Prop :=
  forall st c, prev st <> None -> run r st c = [].

(** The captures a match adds lie inside the match. *)
Definition adds_within (st st' : state) (c c' : caps) : Prop :=
  exists new, c' = new ++ c /\ caps_within (pos st) (pos st') new.


(* ================================================================== *)
(** * The measure of the recursion *)

(** The number of closing parentheses of a text, and of its first [n]
    code units. *)
Definition closers (s : str) : nat :=
  length (filter (fun c => ch_eqb c c_rparen) s).

Definition closers_upto (s : str) (n : nat) : nat := closers (firstn n s).

Definition sum_of (f : str -> nat) (xs : list str) : nat :=
  list_sum (map f xs).

(** What the loop of [splitByUnion] has put aside is made of the text
    read so far, and every part put aside stands for at least one more
    code unit of it. *)
Definition split_inv (sql : str) (i : nat) (current : str)
  (parts : list str) : Prop :=
  i <= length sql
  /\ closers current + sum_of closers parts <= closers_upto sql i
  /\ length current + sum_of (@length ascii) parts + length parts <= i.


(** The captures have their keys among [ks]. *)
Definition keys_in (ks : list nat) (c : caps) : Prop :=
  forall g a b, In (g, (a, b)) c -> In g ks.

(* ================================================================== *)
(** * Predicates of the statements about the recursion *)

(** [rec] keeps the bodies [processedBodies] knows. *)
Definition keeps_keys (rec : Process) : Prop :=
  forall sql id0 name0 c s known sh q sh',
    rec sql id0 name0 c s known sh = Ok (q, sh') ->
    forall k, map_get k (processedBodies sh) <> None ->
              map_get k (processedBodies sh') <> None.

(** [rec] returns on the text [body], whatever the other arguments. *)
Definition total_on (rec : Process) (body : str) : Prop :=
  forall id0 name0 c s known sh,
    exists x, rec body id0 name0 c s known sh = Ok x.

(** Whatever [rec1] returns, [rec2] returns too. *)
Definition extends (rec1 rec2 : Process) : Prop :=
  forall sql id0 name0 c s known sh x,
    rec1 sql id0 name0 c s known sh = Ok x ->
    rec2 sql id0 name0 c s known sh = Ok x.

(** The bodies of the subqueries of a list of records. *)
Definition bodyKeyOf (e : str * SubInfo) : str :=
  normalizeWhitespace (si_body (snd e)).

(** A JOIN subquery that holds four FROM subqueries. *)
Definition long_body_script : str :=
  lit "JOIN(SELECT 1 FROM(SELECT 1)a FROM(SELECT 1)a FROM(SELECT 1)a FROM(SELECT 1)a)".

(** The texts [parseSQL] hands to [processSQL]. *)
Definition finalSQLOf (remainingSQL : str) (tempTableNames : list str) : str :=
  if truthy (trim remainingSQL) then remainingSQL
  else lit "SELECT * FROM " ++ or_else (last tempTableNames []) (lit "dual").

(* ================================================================== *)
(** * Predicates of the statements about parsed documents *)

(** A unit other than the main query: flagged, with an id that is free
    of [>] and longer than [main]. *)
Definition unit_ok (q : SubQuery) : Prop :=
  flagged q = true /\ no_gt (id q) /\ 4 < length (id q).

(** [rec] returns the unit it was asked for. *)
Definition heads (rec : Process) : Prop :=
  forall sql id0 name0 c s known sh q sh',
    rec sql id0 name0 c s known sh = Ok (q, sh') -> headed id0 name0 c s q.

(** Under an id that is free of [>], [rec] collects such units only. *)
Definition collects_ok (rec : Process) : Prop :=
  forall sql id0 name0 c s known sh q sh',
    rec sql id0 name0 c s known sh = Ok (q, sh') ->
    no_gt id0 ->
    Forall unit_ok (subQueryCollector sh) ->
    Forall unit_ok (subQueryCollector sh').

(** The names of the temp tables of a script. *)
Definition tempNamesOf (sql : str) : list str :=
  match preprocessTempTables (removeComments sql) with
  | Ok (tempTables, _) => map nm_name tempTables
  | _ => []
  end.

(** The groups every match of [r] sets. *)
Fixpoint defines (r : regex) : list nat :=
  match r with
  | Seq r1 r2 => defines r1 ++ defines r2
  | Alt r1 r2 =>
      filter (fun k => existsb (Nat.eqb k) (defines r2)) (defines r1)
  | Group k r0 => k :: defines r0
  | _ => []
  end.

(** A CTE over a subquery. *)
Definition cte_subquery_script : str :=
  lit "WITH c AS (SELECT x FROM (SELECT x FROM t) s) SELECT x FROM c".

(* ================================================================== *)
(** * Predicates of the statements about the helpers of the parser *)

(** The number of opening parentheses of a text. *)
Definition openers (s : str) : nat :=
  length (filter (fun c => ch_eqb c c_lparen) s).

(** The text from [start] up to and with index [j] ends in a closing
    parenthesis and has as many opening as closing parentheses. *)
Definition balanced_at (s : str) (start j : nat) : Prop :=
  nth_error s j = Some c_rparen
  /\ openers (substring start (S j) s) = closers (substring start (S j) s).

(** A piece of a split: not empty, and with no white space around it. *)
Definition trimmed (s : str) : Prop := s <> [] /\ trim s = s.

(** The marks of a fact table. *)
Definition factMarks : list str := map lit ["app"; "dm"; "dwd"; "dws"]%string.

(** The length of the run of characters passing [p] a text starts
    with. *)
Fixpoint span (p : ascii -> bool) (s : str) : nat :=
  match s with
  | c :: t => if p c then S (span p t) else 0
  | [] => 0
  end.

(** A text in which every run of characters passing [p] is replaced by
    [rep]; [seen] says that the run being read has been replaced
    already. *)
Fixpoint squeeze (p : ascii -> bool) (rep : str) (seen : bool) (s : str)
  : str :=
  match s with
  | [] => []
  | c :: t =>
      if p c then
        if seen then squeeze p rep true t else rep ++ squeeze p rep true t
      else c :: squeeze p rep false t
  end.

(** White space occurs in the text only as a space character between
    two characters that are not white space, or at either end. *)
Fixpoint single_spaced (s : str) : bool :=
  match s with
  | [] => true
  | c :: t =>
      (if is_space c
       then ch_eqb c " "%char
            && match t with [] => true | d :: _ => negb (is_space d) end
       else true)
      && single_spaced t
  end.

(** The characters of a text that are not white space, in order. *)
Definition solid (s : str) : str := filter (fun c => negb (is_space c)) s.

(** The text starts with characters that pass the tests [ps], one
    each. *)
Fixpoint startsWithP (ps : list (ascii -> bool)) (t : str) : bool :=
  match ps, t with
  | [], _ => true
  | q :: ps', x :: t' => q x && startsWithP ps' t'
  | _ :: _, [] => false
  end.

(** Some text from a position of [t] on starts so. *)
Fixpoint includesP (ps : list (ascii -> bool)) (t : str) : bool :=
  startsWithP ps t ||
  match t with
  | [] => false
  | _ :: t' => includesP ps t'
  end.

(* ================================================================== *)
(** * Predicates of the statements about [replaceSubqueries] *)

(** What holds of a recorded subquery: its body is a trimmed SELECT; one
    taken after FROM has no join type and no condition, one taken after
    JOIN has a join type that ends in [JOIN] and a trimmed condition. *)
Definition entry_ok (e : str * SubInfo) : Prop :=
  let info := snd e in
  test re_select_head (si_body info) = true
  /\ trim (si_body info) = si_body info
  /\ match si_context info with
     | ctx_from => si_joinType info = None /\ si_joinCondition info = None
     | ctx_join =>
         (exists kind, si_joinType info = Some (trim kind ++ lit " JOIN"))
         /\ (exists c, si_joinCondition info = Some c /\ trim c = c)
     end.

(** The state of the two loops is numbered consecutively. *)
Definition numbered (r : Replaced) : Prop :=
  rp_counter r = length (rp_subs r)
  /\ map fst (rp_subs r) = map placeholderOf (seq 0 (length (rp_subs r)))
  /\ Forall entry_ok (rp_subs r).

(* ================================================================== *)
(** * Predicates of the statements about the nodes of the graph *)

Definition ids_of (ns : list Node) : list str := map n_id ns.

(** Both ends of every edge are nodes. *)
Definition wired (ns : list Node) (es : list Edge) : Prop :=
  forall e, In e es -> In (source e) (ids_of ns) /\ In (target e) (ids_of ns).

(** The nodes made before the edges are there. *)
Definition based (parsed : ParsedSQL) (ns : list Node) : Prop :=
  incl (ids_of (initialNodes parsed)) (ids_of ns).

Definition sane (parsed : ParsedSQL) (a : Acc) : Prop :=
  based parsed (nodes a) /\ wired (nodes a) (edges a).

(** The FROM table, when there is one, is a node. *)
Definition sane_from (parsed : ParsedSQL) (f : option str)
  (st : Acc * list str) : Prop :=
  sane parsed (fst st)
  /\ forall v, defined f = Some v -> In v (ids_of (nodes (fst st))).

Definition sane1 (parsed : ParsedSQL) (st : Acc * list str) : Prop :=
  sane parsed (fst st).

(* ================================================================== *)
(** * Predicates of the statements about the document of the parser *)

(** The names of the CTEs of a script, as [parseSQL] extracts them. *)
Definition cteNamesOf (sql : str) : list str :=
  match preprocessTempTables (removeComments sql) with
  | Ok (_, sqlAfterTemp) =>
      match extractCTEs (normalizeWhitespace sqlAfterTemp) with
      | Ok (rawCTEs, _) => map nm_name rawCTEs
      | _ => []
      end
  | _ => []
  end.

(** Id, name and the two flags of a unit. *)
Definition unit_head (q : SubQuery) : str * str * bool * bool :=
  (id q, name q, isCTE q, isSubQuery q).

Definition tempHead (n : str) : str * str * bool * bool :=
  (lit "temp_node_" ++ n, n, false, false).

Definition cteHead (x : nat * str) : str * str * bool * bool :=
  (lit "cte_" ++ of_nat (fst x), snd x, true, false).

(* ================================================================== *)
(** * Predicates of the statements about [extractCTEs] *)

(** The test a match of [r] ends with, when [r] ends in a test of one
    character. *)
Fixpoint last_test (r : regex) : option (ascii -> bool) :=
  match r with
  | Chr p => Some p
  | Seq _ r2 => last_test r2
  | Group _ r0 => last_test r0
  | _ => None
  end.

(** The body of a CTE is the trimmed text between an opening
    parenthesis of the text and the parenthesis that closes it. *)
Definition cte_body_ok (sql : str) (c : Named) : Prop :=
  exists open close,
    nth_error sql open = Some c_lparen
    /\ findMatchingParen sql open = Some close
    /\ nm_body c = trim (substring (S open) close sql).

(* ================================================================== *)
(** * Predicates of the statements about [preprocessTempTables] *)

(** The group a pattern closes with, for a pattern that ends in a group
    and the end of the text. *)
Fixpoint final_group (r : regex) : option (nat * regex) :=
  match r with
  | Seq (Group k r0) Eol => Some (k, r0)
  | Seq _ r2 => final_group r2
  | _ => None
  end.

(** The text starts with SELECT or WITH, in any letter case. *)
Definition select_or_with (t : str) : bool :=
  startsWith (lit "select") (toLowerCase t)
  || startsWith (lit "with") (toLowerCase t).

(** The body of a temp table: the end of a statement of the script, from
    a SELECT or WITH on. *)
Definition temp_body_ok (sql : str) (t : Named) : Prop :=
  select_or_with (nm_body t) = true
  /\ exists stmt a,
       In stmt (splitStatements sql)
       /\ test createTableRegex stmt = true
       /\ nm_body t = skipn a stmt.

(* ================================================================== *)
(** * Predicates of the statements about the order of the units *)

(** The names under which temp tables and CTEs are known: lower case. *)
Definition lowerNames (qs : list SubQuery) : list str :=
  map (fun u => toLowerCase (name u)) qs.

(** The names under which subquery units are known: their ids, as they
    are and in lower case. *)
Definition handles (qs : list SubQuery) : list str :=
  map id qs ++ map (fun u => toLowerCase (id u)) qs.

(** Every value of [processedBodies] is the id of a collected unit. *)
Definition values_collected (sh : Shared) : Prop :=
  forall k v,
    map_get k (processedBodies sh) = Some v ->
    In v (map id (subQueryCollector sh)).

(** Every dependency of a unit of [l] is one of the names [known] or
    stands for a unit before it in [l]. *)
Definition fed_in_order (known : list str) (l : list SubQuery) : Prop :=
  forall j u d,
    nth_error l j = Some u -> In d (dependsOn u) ->
    In d known \/ In d (handles (firstn j l)).

(** What a step of the parse keeps: the collector only grows at its
    end, stays fed in order, and the unit returned depends on names it
    was given or on collected units only. *)
Definition feeds (names : list str) (rec : Process) : Prop :=
  forall sql id0 name0 c s known sh q sh',
    rec sql id0 name0 c s known sh = Ok (q, sh') ->
    values_collected sh ->
    fed_in_order names (subQueryCollector sh) ->
    incl known (names ++ handles (subQueryCollector sh)) ->
    (exists more, subQueryCollector sh' = subQueryCollector sh ++ more)
    /\ values_collected sh'
    /\ fed_in_order names (subQueryCollector sh')
    /\ incl (dependsOn q) (known ++ map id (subQueryCollector sh')).
(* ================================================================== *)
(** * Basic facts about strings *)

Lemma str_eqb_eq (a b : str) : str_eqb a b = true <-> a = b.
Proof.
  revert b; induction a as [|x a IH]; intros [|y b]; simpl;
    try (split; congruence).
  unfold ch_eqb. rewrite andb_true_iff, Ascii.eqb_eq, IH.
  split; [intros [-> ->]; reflexivity | intros E; inversion E; auto].
Qed.

Lemma str_eqb_refl (a : str) : str_eqb a a = true.
Proof. apply str_eqb_eq; reflexivity. Qed.

Lemma mem_In (x : str) (xs : list str) : mem x xs = true <-> In x xs.
Proof.
  unfold mem. rewrite existsb_exists. split.
  - intros (y & Hy & E). apply str_eqb_eq in E. subst; assumption.
  - intros H. exists x. split; [assumption | apply str_eqb_refl].
Qed.


(* ================================================================== *)
(** * The name matcher *)

Lemma toLowerCase_app (a b : str) :
  toLowerCase (a ++ b) = toLowerCase a ++ toLowerCase b.
Proof. apply map_app. Qed.

Lemma startsWith_app (p s : str) : startsWith p (p ++ s) = true.
Proof.
  induction p as [|x p IH]; simpl; [reflexivity|].
  unfold ch_eqb. rewrite Ascii.eqb_refl. exact IH.
Qed.

Lemma endsWith_app (p s : str) : endsWith p (s ++ p) = true.
Proof. unfold endsWith. rewrite rev_app_distr. apply startsWith_app. Qed.

Lemma substring_middle (a b c : str) :
  substring (length a) (length a + length b) (a ++ b ++ c) = b.
Proof.
  unfold substring. rewrite !length_app.
  replace (Nat.min (length a) (length a + (length b + length c)))
    with (length a) by lia.
  replace (Nat.min (length a + length b) (length a + (length b + length c)))
    with (length a + length b) by lia.
  replace (Nat.min (length a) (length a + length b)) with (length a) by lia.
  replace (Nat.max (length a) (length a + length b))
    with (length a + length b) by lia.
  replace (length a + length b - length a) with (length b) by lia.
  rewrite skipn_app, skipn_all, Nat.sub_diag. simpl.
  rewrite firstn_app, firstn_all, Nat.sub_diag. simpl.
  apply app_nil_r.
Qed.

Lemma getMatchName_wrapper (s : str) :
  getMatchName (lit "${" ++ s ++ lit "}") = toLowerCase s.
Proof.
  unfold getMatchName. rewrite !toLowerCase_app.
  change (toLowerCase (lit "${")) with (lit "${").
  change (toLowerCase (lit "}")) with (lit "}").
  rewrite startsWith_app.
  rewrite (app_assoc (lit "${")), endsWith_app. simpl andb. cbv iota.
  rewrite <- app_assoc.
  replace (length (lit "${" ++ toLowerCase s ++ lit "}") - 1)
    with (length (lit "${") + length (toLowerCase s))
    by (rewrite !length_app; simpl; lia).
  change 2 with (length (lit "${")).
  apply substring_middle.
Qed.

Lemma getMatchName_plain (s : str) :
  wrapped (toLowerCase s) = false -> getMatchName s = toLowerCase s.
Proof. unfold getMatchName, wrapped. intros ->. reflexivity. Qed.

(** C9.  The three spellings of [base_table] have one matching key; a
    name wrapped as [${...}] has the lower-cased inside as its key; and a
    name whose lower-cased form is not wrapped has that form as its key,
    so that it and its wrapped form match. *)
Theorem getMatchName_matches_templated (s : str) :
  (getMatchName (lit "${base_table}") = getMatchName (lit "base_table")
   /\ getMatchName (lit "base_table") = getMatchName (lit "BASE_TABLE"))
  /\ getMatchName (lit "${" ++ s ++ lit "}") = toLowerCase s
  /\ (wrapped (toLowerCase s) = true
      \/ (getMatchName s = toLowerCase s
          /\ getMatchName (lit "${" ++ s ++ lit "}") = getMatchName s)).
Proof.
  split; [split; reflexivity|].
  split; [apply getMatchName_wrapper|].
  destruct (wrapped (toLowerCase s)) eqn:W; [left; reflexivity|right].
  rewrite getMatchName_wrapper, (getMatchName_plain _ W). split; reflexivity.
Qed.

(* ================================================================== *)
(** * [splitByUnion] and the operator it reports *)

Lemma last_op_snoc (ops : list UnionType) (o : UnionType) :
  last_op (ops ++ [o]) = Some o.
Proof. unfold last_op. rewrite rev_app_distr. reflexivity. Qed.

(** The loop of [splitByUnion] keeps the operator of the latest match. *)
Lemma splitByUnion_loop_ops (fuel : nat) (sql : str) :
  forall i depth current parts ops,
    splitByUnion_loop fuel sql i depth current parts (last_op ops) =
    match unionOperators_loop fuel sql i depth current parts ops with
    | Ok (ps, ops') =>
        Ok (ps, if 1 <? length ps then last_op ops' else None)
    | Throw => Throw
    | OutOfFuel => OutOfFuel
    end.
Proof.
  induction fuel as [|fuel IH]; intros; simpl; [reflexivity|].
  destruct (nth_error sql i) as [c|]; [|reflexivity].
  set (d := if ch_eqb c c_rparen then _ else _).
  destruct (if (d =? 0)%Z then exec re_union_all _ else None) as [ua|].
  - rewrite <- (last_op_snoc ops UNION_ALL). apply IH.
  - destruct (if (d =? 0)%Z then exec re_union _ else None) as [u|].
    + rewrite <- (last_op_snoc ops UNION). apply IH.
    + apply IH.
Qed.

(** Every recorded operator comes with a pushed part. *)
Lemma unionOperators_loop_count (fuel : nat) (sql : str) :
  forall i depth current parts ops ps ops',
    unionOperators_loop fuel sql i depth current parts ops = Ok (ps, ops') ->
    length ops <= length parts ->
    length ops' <= length ps.
Proof.
  induction fuel as [|fuel IH]; intros i depth current parts ops ps ops';
    simpl; [discriminate|].
  destruct (nth_error sql i) as [c|].
  - set (d := if ch_eqb c c_rparen then _ else _).
    destruct (if (d =? 0)%Z then exec re_union_all _ else None) as [ua|];
      [|destruct (if (d =? 0)%Z then exec re_union _ else None) as [u|]];
      intros H L; eapply IH; try exact H;
      unfold push_trimmed; rewrite ?length_app; simpl; lia.
  - intros H L. inversion H; subst.
    destruct (truthy (trim current)); unfold push_trimmed;
      rewrite ?length_app; simpl; lia.
Qed.

Lemma both_in_two (ops : list UnionType) :
  In UNION ops -> In UNION_ALL ops -> 2 <= length ops.
Proof.
  destruct ops as [|a [|b ops]]; simpl; intros H1 H2.
  - contradiction.
  - destruct H1 as [E1|[]]. destruct H2 as [E2|[]]. congruence.
  - lia.
Qed.

(** C5, as the code has it.  When the operators met at the top level
    include both UNION and UNION ALL, [splitByUnion] returns the branch
    texts together with the operator met last. *)
Theorem splitByUnion_reports_last_operator
  (sql : str) (parts : list str) (ops : list UnionType) :
  unionOperators sql = Ok (parts, ops) ->
  In UNION ops -> In UNION_ALL ops ->
  splitByUnion sql = Ok (parts, last_op ops)
  /\ exists o, last_op ops = Some o.
Proof.
  intros H HU HA. unfold splitByUnion, unionOperators in *.
  change (@None UnionType) with (last_op []).
  rewrite splitByUnion_loop_ops, H.
  pose proof (unionOperators_loop_count _ _ _ _ _ _ _ H (le_n _)) as L.
  pose proof (both_in_two _ HU HA) as L2.
  assert (E : (1 <? length parts) = true) by (apply Nat.ltb_lt; lia).
  rewrite E. split; [reflexivity|].
  unfold last_op. destruct (rev ops) eqn:R; [|eauto].
  apply (f_equal (@length _)) in R. rewrite length_rev in R. simpl in R. lia.
Qed.

Lemma splitByUnion_reports_last_operator_witness :
  splitByUnion mixed_union_script
  = Ok ([lit "a"; lit "b"; lit "c"], last_op [UNION; UNION_ALL])
  /\ exists o, last_op [UNION; UNION_ALL] = Some o.
Proof.
  apply (@splitByUnion_reports_last_operator mixed_union_script
           [lit "a"; lit "b"; lit "c"] [UNION; UNION_ALL]).
  - vm_compute. reflexivity.
  - simpl. auto.
  - simpl. auto.
Defined.

(** C5 as stated fails: in [a UNION b UNION ALL c] the first operator met
    is UNION, and the operator returned is UNION ALL. *)
Lemma splitByUnion_not_first_operator :
  exists parts ops first,
    unionOperators mixed_union_script = Ok (parts, ops)
    /\ In UNION ops /\ In UNION_ALL ops
    /\ hd_error ops = Some first
    /\ splitByUnion mixed_union_script <> Ok (parts, Some first).
Proof.
  exists [lit "a"; lit "b"; lit "c"], [UNION; UNION_ALL], UNION.
  split; [vm_compute; reflexivity|].
  split; [simpl; auto|]. split; [simpl; auto|].
  split; [reflexivity|].
  vm_compute. discriminate.
Qed.

(* ================================================================== *)
(** * The graph assembler: no edge is added twice *)

Lemma in_set_add (x y : str) (xs : list str) :
  In x (set_add y xs) <-> x = y \/ In x xs.
Proof.
  unfold set_add. destruct (mem y xs) eqn:M.
  - apply mem_In in M. split; [auto|]. intros [->|H]; assumption.
  - rewrite in_app_iff. simpl. split.
    + intros [H|[H|[]]]; auto.
    + intros [H|H]; auto.
Qed.

Lemma mem_false_not_In (x : str) (xs : list str) :
  mem x xs = false -> ~ In x xs.
Proof. intros M H. apply mem_In in H. congruence. Qed.

Lemma edges_keyed_push (a : Acc) (i s t : str) (y : EdgeStyle)
  (ns : list Node) (n : nat) :
  edges_keyed a ->
  mem (edgeKey s t) (addedEdges a) = false ->
  edges_keyed (mkAcc ns (edges a ++ [mkEdge i s t y])
                 (set_add (edgeKey s t) (addedEdges a)) n).
Proof.
  intros [ND K] M. apply mem_false_not_In in M. split; simpl.
  - rewrite map_app. simpl. apply NoDup_app; [exact ND | | ].
    + constructor; [simpl; auto | constructor].
    + intros k Hk [<-|[]]. apply in_map_iff in Hk.
      destruct Hk as (e' & E & He'). apply M.
      change (edgeKey s t) with (keyOf (mkEdge i s t y)).
      rewrite <- E. auto.
  - intros e' He'. apply in_app_iff in He'. apply in_set_add.
    destruct He' as [He'|[<-|[]]]; auto.
Qed.

Lemma addEdge_keyed (s t : str) (u : bool) (l : str) (a : Acc) :
  edges_keyed a -> edges_keyed (addEdge s t u l a).
Proof.
  intros H. unfold addEdge.
  destruct (mem (edgeKey s t) (addedEdges a)) eqn:M; [exact H|].
  destruct u; apply edges_keyed_push; assumption.
Qed.

Lemma pushJoinEdge_keyed (s t : str) (a : Acc) :
  edges_keyed a -> edges_keyed (pushJoinEdge s t a).
Proof.
  intros H. unfold pushJoinEdge.
  destruct (mem (edgeKey s t) (addedEdges a)) eqn:M; simpl; [exact H|].
  apply edges_keyed_push; assumption.
Qed.

(** A property of the accumulator that every step keeps is kept by the
    loops. *)
Lemma fold_left_keeps {S X : Type} (P : S -> Prop) (f : S -> X -> S)
  (xs : list X) :
  (forall s x, P s -> P (f s x)) ->
  forall s, P s -> P (fold_left f xs s).
Proof.
  intros Hf. induction xs as [|x xs IH]; simpl; intros s Hs; [exact Hs|].
  apply IH. apply Hf. exact Hs.
Qed.

Section FlowKeyed.

Variable parsed : ParsedSQL.

Lemma joinStep_keyed (sq : SubQuery) (f : option str)
  (st : Acc * list str) (j : JoinInfo) :
  keyed1 st -> keyed1 (joinStep parsed sq f st j).
Proof.
  destruct st as [a h]. unfold keyed1, joinStep. simpl. intros H.
  destruct (match defined (first_entry _ (nodeIdMap parsed)) with
            | Some v => (v, nodes a)
            | None => ensureSourceNode _ _ (nodes a)
            end) as [src ns].
  simpl. apply pushJoinEdge_keyed, pushJoinEdge_keyed.
  destruct (defined f); [apply pushJoinEdge_keyed|]; exact H.
Qed.

Lemma unionStep_keyed (sq : SubQuery) (st : Acc * list str) (t : str) :
  keyed1 st -> keyed1 (unionStep sq st t).
Proof.
  destruct st as [a h]. unfold keyed1, unionStep. intros H.
  destruct (ensureSourceNode t [] (nodes a)) as [src ns]. simpl.
  apply addEdge_keyed. exact H.
Qed.

Lemma dependsStep_keyed (sq : SubQuery) (st : Acc * list str) (d : str) :
  keyed1 st -> keyed1 (dependsStep parsed sq st d).
Proof.
  destruct st as [a h]. unfold keyed1, dependsStep. intros H.
  destruct (existsb _ h); [exact H|].
  destruct (knownNode parsed (getMatchName d)) as [dep|]; [|exact H].
  destruct (str_eqb dep (id sq)); [exact H|].
  destruct (mem _ (addedEdges a)); [exact H|].
  simpl. apply addEdge_keyed. exact H.
Qed.

Lemma tableStep_keyed (sq : SubQuery) (st : Acc * list str) (t : TableRef) :
  keyed1 st -> keyed1 (tableStep parsed sq st t).
Proof.
  destruct st as [a h]. unfold keyed1, tableStep. intros H.
  destruct (existsb _ h); [exact H|].
  destruct (defined (first_entry _ (nodeIdMap parsed))) as [dep|].
  - simpl. destruct (negb (str_eqb dep (id sq))); [|exact H].
    destruct (negb (mem _ (addedEdges a))); [|exact H].
    apply addEdge_keyed. exact H.
  - destruct (ensureSourceNode _ _ (nodes a)) as [src ns]. simpl.
    apply addEdge_keyed. exact H.
Qed.

Lemma rescueStep_keyed (sq : SubQuery) (inc : list Edge) (a : Acc)
  (t : TableRef) :
  edges_keyed a -> edges_keyed (rescueStep parsed sq inc a t).
Proof.
  unfold rescueStep. intros H.
  destruct (existsb _ inc); [exact H|].
  destruct (match defined (first_entry _ (nodeIdMap parsed)) with
            | Some v => (v, nodes a)
            | None => ensureSourceNode _ _ (nodes a)
            end) as [src ns].
  apply addEdge_keyed. exact H.
Qed.

Lemma processQuery_keyed (sq : SubQuery) (a : Acc) :
  edges_keyed a -> edges_keyed (processQuery parsed sq a).
Proof.
  intros H. unfold processQuery.
  destruct (fromTable parsed sq (tables sq) (nodes a)) as [f ns].
  set (st1 := fold_left (joinStep parsed sq f) (joins sq) (set_nodes a ns, [])).
  assert (K1 : keyed1 st1).
  { apply fold_left_keeps; [intros; apply joinStep_keyed; assumption|].
    exact H. }
  set (st2 := match unionPhysicalSources_get (id sq) (snd (unionPass parsed))
              with Some p => fold_left (unionStep sq) p st1 | None => st1 end).
  assert (K2 : keyed1 st2).
  { unfold st2. destruct (unionPhysicalSources_get _ _); [|exact K1].
    apply fold_left_keeps; [intros; apply unionStep_keyed; assumption|].
    exact K1. }
  set (st3 := fold_left (dependsStep parsed sq) (dependsOn sq) st2).
  assert (K3 : keyed1 st3).
  { apply fold_left_keeps; [intros; apply dependsStep_keyed; assumption|].
    exact K2. }
  set (st4 := fold_left (tableStep parsed sq) (tables sq) st3).
  assert (K4 : keyed1 st4).
  { apply fold_left_keeps; [intros; apply tableStep_keyed; assumption|].
    exact K3. }
  destruct (_ && _); [|exact K4].
  apply fold_left_keeps; [intros; apply rescueStep_keyed; assumption|].
  exact K4.
Qed.

Lemma restyleMainOutput_ends (es : list Edge) :
  map endsOf (restyleMainOutput parsed es) = map endsOf es.
Proof.
  induction es as [|e es IH]; simpl; [reflexivity|].
  destruct (_ && _); simpl; [reflexivity|]. rewrite IH. reflexivity.
Qed.

(** C4.  The edges [buildFlowElements] returns hold no ordered pair of
    source and target twice, whatever the parsed document is. *)
Theorem buildFlowElements_no_duplicate_edge :
  NoDup (map endsOf (snd (buildFlowElements parsed))).
Proof.
  unfold buildFlowElements. simpl. rewrite restyleMainOutput_ends.
  set (a := fold_left _ (allQueries parsed) _).
  assert (K : edges_keyed (addEdge (mainId parsed) outputId false [] a)).
  { apply addEdge_keyed. unfold a.
    apply (fold_left_keeps edges_keyed);
      [intros; apply processQuery_keyed; assumption|].
    split; simpl; [constructor | intros e []]. }
  destruct K as [ND _].
  apply (NoDup_map_inv (fun p => edgeKey (fst p) (snd p))).
  rewrite map_map. exact ND.
Qed.

End FlowKeyed.

(* ================================================================== *)
(** * The graph assembler: the orphan rescue *)

Lemma no_gt_app (a b : str) : no_gt (a ++ b) <-> no_gt a /\ no_gt b.
Proof. unfold no_gt. rewrite forallb_app, andb_true_iff. reflexivity. Qed.

Lemma no_gt_rev (a : str) : no_gt a -> no_gt (rev a).
Proof.
  unfold no_gt. rewrite !forallb_forall. intros H x Hx.
  apply H. apply in_rev. exact Hx.
Qed.

Lemma no_gt_digits (d : Decimal.uint) :
  no_gt (lit (NilEmpty.string_of_uint d)).
Proof. induction d; simpl; try reflexivity; exact IHd. Qed.

Lemma no_gt_of_nat (n : nat) : no_gt (of_nat n).
Proof.
  unfold of_nat, NilZero.string_of_uint.
  destruct (Nat.to_uint n); try reflexivity; apply no_gt_digits.
Qed.

Lemma no_gt_joinId (n : nat) : no_gt (lit "join_" ++ of_nat n).
Proof. apply no_gt_app. split; [reflexivity | apply no_gt_of_nat]. Qed.

(** The text before the first [>] of a string is determined. *)
Lemma before_first_gt (a a' x x' : str) :
  no_gt a -> no_gt a' -> a ++ c_gt :: x = a' ++ c_gt :: x' -> a = a'.
Proof.
  revert a'. induction a as [|c a IH]; intros [|c' a'] Ha Ha' E;
    simpl in *; try reflexivity.
  - inversion E; subst c'. discriminate Ha'.
  - inversion E; subst c. discriminate Ha.
  - inversion E; subst c'. f_equal.
    unfold no_gt in Ha, Ha'. simpl in Ha, Ha'.
    apply andb_true_iff in Ha, Ha'. apply IH with (a' := a'); tauto.
Qed.

(** An edge key determines a target that is free of [>]. *)
Lemma edgeKey_target (s t s' t' : str) :
  no_gt t -> no_gt t' -> edgeKey s t = edgeKey s' t' -> t = t'.
Proof.
  intros Ht Ht' E. apply (f_equal (@rev ascii)) in E.
  unfold edgeKey in E. rewrite !rev_app_distr in E. simpl in E.
  rewrite <- !app_assoc in E. simpl in E.
  apply before_first_gt in E; try (apply no_gt_rev; assumption).
  rewrite <- (rev_involutive t), <- (rev_involutive t'), E. reflexivity.
Qed.

Lemma has_in_incl (es es' : list Edge) (t : str) :
  incl es es' -> has_in es t -> has_in es' t.
Proof. intros I (e & He & E). exists e. split; [apply I|]; assumption. Qed.

Lemma inserts_push (a : Acc) (i s t : str) (y : EdgeStyle) (ns : list Node)
  (n : nat) :
  no_gt t -> edges_sound a ->
  inserts t a (mkAcc ns (edges a ++ [mkEdge i s t y])
                 (set_add (edgeKey s t) (addedEdges a)) n).
Proof.
  intros Ht [K T]. split; [split|split]; simpl.
  - intros k Hk. apply in_set_add in Hk. destruct Hk as [->|Hk].
    + exists (mkEdge i s t y). split; [apply in_app_iff; simpl; auto|].
      reflexivity.
    + destruct (K k Hk) as (e & He & E). exists e.
      split; [apply in_app_iff; auto | exact E].
  - intros e He. apply in_app_iff in He. destruct He as [He|[<-|[]]];
      [apply T; exact He | exact Ht].
  - intros e He. apply in_app_iff. auto.
  - exists (mkEdge i s t y). split; [apply in_app_iff; simpl; auto|].
    reflexivity.
Qed.

Lemma inserts_present (a : Acc) (s t : str) :
  no_gt t -> edges_sound a -> mem (edgeKey s t) (addedEdges a) = true ->
  inserts t a a.
Proof.
  intros Ht [K T] M. split; [split; assumption|]. split; [apply incl_refl|].
  apply mem_In in M. destruct (K _ M) as (e & He & E). exists e.
  split; [exact He|]. unfold keyOf in E.
  apply (edgeKey_target _ _ (T e He) Ht E).
Qed.

Lemma addEdge_inserts (s t : str) (u : bool) (l : str) (a : Acc) :
  no_gt t -> edges_sound a -> inserts t a (addEdge s t u l a).
Proof.
  intros Ht S. unfold addEdge.
  destruct (mem (edgeKey s t) (addedEdges a)) eqn:M.
  - apply inserts_present with (s := s); assumption.
  - destruct u; apply inserts_push; assumption.
Qed.

Lemma pushJoinEdge_inserts (s t : str) (a : Acc) :
  no_gt t -> edges_sound a -> inserts t a (pushJoinEdge s t a).
Proof.
  intros Ht S. unfold pushJoinEdge.
  destruct (mem (edgeKey s t) (addedEdges a)) eqn:M; simpl.
  - apply inserts_present with (s := s); assumption.
  - apply inserts_push; assumption.
Qed.

Lemma first_entry_value (p : str -> bool) (m : list (str * str)) (v : str) :
  first_entry p m = Some v -> In v (map snd m).
Proof.
  induction m as [|[k w] m IH]; simpl; [discriminate|].
  destruct (p k); [intros E; inversion E; auto | auto].
Qed.

Lemma map_set_values (k v : str) (m : list (str * str)) (x : str) :
  In x (map snd (map_set k v m)) -> x = v \/ In x (map snd m).
Proof.
  induction m as [|[k' v'] m IH]; simpl.
  - intros [H|[]]; auto.
  - destruct (str_eqb k' k); simpl; intros [H|H]; auto.
    destruct (IH H); auto.
Qed.

Lemma defined_some (o : option str) (v : str) :
  defined o = Some v -> o = Some v.
Proof.
  destruct o as [w|]; simpl; [|discriminate].
  destruct (truthy w); [auto | discriminate].
Qed.

Section Rescue.

Variable parsed : ParsedSQL.

Lemma nodeIdMap_values (x : str) :
  In x (map snd (nodeIdMap parsed)) -> In x (unit_ids parsed).
Proof.
  unfold nodeIdMap, unit_ids. rewrite map_app, in_app_iff.
  set (f := fun m cte => map_set (id cte) (id cte)
                           (map_set (toLowerCase (name cte)) (id cte) m)).
  set (g := fun m sq => map_set (id sq) (id sq) m).
  assert (F : forall cs m,
             In x (map snd (fold_left f cs m)) ->
             In x (map snd m) \/ In x (map id cs)).
  { induction cs as [|c cs IH]; simpl; intros m H; [auto|].
    destruct (IH _ H) as [H1|H1]; [|auto]. unfold f in H1.
    apply map_set_values in H1. destruct H1 as [->|H1]; [auto|].
    apply map_set_values in H1. destruct H1 as [->|H1]; auto. }
  assert (G : forall qs m,
             In x (map snd (fold_left g qs m)) ->
             In x (map snd m) \/ In x (map id qs)).
  { induction qs as [|q qs IH]; simpl; intros m H; [auto|].
    destruct (IH _ H) as [H1|H1]; [|auto]. unfold g in H1.
    apply map_set_values in H1. destruct H1 as [->|H1]; auto. }
  intros H. apply G in H. destruct H as [H|H]; [|auto].
  apply F in H. destruct H as [[]|H]. auto.
Qed.

Variable sq : SubQuery.
Hypothesis id_no_gt : no_gt (id sq).

Lemma joinStep_marked (f : option str) (st : Acc * list str) (j : JoinInfo) :
  marked_after_edge sq st ->
  marked_after_edge sq (joinStep parsed sq f st j)
  /\ keeps_edges st (joinStep parsed sq f st j).
Proof.
  destruct st as [a h]. unfold marked_after_edge, keeps_edges, joinStep.
  cbn [fst snd]. intros [Hs _].
  destruct (match defined (first_entry _ (nodeIdMap parsed)) with
            | Some v => (v, nodes a)
            | None => ensureSourceNode _ _ (nodes a)
            end) as [src ns].
  cbv beta iota zeta.
  set (jid := lit "join_" ++ of_nat (joinNodeCounter a)).
  set (a0 := mkAcc _ (edges a) (addedEdges a) (S (joinNodeCounter a))).
  assert (S0 : edges_sound a0) by exact Hs.
  set (a1 := match defined f with
             | Some f0 => pushJoinEdge f0 jid a0
             | None => a0
             end).
  assert (S1 : edges_sound a1 /\ incl (edges a0) (edges a1)).
  { unfold a1. destruct (defined f) as [f0|].
    - destruct (@pushJoinEdge_inserts f0 jid a0 (no_gt_joinId _) S0)
        as (X & Y & _).
      auto.
    - split; [exact S0 | apply incl_refl]. }
  destruct S1 as [S1 I1].
  destruct (@pushJoinEdge_inserts src jid a1 (no_gt_joinId _) S1)
    as (S2 & I2 & _).
  destruct (@pushJoinEdge_inserts jid (id sq) (pushJoinEdge src jid a1)
              id_no_gt S2) as (S3 & I3 & H3).
  cbn [fst snd].
  split; [split; [exact S3 | right; exact H3]|].
  intros e He. apply I3, I2, I1. exact He.
Qed.

Lemma unionStep_marked (st : Acc * list str) (t : str) :
  marked_after_edge sq st ->
  marked_after_edge sq (unionStep sq st t) /\ keeps_edges st (unionStep sq st t).
Proof.
  destruct st as [a h]. unfold marked_after_edge, keeps_edges, unionStep.
  cbn [fst snd]. intros [Hs _].
  destruct (ensureSourceNode t [] (nodes a)) as [src ns]. cbn [fst snd].
  destruct (@addEdge_inserts src (id sq) true (unionLabelOf sq)
              (set_nodes a ns) id_no_gt Hs) as (S1 & I1 & H1).
  split; [split; [exact S1 | right; exact H1] | exact I1].
Qed.

Lemma dependsStep_marked (st : Acc * list str) (d : str) :
  marked_after_edge sq st ->
  marked_after_edge sq (dependsStep parsed sq st d)
  /\ keeps_edges st (dependsStep parsed sq st d).
Proof.
  destruct st as [a h]. unfold keeps_edges, dependsStep. intros M.
  assert (R : marked_after_edge sq (a, h) /\ incl (edges a) (edges a))
    by (split; [exact M | apply incl_refl]).
  destruct (existsb _ h); [exact R|].
  destruct (knownNode parsed (getMatchName d)) as [dep|]; [|exact R].
  destruct (str_eqb dep (id sq)); [exact R|].
  destruct (mem _ (addedEdges a)); [exact R|].
  destruct M as [Hs _]. cbn [fst snd] in Hs.
  destruct (@addEdge_inserts dep (id sq)
              (mem (edgeKey dep (id sq)) (unionDeps parsed))
              (unionLabelOf sq) a id_no_gt Hs) as (S1 & I1 & H1).
  unfold marked_after_edge. cbn [fst snd].
  split; [split; [exact S1 | right; exact H1] | exact I1].
Qed.

Lemma fold_marked (X : Type) (f : Acc * list str -> X -> Acc * list str)
  (xs : list X) :
  (forall st x, marked_after_edge sq st ->
                marked_after_edge sq (f st x) /\ keeps_edges st (f st x)) ->
  forall st, marked_after_edge sq st ->
             marked_after_edge sq (fold_left f xs st)
             /\ keeps_edges st (fold_left f xs st).
Proof.
  intros Hf. induction xs as [|x xs IH]; simpl; intros st M.
  - split; [exact M | apply incl_refl].
  - destruct (Hf st x M) as [M1 K1]. destruct (IH _ M1) as [M2 K2].
    split; [exact M2|]. intros e He. apply K2, K1. exact He.
Qed.

Lemma tableStep_sound (st : Acc * list str) (t : TableRef) :
  sound1 st ->
  sound1 (tableStep parsed sq st t) /\ keeps_edges st (tableStep parsed sq st t).
Proof.
  destruct st as [a h]. unfold sound1, keeps_edges, tableStep.
  cbn [fst snd]. intros Hs.
  assert (R : edges_sound a /\ incl (edges a) (edges a))
    by (split; [exact Hs | apply incl_refl]).
  destruct (existsb _ h); [exact R|].
  destruct (defined (first_entry _ (nodeIdMap parsed))) as [dep|].
  - cbn [fst snd]. destruct (negb (str_eqb dep (id sq))); [|exact R].
    destruct (negb (mem _ (addedEdges a))); [|exact R].
    destruct (@addEdge_inserts dep (id sq) false [] a id_no_gt Hs)
      as (S1 & I1 & _). auto.
  - destruct (ensureSourceNode _ _ (nodes a)) as [src ns]. cbn [fst snd].
    destruct (@addEdge_inserts src (id sq) false [] (set_nodes a ns)
                id_no_gt Hs) as (S1 & I1 & _). auto.
Qed.

(** The step over the first table leaves an edge into the unit, unless
    the table is the unit itself. *)
Lemma tableStep_first (st : Acc * list str) (t : TableRef) :
  marked_after_edge sq st ->
  has_in (edges (fst (tableStep parsed sq st t))) (id sq)
  \/ In (id sq) (unit_ids parsed).
Proof.
  destruct st as [a h]. unfold marked_after_edge, tableStep. cbn [fst snd].
  intros [Hs M].
  destruct (existsb _ h) eqn:Eh.
  - left. destruct M as [->|M]; [discriminate | exact M].
  - destruct (defined (first_entry _ (nodeIdMap parsed))) as [dep|] eqn:Ed.
    + cbn [fst snd]. destruct (str_eqb dep (id sq)) eqn:Es; cbn [negb].
      * right. apply str_eqb_eq in Es. subst dep.
        apply defined_some, first_entry_value in Ed.
        apply nodeIdMap_values. exact Ed.
      * left. destruct (mem _ (addedEdges a)) eqn:Em; cbn [negb].
        -- apply (@inserts_present a dep (id sq) id_no_gt Hs Em).
        -- apply (@addEdge_inserts dep (id sq) false [] a id_no_gt Hs).
    + left. destruct (ensureSourceNode _ _ (nodes a)) as [src ns].
      cbn [fst snd].
      apply (@addEdge_inserts src (id sq) false [] (set_nodes a ns)
               id_no_gt Hs).
Qed.

Lemma rescueStep_sound (inc : list Edge) (a : Acc) (t : TableRef) :
  edges_sound a ->
  edges_sound (rescueStep parsed sq inc a t)
  /\ incl (edges a) (edges (rescueStep parsed sq inc a t)).
Proof.
  unfold rescueStep. intros Hs.
  destruct (existsb _ inc); [split; [exact Hs | apply incl_refl]|].
  destruct (match defined (first_entry _ (nodeIdMap parsed)) with
            | Some v => (v, nodes a)
            | None => ensureSourceNode _ _ (nodes a)
            end) as [src ns].
  destruct (@addEdge_inserts src (id sq) false [] (set_nodes a ns)
              id_no_gt Hs) as (S1 & I1 & _). auto.
Qed.

Lemma rescueStep_first (a : Acc) (t : TableRef) :
  edges_sound a -> has_in (edges (rescueStep parsed sq [] a t)) (id sq).
Proof.
  unfold rescueStep. intros Hs. cbn [existsb].
  destruct (match defined (first_entry _ (nodeIdMap parsed)) with
            | Some v => (v, nodes a)
            | None => ensureSourceNode _ _ (nodes a)
            end) as [src ns].
  apply (@addEdge_inserts src (id sq) false [] (set_nodes a ns)
           id_no_gt Hs).
Qed.

Lemma fold_sound (X : Type) (f : Acc -> X -> Acc) (xs : list X) :
  (forall a x, edges_sound a ->
               edges_sound (f a x) /\ incl (edges a) (edges (f a x))) ->
  forall a, edges_sound a ->
            edges_sound (fold_left f xs a)
            /\ incl (edges a) (edges (fold_left f xs a)).
Proof.
  intros Hf. induction xs as [|x xs IH]; simpl; intros a S.
  - split; [exact S | apply incl_refl].
  - destruct (Hf a x S) as [S1 I1]. destruct (IH _ S1) as [S2 I2].
    split; [exact S2|]. intros e He. apply I2, I1. exact He.
Qed.

Lemma fold_sound1 (X : Type) (f : Acc * list str -> X -> Acc * list str)
  (xs : list X) :
  (forall st x, sound1 st -> sound1 (f st x) /\ keeps_edges st (f st x)) ->
  forall st, sound1 st ->
             sound1 (fold_left f xs st)
             /\ keeps_edges st (fold_left f xs st).
Proof.
  intros Hf. induction xs as [|x xs IH]; simpl; intros st S.
  - split; [exact S | apply incl_refl].
  - destruct (Hf st x S) as [S1 I1]. destruct (IH _ S1) as [S2 I2].
    split; [exact S2|]. intros e He. apply I2, I1. exact He.
Qed.

Lemma filter_target_nil (es : list Edge) :
  filter (fun e => str_eqb (target e) (id sq)) es = [] ->
  ~ has_in es (id sq).
Proof.
  intros F (e & He & E).
  assert (In e (filter (fun e => str_eqb (target e) (id sq)) es)).
  { apply filter_In. split; [exact He|]. rewrite E. apply str_eqb_refl. }
  rewrite F in H. exact H.
Qed.

(** The steps before the tables, from a sound accumulator. *)
Lemma before_tables (a : Acc) (f : option str) (ns : list Node) :
  edges_sound a ->
  let st1 := fold_left (joinStep parsed sq f) (joins sq) (set_nodes a ns, []) in
  let st2 := match unionPhysicalSources_get (id sq) (snd (unionPass parsed))
             with
             | Some p => fold_left (unionStep sq) p st1
             | None => st1
             end in
  let st3 := fold_left (dependsStep parsed sq) (dependsOn sq) st2 in
  marked_after_edge sq st3 /\ incl (edges a) (edges (fst st3)).
Proof.
  intros S st1 st2 st3.
  assert (M0 : marked_after_edge sq (set_nodes a ns, [])).
  { split; [exact S | left; reflexivity]. }
  destruct (fold_marked (joinStep parsed sq f) (joins sq)
              (fun st x => @joinStep_marked f st x) M0) as [M1 K1].
  fold st1 in M1, K1.
  assert (M2 : marked_after_edge sq st2 /\ keeps_edges st1 st2).
  { unfold st2. destruct (unionPhysicalSources_get _ _) as [p|].
    - apply fold_marked; [apply unionStep_marked | exact M1].
    - split; [exact M1 | apply incl_refl]. }
  destruct M2 as [M2 K2].
  destruct (fold_marked (dependsStep parsed sq) (dependsOn sq)
              dependsStep_marked M2) as [M3 K3].
  fold st3 in M3, K3. split; [exact M3|].
  intros e He. apply K3, K2, K1. exact He.
Qed.

(** One pass of the main loop keeps the bookkeeping sound and loses no
    edge. *)
Lemma processQuery_sound (a : Acc) :
  edges_sound a ->
  edges_sound (processQuery parsed sq a)
  /\ incl (edges a) (edges (processQuery parsed sq a)).
Proof.
  intros S. unfold processQuery.
  destruct (fromTable parsed sq (tables sq) (nodes a)) as [f ns].
  destruct (before_tables f ns S) as [[S3 _] I3]. cbv zeta in S3, I3.
  set (st3 := fold_left (dependsStep parsed sq) _ _) in *.
  destruct (fold_sound1 (tableStep parsed sq) (tables sq) tableStep_sound
              (st := st3) S3) as [S4 K4].
  set (st4 := fold_left (tableStep parsed sq) _ st3) in *.
  destruct (_ && _).
  - match goal with
    | |- context [fold_left (rescueStep parsed sq ?inc) _ _] =>
        destruct (fold_sound (rescueStep parsed sq inc) (tables sq)
                    (fun a x => @rescueStep_sound inc a x) S4) as [S5 I5]
    end.
    split; [exact S5|]. intros e He. apply I5, K4, I3. exact He.
  - split; [exact S4|]. intros e He. apply K4, I3. exact He.
Qed.

(** One pass of the main loop over a unit that has a table leaves an
    edge into the unit, provided the unit is flagged as a CTE, temp table
    or subquery, or no CTE or subquery has its id. *)
Lemma processQuery_connects (a : Acc) :
  edges_sound a ->
  flagged sq = true \/ ~ In (id sq) (unit_ids parsed) ->
  tables sq <> [] ->
  has_in (edges (processQuery parsed sq a)) (id sq).
Proof.
  intros S F T. unfold processQuery.
  destruct (fromTable parsed sq (tables sq) (nodes a)) as [f ns].
  destruct (before_tables f ns S) as [M3 _]. cbv zeta in M3.
  set (st3 := fold_left (dependsStep parsed sq) _ _) in *.
  destruct (tables sq) as [|t0 ts] eqn:Et; [contradiction|]. simpl fold_left.
  pose proof (tableStep_first t0 M3) as First.
  destruct (tableStep_sound t0 (proj1 M3)) as [S4 _].
  set (st4 := tableStep parsed sq st3 t0) in *.
  destruct (fold_sound1 (tableStep parsed sq) ts tableStep_sound
              (st := st4) S4) as [S5 K5].
  set (st5 := fold_left (tableStep parsed sq) ts st4) in *.
  destruct (filter _ (edges (fst st5))) as [|e0 inc] eqn:Ef.
  - apply filter_target_nil in Ef. simpl.
    destruct (flagged sq) eqn:Fl.
    + simpl.
      destruct (fold_sound (rescueStep parsed sq []) ts
                  (fun a x => @rescueStep_sound [] a x)
                  (a := rescueStep parsed sq [] (fst st5) t0)) as [_ I6].
      { apply rescueStep_sound. exact S5. }
      eapply has_in_incl; [exact I6|]. apply rescueStep_first. exact S5.
    + exfalso. destruct First as [H|H].
      * apply Ef. eapply has_in_incl; [exact K5 | exact H].
      * destruct F as [F|F]; [discriminate | contradiction].
  - simpl.
    assert (In e0 (filter (fun e => str_eqb (target e) (id sq))
                     (edges (fst st5)))) as H by (rewrite Ef; simpl; auto).
    apply filter_In in H. destruct H as [H E]. apply str_eqb_eq in E.
    exists e0. split; assumption.
Qed.

End Rescue.

Lemma restyleMainOutput_target (parsed : ParsedSQL) (es : list Edge) (t : str) :
  has_in es t -> has_in (restyleMainOutput parsed es) t.
Proof.
  intros (e & He & E). induction es as [|x es IH]; simpl; [destruct He|].
  destruct (_ && _) eqn:C.
  - destruct He as [->|He].
    + exists (mkEdge (e_id e) (source e) (target e) terminal).
      split; [simpl; auto | exact E].
    + exists e. split; [simpl; auto | exact E].
  - destruct He as [->|He].
    + exists e. split; [simpl; auto | exact E].
    + destruct (IH He) as (e' & He' & E'). exists e'.
      split; [simpl; auto | exact E'].
Qed.

(** What the orphan rescue does reach.  In the graph of
    [buildFlowElements], a unit with a non-empty table list has an edge
    into its node when the ids of the units are free of [>], so that an
    edge key belongs to one pair of ids only, and when a unit that is
    not flagged as CTE, temp table or subquery (the main query) does not
    share its id with a CTE or subquery.  By [parseSQL_units_ok] below,
    the document of every script whose temp tables have names free of
    [>] is such a document. *)
Theorem buildFlowElements_unit_has_incoming_edge
  (parsed : ParsedSQL) (sq : SubQuery) :
  (forall q, In q (allQueries parsed) -> no_gt (id q)) ->
  In sq (allQueries parsed) ->
  flagged sq = true \/ ~ In (id sq) (unit_ids parsed) ->
  tables sq <> [] ->
  exists e, In e (snd (buildFlowElements parsed)) /\ target e = id sq.
Proof.
  intros G Hsq F T. unfold buildFlowElements. simpl.
  apply restyleMainOutput_target.
  set (step := fun a q => processQuery parsed q a).
  assert (Sound : forall qs a,
             (forall q, In q qs -> no_gt (id q)) -> edges_sound a ->
             edges_sound (fold_left step qs a)
             /\ incl (edges a) (edges (fold_left step qs a))).
  { induction qs as [|q qs IH]; simpl; intros a Gq S.
    - split; [exact S | apply incl_refl].
    - destruct (@processQuery_sound parsed q (Gq q (or_introl eq_refl)) a S)
        as [S1 I1].
      destruct (IH (step a q) (fun x Hx => Gq x (or_intror Hx)) S1)
        as [S2 I2].
      split; [exact S2|]. intros e He. apply I2, I1. exact He. }
  apply in_split in Hsq. destruct Hsq as (l1 & l2 & E).
  set (a0 := mkAcc (initialNodes parsed) [] [] 0).
  assert (S0 : edges_sound a0).
  { split; simpl; [intros k [] | intros e []]. }
  assert (G1 : forall q, In q l1 -> no_gt (id q)).
  { intros q Hq. apply G. rewrite E. apply in_app_iff. auto. }
  assert (G2 : forall q, In q l2 -> no_gt (id q)).
  { intros q Hq. apply G. rewrite E. apply in_app_iff. simpl. auto. }
  assert (Gs : no_gt (id sq)).
  { apply G. rewrite E. apply in_app_iff. simpl. auto. }
  rewrite E, fold_left_app. simpl.
  destruct (Sound l1 a0 G1 S0) as [S1 _].
  set (a1 := fold_left step l1 a0) in *.
  pose proof (@processQuery_connects parsed sq Gs a1 S1 F T) as H.
  destruct (@processQuery_sound parsed sq Gs a1 S1) as [S2 _].
  destruct (Sound l2 (step a1 sq) G2 S2) as [S3 I3].
  eapply has_in_incl; [|eapply has_in_incl; [exact I3 | exact H]].
  set (a3 := fold_left step l2 (step a1 sq)) in *.
  unfold addEdge. destruct (mem _ (addedEdges a3)); [apply incl_refl|].
  simpl. intros e He. apply in_app_iff. auto.
Qed.

Lemma buildFlowElements_unit_has_incoming_edge_witness :
  parseSQL 2 example_script = Ok example_parsed
  /\ exists e, In e (snd (buildFlowElements example_parsed))
               /\ target e = id example_cte.
Proof.
  split; [vm_compute; reflexivity|].
  apply (@buildFlowElements_unit_has_incoming_edge example_parsed example_cte).
  - intros q [<-|[<-|[]]]; reflexivity.
  - simpl. auto.
  - left. reflexivity.
  - discriminate.
Defined.

(** C3 fails on a script whose temp tables have names that hold the
    arrow of an edge key.  The third temp table reads the first, so its
    table list is not empty, and it is flagged; the key of the edge it
    needs is the key of the edge from the first branch of the second
    temp table into that table, which is there already, so every
    insertion is given up, the one of the orphan rescue too, and no edge
    of the graph has the unit as its target. *)
Lemma buildFlowElements_orphan_after_key_clash :
  exists p sq,
    parseSQL 3 key_clash_script = Ok p
    /\ In sq (ctes p)
    /\ id sq = lit "temp_node_y_union_0->temp_node_node_z->temp_node_y"
    /\ map tr_name (tables sq) = [lit "z"]
    /\ flagged sq = true
    /\ edgeKey (lit "temp_node_z") (id sq)
       = edgeKey (lit "temp_node_z->temp_node_y_union_0")
           (lit "temp_node_node_z->temp_node_y")
    /\ filter (fun e => str_eqb (target e) (id sq))
         (snd (buildFlowElements p)) = []
    /\ ~ has_in (snd (buildFlowElements p)) (id sq).
Proof.
  destruct (parseSQL 3 key_clash_script) as [p| |] eqn:E;
    [|vm_compute in E; discriminate E|vm_compute in E; discriminate E].
  vm_compute in E. inversion E; subst p; clear E.
  eexists. eexists. split; [reflexivity|].
  split; [cbn [ctes]; right; right; left; reflexivity|].
  split; [reflexivity|]. split; [reflexivity|]. split; [reflexivity|].
  split; [reflexivity|].
  assert (F : forall es t, filter (fun e => str_eqb (target e) t) es = [] ->
                           ~ has_in es t).
  { intros es t F0 (e & He & Et).
    assert (I : In e (filter (fun e => str_eqb (target e) t) es))
      by (apply filter_In; split; [exact He|]; rewrite Et;
          apply str_eqb_refl).
    rewrite F0 in I. exact I. }
  match goal with
  | |- ?A /\ _ => assert (N : A) by (vm_compute; reflexivity)
  end.
  split; [exact N | exact (F _ _ N)].
Qed.

(* ================================================================== *)
(** * The parser: the order of [allQueries] *)

Lemma bind_ok {A B : Type} (x : res A) (f : A -> res B) (b : B) :
  bind x f = Ok b -> exists a, x = Ok a /\ f a = Ok b.
Proof. destruct x; simpl; intros H; try discriminate. eauto. Qed.

Lemma parseSQL_allQueries (fuel : nat) (sql : str) (p : ParsedSQL) :
  parseSQL fuel sql = Ok p ->
  allQueries p = ctes p ++ subQueries p ++ [mainQuery p].
Proof.
  unfold parseSQL. intros H.
  apply bind_ok in H. destruct H as ([tempTables after] & _ & H).
  apply bind_ok in H. destruct H as ([rawCTEs remaining] & _ & H).
  apply bind_ok in H. destruct H as ([ctes1 sh1] & _ & H).
  apply bind_ok in H. destruct H as ([ctes2 sh2] & _ & H).
  apply bind_ok in H. destruct H as ([mainq sh3] & _ & H).
  inversion H. reflexivity.
Qed.

(** With one subquery, [allQueries] has the subquery before the main
    query, not after it. *)
Lemma parseSQL_allQueries_main_not_second :
  exists p,
    parseSQL 3 nested_script = Ok p
    /\ map id (allQueries p) = [lit "subquery_0"; lit "main"]
    /\ map id (ctes p ++ [mainQuery p] ++ subQueries p)
       = [lit "main"; lit "subquery_0"]
    /\ allQueries p <> ctes p ++ [mainQuery p] ++ subQueries p.
Proof.
  destruct (parseSQL 3 nested_script) as [p| |] eqn:E;
    [|vm_compute in E; discriminate E|vm_compute in E; discriminate E].
  exists p. split; [reflexivity|].
  vm_compute in E. inversion E; subst p; clear E.
  split; [reflexivity|]. split; [reflexivity|].
  intros H. apply (f_equal (map id)) in H. vm_compute in H. discriminate H.
Qed.

(* ================================================================== *)
(** * The parser: ids that coincide *)

(** C6 fails on a script that declares a temp table twice: both units
    get the id [temp_node_t]. *)
Lemma parseSQL_redeclared_temp_ids :
  exists p,
    parseSQL 2 redeclared_temp_script = Ok p
    /\ map id (ctes p) = [lit "temp_node_t"; lit "temp_node_t"]
    /\ ~ NoDup (map id (ctes p ++ subQueries p ++ [mainQuery p])).
Proof.
  destruct (parseSQL 2 redeclared_temp_script) as [p| |] eqn:E;
    [|vm_compute in E; discriminate E|vm_compute in E; discriminate E].
  exists p. split; [reflexivity|].
  vm_compute in E. inversion E; subst p; clear E.
  split; [reflexivity|].
  intros H. cbn [ctes subQueries mainQuery app map id] in H.
  inversion H as [|x l Hx _]; subst. apply Hx. left. reflexivity.
Qed.

(* ================================================================== *)
(** * The parser: a subquery that is parsed twice *)

(** C2 fails on a script where one body stands after FROM and after
    JOIN and has a subquery of its own: the script has two distinct
    subquery bodies and [subQueries] gets three entries, the third, for
    the JOIN, parsed from the text in which the inner subquery is already
    a placeholder, so that it has no table and no dependency. *)
Lemma parseSQL_twice_nested_subqueries :
  exists p,
    parseSQL 4 twice_nested_script = Ok p
    /\ map id (subQueries p)
       = [lit "subquery_1"; lit "subquery_0"; lit "subquery_2"]
    /\ map dependsOn (subQueries p) = [[]; [lit "subquery_1"]; []]
    /\ dependsOn (mainQuery p)
       = [lit "subquery_0"; lit "subquery_1"; lit "subquery_2"].
Proof.
  destruct (parseSQL 4 twice_nested_script) as [p| |] eqn:E;
    [|vm_compute in E; discriminate E|vm_compute in E; discriminate E].
  exists p. split; [reflexivity|].
  vm_compute in E. inversion E; subst p; clear E.
  repeat split; reflexivity.
Qed.

(* ================================================================== *)
(** * The parser: what [processSQL] returns and collects *)

Tactic Notation "bind_inv" hyp(H) "as" simple_intropattern(p) ident(E) :=
  apply bind_ok in H; destruct H as [p [E H]].

Lemma parseFlatSelect_headed (sql id0 name0 : str) (c s : bool)
  (known : list str) (q : SubQuery) :
  parseFlatSelect sql id0 name0 c s known = Ok q -> headed id0 name0 c s q.
Proof.
  unfold parseFlatSelect. intros H.
  bind_inv H as ui E1. bind_inv H as [unionParts ut] E2.
  bind_inv H as refs1 E3. bind_inv H as fs E4. bind_inv H as refs2 E5.
  bind_inv H as jms E6. bind_inv H as [refs js] E7.
  bind_inv H as w E8. bind_inv H as hv E9. bind_inv H as g E10.
  bind_inv H as o E11. inversion H. repeat split.
Qed.

Lemma fixupStep_headed (pb : list (str * str)) (known : list str)
  (q q' : SubQuery) (entry : str * SubInfo) (id0 name0 : str) (c s : bool) :
  fixupStep pb known q entry = Ok q' ->
  headed id0 name0 c s q -> headed id0 name0 c s q'.
Proof.
  unfold fixupStep. destruct entry as [ph info].
  destruct (map_get _ pb); [|discriminate].
  destruct (match match si_context info, si_joinType info,
                        si_joinCondition info with
                  | ctx_join, Some jt, Some jc =>
                      if truthy jt && truthy jc then Some (jt, jc) else None
                  | _, _, _ => None
                  end with
            | Some (jt, jc) => _
            | None => _
            end) as [ts js].
  intros H. inversion H. exact (fun x => x).
Qed.

Lemma fixup_headed (pb : list (str * str)) (known : list str)
  (subs : list (str * SubInfo)) (id0 name0 : str) (c s : bool) :
  forall q q', fixup pb known q subs = Ok q' ->
               headed id0 name0 c s q -> headed id0 name0 c s q'.
Proof.
  induction subs as [|e subs IH]; simpl; intros q q' H Hq.
  - inversion H; subst. exact Hq.
  - bind_inv H as q1 E1. eapply IH; [exact H|].
    eapply fixupStep_headed; eassumption.
Qed.

Lemma processSQL_headed (fuel : nat) (sql id0 name0 : str) (c s : bool)
  (known : list str) (sh sh' : Shared) (q : SubQuery) :
  processSQL fuel sql id0 name0 c s known sh = Ok (q, sh') ->
  headed id0 name0 c s q.
Proof.
  destruct fuel as [|fuel]; simpl; [discriminate|]. intros H.
  bind_inv H as r E1. bind_inv H as [known1 sh1] E2.
  bind_inv H as [parts ut] E3.
  destruct ((1 <? length parts) && isComplex parts); [destruct ut|].
  - bind_inv H as [ids sh2] E4. inversion H. repeat split.
  - bind_inv H as fq E4. bind_inv H as q1 E5. inversion H; subst.
    eapply fixup_headed; [eassumption|].
    eapply parseFlatSelect_headed; eassumption.
  - bind_inv H as fq E4. bind_inv H as q1 E5. inversion H; subst.
    eapply fixup_headed; [eassumption|].
    eapply parseFlatSelect_headed; eassumption.
Qed.

Lemma eachSub_collects (rec : Process) (subs : list (str * SubInfo)) :
  collects rec ->
  forall known sh known' sh',
    eachSub rec subs known sh = Ok (known', sh') ->
    incl (subQueryCollector sh) (subQueryCollector sh').
Proof.
  intros R. induction subs as [|[ph info] subs IH]; simpl;
    intros known sh known' sh' H.
  - inversion H. apply incl_refl.
  - bind_inv H as [subId sh1] E.
    apply IH in H. intros b Hb. apply H.
    destruct (defined (map_get _ (processedBodies sh))).
    + inversion E; subst. exact Hb.
    + bind_inv E as [sub sh2] E0. inversion E; subst. simpl.
      apply in_app_iff. left. apply (R _ _ _ _ _ _ _ _ _ E0). exact Hb.
Qed.

Lemma unionBranches_collects (rec : Process) (id0 name0 : str)
  (known : list str) (parts : list str) :
  collects rec ->
  forall i acc sh ids sh',
    unionBranches rec id0 name0 known parts i acc sh = Ok (ids, sh') ->
    incl (subQueryCollector sh) (subQueryCollector sh').
Proof.
  intros R. induction parts as [|part parts IH]; simpl;
    intros i acc sh ids sh' H.
  - inversion H. apply incl_refl.
  - bind_inv H as [b sh1] E. apply IH in H.
    intros y Hy. apply H. simpl. apply in_app_iff. left.
    apply (R _ _ _ _ _ _ _ _ _ E). exact Hy.
Qed.

Lemma processSQL_collects (fuel : nat) : collects (processSQL fuel).
Proof.
  induction fuel as [|fuel IH]; intros sql id0 name0 c s known sh q sh';
    simpl; [discriminate|]. intros H.
  bind_inv H as r E1. bind_inv H as [known1 sh1] E2.
  pose proof (@eachSub_collects _ (rp_subs r) IH _ _ _ _ E2) as Inc.
  bind_inv H as [parts ut] E3.
  assert (Flat :
            (fq <- parseFlatSelect (rp_result r) id0 name0 c s known1 ;;
             q0 <- fixup (processedBodies sh1) known1 fq (rp_subs r) ;;
             Ok (q0, sh1)) = Ok (q, sh') ->
            incl (subQueryCollector sh) (subQueryCollector sh')).
  { intros F. bind_inv F as fq E4. bind_inv F as q1 E5.
    inversion F; subst. exact Inc. }
  destruct ((1 <? length parts) && isComplex parts); [destruct ut|].
  - bind_inv H as [ids sh2] E4. inversion H; subst.
    pose proof (@unionBranches_collects _ id0 name0 known1 parts IH
                  _ _ _ _ _ E4) as Inc2.
    intros y Hy. apply Inc2, Inc. exact Hy.
  - apply (Flat H).
  - apply (Flat H).
Qed.

(** The branches of a complex union: the ids are those of the branches
    in order, and every branch is processed and collected. *)
Lemma unionBranches_spec (rec : Process) (id0 name0 : str)
  (known : list str) (parts : list str) :
  collects rec ->
  forall i acc sh ids sh',
    unionBranches rec id0 name0 known parts i acc sh = Ok (ids, sh') ->
    ids = acc ++ map (branchIdOf id0) (seq i (length parts))
    /\ forall j part,
         nth_error parts j = Some part ->
         exists b shj shj',
           In b (subQueryCollector sh')
           /\ rec part (branchIdOf id0 (i + j)) (branchNameOf name0 (i + j))
                false true known shj = Ok (b, shj').
Proof.
  intros R. induction parts as [|part parts IH]; simpl;
    intros i acc sh ids sh' H.
  - inversion H; subst. split; [symmetry; apply app_nil_r|].
    intros [|j] p Hp; discriminate.
  - bind_inv H as [b sh1] E.
    pose proof (@unionBranches_collects _ id0 name0 known parts R
                  _ _ _ _ _ H) as Inc.
    destruct (IH _ _ _ _ _ H) as [Eids Rest]. split.
    + rewrite Eids, <- app_assoc. reflexivity.
    + intros [|j] p Hp.
      * inversion Hp; subst p. exists b, sh, sh1. rewrite Nat.add_0_r.
        split; [|exact E]. apply Inc. simpl. apply in_app_iff. simpl. auto.
      * destruct (Rest j p Hp) as (b' & shj & shj' & Hb' & Hr).
        exists b', shj, shj'. rewrite <- Nat.add_succ_comm. auto.
Qed.

(** More than one part means that an operator was met. *)
Lemma splitByUnion_loop_type (fuel : nat) (sql : str) :
  forall i depth current parts det ps ut,
    splitByUnion_loop fuel sql i depth current parts det = Ok (ps, ut) ->
    (parts <> [] -> det <> None) ->
    1 < length ps -> ut <> None.
Proof.
  induction fuel as [|fuel IH]; intros i depth current parts det ps ut;
    simpl; [discriminate|].
  destruct (nth_error sql i) as [c|].
  - set (d := if ch_eqb c c_rparen then _ else _).
    destruct (if (d =? 0)%Z then exec re_union_all _ else None) as [ua|];
      [|destruct (if (d =? 0)%Z then exec re_union _ else None) as [u|]];
      intros H D L; eapply IH; try exact H; try exact L; try exact D;
      discriminate.
  - intros H D L. inversion H; subst. apply Nat.ltb_lt in L. rewrite L.
    apply Nat.ltb_lt in L. apply D.
    destruct (truthy (trim current)); unfold push_trimmed in L.
    + rewrite length_app in L. simpl in L. destruct parts; simpl in L;
        [lia | discriminate].
    + destruct parts; simpl in L; [lia | discriminate].
Qed.

Lemma splitByUnion_type (sql : str) (ps : list str) (ut : option UnionType) :
  splitByUnion sql = Ok (ps, ut) -> 1 < length ps -> exists t, ut = Some t.
Proof.
  intros H L. destruct ut as [t|]; [eauto|]. exfalso.
  refine (@splitByUnion_loop_type _ _ _ _ _ _ _ _ _ H _ L eq_refl).
  intros X. contradiction.
Qed.

(** C8.  When the normalized body splits into more than one top-level
    union branch and a branch holds GROUP BY, JOIN, WHERE, HAVING or a
    nested (SELECT, the unit [processSQL] returns depends on exactly the
    branch ids in order, has them as its union sources, has no table,
    field, join or filter of its own, and every branch is in the
    collector as a unit processed from the branch text under its branch
    id. *)
Theorem processSQL_complex_union (fuel : nat) (sql id0 name0 : str)
  (c s : bool) (known : list str) (sh sh' : Shared) (q : SubQuery)
  (parts : list str) (ut : option UnionType) :
  splitByUnion (normalizeWhitespace sql) = Ok (parts, ut) ->
  1 < length parts ->
  isComplex parts = true ->
  processSQL fuel sql id0 name0 c s known sh = Ok (q, sh') ->
  let ids := map (branchIdOf id0) (seq 0 (length parts)) in
  dependsOn q = ids
  /\ (exists t, ut = Some t /\ unionInfo q = Some (mkUnionInfo t ids))
  /\ tables q = [] /\ fields q = [] /\ joins q = [] /\ filters q = []
  /\ forall i part,
       nth_error parts i = Some part ->
       exists b,
         In b (subQueryCollector sh')
         /\ id b = branchIdOf id0 i /\ isSubQuery b = true
         /\ exists known' shi shi',
              processSQL (fuel - 1) part (branchIdOf id0 i)
                (branchNameOf name0 i) false true known' shi = Ok (b, shi').
Proof.
  intros Hs L C H ids. destruct fuel as [|fuel]; simpl in H; [discriminate|].
  bind_inv H as r E0. bind_inv H as [known1 sh1] E2.
  rewrite Hs in H. simpl in H.
  apply Nat.ltb_lt in L. rewrite L, C in H. simpl in H.
  apply Nat.ltb_lt in L.
  destruct (@splitByUnion_type _ _ _ Hs L) as [t ->].
  bind_inv H as [ids' sh2] E1. inversion H; subst q sh2; clear H.
  destruct (@unionBranches_spec _ id0 name0 known1 parts
              (processSQL_collects fuel) _ _ _ _ _ E1) as [Eids Each].
  simpl in Eids. subst ids'. simpl.
  split; [reflexivity|]. split; [exists t; split; reflexivity|].
  repeat (split; [reflexivity|]).
  intros i part Hp. destruct (Each i part Hp) as (b & shj & shj' & Hb & Hr).
  simpl in Hr. exists b. split; [exact Hb|].
  destruct (@processSQL_headed _ _ _ _ _ _ _ _ _ _ Hr)
    as (Hid & _ & _ & Hsub).
  split; [exact Hid|]. split; [exact Hsub|].
  exists known1, shj, shj'. rewrite Nat.sub_0_r. exact Hr.
Qed.

Lemma processSQL_complex_union_witness :
  exists q sh',
    processSQL 3 complex_union_script (lit "main") mainLabel false false []
      (mkShared [] 0 []) = Ok (q, sh')
    /\ dependsOn q = [lit "main_union_0"; lit "main_union_1"]
    /\ tables q = [] /\ fields q = [] /\ joins q = [] /\ filters q = []
    /\ exists b, In b (subQueryCollector sh') /\ id b = lit "main_union_1".
Proof.
  destruct (processSQL 3 complex_union_script (lit "main") mainLabel false
              false [] (mkShared [] 0 [])) as [[q sh']| |] eqn:E;
    [|vm_compute in E; discriminate E|vm_compute in E; discriminate E].
  exists q, sh'. split; [reflexivity|].
  destruct (@processSQL_complex_union 3 complex_union_script (lit "main")
              mainLabel false false [] (mkShared [] 0 []) sh' q
              [lit "SELECT a FROM t WHERE x = 1"; lit "SELECT b FROM u"]
              (Some UNION))
    as (D & _ & T & F & J & Fl & Each).
  - vm_compute. reflexivity.
  - simpl. lia.
  - vm_compute. reflexivity.
  - exact E.
  - split; [exact D|]. repeat (split; [assumption|]).
    destruct (Each 1 (lit "SELECT b FROM u") eq_refl) as (b & Hb & Hid & _).
    exists b. split; [exact Hb | exact Hid].
Defined.

(* ================================================================== *)
(** * The matcher: where a match lies *)

Lemma adv_refl (st : state) : adv 0 st st.
Proof. unfold adv. rewrite Nat.add_0_r. simpl. repeat split. lia. Qed.

Lemma adv_trans (k1 k2 : nat) (st st1 st2 : state) :
  adv k1 st st1 -> adv k2 st1 st2 -> adv (k1 + k2) st st2.
Proof.
  intros (P1 & R1 & L1) (P2 & R2 & L2). unfold adv.
  rewrite P2, P1, R2, R1, skipn_skipn.
  rewrite R1, length_skipn in L2.
  repeat split; try lia. f_equal. lia.
Qed.

Lemma adv_pos (k : nat) (st st' : state) : adv k st st' -> pos st <= pos st'.
Proof. intros (P & _). lia. Qed.

Lemma star_loop_adv (run0 : state -> caps -> list (state * caps))
  (greedy : bool) :
  (forall st c st' c', In (st', c') (run0 st c) -> exists k, adv k st st') ->
  forall n st c st' c',
    In (st', c') (star_loop run0 greedy n st c) -> exists k, adv k st st'.
Proof.
  intros H0. induction n as [|n IH]; simpl; intros st c st' c' H.
  - destruct H as [H|[]]. inversion H; subst. exists 0. apply adv_refl.
  - assert (More : forall l,
               l = flat_map
                     (fun sc => if pos (fst sc) =? pos st then []
                                else star_loop run0 greedy n (fst sc) (snd sc))
                     (run0 st c) ->
               In (st', c') l -> exists k, adv k st st').
    { intros l -> Hl. apply in_flat_map in Hl.
      destruct Hl as ([st1 c1] & H1 & H2). simpl in H2.
      destruct (pos st1 =? pos st); [destruct H2|].
      destruct (H0 _ _ _ _ H1) as [k1 A1].
      destruct (IH _ _ _ _ H2) as [k2 A2].
      exists (k1 + k2). eapply adv_trans; eassumption. }
    destruct greedy.
    + apply in_app_iff in H. destruct H as [H|[H|[]]].
      * eapply More; [reflexivity | exact H].
      * inversion H; subst. exists 0. apply adv_refl.
    + destruct H as [H|H].
      * inversion H; subst. exists 0. apply adv_refl.
      * eapply More; [reflexivity | exact H].
Qed.

(** A match of [r] moves on by at least [min_len r]. *)
Lemma run_adv (r : regex) :
  forall st c st' c',
    In (st', c') (run r st c) -> exists k, adv k st st' /\ min_len r <= k.
Proof.
  induction r as [|p|r1 IH1 r2 IH2|r1 IH1 r2 IH2|g r0 IH|g r0 IH|b r0 IH| | | |];
    simpl; intros st c st' c' H.
  - destruct H as [H|[]]. inversion H; subst. exists 0.
    split; [apply adv_refl | lia].
  - unfold step in H. destruct (rest st) as [|x t] eqn:R; [destruct H|].
    destruct (p x); [|destruct H]. destruct H as [H|[]].
    inversion H; subst. exists 1. split; [|lia].
    unfold adv. simpl. rewrite R. simpl. repeat split; lia.
  - apply in_flat_map in H. destruct H as ([st1 c1] & H1 & H2). simpl in H2.
    destruct (IH1 _ _ _ _ H1) as (k1 & A1 & M1).
    destruct (IH2 _ _ _ _ H2) as (k2 & A2 & M2).
    exists (k1 + k2). split; [eapply adv_trans; eassumption | lia].
  - apply in_app_iff in H. destruct H as [H|H].
    + destruct (IH1 _ _ _ _ H) as (k & A & M). exists k. split; [exact A|lia].
    + destruct (IH2 _ _ _ _ H) as (k & A & M). exists k. split; [exact A|lia].
  - destruct (@star_loop_adv (run r0) g) with (n := length (rest st))
      (st := st) (c := c) (st' := st') (c' := c') as [k A].
    + intros s1 c1 s2 c2 H1. destruct (IH _ _ _ _ H1) as (k & A & _). eauto.
    + exact H.
    + exists k. split; [exact A | lia].
  - apply in_map_iff in H. destruct H as ([st1 c1] & E & H1).
    inversion E; subst. simpl. apply (IH _ _ _ _ H1).
  - exists 0. split; [|lia].
    destruct (run r0 st c); destruct b; simpl in H; try contradiction;
      destruct H as [H|[]]; inversion H; subst; apply adv_refl.
  - destruct (prev st); [destruct H|]. destruct H as [H|[]].
    inversion H; subst. exists 0. split; [apply adv_refl | lia].
  - destruct (rest st); [|destruct H]. destruct H as [H|[]].
    inversion H; subst. exists 0. split; [apply adv_refl | lia].
  - exists 0. split; [|lia].
    destruct (rest st) as [|x t]; [|destruct (is_newline x); [|destruct H]];
      destruct H as [H|[]]; inversion H; subst; apply adv_refl.
  - destruct (xorb _ _); [|destruct H]. destruct H as [H|[]].
    inversion H; subst. exists 0. split; [apply adv_refl | lia].
Qed.

Lemma caps_within_wider (lo hi lo' hi' : nat) (c : caps) :
  lo' <= lo -> hi <= hi' -> caps_within lo hi c -> caps_within lo' hi' c.
Proof.
  intros L H W g a b I. destruct (W g a b I) as (X & Y & Z).
  repeat split; lia.
Qed.

Lemma caps_within_app (lo hi : nat) (c1 c2 : caps) :
  caps_within lo hi c1 -> caps_within lo hi c2 -> caps_within lo hi (c1 ++ c2).
Proof.
  intros W1 W2 g a b I. apply in_app_iff in I. destruct I; eauto.
Qed.

Lemma caps_within_nil (lo hi : nat) : caps_within lo hi [].
Proof. intros g a b []. Qed.

Lemma adds_within_refl (st : state) (c : caps) : adds_within st st c c.
Proof. exists []. split; [reflexivity | apply caps_within_nil]. Qed.

Lemma adds_within_trans (st st1 st2 : state) (c c1 c2 : caps) :
  pos st <= pos st1 -> pos st1 <= pos st2 ->
  adds_within st st1 c c1 -> adds_within st1 st2 c1 c2 ->
  adds_within st st2 c c2.
Proof.
  intros L1 L2 (n1 & -> & W1) (n2 & -> & W2). exists (n2 ++ n1).
  split; [apply app_assoc|]. apply caps_within_app.
  - eapply caps_within_wider; [| |exact W2]; lia.
  - eapply caps_within_wider; [| |exact W1]; lia.
Qed.

Lemma star_loop_caps (run0 : state -> caps -> list (state * caps))
  (greedy : bool) :
  (forall st c st' c', In (st', c') (run0 st c) ->
                       pos st <= pos st' /\ adds_within st st' c c') ->
  forall n st c st' c',
    In (st', c') (star_loop run0 greedy n st c) ->
    pos st <= pos st' /\ adds_within st st' c c'.
Proof.
  intros H0. induction n as [|n IH]; simpl; intros st c st' c' H.
  - destruct H as [H|[]]. inversion H; subst.
    split; [lia | apply adds_within_refl].
  - assert (More : forall l,
               l = flat_map
                     (fun sc => if pos (fst sc) =? pos st then []
                                else star_loop run0 greedy n (fst sc) (snd sc))
                     (run0 st c) ->
               In (st', c') l ->
               pos st <= pos st' /\ adds_within st st' c c').
    { intros l -> Hl. apply in_flat_map in Hl.
      destruct Hl as ([st1 c1] & H1 & H2). simpl in H2.
      destruct (pos st1 =? pos st); [destruct H2|].
      destruct (H0 _ _ _ _ H1) as [L1 A1].
      destruct (IH _ _ _ _ H2) as [L2 A2].
      split; [lia|]. eapply adds_within_trans; eassumption. }
    destruct greedy.
    + apply in_app_iff in H. destruct H as [H|[H|[]]].
      * eapply More; [reflexivity | exact H].
      * inversion H; subst. split; [lia | apply adds_within_refl].
    + destruct H as [H|H].
      * inversion H; subst. split; [lia | apply adds_within_refl].
      * eapply More; [reflexivity | exact H].
Qed.

Lemma run_caps (r : regex) :
  forall st c st' c',
    In (st', c') (run r st c) -> adds_within st st' c c'.
Proof.
  induction r as [|p|r1 IH1 r2 IH2|r1 IH1 r2 IH2|g r0 IH|g r0 IH|b r0 IH| | | |];
    intros st c st' c' H;
    try (pose proof (@run_adv _ _ _ _ _ H) as (k0 & A0 & _));
    simpl in H.
  - destruct H as [H|[]]. inversion H; subst. apply adds_within_refl.
  - unfold step in H. destruct (rest st) as [|x t] eqn:R; [destruct H|].
    destruct (p x); [|destruct H]. destruct H as [H|[]].
    inversion H; subst. exists []. split; [reflexivity|apply caps_within_nil].
  - apply in_flat_map in H. destruct H as ([st1 c1] & H1 & H2). simpl in H2.
    destruct (@run_adv _ _ _ _ _ H1) as (k1 & A1 & _).
    destruct (@run_adv _ _ _ _ _ H2) as (k2 & A2 & _).
    eapply adds_within_trans;
      [exact (adv_pos A1) | exact (adv_pos A2) | eauto | eauto].
  - apply in_app_iff in H. destruct H as [H|H]; eauto.
  - eapply (@star_loop_caps (run r0) g); [|exact H].
    intros s1 c1 s2 c2 H1. destruct (@run_adv _ _ _ _ _ H1) as (k1 & A1 & _).
    split; [exact (adv_pos A1) | eauto].
  - apply in_map_iff in H. destruct H as ([st1 c1] & E & H1).
    inversion E; subst. simpl in *.
    destruct (IH _ _ _ _ H1) as (new & -> & W).
    destruct (@run_adv _ _ _ _ _ H1) as (k1 & A1 & _).
    pose proof (adv_pos A1) as L.
    exists ((g, (pos st, pos st')) :: new). split; [reflexivity|].
    intros g' a b [I|I]; [inversion I; subst; lia | eauto].
  - destruct (run r0 st c); destruct b; simpl in H; try contradiction;
      destruct H as [H|[]]; inversion H; subst; apply adds_within_refl.
  - destruct (prev st); [destruct H|]. destruct H as [H|[]].
    inversion H; subst. apply adds_within_refl.
  - destruct (rest st); [|destruct H]. destruct H as [H|[]].
    inversion H; subst. apply adds_within_refl.
  - destruct (rest st) as [|x t]; [|destruct (is_newline x); [|destruct H]];
      destruct H as [H|[]]; inversion H; subst; apply adds_within_refl.
  - destruct (xorb _ _); [|destruct H]. destruct H as [H|[]].
    inversion H; subst. apply adds_within_refl.
Qed.

(** The leftmost match from a position. *)
Lemma search_at_spec (r : regex) :
  forall s p pv m,
    search_at r p pv s = Some m ->
    p <= index m
    /\ index m + min_len r <= stop m
    /\ stop m <= p + length s
    /\ caps_within (index m) (stop m) (groups m).
Proof.
  induction s as [|x t IH]; intros p pv m; simpl.
  - destruct (run r (St p pv []) []) as [|[st' c] l] eqn:R; [discriminate|].
    intros H. inversion H; subst; clear H. simpl.
    assert (I : In (st', c) (run r (St p pv []) [])) by (rewrite R; simpl; auto).
    destruct (@run_adv _ _ _ _ _ I) as (k & (P & _ & L) & M).
    destruct (@run_caps _ _ _ _ _ I) as (new & E & W).
    simpl in *. rewrite app_nil_r in E. subst new.
    refine (conj _ (conj _ (conj _ W))); lia.
  - destruct (run r (St p pv (x :: t)) []) as [|[st' c] l] eqn:R.
    + intros H. destruct (IH _ _ _ H) as (A & B & C & D).
      refine (conj _ (conj _ (conj _ D))); lia.
    + intros H. inversion H; subst; clear H. simpl.
      assert (I : In (st', c) (run r (St p pv (x :: t)) []))
        by (rewrite R; simpl; auto).
      destruct (@run_adv _ _ _ _ _ I) as (k & (P & _ & L) & M).
      destruct (@run_caps _ _ _ _ _ I) as (new & E & W).
      simpl in *. rewrite app_nil_r in E. subst new.
      refine (conj _ (conj _ (conj _ W))); lia.
Qed.

Lemma exec_from_spec (r : regex) (from : nat) (s : str) (m : rmatch) :
  exec_from r from s = Some m -> match_of r from s m.
Proof.
  unfold exec_from, match_of, state_at.
  destruct (length s <? from) eqn:L; [discriminate|]. simpl.
  apply Nat.ltb_ge in L. intros H.
  destruct (@search_at_spec _ _ _ _ _ H) as (A & B & C & D).
  rewrite length_skipn in C. refine (conj _ (conj _ (conj _ D))); lia.
Qed.

Lemma exec_spec (r : regex) (s : str) (m : rmatch) :
  exec r s = Some m -> match_of r 0 s m.
Proof. apply exec_from_spec. Qed.

(** An anchored pattern matches at the start only. *)
Lemma anchored_bol (r : regex) : anchored (Seq Bol r).
Proof.
  intros st c H. simpl. destruct (prev st); [reflexivity | contradiction].
Qed.

Lemma search_at_anchored (r : regex) :
  anchored r -> forall s p x, search_at r p (Some x) s = None.
Proof.
  intros A. induction s as [|y t IH]; intros p x; simpl;
    rewrite A by (simpl; discriminate); [reflexivity | apply IH].
Qed.

Lemma exec_anchored (r : regex) (s : str) (m : rmatch) :
  anchored r -> exec r s = Some m -> index m = 0.
Proof.
  intros A. unfold exec, exec_from, state_at. simpl.
  destruct s as [|x t]; simpl.
  - destruct (run r (St 0 None []) []) as [|[st' c] l]; [discriminate|].
    intros H. inversion H. reflexivity.
  - destruct (run r (St 0 None (x :: t)) []) as [|[st' c] l].
    + rewrite (search_at_anchored A). discriminate.
    + intros H. inversion H. reflexivity.
Qed.

(** The successive matches of a pattern that cannot match the empty
    string: the search loop ends within its bound. *)
Lemma exec_loop_total (r : regex) (s : str) :
  1 <= min_len r ->
  forall fuel from,
    from <= length s -> length s + 2 <= fuel + from ->
    exists ms, exec_loop fuel r from s = Ok ms
               /\ Forall (match_of r 0 s) ms.
Proof.
  intros M. induction fuel as [|fuel IH]; intros from L F; [lia|]. simpl.
  destruct (exec_from r from s) as [m|] eqn:E.
  - destruct (exec_from_spec _ _ _ E) as (A & B & C & D).
    destruct (IH (stop m)) as (ms & -> & All); [lia | lia |].
    exists (m :: ms). split; [reflexivity|]. constructor; [|exact All].
    refine (conj _ (conj _ (conj _ D))); lia.
  - exists []. split; [reflexivity | constructor].
Qed.

Lemma exec_all_total (r : regex) (s : str) :
  1 <= min_len r ->
  exists ms, exec_all r s = Ok ms /\ Forall (match_of r 0 s) ms.
Proof. intros M. apply exec_loop_total; [exact M | lia | lia]. Qed.

(** ** The groups a match is sure to have *)

Lemma lookup_app_keeps (k : nat) (new c : caps) :
  lookup k c <> None -> lookup k (new ++ c) <> None.
Proof.
  intros H. induction new as [|[k' se] new IH]; simpl; [exact H|].
  destruct (k' =? k); [discriminate | exact IH].
Qed.

Lemma run_defines (r : regex) :
  forall st c st' c',
    In (st', c') (run r st c) ->
    forall k, In k (defines r) -> lookup k c' <> None.
Proof.
  induction r as [|p|r1 IH1 r2 IH2|r1 IH1 r2 IH2|g r0 IH|g r0 IH|b r0 IH| | | |];
    simpl; intros st c st' c' H k Hk; try contradiction.
  - apply in_flat_map in H. destruct H as ([st1 c1] & H1 & H2). simpl in H2.
    apply in_app_iff in Hk. destruct Hk as [Hk|Hk].
    + destruct (@run_caps _ _ _ _ _ H2) as (new & -> & _).
      apply lookup_app_keeps. exact (IH1 _ _ _ _ H1 k Hk).
    + exact (IH2 _ _ _ _ H2 k Hk).
  - apply filter_In in Hk. destruct Hk as [Hk1 Hk2].
    apply existsb_exists in Hk2. destruct Hk2 as (x & Hx & E).
    apply Nat.eqb_eq in E. subst x.
    apply in_app_iff in H. destruct H as [H|H]; eauto.
  - apply in_map_iff in H. destruct H as ([st1 c1] & E & H1).
    inversion E; subst. simpl. destruct (g =? k) eqn:G; [discriminate|].
    destruct Hk as [Hk|Hk]; [subst; rewrite Nat.eqb_refl in G; discriminate|].
    exact (IH _ _ _ _ H1 k Hk).
Qed.

Lemma search_at_defines (r : regex) (k : nat) :
  In k (defines r) ->
  forall s p pv m,
    search_at r p pv s = Some m -> lookup k (groups m) <> None.
Proof.
  intros Hk. induction s as [|x t IH]; intros p pv m; simpl.
  - destruct (run r (St p pv []) []) as [|[st' c] l] eqn:R; [discriminate|].
    intros H. inversion H; subst; clear H. simpl.
    eapply run_defines; [|exact Hk]. rewrite R. left. reflexivity.
  - destruct (run r (St p pv (x :: t)) []) as [|[st' c] l] eqn:R.
    + apply IH.
    + intros H. inversion H; subst; clear H. simpl.
      eapply run_defines; [|exact Hk]. rewrite R. left. reflexivity.
Qed.

Lemma exec_from_defines (r : regex) (k from : nat) (s : str) (m : rmatch) :
  In k (defines r) -> exec_from r from s = Some m ->
  exists g, group s m k = Some g.
Proof.
  intros Hk. unfold exec_from, group.
  destruct (length s <? from); [discriminate|]. intros H.
  pose proof (@search_at_defines _ _ Hk _ _ _ _ H) as L.
  destruct (lookup k (groups m)) as [[a b]|]; [eauto | contradiction].
Qed.

(** A group on the way of every match is defined: reading it as a
    string does not throw. *)
Lemma exec_defines (r : regex) (k : nat) (s : str) (m : rmatch) :
  In k (defines r) -> exec r s = Some m ->
  exists g, must (group s m k) = Ok g /\ group_or_empty s m k = g.
Proof.
  intros Hk H. destruct (@exec_from_defines _ _ _ _ _ Hk H) as [g E].
  exists g. unfold group_or_empty. rewrite E. split; reflexivity.
Qed.

Lemma exec_loop_defines (r : regex) (k : nat) (s : str) :
  In k (defines r) ->
  forall fuel from ms,
    exec_loop fuel r from s = Ok ms ->
    Forall (fun m => exists g, must (group s m k) = Ok g) ms.
Proof.
  intros Hk. induction fuel as [|fuel IH]; intros from ms; simpl;
    [discriminate|].
  destruct (exec_from r from s) as [m|] eqn:E.
  - destruct (exec_loop fuel r (stop m) s) as [ms'| |] eqn:E'; simpl;
      intros H; inversion H; subst.
    constructor; [|exact (IH _ _ E')].
    destruct (@exec_from_defines _ _ _ _ _ Hk E) as [g G]. exists g.
    rewrite G. reflexivity.
  - intros H. inversion H. constructor.
Qed.

Ltac group_defined := vm_compute; tauto.

Lemma exec_all_defines (r : regex) (k : nat) (s : str) (ms : list rmatch) :
  In k (defines r) -> exec_all r s = Ok ms ->
  Forall (fun m => exists g, must (group s m k) = Ok g) ms.
Proof. intros Hk. apply exec_loop_defines. exact Hk. Qed.

(** A loop whose body returns on every element returns. *)
Lemma fold_res_total {A B : Type} (f : A -> B -> res A) (l : list B) :
  (forall a b, In b l -> exists a', f a b = Ok a') ->
  forall a, exists x, fold_res f l a = Ok x.
Proof.
  induction l as [|b l IH]; intros H a; simpl; [eauto|].
  destruct (H a b (or_introl eq_refl)) as [a' ->]. cbn [bind].
  apply IH. intros a0 b0 Hb. apply H. right. exact Hb.
Qed.

(* ================================================================== *)
(** * Counting closing parentheses *)

Lemma closers_app (a b : str) : closers (a ++ b) = closers a + closers b.
Proof. unfold closers. rewrite filter_app, length_app. reflexivity. Qed.

Lemma closers_rev (a : str) : closers (rev a) = closers a.
Proof. unfold closers. rewrite filter_rev, length_rev. reflexivity. Qed.

Lemma closers_split (n : nat) (s : str) :
  closers_upto s n + closers (skipn n s) = closers s.
Proof.
  unfold closers_upto. rewrite <- closers_app, firstn_skipn. reflexivity.
Qed.

Lemma closers_upto_le (n : nat) (s : str) : closers_upto s n <= closers s.
Proof. pose proof (closers_split n s). lia. Qed.

Lemma firstn_split (a b : nat) (s : str) :
  a <= b -> firstn b s = firstn a s ++ firstn (b - a) (skipn a s).
Proof.
  intros L. rewrite <- (firstn_skipn a (firstn b s)) at 1.
  rewrite firstn_firstn, skipn_firstn_comm.
  replace (Nat.min a b) with a by lia. reflexivity.
Qed.

Lemma substring_le (a b : nat) (s : str) :
  a <= b -> substring a b s = firstn (b - a) (skipn a s).
Proof.
  intros L. unfold substring.
  destruct (Nat.le_gt_cases (length s) a) as [A|A].
  - rewrite (skipn_all2 s A), firstn_nil.
    replace (Nat.min a (length s)) with (length s) by lia.
    replace (Nat.min b (length s)) with (length s) by lia.
    replace (Nat.max (length s) (length s) - Nat.min (length s) (length s))
      with 0 by lia. reflexivity.
  - replace (Nat.min a (length s)) with a by lia.
    destruct (Nat.le_gt_cases (length s) b) as [B|B].
    + replace (Nat.min b (length s)) with (length s) by lia.
      replace (Nat.min a (length s)) with a by lia.
      replace (Nat.max a (length s) - a) with (length s - a) by lia.
      rewrite !firstn_all2; try reflexivity; rewrite length_skipn; lia.
    + replace (Nat.min b (length s)) with b by lia.
      replace (Nat.min a b) with a by lia.
      replace (Nat.max a b) with b by lia. reflexivity.
Qed.

Lemma closers_substring (a b : nat) (s : str) :
  a <= b -> closers (substring a b s) + closers_upto s a = closers_upto s b.
Proof.
  intros L. rewrite (substring_le s L). unfold closers_upto.
  rewrite (firstn_split s L), closers_app. lia.
Qed.

Lemma closers_upto_mono (a b : nat) (s : str) :
  a <= b -> closers_upto s a <= closers_upto s b.
Proof. intros L. pose proof (closers_substring s L). lia. Qed.

Lemma closers_upto_closer (n : nat) (s : str) :
  nth_error s n = Some c_rparen ->
  closers_upto s (S n) = closers_upto s n + 1.
Proof.
  intros H. unfold closers_upto.
  rewrite (@firstn_split n (S n) s) by lia. rewrite closers_app.
  replace (S n - n) with 1 by lia.
  rewrite <- (firstn_skipn_middle _ _ H) at 2.
  rewrite skipn_app, skipn_all2 by (rewrite length_firstn; lia).
  rewrite length_firstn.
  assert (n < length s) by (apply nth_error_Some; congruence).
  replace (n - Nat.min n (length s)) with 0 by lia. reflexivity.
Qed.

Lemma length_substring (a b : nat) (s : str) :
  a <= b -> b <= length s -> length (substring a b s) = b - a.
Proof.
  intros L B. rewrite (substring_le s L), length_firstn, length_skipn. lia.
Qed.

Lemma length_substring_le (a b : nat) (s : str) :
  a <= b -> length (substring a b s) <= b - a.
Proof.
  intros L. rewrite (substring_le s L), length_firstn. lia.
Qed.

Lemma closers_trimStart (s : str) : closers (trimStart s) <= closers s.
Proof.
  induction s as [|c s IH]; simpl; [lia|].
  destruct (is_space c); [|lia].
  change (c :: s) with ([c] ++ s). rewrite closers_app. lia.
Qed.

Lemma closers_trim (s : str) : closers (trim s) <= closers s.
Proof.
  unfold trim, trimEnd. rewrite closers_rev.
  etransitivity; [apply closers_trimStart|]. rewrite closers_rev.
  apply closers_trimStart.
Qed.

Lemma length_trimStart (s : str) : length (trimStart s) <= length s.
Proof.
  induction s as [|c s IH]; simpl; [lia|]. destruct (is_space c); simpl; lia.
Qed.

Lemma length_trim (s : str) : length (trim s) <= length s.
Proof.
  unfold trim, trimEnd. rewrite length_rev.
  etransitivity; [apply length_trimStart|]. rewrite length_rev.
  apply length_trimStart.
Qed.

Lemma closers_digits (d : Decimal.uint) :
  closers (lit (NilEmpty.string_of_uint d)) = 0.
Proof. induction d; simpl; try reflexivity; exact IHd. Qed.

Lemma closers_of_nat (n : nat) : closers (of_nat n) = 0.
Proof.
  unfold of_nat, NilZero.string_of_uint.
  destruct (Nat.to_uint n); try reflexivity; apply closers_digits.
Qed.

Lemma closers_placeholder (n : nat) : closers (placeholderOf n) = 0.
Proof.
  unfold placeholderOf. rewrite !closers_app, closers_of_nat. reflexivity.
Qed.

(* ================================================================== *)
(** * [findMatchingParen] *)

Lemma findMatchingParen_loop_spec (t : str) :
  forall i depth close,
    findMatchingParen_loop t i depth = Some close ->
    i <= close
    /\ ((depth <= 0)%Z -> i < close)
    /\ nth_error t (close - i) = Some c_rparen.
Proof.
  induction t as [|c t IH]; intros i depth close; simpl; [discriminate|].
  destruct (ch_eqb c c_rparen) eqn:R.
  - assert (c = c_rparen) by (apply Ascii.eqb_eq; exact R). subst c.
    change (ch_eqb c_rparen c_lparen) with false. cbv iota.
    destruct (depth - 1 =? 0)%Z eqn:Z.
    + intros H. inversion H; subst. rewrite Nat.sub_diag.
      apply Z.eqb_eq in Z. repeat split; try lia. 
    + intros H. destruct (IH _ _ _ H) as (A & _ & C).
      replace (close - i) with (S (close - S i)) by lia.
      repeat split; try lia. exact C.
  - intros H. destruct (IH _ _ _ H) as (A & _ & C).
    replace (close - i) with (S (close - S i)) by lia.
    repeat split; try lia. exact C.
Qed.

(** The closing parenthesis found lies after the start and is one. *)
Lemma findMatchingParen_spec (s : str) (start close : nat) :
  findMatchingParen s start = Some close ->
  start < close /\ close < length s /\ nth_error s close = Some c_rparen.
Proof.
  unfold findMatchingParen. intros H.
  destruct (findMatchingParen_loop_spec _ _ _ H) as (A & B & C).
  rewrite nth_error_skipn in C.
  replace (start + (close - start)) with close in C by lia.
  split; [apply B; lia|]. split; [|exact C].
  apply nth_error_Some. congruence.
Qed.

(* ================================================================== *)
(** * The built-in replacement and [normalizeWhitespace] *)

Lemma closers_upto_step (n : nat) (s : str) (c : ascii) :
  nth_error s n = Some c ->
  closers_upto s (S n) = closers_upto s n + closers [c].
Proof.
  intros H. unfold closers_upto.
  rewrite (@firstn_split n (S n) s) by lia. rewrite closers_app.
  replace (S n - n) with 1 by lia. f_equal.
  rewrite <- (firstn_skipn_middle _ _ H) at 1.
  rewrite skipn_app, skipn_all2 by (rewrite length_firstn; lia).
  rewrite length_firstn.
  assert (n < length s) by (apply nth_error_Some; congruence).
  replace (n - Nat.min n (length s)) with 0 by lia. reflexivity.
Qed.

Lemma closers_upto_0 (s : str) : closers_upto s 0 = 0.
Proof. reflexivity. Qed.

(** A replacement that puts at most one code unit without a closing
    parenthesis in the place of every non-empty match neither adds
    closing parentheses nor lengthens the text. *)
Lemma replace_loop_bound (r : regex) (repl s : str) :
  1 <= min_len r -> closers repl = 0 -> length repl <= 1 ->
  forall fuel from,
    from <= length s ->
    closers (replace_loop fuel r (fun _ => repl) from s)
    <= closers (skipn from s)
    /\ length (replace_loop fuel r (fun _ => repl) from s)
       <= length s - from.
Proof.
  intros M Q L. induction fuel as [|fuel IH]; intros from F; simpl.
  - rewrite length_skipn. split; lia.
  - destruct (exec_from r from s) as [m|] eqn:E;
      [|rewrite length_skipn; split; lia].
    destruct (exec_from_spec _ _ _ E) as (A & B & C & _).
    assert (N : (stop m =? index m) = false) by (apply Nat.eqb_neq; lia).
    rewrite N. destruct (IH (stop m) C) as [IQ IL].
    rewrite !closers_app, !length_app, Q.
    pose proof (closers_substring s A).
    pose proof (length_substring_le s A).
    pose proof (closers_split from s). pose proof (closers_split (stop m) s).
    pose proof (@closers_upto_mono (index m) (stop m) s).
    split; lia.
Qed.

Lemma normalizeWhitespace_closers (s : str) :
  closers (normalizeWhitespace s) <= closers s.
Proof.
  unfold normalizeWhitespace, replace_all.
  etransitivity; [apply closers_trim|].
  destruct (@replace_loop_bound re_spaces (lit " ") s) with
    (fuel := length s + 1) (from := 0) as [Q _];
    try (simpl; lia); try reflexivity.
  exact Q.
Qed.

Lemma normalizeWhitespace_length (s : str) :
  length (normalizeWhitespace s) <= length s.
Proof.
  unfold normalizeWhitespace, replace_all.
  etransitivity; [apply length_trim|].
  destruct (@replace_loop_bound re_spaces (lit " ") s) with
    (fuel := length s + 1) (from := 0) as [_ L];
    try (simpl; lia); try reflexivity.
  lia.
Qed.

(* ================================================================== *)
(** * [splitByUnion] ends, and its parts are smaller *)

Lemma whole_length (r : regex) (from : nat) (s : str) (m : rmatch) :
  match_of r from s m ->
  length (whole s m) = stop m - index m
  /\ min_len r <= stop m - index m.
Proof.
  intros (A & B & C & _). unfold whole.
  rewrite length_substring by lia. split; lia.
Qed.

Lemma splitByUnion_loop_total (sql : str) :
  forall fuel i depth current parts det,
    i <= length sql -> length sql < fuel + i ->
    exists x, splitByUnion_loop fuel sql i depth current parts det = Ok x.
Proof.
  induction fuel as [|fuel IH]; intros i depth current parts det I F;
    [lia|]. simpl.
  destruct (nth_error sql i) as [c|] eqn:N; [|eauto].
  assert (i < length sql) by (apply nth_error_Some; congruence).
  set (d := if ch_eqb c c_rparen then _ else _).
  pose proof (length_skipn i sql) as LS. unfold substring_from.
  destruct (d =? 0)%Z.
  - destruct (exec re_union_all (skipn i sql)) as [ua|] eqn:Ea.
    + destruct (whole_length (exec_spec _ _ Ea)) as [W M].
      destruct (exec_spec _ _ Ea) as (_ & _ & C & _).
      change (min_len re_union_all) with 10 in M.
      apply IH; lia.
    + destruct (exec re_union (skipn i sql)) as [u|] eqn:Eu.
      * destruct (whole_length (exec_spec _ _ Eu)) as [W M].
        destruct (exec_spec _ _ Eu) as (_ & _ & C & _).
        change (min_len re_union) with 6 in M.
        apply IH; lia.
      * apply IH; lia.
  - apply IH; lia.
Qed.

Lemma splitByUnion_total (sql : str) : exists x, splitByUnion sql = Ok x.
Proof. apply splitByUnion_loop_total; lia. Qed.

Lemma sum_of_app (f : str -> nat) (xs ys : list str) :
  sum_of f (xs ++ ys) = sum_of f xs + sum_of f ys.
Proof. unfold sum_of. rewrite map_app, list_sum_app. reflexivity. Qed.

Lemma sum_of_in (f : str -> nat) (xs : list str) (x : str) :
  In x xs -> f x <= sum_of f xs.
Proof.
  unfold sum_of. induction xs as [|y xs IH]; simpl; intros H; [destruct H|].
  destruct H as [->|H]; [lia | specialize (IH H); lia].
Qed.

Lemma split_inv_push (sql : str) (i n : nat) (current : str)
  (parts : list str) :
  1 <= n -> i + n <= length sql ->
  split_inv sql i current parts ->
  split_inv sql (i + n) [] (push_trimmed parts current).
Proof.
  intros N L (I & Q & Len). unfold split_inv, push_trimmed.
  rewrite !sum_of_app, length_app. unfold sum_of at 2 4. simpl.
  pose proof (closers_trim current). pose proof (length_trim current).
  pose proof (@closers_upto_mono i (i + n) sql).
  change (closers []) with 0. repeat split; lia.
Qed.

Lemma split_inv_char (sql : str) (i : nat) (c : ascii) (current : str)
  (parts : list str) :
  nth_error sql i = Some c ->
  split_inv sql i current parts ->
  split_inv sql (S i) (current ++ [c]) parts.
Proof.
  intros N (I & Q & Len). unfold split_inv.
  assert (i < length sql) by (apply nth_error_Some; congruence).
  rewrite closers_app, length_app, (closers_upto_step _ _ N). simpl.
  repeat split; lia.
Qed.

Lemma splitByUnion_loop_parts (sql : str) :
  forall fuel i depth current parts det ps ut,
    splitByUnion_loop fuel sql i depth current parts det = Ok (ps, ut) ->
    split_inv sql i current parts ->
    forall p, In p ps ->
              closers p <= closers sql
              /\ (1 < length ps -> length p < length sql).
Proof.
  induction fuel as [|fuel IH];
    intros i depth current parts det ps ut; simpl; [discriminate|].
  destruct (nth_error sql i) as [c|] eqn:N.
  - assert (Hi : i < length sql) by (apply nth_error_Some; congruence).
    set (d := if ch_eqb c c_rparen then _ else _).
    pose proof (length_skipn i sql) as LS. unfold substring_from.
    destruct (d =? 0)%Z.
    + destruct (exec re_union_all (skipn i sql)) as [ua|] eqn:Ea.
      * destruct (whole_length (exec_spec _ _ Ea)) as [W M].
        destruct (exec_spec _ _ Ea) as (_ & _ & C & _).
        change (min_len re_union_all) with 10 in M.
        intros H Inv. eapply IH; [exact H|].
        apply split_inv_push; [lia | lia | exact Inv].
      * destruct (exec re_union (skipn i sql)) as [u|] eqn:Eu.
        -- destruct (whole_length (exec_spec _ _ Eu)) as [W M].
           destruct (exec_spec _ _ Eu) as (_ & _ & C & _).
           change (min_len re_union) with 6 in M.
           intros H Inv. eapply IH; [exact H|].
           apply split_inv_push; [lia | lia | exact Inv].
        -- intros H Inv. eapply IH; [exact H|].
           apply split_inv_char; assumption.
    + intros H Inv. eapply IH; [exact H|].
      apply split_inv_char; assumption.
  - intros H (I & Q & Len) p Hp. inversion H; subst ps ut; clear H.
    pose proof (closers_upto_le i sql).
    pose proof (closers_trim current). pose proof (length_trim current).
    assert (Old : In p parts ->
                  closers p <= closers sql /\ length p < length sql).
    { intros Hin. pose proof (sum_of_in closers _ _ Hin).
      pose proof (sum_of_in (@length ascii) _ _ Hin).
      destruct parts; [destruct Hin|]. simpl in Len. split; lia. }
    destruct (truthy (trim current)).
    + unfold push_trimmed in *. apply in_app_iff in Hp.
      destruct Hp as [Hp|[<-|[]]].
      * destruct (Old Hp). split; [lia | intros _; lia].
      * rewrite length_app. simpl. split; [lia | intros L1; lia].
    + destruct (Old Hp). split; [lia | intros _; lia].
Qed.

Lemma splitByUnion_parts (sql : str) (ps : list str)
  (ut : option UnionType) (p : str) :
  splitByUnion sql = Ok (ps, ut) -> 1 < length ps -> In p ps ->
  closers p <= closers sql /\ length p < length sql.
Proof.
  intros H L Hp.
  destruct (@splitByUnion_loop_parts sql _ _ _ _ _ _ _ _ H) with (p := p)
    as [A B]; [|exact Hp|split; [exact A | exact (B L)]].
  unfold split_inv, sum_of, closers_upto, closers. simpl.
  repeat split; lia.
Qed.

(* ================================================================== *)
(** * [extractCTEs] ends *)

Lemma extractCTEs_loop_total (sql : str) :
  forall fuel pos ctes,
    pos <= length sql -> length sql < fuel + pos ->
    exists x, extractCTEs_loop fuel sql pos ctes = Ok x.
Proof.
  induction fuel as [|fuel IH]; intros pos ctes P F; simpl; [lia|].
  destruct (pos <? length sql); [|eauto].
  unfold substring_from.
  destruct (exec re_cte_name (skipn pos sql)) as [nm|] eqn:En; [|eauto].
  destruct (@exec_defines re_cte_name 1 _ _ ltac:(group_defined) En)
    as (g & -> & _). cbn [bind].
  destruct (whole_length (exec_spec _ _ En)) as [W M].
  change (min_len re_cte_name) with 5 in M.
  destruct (findMatchingParen sql _) as [close|] eqn:Ef; [|eauto].
  apply findMatchingParen_spec in Ef. destruct Ef as (Lt & Lc & _).
  destruct (exec re_cte_comma (skipn (close + 1) sql)) as [cm|] eqn:Ec;
    [|eauto].
  destruct (whole_length (exec_spec _ _ Ec)) as [Wc _].
  destruct (exec_spec _ _ Ec) as (_ & _ & C & _).
  rewrite length_skipn in C.
  apply IH; lia.
Qed.

Lemma extractCTEs_total (sql : str) : exists x, extractCTEs sql = Ok x.
Proof.
  unfold extractCTEs. destruct (exec re_with sql) as [wm|] eqn:E; [|eauto].
  destruct (whole_length (exec_spec _ _ E)) as [W _].
  destruct (exec_spec _ _ E) as (_ & _ & C & _).
  apply extractCTEs_loop_total; lia.
Qed.

(* ================================================================== *)
(** * The matcher: which groups a match sets *)

Lemma keys_in_app (ks : list nat) (c1 c2 : caps) :
  keys_in ks c1 -> keys_in ks c2 -> keys_in ks (c1 ++ c2).
Proof. intros K1 K2 g a b I. apply in_app_iff in I. destruct I; eauto. Qed.

Lemma keys_in_incl (ks ks' : list nat) (c : caps) :
  incl ks ks' -> keys_in ks c -> keys_in ks' c.
Proof. intros I K g a b H. apply I. eapply K. exact H. Qed.

Lemma star_loop_keys (run0 : state -> caps -> list (state * caps))
  (greedy : bool) (ks : list nat) :
  (forall st c st' c', In (st', c') (run0 st c) ->
                       exists new, c' = new ++ c /\ keys_in ks new) ->
  forall n st c st' c',
    In (st', c') (star_loop run0 greedy n st c) ->
    exists new, c' = new ++ c /\ keys_in ks new.
Proof.
  intros H0. induction n as [|n IH]; simpl; intros st c st' c' H.
  - destruct H as [H|[]]. inversion H; subst. exists []. split; [reflexivity|].
    intros g a b [].
  - assert (Same : (st, c) = (st', c') ->
                   exists new, c' = new ++ c /\ keys_in ks new).
    { intros E. inversion E; subst. exists []. split; [reflexivity|].
      intros g a b []. }
    assert (More : forall l,
               l = flat_map
                     (fun sc => if pos (fst sc) =? pos st then []
                                else star_loop run0 greedy n (fst sc) (snd sc))
                     (run0 st c) ->
               In (st', c') l ->
               exists new, c' = new ++ c /\ keys_in ks new).
    { intros l -> Hl. apply in_flat_map in Hl.
      destruct Hl as ([st1 c1] & H1 & H2). simpl in H2.
      destruct (pos st1 =? pos st); [destruct H2|].
      destruct (H0 _ _ _ _ H1) as (n1 & -> & K1).
      destruct (IH _ _ _ _ H2) as (n2 & -> & K2).
      exists (n2 ++ n1). split; [apply app_assoc|].
      apply keys_in_app; assumption. }
    destruct greedy.
    + apply in_app_iff in H. destruct H as [H|[H|[]]]; eauto.
    + destruct H as [H|H]; eauto.
Qed.

Lemma run_keys (r : regex) :
  forall st c st' c',
    In (st', c') (run r st c) ->
    exists new, c' = new ++ c /\ keys_in (groups_of r) new.
Proof.
  assert (Nil : forall ks (c : caps),
             exists new, c = new ++ c /\ keys_in ks new).
  { intros ks c. exists []. split; [reflexivity | intros g a b []]. }
  induction r as [|p|r1 IH1 r2 IH2|r1 IH1 r2 IH2|g r0 IH|g r0 IH|b r0 IH| | | |];
    intros st c st' c' H; simpl in H.
  - destruct H as [H|[]]. inversion H; subst. apply Nil.
  - unfold step in H. destruct (rest st) as [|x t]; [destruct H|].
    destruct (p x); [|destruct H]. destruct H as [H|[]].
    inversion H; subst. apply Nil.
  - apply in_flat_map in H. destruct H as ([st1 c1] & H1 & H2). simpl in H2.
    destruct (IH1 _ _ _ _ H1) as (n1 & -> & K1).
    destruct (IH2 _ _ _ _ H2) as (n2 & -> & K2).
    exists (n2 ++ n1). split; [apply app_assoc|]. simpl.
    apply keys_in_app; eapply keys_in_incl; try eassumption;
      [apply incl_appr | apply incl_appl]; apply incl_refl.
  - apply in_app_iff in H. simpl. destruct H as [H|H].
    + destruct (IH1 _ _ _ _ H) as (n1 & -> & K1). exists n1.
      split; [reflexivity|]. eapply keys_in_incl; [|exact K1].
      apply incl_appl, incl_refl.
    + destruct (IH2 _ _ _ _ H) as (n2 & -> & K2). exists n2.
      split; [reflexivity|]. eapply keys_in_incl; [|exact K2].
      apply incl_appr, incl_refl.
  - simpl. eapply star_loop_keys; [|exact H]. exact IH.
  - apply in_map_iff in H. destruct H as ([st1 c1] & E & H1).
    inversion E; subst. destruct (IH _ _ _ _ H1) as (n1 & -> & K1).
    exists ((g, (pos st, pos st')) :: n1). split; [reflexivity|].
    intros g' a b [I|I]; simpl; [inversion I; auto | right; eauto].
  - destruct (run r0 st c); destruct b; simpl in H; try contradiction;
      destruct H as [H|[]]; inversion H; subst; apply Nil.
  - destruct (prev st); [destruct H|]. destruct H as [H|[]].
    inversion H; subst. apply Nil.
  - destruct (rest st); [|destruct H]. destruct H as [H|[]].
    inversion H; subst. apply Nil.
  - destruct (rest st) as [|x t]; [|destruct (is_newline x); [|destruct H]];
      destruct H as [H|[]]; inversion H; subst; apply Nil.
  - destruct (xorb _ _); [|destruct H]. destruct H as [H|[]].
    inversion H; subst. apply Nil.
Qed.

Lemma lookup_In (g : nat) (c : caps) (a b : nat) :
  lookup g c = Some (a, b) -> In (g, (a, b)) c.
Proof.
  induction c as [|[g' se] c IH]; simpl; [discriminate|].
  destruct (g' =? g) eqn:E.
  - apply Nat.eqb_eq in E. intros H. inversion H; subst. auto.
  - auto.
Qed.

Lemma lookup_app (g : nat) (c1 c2 : caps) :
  lookup g (c1 ++ c2)
  = match lookup g c1 with Some x => Some x | None => lookup g c2 end.
Proof.
  induction c1 as [|[g' se] c1 IH]; simpl; [reflexivity|].
  destruct (g' =? g); [reflexivity | exact IH].
Qed.

Lemma lookup_not_key (g : nat) (ks : list nat) (c : caps) :
  keys_in ks c -> ~ In g ks -> lookup g c = None.
Proof.
  intros K N. destruct (lookup g c) as [[a b]|] eqn:E; [|reflexivity].
  exfalso. apply N. eapply K. apply lookup_In. exact E.
Qed.

(** A part of a sequence that sets no group leaves the captures as they
    are. *)
Lemma run_seq_skip (r1 r2 : regex) (st : state) (c : caps) (st' : state)
  (c' : caps) :
  groups_of r1 = [] ->
  In (st', c') (run (Seq r1 r2) st c) ->
  exists st1, In (st', c') (run r2 st1 c).
Proof.
  intros G H. simpl in H. apply in_flat_map in H.
  destruct H as ([st1 c1] & H1 & H2). simpl in H2.
  destruct (@run_keys _ _ _ _ _ H1) as (n1 & -> & K1). rewrite G in K1.
  destruct n1 as [|[g [a b]] n1]; [eauto|].
  exfalso. apply (K1 g a b). simpl. auto.
Qed.

(** In a sequence, a group of the first part ends before a group of the
    second part starts. *)
Lemma run_seq_ordered (r1 r2 : regex) (g1 g2 : nat) (st st' : state)
  (c' : caps) (a1 b1 a2 b2 : nat) :
  In (st', c') (run (Seq r1 r2) st []) ->
  ~ In g1 (groups_of r2) -> ~ In g2 (groups_of r1) ->
  lookup g1 c' = Some (a1, b1) -> lookup g2 c' = Some (a2, b2) ->
  b1 <= a2.
Proof.
  intros H N1 N2 L1 L2. simpl in H. apply in_flat_map in H.
  destruct H as ([st1 c1] & H1 & H2). simpl in H2.
  destruct (@run_keys _ _ _ _ _ H1) as (n1 & E1 & K1).
  destruct (@run_caps _ _ _ _ _ H1) as (n1' & E1' & W1).
  rewrite app_nil_r in E1, E1'. subst n1 n1'.
  destruct (@run_keys _ _ _ _ _ H2) as (n2 & E2 & K2).
  destruct (@run_caps _ _ _ _ _ H2) as (n2' & E2' & W2).
  assert (n2' = n2) by (apply (app_inv_tail c1); congruence). subst n2' c'.
  rewrite lookup_app in L1, L2.
  rewrite (@lookup_not_key g1 _ _ K2 N1) in L1.
  apply lookup_In in L1. destruct (W1 _ _ _ L1) as (_ & _ & B1).
  destruct (lookup g2 n2) as [[x y]|] eqn:L22.
  - inversion L2; subst. apply lookup_In in L22.
    destruct (W2 _ _ _ L22) as (A2 & _). lia.
  - rewrite (@lookup_not_key g2 _ _ K1 N2) in L2. discriminate.
Qed.

(** The first try of an anchored pattern is the match. *)
Lemma exec_anchored_run (r : regex) (s : str) (m : rmatch) :
  anchored r -> exec r s = Some m ->
  exists st', In (st', groups m) (run r (St 0 None s) []).
Proof.
  intros A. unfold exec, exec_from, state_at. simpl.
  destruct s as [|x t]; simpl.
  - destruct (run r (St 0 None []) []) as [|[st' c] l]; [discriminate|].
    intros H. inversion H. simpl. eauto.
  - destruct (run r (St 0 None (x :: t)) []) as [|[st' c] l].
    + rewrite (search_at_anchored A). discriminate.
    + intros H. inversion H. simpl. eauto.
Qed.

(* ================================================================== *)
(** * The closing parentheses of the pieces of a match *)

Lemma closers_le_length (s : str) : closers s <= length s.
Proof. unfold closers. apply filter_length_le. Qed.

Lemma closers_group_range (s : str) (a b lo hi : nat) :
  lo <= a -> a <= b -> b <= hi ->
  closers (substring a b s) + closers_upto s lo <= closers_upto s hi.
Proof.
  intros A B C. pose proof (closers_substring s B).
  pose proof (@closers_upto_mono lo a s A).
  pose proof (@closers_upto_mono b hi s C). lia.
Qed.

Lemma closers_group (r : regex) (from : nat) (s : str) (m : rmatch)
  (g : nat) :
  match_of r from s m ->
  closers (group_or_empty s m g) + closers_upto s (index m)
  <= closers_upto s (stop m).
Proof.
  intros (_ & Le & _ & W). unfold group_or_empty, group.
  destruct (lookup g (groups m)) as [[a b]|] eqn:L.
  - apply lookup_In in L. destruct (W _ _ _ L) as (A & B & C).
    apply closers_group_range; assumption.
  - change (closers []) with 0.
    pose proof (@closers_upto_mono (index m) (stop m) s). lia.
Qed.

(* ================================================================== *)
(** * [replaceSubqueries] ends, and its bodies have fewer closers *)

Lemma closers_upto_skipn (k n : nat) (s : str) :
  closers_upto (skipn k s) n + closers_upto s k = closers_upto s (k + n).
Proof.
  unfold closers_upto at 1.
  replace (firstn n (skipn k s)) with (substring k (k + n) s).
  - apply closers_substring. lia.
  - rewrite substring_le by lia. f_equal. lia.
Qed.

Lemma closers_prefix (idx : nat) (s : str) :
  closers (substring 0 idx s) = closers_upto s idx.
Proof.
  pose proof (@closers_substring 0 idx s (Nat.le_0_l _)) as H.
  rewrite closers_upto_0 in H. lia.
Qed.

Lemma closers_whole (r : regex) (from : nat) (s : str) (m : rmatch) :
  match_of r from s m ->
  closers (whole s m) + closers_upto s (index m) = closers_upto s (stop m).
Proof.
  intros (_ & Le & _). unfold whole. apply closers_substring. lia.
Qed.

Lemma closers_replace_first (r : regex) (w : str) :
  closers (replace_first r [] w) <= closers w.
Proof.
  unfold replace_first. destruct (exec r w) as [m|] eqn:E; [|lia].
  destruct (exec_spec _ _ E) as (_ & Le & _).
  rewrite !closers_app, closers_prefix. change (closers []) with 0.
  pose proof (closers_split (stop m) w).
  pose proof (@closers_upto_mono (index m) (stop m) w). lia.
Qed.

(** The rewriting of [FROM ( body ) alias]. *)
Lemma from_rewrite_closers (result ph alias : str) (idx close after : nat) :
  idx <= close ->
  nth_error result close = Some c_rparen ->
  closers ph = 0 ->
  close + 1 <= after ->
  closers alias + closers_upto result (close + 1)
  <= closers_upto result after ->
  closers (substring 0 idx result ++ lit "FROM " ++ ph ++ lit " " ++ alias
           ++ substring_from after result)
  < closers result.
Proof.
  intros I N P A Q. unfold substring_from.
  rewrite !closers_app, closers_prefix, P.
  change (closers (lit "FROM ")) with 0. change (closers (lit " ")) with 0.
  pose proof (closers_split after result).
  pose proof (@closers_upto_mono idx close result I).
  pose proof (closers_upto_closer _ _ N).
  replace (close + 1) with (S close) in Q by lia. lia.
Qed.

(** The rewriting of [JOIN ( body ) alias ON condition]. *)
Lemma join_rewrite_closers (result jk ph mid : str)
  (idx stop_m close after : nat) :
  closers jk + closers_upto result idx <= closers_upto result stop_m ->
  stop_m <= close ->
  nth_error result close = Some c_rparen ->
  closers ph = 0 ->
  close + 1 <= after ->
  closers mid + closers_upto result (close + 1)
  <= closers_upto result after ->
  closers (substring 0 idx result ++ jk ++ lit " " ++ ph ++ mid
           ++ substring_from after result)
  < closers result.
Proof.
  intros J Sc N P A Q. unfold substring_from.
  rewrite !closers_app, closers_prefix, P.
  change (closers (lit " ")) with 0.
  pose proof (closers_split after result).
  pose proof (@closers_upto_mono stop_m close result Sc).
  pose proof (closers_upto_closer _ _ N).
  replace (close + 1) with (S close) in Q by lia. lia.
Qed.

(** The body between the parentheses. *)
Lemma body_closers (result : str) (open close : nat) :
  open < close ->
  nth_error result close = Some c_rparen ->
  closers (trim (substring (open + 1) close result)) < closers result.
Proof.
  intros O N. pose proof (closers_trim (substring (open + 1) close result)).
  assert (L : open + 1 <= close) by lia.
  pose proof (closers_substring result L).
  pose proof (closers_upto_closer _ _ N).
  pose proof (closers_upto_le (S close) result). lia.
Qed.

Lemma firstSubquery_spec (result : str) (ms : list rmatch) (m : rmatch)
  (close : nat) (body : str) :
  firstSubquery result ms = Some (m, close, body) ->
  In m ms
  /\ findMatchingParen result (open_of m) = Some close
  /\ body = trim (substring (open_of m + 1) close result).
Proof.
  induction ms as [|m0 ms IH]; simpl; [discriminate|].
  destruct (findMatchingParen result (open_of m0)) as [cl|] eqn:F.
  - destruct (test re_select_head _).
    + intros H. inversion H; subst. auto.
    + intros H. destruct (IH H) as (A & B & C). auto.
  - intros H. destruct (IH H) as (A & B & C). auto.
Qed.

(** What is known of the match and the parenthesis of a rewriting. *)
Lemma rewrite_site (r : regex) (result : str) (m : rmatch) (close : nat) :
  1 <= min_len r ->
  match_of r 0 result m ->
  findMatchingParen result (open_of m) = Some close ->
  index m <= open_of m /\ open_of m < close /\ stop m <= close
  /\ nth_error result close = Some c_rparen.
Proof.
  intros M (_ & Le & _) F. apply findMatchingParen_spec in F.
  destruct F as (Lt & _ & N). unfold open_of in *. repeat split; try lia.
  exact N.
Qed.

(** The alias after a FROM subquery lies in what the alias pattern
    matched. *)
Lemma alias_closers (result : str) (k : nat) (am : rmatch) :
  exec re_alias (substring_from k result) = Some am ->
  closers (group_or_empty (substring_from k result) am 1)
  + closers_upto result k
  <= closers_upto result (k + length (whole (substring_from k result) am)).
Proof.
  intros E. unfold substring_from in *.
  pose proof (exec_spec _ _ E) as MO.
  pose proof (@exec_anchored _ _ _ (anchored_bol _) E) as I0.
  destruct (whole_length MO) as [W _]. rewrite W, I0, Nat.sub_0_r.
  pose proof (closers_group 1 MO) as G. rewrite I0 in G.
  pose proof (closers_upto_skipn k (stop am) result).
  rewrite closers_upto_0 in G. lia.
Qed.

Lemma re_alias_on_shape :
  re_alias_on
  = Seq Bol
      (Seq (star sp)
         (Seq (opt (seqs [kw "AS"; plus sp]))
            (Seq (Group 1 (plus wd))
               (seqs [plus sp; kw "ON"; plus sp;
                      Group 2 (lazy_star (Chr any)); clause_ahead])))).
Proof. reflexivity. Qed.

(** The alias and the condition after a JOIN subquery lie, one after the
    other, in what the pattern matched. *)
Lemma alias_on_closers (result : str) (k : nat) (am : rmatch) :
  exec re_alias_on (substring_from k result) = Some am ->
  closers (lit " " ++ group_or_empty (substring_from k result) am 1
           ++ lit " ON "
           ++ trim (group_or_empty (substring_from k result) am 2))
  + closers_upto result k
  <= closers_upto result (k + length (whole (substring_from k result) am)).
Proof.
  intros E. unfold substring_from in *. set (s := skipn k result) in *.
  pose proof (exec_spec _ _ E) as MO.
  assert (A : anchored re_alias_on)
    by (rewrite re_alias_on_shape; apply anchored_bol).
  pose proof (@exec_anchored _ _ _ A E) as I0.
  destruct (whole_length MO) as [W _]. rewrite W, I0, Nat.sub_0_r.
  pose proof (closers_upto_skipn k (stop am) result) as Sk. fold s in Sk.
  rewrite !closers_app.
  change (closers (lit " ")) with 0. change (closers (lit " ON ")) with 0.
  pose proof (closers_trim (group_or_empty s am 2)) as T.
  pose proof (closers_group 1 MO) as G1.
  pose proof (closers_group 2 MO) as G2.
  rewrite I0, closers_upto_0 in G1, G2.
  assert (Both : closers (group_or_empty s am 1)
                 + closers (group_or_empty s am 2)
                 <= closers_upto s (stop am)); [|lia].
  unfold group_or_empty, group in *.
  destruct (lookup 1 (groups am)) as [[a1 b1]|] eqn:L1;
    [|change (closers []) with 0 in *; lia].
  destruct (lookup 2 (groups am)) as [[a2 b2]|] eqn:L2;
    [|change (closers []) with 0 in *; lia].
  destruct MO as (_ & _ & _ & Wc).
  destruct (Wc _ _ _ (lookup_In _ _ L1)) as (X1 & Y1 & Z1).
  destruct (Wc _ _ _ (lookup_In _ _ L2)) as (X2 & Y2 & Z2).
  assert (O : b1 <= a2).
  { destruct (@exec_anchored_run _ _ _ A E) as [st' R].
    rewrite re_alias_on_shape in R.
    apply run_seq_skip in R; [|reflexivity]. destruct R as [st1 R].
    apply run_seq_skip in R; [|reflexivity]. destruct R as [st2 R].
    apply run_seq_skip in R; [|reflexivity]. destruct R as [st3 R].
    refine (@run_seq_ordered _ _ 1 2 _ _ _ _ _ _ _ R _ _ L1 L2).
    - simpl. intros [H|[]]. discriminate.
    - simpl. intros [H|[]]. discriminate. }
  pose proof (closers_substring s Y1). pose proof (closers_substring s Y2).
  pose proof (@closers_upto_mono b1 a2 s O).
  pose proof (@closers_upto_mono b2 (stop am) s Z2). lia.
Qed.

(** The FROM loop. *)
Lemma replaceFrom_loop_spec :
  forall fuel r,
    closers (rp_result r) < fuel ->
    exists r',
      replaceFrom_loop fuel r = Ok r'
      /\ closers (rp_result r') <= closers (rp_result r)
      /\ forall e, In e (rp_subs r') ->
                   In e (rp_subs r)
                   \/ closers (si_body (snd e)) < closers (rp_result r).
Proof.
  induction fuel as [|fuel IH]; intros r F; [lia|]. cbn [replaceFrom_loop].
  destruct (@exec_all_total fromSubRegex (rp_result r)) as (ms & -> & All);
    [change (min_len fromSubRegex) with 5; lia|].
  cbn [bind].
  destruct (firstSubquery (rp_result r) ms) as [[[m close] body]|] eqn:Fs.
  - apply firstSubquery_spec in Fs. destruct Fs as (Hm & Fp & ->).
    rewrite Forall_forall in All. specialize (All m Hm).
    destruct (@rewrite_site fromSubRegex _ _ _
                ltac:(change (min_len fromSubRegex) with 5; lia) All Fp)
      as (I & O & _ & N).
    match goal with
    | |- exists r', replaceFrom_loop fuel ?r1 = Ok r' /\ _ =>
        set (next := r1)
    end.
    assert (Less : closers (rp_result next) < closers (rp_result r)).
    { unfold next. cbn [rp_result].
      destruct (exec re_alias (substring_from (close + 1) (rp_result r)))
        as [am|] eqn:Ea.
      - apply (@from_rewrite_closers (rp_result r) _ _ (index m) close _);
          [lia | exact N | | lia |].
        + apply closers_placeholder.
        + apply (@alias_closers _ _ _ Ea).
      - apply (@from_rewrite_closers (rp_result r) _ _ (index m) close
                 (close + 1)); [lia | exact N | | lia |].
        + apply closers_placeholder.
        + change (closers []) with 0. lia. }
    destruct (IH next) as (r' & E & Q & Subs); [lia|].
    exists r'. split; [exact E|]. split; [lia|].
    intros e He. destruct (Subs e He) as [H|H]; [|right; lia].
    unfold next in H. cbn [rp_subs] in H.
    apply in_app_iff in H. destruct H as [H|[<-|[]]]; [left; exact H|].
    right. cbn [snd si_body]. apply body_closers; assumption.
  - exists r. split; [reflexivity|]. split; [lia | auto].
Qed.

(** The JOIN loop. *)
Lemma replaceJoin_loop_spec :
  forall fuel r,
    closers (rp_result r) < fuel ->
    exists r',
      replaceJoin_loop fuel r = Ok r'
      /\ closers (rp_result r') <= closers (rp_result r)
      /\ forall e, In e (rp_subs r') ->
                   In e (rp_subs r)
                   \/ closers (si_body (snd e)) < closers (rp_result r).
Proof.
  induction fuel as [|fuel IH]; intros r F; [lia|]. cbn [replaceJoin_loop].
  destruct (@exec_all_total joinSubRegex (rp_result r)) as (ms & -> & All);
    [change (min_len joinSubRegex) with 5; lia|].
  cbn [bind].
  destruct (firstSubquery (rp_result r) ms) as [[[m close] body]|] eqn:Fs.
  - apply firstSubquery_spec in Fs. destruct Fs as (Hm & Fp & ->).
    rewrite Forall_forall in All. specialize (All m Hm).
    destruct (@rewrite_site joinSubRegex _ _ _
                ltac:(change (min_len joinSubRegex) with 5; lia) All Fp)
      as (I & O & St & N).
    pose proof (closers_replace_first re_trailing_paren
                  (whole (rp_result r) m)) as Jk.
    pose proof (closers_whole All) as Wh.
    destruct (exec re_alias_on (substring_from (close + 1) (rp_result r)))
      as [am|] eqn:Ea.
    + pose proof (@alias_on_closers _ _ _ Ea) as AO.
      destruct (@exec_defines re_alias_on 2 _ _ ltac:(group_defined) Ea)
        as (g & -> & Eg).
      rewrite Eg in AO. cbn [bind].
      match goal with
      | |- exists r', replaceJoin_loop fuel ?r1 = Ok r' /\ _ =>
          set (next := r1)
      end.
      assert (Less : closers (rp_result next) < closers (rp_result r)).
      { unfold next. cbn [rp_result].
        set (mid := lit " " ++ _ ++ lit " ON " ++ _) in AO.
        match goal with
        | |- closers (?a ++ ?jk ++ ?sp ++ ?ph ++ _) < _ =>
            replace (closers (a ++ jk ++ sp ++ ph ++ _))
              with (closers
                      (a ++ jk ++ sp ++ ph ++ mid ++
                       substring_from
                         (close + 1 +
                          length
                            (whole (substring_from (close + 1) (rp_result r))
                               am))
                         (rp_result r)))
              by (unfold mid; rewrite <- !app_assoc; reflexivity)
        end.
        apply (@join_rewrite_closers (rp_result r) _ _ mid
                 (index m) (stop m) close _);
          [lia | exact St | exact N | apply closers_placeholder | lia |].
        exact AO. }
      destruct (IH next) as (r' & E & Q & Subs); [lia|].
      exists r'. split; [exact E|]. split; [lia|].
      intros e He. destruct (Subs e He) as [H|H]; [|right; lia].
      unfold next in H. cbn [rp_subs] in H.
      apply in_app_iff in H. destruct H as [H|[<-|[]]]; [left; exact H|].
      right. cbn [snd si_body]. apply body_closers; assumption.
    + cbn [bind].
      match goal with
      | |- exists r', replaceJoin_loop fuel ?r1 = Ok r' /\ _ =>
          set (next := r1)
      end.
      assert (Less : closers (rp_result next) < closers (rp_result r)).
      { unfold next. cbn [rp_result].
        apply (@join_rewrite_closers (rp_result r) _ _ []
                 (index m) (stop m) close (close + 1));
          [lia | exact St | exact N | apply closers_placeholder | lia |].
        change (closers []) with 0. lia. }
      destruct (IH next) as (r' & E & Q & Subs); [lia|].
      exists r'. split; [exact E|]. split; [lia|].
      intros e He. destruct (Subs e He) as [H|H]; [|right; lia].
      unfold next in H. cbn [rp_subs] in H.
      apply in_app_iff in H. destruct H as [H|[<-|[]]]; [left; exact H|].
      right. cbn [snd si_body]. apply body_closers; assumption.
  - exists r. split; [reflexivity|]. split; [lia | auto].
Qed.

(** [replaceSubqueries] returns, and every body it records has fewer
    closing parentheses than the text. *)
Lemma replaceSubqueries_spec (sql : str) :
  exists r,
    replaceSubqueries sql = Ok r
    /\ forall e, In e (rp_subs r) ->
                 closers (si_body (snd e)) < closers sql.
Proof.
  unfold replaceSubqueries.
  destruct (@replaceFrom_loop_spec (length sql + 1) (mkReplaced sql 0 []))
    as (r1 & -> & Q1 & S1).
  { simpl. pose proof (closers_le_length sql). lia. }
  simpl in Q1, S1. simpl.
  destruct (@replaceJoin_loop_spec (length (rp_result r1) + 1) r1)
    as (r2 & -> & Q2 & S2).
  { pose proof (closers_le_length (rp_result r1)). lia. }
  exists r2. split; [reflexivity|].
  intros e He. destruct (S2 e He) as [H|H]; [|lia].
  destruct (S1 e H) as [[]|H1]. exact H1.
Qed.

(* ================================================================== *)
(** * The flat parser returns *)

Lemma unionSource_total (known sources : list str) (part : str) :
  exists x, unionSource known sources part = Ok x.
Proof.
  unfold unionSource.
  destruct (exec re_from_table (trim part)) as [m|] eqn:E; [|eauto].
  destruct (@exec_defines re_from_table 1 _ _ ltac:(group_defined) E)
    as (g & -> & _). cbn [bind].
  destruct (findKnown _ known); eauto.
Qed.

Lemma detectUnionAllTopLevel_total (sql : str) (known : list str) :
  exists x, detectUnionAllTopLevel sql known = Ok x.
Proof.
  unfold detectUnionAllTopLevel.
  destruct (splitByUnion_total sql) as [[parts ut] ->]. cbn [bind].
  destruct ut as [t|]; [|eauto].
  destruct (length parts <=? 1); [eauto|].
  destruct (@fold_res_total _ _ (unionSource known) parts
              (fun a b _ => unionSource_total known a b) []) as [srcs ->].
  cbn [bind]. destruct srcs; eauto.
Qed.

Lemma detectUnionAllInSubquery_loop_total (sql : str) (known : list str)
  (ms : list rmatch) :
  exists x, detectUnionAllInSubquery_loop sql known ms = Ok x.
Proof.
  induction ms as [|m ms IH]; simpl; [eauto|].
  destruct (findMatchingParen sql (open_of m)) as [close|]; [|exact IH].
  destruct (detectUnionAllTopLevel_total
              (trim (substring (open_of m + 1) close sql)) known) as [x ->].
  cbn [bind]. destruct x; [eauto | exact IH].
Qed.

Lemma detectUnionAll_total (sql : str) (known : list str) :
  exists x, detectUnionAll sql known = Ok x.
Proof.
  unfold detectUnionAll.
  destruct (detectUnionAllTopLevel_total (normalizeWhitespace sql) known)
    as [x ->]. cbn [bind].
  destruct x; [eauto|]. unfold detectUnionAllInSubquery.
  destruct (@exec_all_total fromSubRegex (normalizeWhitespace sql))
    as (ms & -> & _); [change (min_len fromSubRegex) with 5; lia|].
  cbn [bind]. apply detectUnionAllInSubquery_loop_total.
Qed.

Lemma detectTransformation_total (expr : str) :
  exists x, detectTransformation expr = Ok x.
Proof.
  unfold detectTransformation.
  destruct (test re_aggregate (toUpperCase expr)) eqn:T.
  - unfold test in T.
    destruct (exec re_aggregate (toUpperCase expr)); [eauto | discriminate].
  - destruct (test re_over _); [destruct (exec re_window _); eauto|].
    repeat match goal with
           | |- context [if ?b then _ else _] => destruct b
           end; eauto.
Qed.

Lemma aliased_total (e a : str) : exists x, aliased e a = Ok x.
Proof.
  unfold aliased. destruct (detectTransformation_total e) as [t ->].
  cbn [bind]. eauto.
Qed.

Lemma parseField_total (f : str) : exists x, parseField f = Ok x.
Proof.
  unfold parseField.
  assert (Plain : exists x,
             (transformation <- detectTransformation (trim f) ;;
              Ok (mkFieldInfo (trim f)
                    match exec re_last_segment (trim f) with
                    | Some dotMatch => group_or_empty (trim f) dotMatch 1
                    | None =>
                        if test re_word_only (trim f) then trim f else []
                    end (trim f) (trim f) transformation)) = Ok x).
  { destruct (detectTransformation_total (trim f)) as [t ->]. cbn [bind].
    eauto. }
  destruct (exec re_as_alias (trim f)) as [am|] eqn:Ea.
  { destruct (@exec_defines re_as_alias 1 _ _ ltac:(group_defined) Ea)
      as (g & -> & _). cbn [bind]. apply aliased_total. }
  destruct (exec re_implicit_alias (trim f)) as [im|] eqn:Ei; [|exact Plain].
  destruct (@exec_defines re_implicit_alias 1 _ _ ltac:(group_defined) Ei)
    as (g & -> & _). cbn [bind].
  destruct (_ || _); [apply aliased_total|].
  destruct (test re_dotted _); [apply aliased_total | exact Plain].
Qed.

Lemma parseFields_total (fs : list str) : exists x, parseFields fs = Ok x.
Proof.
  induction fs as [|f fs IH]; simpl; [eauto|].
  destruct (truthy (trim f)); [|exact IH].
  destruct (parseField_total (trim f)) as [x ->].
  destruct IH as [xs ->]. cbn [bind]. eauto.
Qed.

Lemma simpleUnionBranch_total (known : list str) (r : Refs) (part : str) :
  exists x, simpleUnionBranch known r part = Ok x.
Proof.
  unfold simpleUnionBranch.
  destruct (exec fromRegex part) as [m|] eqn:E; [|eauto].
  destruct (@exec_defines fromRegex 1 _ _ ltac:(group_defined) E)
    as (g & -> & _). cbn [bind].
  destruct (startsWith placeholderPrefix g); eauto.
Qed.

Lemma fromTableStep_total (n : str) (known : list str) (r : Refs) :
  exists x, fromTableStep n known r = Ok x.
Proof.
  unfold fromTableStep.
  destruct (exec fromRegex n) as [m|] eqn:E; [|eauto].
  destruct (@exec_defines fromRegex 1 _ _ ltac:(group_defined) E)
    as (g & -> & _). cbn [bind].
  destruct (negb _); eauto.
Qed.

Lemma joinMatchStep_total (n : str) (known : list str)
  (st : Refs * list JoinInfo) (m : rmatch) :
  (exists g, must (group n m 2) = Ok g) ->
  (exists g, must (group n m 5) = Ok g) ->
  exists x, joinMatchStep n known st m = Ok x.
Proof.
  intros [g2 G2] [g5 G5]. unfold joinMatchStep. destruct st as [r joins].
  rewrite G2. cbn [bind].
  destruct (startsWith placeholderPrefix g2); [eauto|].
  rewrite G5. cbn [bind]. eauto.
Qed.

Lemma capture1_total (r : regex) (s : str) :
  In 1 (defines r) -> exists x, capture1 r s = Ok x.
Proof.
  intros D. unfold capture1. destruct (exec r s) as [m|] eqn:E; [|eauto].
  destruct (@exec_defines r 1 _ _ D E) as (g & -> & _). cbn [bind]. eauto.
Qed.

Lemma parseFlatSelect_total (sql id0 name0 : str) (c s : bool)
  (known : list str) :
  exists q, parseFlatSelect sql id0 name0 c s known = Ok q.
Proof.
  unfold parseFlatSelect. set (n := normalizeWhitespace sql).
  destruct (detectUnionAll_total n known) as [ui ->]. cbn [bind].
  destruct (splitByUnion_total n) as [[parts ut] ->]. cbn [bind].
  match goal with
  | |- exists q, (refs <- ?F ;; _) = Ok q =>
      assert (Rs : exists x, F = Ok x)
  end.
  { destruct (1 <? length parts); [|eauto].
    destruct (isComplex parts); [eauto|].
    apply fold_res_total. intros a b _. apply simpleUnionBranch_total. }
  destruct Rs as [refs1 ->]. cbn [bind].
  match goal with
  | |- exists q, (fields <- ?F ;; _) = Ok q =>
      assert (Fs : exists x, F = Ok x)
  end.
  { destruct (exec re_select_list n) as [m|] eqn:E; [|eauto].
    destruct (@exec_defines re_select_list 2 _ _ ltac:(group_defined) E)
      as (g & -> & _). cbn [bind]. apply parseFields_total. }
  destruct Fs as [fs ->]. cbn [bind].
  match goal with
  | |- exists q, (refs <- ?F ;; _) = Ok q =>
      assert (Rs : exists x, F = Ok x)
        by (destruct (length parts <=? 1);
            [apply fromTableStep_total | eauto])
  end.
  destruct Rs as [refs2 ->]. cbn [bind].
  destruct (@exec_all_total joinRegex n) as (ms & Ems & _);
    [change (min_len joinRegex) with 10; lia|].
  pose proof (@exec_all_defines joinRegex 2 _ _ ltac:(group_defined) Ems)
    as D2.
  pose proof (@exec_all_defines joinRegex 5 _ _ ltac:(group_defined) Ems)
    as D5.
  rewrite Ems. cbn [bind]. rewrite Forall_forall in D2, D5.
  destruct (@fold_res_total _ _ (joinMatchStep n known) ms
              (fun a b Hb =>
                 @joinMatchStep_total n known a b (D2 b Hb) (D5 b Hb))
              (refs2, [])) as [[refs3 js] ->].
  cbn [bind].
  destruct (@capture1_total re_where n ltac:(group_defined)) as [w ->].
  cbn [bind].
  destruct (@capture1_total re_having n ltac:(group_defined)) as [h ->].
  cbn [bind].
  destruct (@capture1_total re_group_by n ltac:(group_defined)) as [g ->].
  cbn [bind].
  destruct (@capture1_total re_order_by n ltac:(group_defined)) as [o ->].
  cbn [bind]. eauto.
Qed.

(* ================================================================== *)
(** * [processedBodies] only grows *)

Lemma map_get_set_same (k v : str) (m : list (str * str)) :
  map_get k (map_set k v m) = Some v.
Proof.
  induction m as [|[k' v'] m IH]; simpl.
  - rewrite str_eqb_refl. reflexivity.
  - destruct (str_eqb k' k) eqn:E; simpl.
    + rewrite str_eqb_refl. reflexivity.
    + rewrite E. exact IH.
Qed.

Lemma map_get_set_known (k v k0 : str) (m : list (str * str)) :
  map_get k0 m <> None -> map_get k0 (map_set k v m) <> None.
Proof.
  induction m as [|[k' v'] m IH]; simpl; [congruence|].
  destruct (str_eqb k' k) eqn:E; simpl.
  - apply str_eqb_eq in E. subst k'.
    destruct (str_eqb k k0); [discriminate | auto].
  - destruct (str_eqb k' k0); [discriminate | auto].
Qed.

Lemma defined_known (o : option str) (v : str) :
  defined o = Some v -> o <> None.
Proof. intros H. apply defined_some in H. congruence. Qed.

Lemma eachSub_keys (rec : Process) (subs : list (str * SubInfo)) :
  keeps_keys rec ->
  forall known sh known' sh',
    eachSub rec subs known sh = Ok (known', sh') ->
    (forall k, map_get k (processedBodies sh) <> None ->
               map_get k (processedBodies sh') <> None)
    /\ forall e, In e subs ->
                 map_get (bodyKeyOf e) (processedBodies sh') <> None.
Proof.
  intros R. induction subs as [|[ph info] subs IH]; simpl;
    intros known sh known' sh' H.
  - inversion H; subst. split; [auto | intros e []].
  - bind_inv H as [subId sh1] E. destruct (IH _ _ _ _ H) as [Keep Each].
    assert (Step : (forall k, map_get k (processedBodies sh) <> None ->
                              map_get k (processedBodies sh1) <> None)
                   /\ map_get (normalizeWhitespace (si_body info))
                        (processedBodies sh1) <> None).
    { destruct (defined (map_get _ (processedBodies sh))) eqn:D.
      - inversion E; subst. split; [auto|].
        apply (@defined_known _ _ D).
      - bind_inv E as [sub sh2] E0. inversion E; subst. simpl. split.
        + intros k Hk. apply map_get_set_known.
          apply (R _ _ _ _ _ _ _ _ _ E0 k). exact Hk.
        + rewrite map_get_set_same. discriminate. }
    destruct Step as [S1 S2]. split; [auto|].
    intros e [<-|He]; [apply Keep; exact S2 | apply Each; exact He].
Qed.

Lemma unionBranches_keys (rec : Process) (id0 name0 : str)
  (known : list str) (parts : list str) :
  keeps_keys rec ->
  forall i acc sh ids sh',
    unionBranches rec id0 name0 known parts i acc sh = Ok (ids, sh') ->
    forall k, map_get k (processedBodies sh) <> None ->
              map_get k (processedBodies sh') <> None.
Proof.
  intros R. induction parts as [|part parts IH]; simpl;
    intros i acc sh ids sh' H k Hk.
  - inversion H; subst. exact Hk.
  - bind_inv H as [b sh1] E. apply (IH _ _ _ _ _ H). simpl.
    apply (R _ _ _ _ _ _ _ _ _ E k Hk).
Qed.

Lemma processSQL_keeps_keys (fuel : nat) : keeps_keys (processSQL fuel).
Proof.
  induction fuel as [|fuel IH]; intros sql id0 name0 c s known sh q sh';
    cbn [processSQL]; [discriminate|]. intros H.
  bind_inv H as r E1. bind_inv H as [known1 sh1] E2.
  destruct (@eachSub_keys _ (rp_subs r) IH _ _ _ _ E2) as [Keep _].
  bind_inv H as [parts ut] E3.
  assert (Flat :
            (fq <- parseFlatSelect (rp_result r) id0 name0 c s known1 ;;
             q0 <- fixup (processedBodies sh1) known1 fq (rp_subs r) ;;
             Ok (q0, sh1)) = Ok (q, sh') ->
            forall k, map_get k (processedBodies sh) <> None ->
                      map_get k (processedBodies sh') <> None).
  { intros F. bind_inv F as fq E4. bind_inv F as q1 E5.
    inversion F; subst. exact Keep. }
  destruct ((1 <? length parts) && isComplex parts); [destruct ut|].
  - bind_inv H as [ids sh2] E4. inversion H; subst.
    intros k Hk.
    apply (@unionBranches_keys _ id0 name0 known1 parts IH _ _ _ _ _ E4).
    apply Keep. exact Hk.
  - apply (Flat H).
  - apply (Flat H).
Qed.

(** With every body known, the fix-up does not throw. *)
Lemma fixupStep_total (pb : list (str * str)) (known : list str)
  (q : SubQuery) (e : str * SubInfo) :
  map_get (bodyKeyOf e) pb <> None ->
  exists q', fixupStep pb known q e = Ok q'.
Proof.
  unfold fixupStep, bodyKeyOf. destruct e as [ph info]. simpl.
  destruct (map_get _ pb) as [subId|]; [|congruence]. intros _.
  match goal with
  | |- exists q', (let '(ts, js) := ?X in _) = Ok q' => destruct X
  end.
  eauto.
Qed.

Lemma fixup_total (pb : list (str * str)) (known : list str)
  (subs : list (str * SubInfo)) :
  (forall e, In e subs -> map_get (bodyKeyOf e) pb <> None) ->
  forall q, exists q', fixup pb known q subs = Ok q'.
Proof.
  induction subs as [|e subs IH]; simpl; intros K q; [eauto|].
  destruct (@fixupStep_total pb known q e (K e (or_introl eq_refl)))
    as [q1 ->].
  cbn [bind]. apply IH. intros e' He'. apply K. auto.
Qed.

(* ================================================================== *)
(** * [processSQL] returns with enough fuel *)

Lemma eachSub_total (rec : Process) (subs : list (str * SubInfo)) :
  (forall e, In e subs -> total_on rec (si_body (snd e))) ->
  forall known sh, exists x, eachSub rec subs known sh = Ok x.
Proof.
  induction subs as [|[ph info] subs IH]; simpl; intros T known sh; [eauto|].
  destruct (defined (map_get _ (processedBodies sh))) as [ex|].
  - cbn [bind]. apply IH. intros e He. apply T. auto.
  - pose proof (T (ph, info) (or_introl eq_refl)) as T0. cbn [snd] in T0.
    match goal with
    | |- context [rec ?b ?i ?n ?c ?s ?k ?h] =>
        destruct (T0 i n c s k h) as [[sq sh1] E]; rewrite E
    end.
    cbn [bind]. apply IH. intros e He. apply T. auto.
Qed.

Lemma unionBranches_total (rec : Process) (id0 name0 : str)
  (known : list str) (parts : list str) :
  (forall p, In p parts -> total_on rec p) ->
  forall i acc sh,
    exists x, unionBranches rec id0 name0 known parts i acc sh = Ok x.
Proof.
  induction parts as [|part parts IH]; simpl; intros T i acc sh; [eauto|].
  destruct (T part (or_introl eq_refl) (branchIdOf id0 i)
              (branchNameOf name0 i) false true known sh) as [[b sh1] ->].
  cbn [bind]. apply IH. intros p Hp. apply T. auto.
Qed.

(** One level of the recursion. *)
Lemma processSQL_level (fuel : nat) (sql : str) :
  (forall r, replaceSubqueries (normalizeWhitespace sql) = Ok r ->
             forall e, In e (rp_subs r) ->
                       total_on (processSQL fuel) (si_body (snd e))) ->
  (forall parts ut,
      splitByUnion (normalizeWhitespace sql) = Ok (parts, ut) ->
      1 < length parts ->
      forall p, In p parts -> total_on (processSQL fuel) p) ->
  total_on (processSQL (S fuel)) sql.
Proof.
  intros Bodies Branches id0 name0 c s known sh. cbn [processSQL].
  destruct (replaceSubqueries_spec (normalizeWhitespace sql)) as (r & Er & _).
  rewrite Er. cbn [bind].
  destruct (@eachSub_total (processSQL fuel) (rp_subs r) (Bodies r Er)
              known sh) as [[known1 sh1] E1].
  rewrite E1. cbn [bind].
  destruct (@eachSub_keys _ (rp_subs r) (processSQL_keeps_keys fuel)
              _ _ _ _ E1) as [_ Keys].
  destruct (splitByUnion_total (normalizeWhitespace sql)) as [[parts ut] Es].
  rewrite Es. cbn [bind].
  assert (Flat : exists x,
             (fq <- parseFlatSelect (rp_result r) id0 name0 c s known1 ;;
              q0 <- fixup (processedBodies sh1) known1 fq (rp_subs r) ;;
              Ok (q0, sh1)) = Ok x).
  { destruct (parseFlatSelect_total (rp_result r) id0 name0 c s known1)
      as [fq ->]. cbn [bind].
    destruct (@fixup_total (processedBodies sh1) known1 (rp_subs r) Keys fq)
      as [q1 ->]. cbn [bind]. eauto. }
  destruct (1 <? length parts) eqn:L; [|exact Flat].
  destruct (isComplex parts); [|exact Flat]. cbn [andb].
  destruct ut as [t|]; [|exact Flat].
  apply Nat.ltb_lt in L.
  destruct (@unionBranches_total (processSQL fuel) id0 name0 known1 parts
              (Branches parts (Some t) Es L) 0 [] sh1) as [[ids sh2] ->].
  cbn [bind]. eauto.
Qed.

Lemma eachSub_extends (rec1 rec2 : Process) (subs : list (str * SubInfo)) :
  extends rec1 rec2 ->
  forall known sh x,
    eachSub rec1 subs known sh = Ok x -> eachSub rec2 subs known sh = Ok x.
Proof.
  intros X. induction subs as [|[ph info] subs IH]; simpl;
    intros known sh x H; [exact H|].
  bind_inv H as [subId sh1] E.
  destruct (defined (map_get _ (processedBodies sh))).
  - inversion E; subst. cbn [bind]. apply IH. exact H.
  - bind_inv E as [sub sh2] E0. inversion E; subst.
    rewrite (X _ _ _ _ _ _ _ _ E0). cbn [bind]. apply IH. exact H.
Qed.

Lemma unionBranches_extends (rec1 rec2 : Process) (id0 name0 : str)
  (known : list str) (parts : list str) :
  extends rec1 rec2 ->
  forall i acc sh x,
    unionBranches rec1 id0 name0 known parts i acc sh = Ok x ->
    unionBranches rec2 id0 name0 known parts i acc sh = Ok x.
Proof.
  intros X. induction parts as [|part parts IH]; simpl;
    intros i acc sh x H; [exact H|].
  bind_inv H as [b sh1] E. rewrite (X _ _ _ _ _ _ _ _ E). cbn [bind].
  apply IH. exact H.
Qed.

(** More fuel returns the same. *)
Lemma processSQL_more_fuel (n : nat) :
  forall m, n <= m -> extends (processSQL n) (processSQL m).
Proof.
  induction n as [|n IH]; intros m L sql id0 name0 c s known sh x;
    cbn [processSQL]; [discriminate|].
  destruct m as [|m]; [lia|]. cbn [processSQL].
  assert (X : extends (processSQL n) (processSQL m)) by (apply IH; lia).
  intros H. bind_inv H as r E1. rewrite E1. cbn [bind].
  bind_inv H as [known1 sh1] E2.
  rewrite (@eachSub_extends _ _ (rp_subs r) X _ _ _ E2). cbn [bind].
  bind_inv H as [parts ut] E3. rewrite E3. cbn [bind].
  destruct ((1 <? length parts) && isComplex parts); [|exact H].
  destruct ut as [t|]; [|exact H].
  bind_inv H as [ids sh2] E4.
  rewrite (@unionBranches_extends _ _ id0 name0 known1 parts X _ _ _ _ E4).
  cbn [bind]. exact H.
Qed.

Lemma total_on_more_fuel (n m : nat) (sql : str) :
  n <= m -> total_on (processSQL n) sql -> total_on (processSQL m) sql.
Proof.
  intros L T id0 name0 c s known sh.
  destruct (T id0 name0 c s known sh) as [x E]. exists x.
  apply (processSQL_more_fuel L _ _ _ _ _ _ _ E).
Qed.

(** A bound for every text of a list is a bound for the list. *)
Lemma bound_all (xs : list str) :
  (forall x, In x xs -> exists n, total_on (processSQL n) x) ->
  exists n, forall x, In x xs -> total_on (processSQL n) x.
Proof.
  induction xs as [|y xs IH]; intros H.
  - exists 0. intros x [].
  - destruct (H y (or_introl eq_refl)) as [n1 T1].
    destruct IH as [n2 T2]; [intros x Hx; apply H; simpl; auto|].
    exists (Nat.max n1 n2). intros x [<-|Hx].
    + eapply total_on_more_fuel; [|exact T1]. lia.
    + eapply total_on_more_fuel; [|exact (T2 x Hx)]. lia.
Qed.

(** [processSQL] returns on every text, by induction on the number of
    closing parentheses and, for equal numbers, on the length. *)
Lemma processSQL_total_measure :
  forall q l sql,
    closers sql <= q -> length sql <= l ->
    exists n, total_on (processSQL n) sql.
Proof.
  induction q as [q IHq] using lt_wf_ind.
  induction l as [l IHl] using lt_wf_ind.
  intros sql Q L.
  pose proof (normalizeWhitespace_closers sql) as NQ.
  pose proof (normalizeWhitespace_length sql) as NL.
  destruct (replaceSubqueries_spec (normalizeWhitespace sql))
    as (r & Er & Less).
  destruct (@bound_all (map (fun e => si_body (snd e)) (rp_subs r)))
    as [n1 T1].
  { intros x Hx. apply in_map_iff in Hx. destruct Hx as (e & <- & He).
    specialize (Less e He).
    apply (IHq (closers (si_body (snd e)))) with (l := length (si_body (snd e)));
      lia. }
  destruct (splitByUnion_total (normalizeWhitespace sql)) as [[parts ut] Es].
  assert (T2 : exists n2, 1 < length parts ->
                          forall p, In p parts -> total_on (processSQL n2) p).
  { destruct (Nat.lt_ge_cases 1 (length parts)) as [L1|L1];
      [|exists 0; intros; lia].
    destruct (@bound_all parts) as [n2 T2]; [|exists n2; auto].
    intros p Hp. destruct (@splitByUnion_parts _ _ _ _ Es L1 Hp) as [PQ PL].
    apply (IHl (length p)) with (sql := p); lia. }
  destruct T2 as [n2 T2].
  exists (S (Nat.max n1 n2)). apply processSQL_level.
  - intros r' Er' e He. rewrite Er in Er'. inversion Er'; subst r'.
    eapply total_on_more_fuel; [|apply T1; apply in_map_iff; eauto]. lia.
  - intros parts' ut' Es' L1 p Hp. rewrite Es in Es'.
    inversion Es'; subst parts' ut'.
    eapply total_on_more_fuel; [|apply (T2 L1 p Hp)]. lia.
Qed.

Lemma processSQL_total (sql : str) : exists n, total_on (processSQL n) sql.
Proof.
  apply (@processSQL_total_measure (closers sql) (length sql)); lia.
Qed.

(* ================================================================== *)
(** * [parseSQL] returns *)

Lemma processTempTables_total (fuel : nat) (names : list str)
  (ts : list Named) :
  (forall t, In t ts -> total_on (processSQL fuel) (nm_body t)) ->
  forall i ctes sh,
    exists x, processTempTables fuel names ts i ctes sh = Ok x.
Proof.
  induction ts as [|t ts IH]; cbn [processTempTables]; intros T i ctes sh;
    [eauto|].
  destruct (T t (or_introl eq_refl) (lit "temp_" ++ nm_name t) (nm_name t)
              false false (firstn i names) sh) as [[q sh1] ->].
  cbn [bind]. apply IH. intros t' Ht'. apply T. right. exact Ht'.
Qed.

Lemma processCTEs_total (fuel : nat) (temps names : list str)
  (cs : list Named) :
  (forall t, In t cs -> total_on (processSQL fuel) (nm_body t)) ->
  forall i ctes sh,
    exists x, processCTEs fuel temps names cs i ctes sh = Ok x.
Proof.
  induction cs as [|t cs IH]; cbn [processCTEs]; intros T i ctes sh;
    [eauto|].
  destruct (T t (or_introl eq_refl) (lit "cte_" ++ of_nat i) (nm_name t)
              true false (temps ++ firstn i names) sh) as [[q sh1] ->].
  cbn [bind]. apply IH. intros t' Ht'. apply T. right. exact Ht'.
Qed.

Lemma processTempTables_more_fuel (n m : nat) (names : list str)
  (ts : list Named) :
  n <= m ->
  forall i ctes sh x,
    processTempTables n names ts i ctes sh = Ok x ->
    processTempTables m names ts i ctes sh = Ok x.
Proof.
  intros L. induction ts as [|t ts IH]; cbn [processTempTables];
    intros i ctes sh x H; [exact H|].
  bind_inv H as [q sh1] E.
  rewrite (processSQL_more_fuel L _ _ _ _ _ _ _ E). cbn [bind].
  apply IH. exact H.
Qed.

Lemma processCTEs_more_fuel (n m : nat) (temps names : list str)
  (cs : list Named) :
  n <= m ->
  forall i ctes sh x,
    processCTEs n temps names cs i ctes sh = Ok x ->
    processCTEs m temps names cs i ctes sh = Ok x.
Proof.
  intros L. induction cs as [|t cs IH]; cbn [processCTEs];
    intros i ctes sh x H; [exact H|].
  bind_inv H as [q sh1] E.
  rewrite (processSQL_more_fuel L _ _ _ _ _ _ _ E). cbn [bind].
  apply IH. exact H.
Qed.

Lemma preprocessTempTables_step_total (st : list Named * list str)
  (stmt : str) :
  exists x, preprocessTempTables_step st stmt = Ok x.
Proof.
  unfold preprocessTempTables_step. destruct st as [temps others].
  destruct (exec createTableRegex stmt) as [m|] eqn:E.
  - destruct (@exec_defines createTableRegex 1 _ _ ltac:(group_defined) E)
      as (g & -> & _). cbn [bind].
    destruct (truthy (group_or_empty stmt m 2)); eauto.
  - destruct (truthy (trim stmt)); eauto.
Qed.

Lemma preprocessTempTables_total (sql : str) :
  exists x, preprocessTempTables sql = Ok x.
Proof.
  unfold preprocessTempTables.
  destruct (@fold_res_total _ _ preprocessTempTables_step
              (splitStatements sql)
              (fun a b _ => preprocessTempTables_step_total a b) ([], []))
    as [[temps others] ->].
  cbn [bind]. eauto.
Qed.

Lemma parseSQL_more_fuel (n m : nat) (sql : str) (p : ParsedSQL) :
  n <= m -> parseSQL n sql = Ok p -> parseSQL m sql = Ok p.
Proof.
  intros L. unfold parseSQL.
  intros H. bind_inv H as [temps after] E0. rewrite E0. cbn [bind].
  bind_inv H as [raw remaining] E1. rewrite E1. cbn [bind].
  bind_inv H as [ctes1 sh1] E2.
  rewrite (@processTempTables_more_fuel n m _ _ L _ _ _ _ E2). cbn [bind].
  bind_inv H as [ctes2 sh2] E3.
  rewrite (@processCTEs_more_fuel n m _ _ _ L _ _ _ _ E3). cbn [bind].
  bind_inv H as [mainq sh3] E4.
  rewrite (processSQL_more_fuel L _ _ _ _ _ _ _ E4). cbn [bind].
  exact H.
Qed.

Lemma parseSQL_total (sql : str) :
  exists n p, parseSQL n sql = Ok p /\ id (mainQuery p) = lit "main".
Proof.
  unfold parseSQL.
  destruct (preprocessTempTables_total (removeComments sql))
    as [[temps after] ->].
  cbn [bind].
  destruct (extractCTEs_total (normalizeWhitespace after))
    as [[raw remaining] E1].
  set (names := map (fun t => toLowerCase (nm_name t)) temps).
  set (final := finalSQLOf remaining names).
  destruct (@bound_all (map nm_body temps ++ map nm_body raw ++ [final]))
    as [n T]; [intros x _; apply processSQL_total|].
  exists n. rewrite E1. cbn [bind].
  destruct (@processTempTables_total n names temps) with
    (i := 0) (ctes := @nil SubQuery) (sh := mkShared [] 0 [])
    as [[ctes1 sh1] E2].
  { intros t Ht. apply T. apply in_app_iff. left. apply in_map. exact Ht. }
  fold names. rewrite E2. cbn [bind].
  destruct (@processCTEs_total n names
              (map (fun c => toLowerCase (nm_name c)) raw) raw) with
    (i := 0) (ctes := ctes1) (sh := sh1) as [[ctes2 sh2] E3].
  { intros t Ht. apply T. apply in_app_iff. right. apply in_app_iff. left.
    apply in_map. exact Ht. }
  rewrite E3. cbn [bind]. fold (finalSQLOf remaining names). fold final.
  assert (Tf : total_on (processSQL n) final).
  { apply T. apply in_app_iff. right. apply in_app_iff. right. simpl. auto. }
  match goal with
  | |- context [processSQL n final ?i ?nm ?cc ?ss ?k ?h] =>
      destruct (Tf i nm cc ss k h) as [[mainq sh3] E4]
  end.
  rewrite E4. cbn [bind]. eexists. split; [reflexivity|]. simpl.
  apply (processSQL_headed _ _ _ _ _ _ _ _ E4).
Qed.

(** C1.  On every script [parseSQL] returns a document and does not
    throw: from some bound of the recursion on, every run returns the
    same document, whose main query is the unit [main]; in particular on
    scripts with an open parenthesis, a JOIN that stops short and an
    open quote. *)
Theorem parseSQL_never_throws (sql : str) :
  (exists p n,
      (forall fuel, n <= fuel -> parseSQL fuel sql = Ok p)
      /\ id (mainQuery p) = lit "main"
      /\ allQueries p = ctes p ++ subQueries p ++ [mainQuery p])
  /\ Forall (fun s => exists p, parseSQL 2 s = Ok p) malformed_scripts.
Proof.
  split.
  - destruct (parseSQL_total sql) as (n & p & E & M). exists p, n.
    split; [|split; [exact M|]].
    + intros fuel L. apply (@parseSQL_more_fuel _ _ _ _ L E).
    + apply (@parseSQL_allQueries _ _ _ E).
  - repeat constructor; vm_compute; eauto.
Qed.

(** C10, as the code has it.  [parseSQL] returns on every script once
    the bound of the recursion is large enough; [replaceSubqueries] and
    [extractCTEs] return on every text; every subquery body that
    [replaceSubqueries] records has strictly fewer closing parentheses
    than the text, and every branch of a union of more than one branch
    is strictly shorter than the text and has no more closing
    parentheses, so that the recursion of [processSQL] is well-founded. *)
Theorem parseSQL_terminates (sql : str) :
  (exists n, forall fuel, n <= fuel -> exists p, parseSQL fuel sql = Ok p)
  /\ (exists r, replaceSubqueries sql = Ok r
                /\ forall e, In e (rp_subs r) ->
                             closers (si_body (snd e)) < closers sql)
  /\ (exists x, extractCTEs sql = Ok x)
  /\ (forall parts ut p,
         splitByUnion sql = Ok (parts, ut) -> 1 < length parts ->
         In p parts ->
         length p < length sql /\ closers p <= closers sql).
Proof.
  split; [|split; [|split]].
  - destruct (parseSQL_total sql) as (n & p & E & _). exists n.
    intros fuel L. exists p. apply (@parseSQL_more_fuel _ _ _ _ L E).
  - apply replaceSubqueries_spec.
  - apply extractCTEs_total.
  - intros parts ut p Es L Hp.
    destruct (@splitByUnion_parts _ _ _ _ Es L Hp). split; assumption.
Qed.

(** C10 as stated fails: a subquery body that [processSQL] goes into can
    be longer than the text it was taken from, because the subqueries
    inside it have been replaced by placeholders. *)
Lemma replaceSubqueries_body_longer :
  exists r e,
    normalizeWhitespace long_body_script = long_body_script
    /\ replaceSubqueries long_body_script = Ok r
    /\ In e (rp_subs r)
    /\ length long_body_script = 78
    /\ length (si_body (snd e)) = 80.
Proof.
  destruct (replaceSubqueries long_body_script) as [r| |] eqn:E;
    [|vm_compute in E; discriminate E|vm_compute in E; discriminate E].
  vm_compute in E. inversion E; subst r; clear E.
  eexists. eexists. split; [vm_compute; reflexivity|].
  split; [reflexivity|]. split.
  - cbn [rp_subs]. do 4 right. left. reflexivity.
  - split; reflexivity.
Qed.
(* ================================================================== *)
(** * The documents of the parser *)

Lemma of_nat_length (n : nat) : 0 < length (of_nat n).
Proof.
  unfold of_nat, NilZero.string_of_uint.
  destruct (Nat.to_uint n); simpl; lia.
Qed.

Lemma subIdOf_ok (n : nat) : no_gt (subIdOf n) /\ 4 < length (subIdOf n).
Proof.
  unfold subIdOf. split.
  - apply no_gt_app. split; [reflexivity | apply no_gt_of_nat].
  - rewrite length_app. simpl. lia.
Qed.

Lemma branchIdOf_ok (id0 : str) (i : nat) :
  no_gt id0 -> no_gt (branchIdOf id0 i) /\ 4 < length (branchIdOf id0 i).
Proof.
  intros H. unfold branchIdOf. split.
  - apply no_gt_app. split; [exact H|]. apply no_gt_app.
    split; [reflexivity | apply no_gt_of_nat].
  - rewrite !length_app. simpl. lia.
Qed.

Lemma subquery_unit_ok (q : SubQuery) (id0 name0 : str) (c : bool) :
  headed id0 name0 c true q -> no_gt id0 -> 4 < length id0 -> unit_ok q.
Proof.
  intros (I & _ & _ & Sq) N L. unfold unit_ok, flagged.
  rewrite I, Sq, orb_true_r. auto.
Qed.

Lemma eachSub_ok (rec : Process) (subs : list (str * SubInfo)) :
  heads rec -> collects_ok rec ->
  forall known sh known' sh',
    eachSub rec subs known sh = Ok (known', sh') ->
    Forall unit_ok (subQueryCollector sh) ->
    Forall unit_ok (subQueryCollector sh').
Proof.
  intros Hd R. induction subs as [|[ph info] subs IH]; simpl;
    intros known sh known' sh' H F.
  - inversion H; subst. exact F.
  - bind_inv H as [subId sh1] E. apply IH in H; [exact H|].
    destruct (defined (map_get _ (processedBodies sh))).
    + inversion E; subst. exact F.
    + bind_inv E as [sub sh2] E0. inversion E; subst. simpl.
      destruct (subIdOf_ok (count sh)) as [N L].
      apply Forall_app. split.
      * apply (R _ _ _ _ _ _ _ _ _ E0 N). exact F.
      * constructor; [|constructor].
        eapply subquery_unit_ok; [exact (Hd _ _ _ _ _ _ _ _ _ E0) | |];
          assumption.
Qed.

Lemma unionBranches_ok (rec : Process) (id0 name0 : str)
  (known : list str) (parts : list str) :
  heads rec -> collects_ok rec -> no_gt id0 ->
  forall i acc sh ids sh',
    unionBranches rec id0 name0 known parts i acc sh = Ok (ids, sh') ->
    Forall unit_ok (subQueryCollector sh) ->
    Forall unit_ok (subQueryCollector sh').
Proof.
  intros Hd R N0. induction parts as [|part parts IH]; simpl;
    intros i acc sh ids sh' H F.
  - inversion H; subst. exact F.
  - bind_inv H as [b sh1] E. apply IH in H; [exact H|]. simpl.
    destruct (branchIdOf_ok i N0) as [N L].
    apply Forall_app. split.
    + apply (R _ _ _ _ _ _ _ _ _ E N). exact F.
    + constructor; [|constructor].
      eapply subquery_unit_ok; [exact (Hd _ _ _ _ _ _ _ _ _ E) | |];
        assumption.
Qed.

Lemma processSQL_heads (fuel : nat) : heads (processSQL fuel).
Proof.
  intros sql id0 name0 c s known sh q sh' H.
  exact (processSQL_headed _ _ _ _ _ _ _ _ H).
Qed.

Lemma processSQL_collects_ok (fuel : nat) : collects_ok (processSQL fuel).
Proof.
  induction fuel as [|fuel IH]; intros sql id0 name0 c s known sh q sh';
    simpl; [discriminate|]. intros H N F.
  bind_inv H as r E1. bind_inv H as [known1 sh1] E2.
  pose proof (@eachSub_ok _ (rp_subs r) (processSQL_heads fuel) IH
                _ _ _ _ E2 F) as F1.
  bind_inv H as [parts ut] E3.
  assert (Flat :
            (fq <- parseFlatSelect (rp_result r) id0 name0 c s known1 ;;
             q0 <- fixup (processedBodies sh1) known1 fq (rp_subs r) ;;
             Ok (q0, sh1)) = Ok (q, sh') ->
            Forall unit_ok (subQueryCollector sh')).
  { intros G. bind_inv G as fq E4. bind_inv G as q1 E5.
    inversion G; subst. exact F1. }
  destruct ((1 <? length parts) && isComplex parts); [destruct ut|].
  - bind_inv H as [ids sh2] E4. inversion H; subst.
    exact (@unionBranches_ok _ id0 name0 known1 parts
             (processSQL_heads fuel) IH N _ _ _ _ _ E4 F1).
  - apply (Flat H).
  - apply (Flat H).
Qed.

Lemma processTempTables_ok (fuel : nat) (names : list str)
  (ts : list Named) :
  (forall t, In t ts -> no_gt (nm_name t)) ->
  forall i ctes sh ctes' sh',
    processTempTables fuel names ts i ctes sh = Ok (ctes', sh') ->
    Forall unit_ok ctes -> Forall unit_ok (subQueryCollector sh) ->
    Forall unit_ok ctes' /\ Forall unit_ok (subQueryCollector sh').
Proof.
  induction ts as [|t ts IH]; cbn [processTempTables];
    intros T i ctes sh ctes' sh' H Fc Fs.
  - inversion H; subst. split; assumption.
  - bind_inv H as [q sh1] E.
    assert (N : no_gt (nm_name t)) by (apply T; left; reflexivity).
    apply IH in H; [exact H | intros t' Ht'; apply T; right; exact Ht' | |].
    + apply Forall_app. split; [exact Fc|]. constructor; [|constructor].
      unfold unit_ok, flagged, with_temp_id. cbn [id isTempTable isCTE].
      rewrite orb_true_r. split; [reflexivity|]. split.
      * apply no_gt_app. split; [reflexivity | exact N].
      * rewrite length_app. simpl. lia.
    + apply (@processSQL_collects_ok fuel _ _ _ _ _ _ _ _ _ E); [|exact Fs].
      apply no_gt_app. split; [reflexivity | exact N].
Qed.

Lemma processCTEs_ok (fuel : nat) (temps names : list str)
  (cs : list Named) :
  forall i ctes sh ctes' sh',
    processCTEs fuel temps names cs i ctes sh = Ok (ctes', sh') ->
    Forall unit_ok ctes -> Forall unit_ok (subQueryCollector sh) ->
    Forall unit_ok ctes' /\ Forall unit_ok (subQueryCollector sh').
Proof.
  induction cs as [|t cs IH]; cbn [processCTEs];
    intros i ctes sh ctes' sh' H Fc Fs.
  - inversion H; subst. split; assumption.
  - bind_inv H as [q sh1] E.
    assert (N : no_gt (lit "cte_" ++ of_nat i))
      by (apply no_gt_app; split; [reflexivity | apply no_gt_of_nat]).
    apply IH in H; [exact H | |].
    + apply Forall_app. split; [exact Fc|]. constructor; [|constructor].
      destruct (processSQL_headed _ _ _ _ _ _ _ _ E) as (I & _ & C & _).
      unfold unit_ok, flagged. rewrite I, C. split; [reflexivity|].
      split; [exact N|]. rewrite length_app.
      pose proof (of_nat_length i). simpl. lia.
    + apply (@processSQL_collects_ok fuel _ _ _ _ _ _ _ _ _ E);
        [exact N | exact Fs].
Qed.

(** Every document of the parser, for a script whose temp tables have
    names free of [>], is one the graph statements apply to. *)
Lemma parseSQL_units_ok (fuel : nat) (sql : str) (p : ParsedSQL) :
  parseSQL fuel sql = Ok p ->
  (forall n, In n (tempNamesOf sql) -> no_gt n) ->
  (forall q, In q (allQueries p) -> no_gt (id q))
  /\ (forall q, In q (allQueries p) ->
                flagged q = true \/ ~ In (id q) (unit_ids p)).
Proof.
  unfold parseSQL, tempNamesOf. intros H T.
  bind_inv H as [temps after] E0. rewrite E0 in T.
  bind_inv H as [raw remaining] E1.
  bind_inv H as [ctes1 sh1] E2. bind_inv H as [ctes2 sh2] E3.
  bind_inv H as [mainq sh3] E4. inversion H; subst p; clear H.
  assert (Tn : forall t, In t temps -> no_gt (nm_name t))
    by (intros t Ht; apply T, in_map, Ht).
  destruct (@processTempTables_ok _ _ temps Tn _ _ _ _ _ E2) as [Fc1 Fs1];
    [constructor | constructor |].
  destruct (@processCTEs_ok _ _ _ _ _ _ _ _ _ E3 Fc1 Fs1) as [Fc2 Fs2].
  pose proof (@processSQL_collects_ok fuel _ _ _ _ _ _ _ _ _ E4 eq_refl Fs2)
    as Fs3.
  destruct (processSQL_headed _ _ _ _ _ _ _ _ E4) as (I & _).
  assert (U : Forall unit_ok (ctes2 ++ subQueryCollector sh3))
    by (apply Forall_app; split; assumption).
  rewrite Forall_forall in U.
  unfold unit_ids. cbn [allQueries ctes subQueries mainQuery].
  split; intros q Hq; rewrite app_assoc in Hq; apply in_app_iff in Hq;
    destruct Hq as [Hq|[<-|[]]].
  - apply (U q Hq).
  - rewrite I. reflexivity.
  - left. apply (U q Hq).
  - right. intros M. apply in_map_iff in M. destruct M as (u & Eu & Hu).
    destruct (U u Hu) as (_ & _ & L). rewrite Eu, I in L. simpl in L. lia.
Qed.
(* ================================================================== *)
(** * [findMatchingParen] finds the first balanced closing parenthesis *)

(** The depth the loop of [findMatchingParen] has after a text. *)
Lemma depth_after (t : str) (depth : Z) :
  forall i,
    match findMatchingParen_loop t i depth with
    | Some close =>
        exists k,
          close = i + k
          /\ nth_error t k = Some c_rparen
          /\ (depth + Z.of_nat (openers (firstn (S k) t))
              - Z.of_nat (closers (firstn (S k) t)) = 0)%Z
          /\ forall j, j < k -> nth_error t j = Some c_rparen ->
                       (depth + Z.of_nat (openers (firstn (S j) t))
                        - Z.of_nat (closers (firstn (S j) t)) <> 0)%Z
    | None =>
        forall j, nth_error t j = Some c_rparen ->
                  (depth + Z.of_nat (openers (firstn (S j) t))
                   - Z.of_nat (closers (firstn (S j) t)) <> 0)%Z
    end.
Proof.
  revert depth. induction t as [|c t IH]; intros depth i.
  - simpl. intros [|j] H; discriminate.
  - cbn [findMatchingParen_loop].
    assert (Ho : forall n,
               openers (firstn (S n) (c :: t))
               = (if ch_eqb c c_lparen then 1 else 0) + openers (firstn n t)).
    { intros n. unfold openers. cbn [firstn filter].
      destruct (ch_eqb c c_lparen); reflexivity. }
    assert (Hc : forall n,
               closers (firstn (S n) (c :: t))
               = (if ch_eqb c c_rparen then 1 else 0) + closers (firstn n t)).
    { intros n. unfold closers. cbn [firstn filter].
      destruct (ch_eqb c c_rparen); reflexivity. }
    destruct (ch_eqb c c_rparen) eqn:Er.
    + assert (El : ch_eqb c c_lparen = false).
      { unfold ch_eqb in *. apply Ascii.eqb_eq in Er. subst c. reflexivity. }
      rewrite El in *.
      destruct (depth - 1 =? 0)%Z eqn:Ez.
      * exists 0. apply Z.eqb_eq in Ez.
        split; [lia|]. split.
        { simpl. unfold ch_eqb in Er. apply Ascii.eqb_eq in Er. congruence. }
        split; [rewrite Ho, Hc; cbn [firstn]; 
                unfold openers, closers; simpl; lia|].
        intros j Hj. lia.
      * apply Z.eqb_neq in Ez.
        specialize (IH (depth - 1)%Z (S i)).
        destruct (findMatchingParen_loop t (S i) (depth - 1)) as [close|].
        -- destruct IH as (k & Ec & Hn & Hb & Hf). exists (S k).
           split; [lia|]. split; [exact Hn|]. split.
           { rewrite Ho, Hc. lia. }
           intros [|j] Lj Hj.
           { rewrite Ho, Hc. cbn [firstn].
             unfold openers, closers. simpl. lia. }
           rewrite Ho, Hc.
           assert (j < k) by lia. specialize (Hf j H Hj). lia.
        -- intros [|j] Hj.
           { rewrite Ho, Hc. cbn [firstn].
             unfold openers, closers. simpl. lia. }
           rewrite Ho, Hc. specialize (IH j Hj). lia.
    + specialize (IH (if ch_eqb c c_lparen then depth + 1 else depth)%Z (S i)).
      destruct (findMatchingParen_loop t (S i) _) as [close|].
      * destruct IH as (k & Ec & Hn & Hb & Hf). exists (S k).
        split; [lia|]. split; [exact Hn|]. split.
        { rewrite Ho, Hc. destruct (ch_eqb c c_lparen); lia. }
        intros [|j] Lj Hj.
        { simpl in Hj. inversion Hj; subst c. discriminate Er. }
        rewrite Ho, Hc. assert (j < k) by lia. specialize (Hf j H Hj).
        destruct (ch_eqb c c_lparen); lia.
      * intros [|j] Hj.
        { simpl in Hj. inversion Hj; subst c. discriminate Er. }
        rewrite Ho, Hc. specialize (IH j Hj).
        destruct (ch_eqb c c_lparen); lia.
Qed.

Lemma balanced_at_depth (s : str) (start k : nat) :
  balanced_at s start (start + k) <->
  nth_error (skipn start s) k = Some c_rparen
  /\ (0 + Z.of_nat (openers (firstn (S k) (skipn start s)))
      - Z.of_nat (closers (firstn (S k) (skipn start s))) = 0)%Z.
Proof.
  unfold balanced_at. rewrite nth_error_skipn.
  rewrite (@substring_le start (S (start + k)) s) by lia.
  replace (S (start + k) - start) with (S k) by lia.
  split; intros [A B]; (split; [exact A | lia]).
Qed.

(** X1.  [findMatchingParen] returns the first index from [start] on at which
    a closing parenthesis brings the count of parentheses read since
    [start] back to balance, and [-1] exactly when there is no such
    index; an opening parenthesis at [start] is not required. *)
Theorem findMatchingParen_first_balanced (s : str) (start : nat) :
  match findMatchingParen s start with
  | Some close =>
      start <= close /\ close < length s
      /\ balanced_at s start close
      /\ forall j, start <= j -> j < close -> ~ balanced_at s start j
  | None => forall j, start <= j -> ~ balanced_at s start j
  end.
Proof.
  unfold findMatchingParen.
  pose proof (depth_after (skipn start s) 0 start) as H.
  destruct (findMatchingParen_loop (skipn start s) start 0) as [close|].
  - destruct H as (k & -> & Hn & Hb & Hf).
    split; [lia|]. split.
    { rewrite nth_error_skipn in Hn.
      apply nth_error_Some. congruence. }
    split; [apply balanced_at_depth; split; assumption|].
    intros j L1 L2 B. replace j with (start + (j - start)) in B by lia.
    apply balanced_at_depth in B. destruct B as [Bn Bb].
    apply (Hf (j - start)); [lia | exact Bn | exact Bb].
  - intros j L B. replace j with (start + (j - start)) in B by lia.
    apply balanced_at_depth in B. destruct B as [Bn Bb].
    exact (H _ Bn Bb).
Qed.

(* ================================================================== *)
(** * [splitTopLevel] keeps the text *)

Lemma join_with_snoc (sep : str) (xs : list str) (x : str) :
  join_with sep (xs ++ [x])
  = match xs with [] => x | _ :: _ => join_with sep xs ++ sep ++ x end.
Proof.
  induction xs as [|y xs IH]; [reflexivity|].
  destruct xs as [|z xs]; [reflexivity|].
  change (join_with sep ((y :: z :: xs) ++ [x]))
    with (y ++ sep ++ join_with sep ((z :: xs) ++ [x])).
  rewrite IH. change (join_with sep (y :: z :: xs))
    with (y ++ sep ++ join_with sep (z :: xs)).
  rewrite <- !app_assoc. reflexivity.
Qed.

Lemma join_with_grow (sep : str) (xs : list str) (x y : str) :
  join_with sep (xs ++ [x ++ y]) = join_with sep (xs ++ [x]) ++ y.
Proof.
  rewrite !join_with_snoc. destruct xs; [reflexivity|].
  rewrite <- !app_assoc. reflexivity.
Qed.

Lemma join_with_next (sep : str) (xs : list str) (x : str) :
  join_with sep ((xs ++ [x]) ++ [[]]) = join_with sep (xs ++ [x]) ++ sep.
Proof.
  pose proof (join_with_snoc sep (xs ++ [x]) []) as H.
  destruct (xs ++ [x]) eqn:E; [destruct xs; discriminate|].
  rewrite app_nil_r in H. exact H.
Qed.

Lemma splitTopLevel_loop_joins (d : ascii) (s : str) :
  forall depth current result,
  exists front last,
    join_with [d] (front ++ [last])
    = join_with [d] (result ++ [current]) ++ s
    /\ splitTopLevel_loop s d depth current result
       = if truthy (trim last) then front ++ [last] else front.
Proof.
  induction s as [|c s IH]; intros depth current result;
    cbn [splitTopLevel_loop].
  - exists result, current. rewrite app_nil_r. split; reflexivity.
  - set (depth' := if ch_eqb c c_rparen then _ else _).
    destruct (ch_eqb c d && (depth' =? 0)%Z) eqn:E.
    + apply andb_true_iff in E. destruct E as [Ec _].
      unfold ch_eqb in Ec. apply Ascii.eqb_eq in Ec. subst c.
      destruct (IH depth' [] (result ++ [current])) as (f & l & J & R).
      exists f, l. split; [|exact R].
      rewrite J, join_with_next, <- app_assoc. reflexivity.
    + destruct (IH depth' (current ++ [c]) result) as (f & l & J & R).
      exists f, l. split; [|exact R].
      rewrite J, join_with_grow, <- app_assoc. reflexivity.
Qed.

(** X2.  The parts of [splitTopLevel], put together again with the
    delimiter, are the text: nothing is lost but a last part that is
    blank, which the function drops (with the delimiter before it). *)
Theorem splitTopLevel_joins_back (s : str) (delimiter : ascii) :
  exists front last,
    join_with [delimiter] (front ++ [last]) = s
    /\ splitTopLevel s delimiter
       = if truthy (trim last) then front ++ [last] else front.
Proof.
  destruct (splitTopLevel_loop_joins delimiter s 0%Z [] [])
    as (f & l & J & R).
  exists f, l. split; [exact J | exact R].
Qed.
(* ================================================================== *)
(** * [trim] *)

Lemma trimStart_head (s : str) (c : ascii) (t : str) :
  trimStart s = c :: t -> is_space c = false.
Proof.
  induction s as [|x s IH]; simpl; [discriminate|].
  destruct (is_space x) eqn:E; [exact IH|].
  intros H. inversion H; subst. exact E.
Qed.

Lemma trimStart_fixed (c : ascii) (t : str) :
  is_space c = false -> trimStart (c :: t) = c :: t.
Proof. intros E. simpl. rewrite E. reflexivity. Qed.

Lemma trimStart_idem (s : str) : trimStart (trimStart s) = trimStart s.
Proof.
  destruct (trimStart s) as [|c t] eqn:E; [reflexivity|].
  apply trimStart_fixed. exact (@trimStart_head _ _ _ E).
Qed.

Lemma trimStart_snoc (a : str) (c : ascii) :
  is_space c = false -> trimStart (a ++ [c]) = trimStart a ++ [c].
Proof.
  intros E. induction a as [|x a IH]; simpl; [rewrite E; reflexivity|].
  destruct (is_space x); [exact IH | reflexivity].
Qed.

Lemma trimEnd_idem (s : str) : trimEnd (trimEnd s) = trimEnd s.
Proof.
  unfold trimEnd. rewrite rev_involutive, trimStart_idem. reflexivity.
Qed.

Lemma trimEnd_cons (c : ascii) (t : str) :
  is_space c = false -> trimEnd (c :: t) = c :: trimEnd t.
Proof.
  intros E. unfold trimEnd. simpl. rewrite (@trimStart_snoc _ _ E).
  rewrite rev_app_distr. reflexivity.
Qed.

Lemma trim_idem (s : str) : trim (trim s) = trim s.
Proof.
  unfold trim. destruct (trimStart s) as [|c t] eqn:E; [reflexivity|].
  pose proof (@trimStart_head _ _ _ E) as Hc.
  rewrite (@trimEnd_cons _ _ Hc), (@trimStart_fixed _ _ Hc).
  rewrite <- (@trimEnd_cons _ _ Hc). apply trimEnd_idem.
Qed.

Lemma truthy_nonempty (s : str) : truthy s = true <-> s <> [].
Proof. destruct s; simpl; split; congruence. Qed.

Lemma trimmed_trim (s : str) : truthy (trim s) = true -> trimmed (trim s).
Proof.
  intros T. split; [apply truthy_nonempty; exact T | apply trim_idem].
Qed.

(* ================================================================== *)
(** * [splitStatements] *)

Lemma if_nonempty_push_trimmed (xs : list str) (current : str) :
  Forall trimmed xs -> Forall trimmed (if_nonempty_push xs current).
Proof.
  intros F. unfold if_nonempty_push.
  destruct (truthy (trim current)) eqn:T; [|exact F].
  apply Forall_app. split; [exact F|].
  constructor; [apply trimmed_trim; exact T | constructor].
Qed.

Lemma splitStatements_step_trimmed (before : option ascii) (char : ascii)
  (s : SplitState) :
  Forall trimmed (ss_statements s) ->
  Forall trimmed (ss_statements (splitStatements_step before char s)).
Proof.
  destruct s as [statements depth current inQuote quoteChar].
  unfold splitStatements_step. intros F.
  destruct inQuote; [exact F|].
  destruct (is_quote char); [exact F|].
  match goal with |- context [if ?b then _ else _] => destruct b end;
    [apply if_nonempty_push_trimmed |]; exact F.
Qed.

Lemma splitStatements_loop_trimmed (sql : str) :
  forall before s,
    Forall trimmed (ss_statements s) ->
    Forall trimmed (ss_statements (splitStatements_loop before sql s)).
Proof.
  induction sql as [|c sql IH]; intros before s F; simpl; [exact F|].
  apply IH, splitStatements_step_trimmed, F.
Qed.

(** A step on a character other than the semicolon adds it to the
    statement being read. *)
Lemma splitStatements_step_keeps (before : option ascii) (char : ascii)
  (s : SplitState) :
  char <> c_semi ->
  ss_statements (splitStatements_step before char s) = ss_statements s
  /\ ss_current (splitStatements_step before char s)
     = ss_current s ++ [char].
Proof.
  destruct s as [statements depth current inQuote quoteChar].
  unfold splitStatements_step. intros N.
  destruct inQuote; [split; reflexivity|].
  destruct (is_quote char); [split; reflexivity|].
  assert (E : ch_eqb char c_semi = false).
  { unfold ch_eqb. apply Ascii.eqb_neq. exact N. }
  rewrite E. split; reflexivity.
Qed.

Lemma splitStatements_loop_keeps (sql : str) :
  ~ In c_semi sql ->
  forall before s,
    ss_statements (splitStatements_loop before sql s) = ss_statements s
    /\ ss_current (splitStatements_loop before sql s) = ss_current s ++ sql.
Proof.
  induction sql as [|c sql IH]; intros N before s; simpl.
  - rewrite app_nil_r. split; reflexivity.
  - assert (Nc : c <> c_semi) by (intros ->; apply N; left; reflexivity).
    destruct (@splitStatements_step_keeps before c s Nc) as [A B].
    destruct (IH (fun H => N (or_intror H)) (Some c)
                (splitStatements_step before c s)) as [A' B'].
    rewrite A', B', A, B, <- app_assoc. split; reflexivity.
Qed.

(** X3.  Every statement [splitStatements] returns is not empty and has no
    white space around it; and a text without a semicolon is one
    statement, the trimmed text, or none when it is blank. *)
Theorem splitStatements_trimmed (sql : str) :
  Forall trimmed (splitStatements sql)
  /\ (~ In c_semi sql ->
      splitStatements sql = if truthy (trim sql) then [trim sql] else []).
Proof.
  unfold splitStatements. split.
  - apply if_nonempty_push_trimmed, splitStatements_loop_trimmed.
    constructor.
  - intros N.
    destruct (@splitStatements_loop_keeps sql N None
                (mkSplitState [] 0%Z [] false "000"%char)) as [A B].
    rewrite A, B. reflexivity.
Qed.
(* ================================================================== *)
(** * Table references *)

Lemma indexOf_ch_spec (c : ascii) (s : str) :
  match indexOf_ch c s with
  | Some i => s = firstn i s ++ c :: skipn (S i) s
              /\ ~ In c (firstn i s) /\ i < length s
  | None => ~ In c s
  end.
Proof.
  induction s as [|x s IH]; simpl; [tauto|].
  destruct (ch_eqb x c) eqn:E.
  - unfold ch_eqb in E. apply Ascii.eqb_eq in E. subst x. simpl.
    split; [reflexivity|]. split; [tauto | lia].
  - assert (N : x <> c) by (unfold ch_eqb in E; apply Ascii.eqb_neq; exact E).
    destruct (indexOf_ch c s) as [i|]; simpl.
    + destruct IH as (A & B & L). split; [f_equal; exact A|].
      split; [|lia]. intros [H|H]; [exact (N H) | exact (B H)].
    + intros [H|H]; [exact (N H) | exact (IH H)].
Qed.

Lemma substring_0 (i : nat) (s : str) :
  i <= length s -> substring 0 i s = firstn i s.
Proof.
  intros L. rewrite (@substring_le 0 i s) by lia.
  rewrite Nat.sub_0_r. reflexivity.
Qed.

(** [parseTableName] cuts a name at its first dot. *)
Lemma parseTableName_parts (raw : str) :
  let '(fullName, schema, tableName) := parseTableName raw in
  fullName = raw
  /\ ((~ In c_dot raw /\ schema = [] /\ tableName = raw)
      \/ (raw = schema ++ [c_dot] ++ tableName /\ ~ In c_dot schema)).
Proof.
  unfold parseTableName. pose proof (indexOf_ch_spec c_dot raw) as H.
  destruct (indexOf_ch c_dot raw) as [i|].
  - destruct H as (A & B & L). split; [reflexivity|]. right.
    rewrite substring_0 by lia. unfold substring_from.
    replace (i + 1) with (S i) by lia. split; [exact A | exact B].
  - split; [reflexivity|]. left. repeat split. exact H.
Qed.

(** X4.  The reference [createTableRef] builds.  Its name is the cleaned raw
    name; schema and table name are the name cut at its first dot, and
    put together again they give the name; the alias is the one given
    unless that is empty or a reserved word in any letter case, and then
    it is the name; and the reference has no type exactly when its table
    name or its name matches a known name. *)
Theorem createTableRef_parts (rawName alias : str) (knownNames : list str) :
  let t := createTableRef rawName alias knownNames in
  tr_name t = cleanName rawName
  /\ ((~ In c_dot (tr_name t) /\ tr_schema t = []
       /\ tr_tableName t = tr_name t)
      \/ (tr_name t = tr_schema t ++ [c_dot] ++ tr_tableName t
          /\ ~ In c_dot (tr_schema t)))
  /\ ((tr_alias t = alias /\ alias <> []
       /\ ~ In (toUpperCase alias) invalidAliases)
      \/ (tr_alias t = tr_name t
          /\ (alias = [] \/ In (toUpperCase alias) invalidAliases)))
  /\ (tr_type t = None <->
      exists k, In k knownNames
                /\ (getMatchName k = getMatchName (tr_tableName t)
                    \/ getMatchName k = getMatchName (tr_name t)))
  /\ (tr_type t <> None -> tr_type t = Some (classifyTable (tr_name t))).
Proof.
  unfold createTableRef.
  pose proof (parseTableName_parts (cleanName rawName)) as P.
  destruct (parseTableName (cleanName rawName)) as [[fullName schema] tn].
  destruct P as [-> P]. cbn [tr_name tr_schema tr_tableName tr_alias tr_type].
  split; [reflexivity|]. split; [exact P|]. split; [|split].
  - destruct alias as [|a alias]; [right; split; [reflexivity | left; reflexivity]|].
    cbn [truthy andb].
    destruct (mem (toUpperCase (a :: alias)) invalidAliases) eqn:M; cbn [negb].
    + right. split; [reflexivity|]. right. apply mem_In. exact M.
    + left. split; [reflexivity|]. split; [discriminate|].
      intros H. apply mem_In in H. congruence.
  - unfold isKnownName.
    destruct (existsb _ knownNames) eqn:E.
    + split; [intros _ | reflexivity].
      apply existsb_exists in E. destruct E as (k & Hk & M).
      exists k. split; [exact Hk|]. unfold matches2 in M.
      apply orb_true_iff in M. destruct M as [M|M]; apply str_eqb_eq in M;
        auto.
    + split; [discriminate|]. intros (k & Hk & M). exfalso.
      assert (X : existsb (matches2 (getMatchName tn)
                             (getMatchName (cleanName rawName)))
                    knownNames = true).
      { apply existsb_exists. exists k. split; [exact Hk|].
        unfold matches2. apply orb_true_iff.
        destruct M as [M|M]; rewrite M; [left | right]; apply str_eqb_refl. }
      congruence.
  - destruct (isKnownName _ _ _); [congruence | reflexivity].
Qed.

(* ================================================================== *)
(** * [classifyTable] *)

Lemma startsWith_spec (p s : str) :
  startsWith p s = true <-> exists b, s = p ++ b.
Proof.
  revert s. induction p as [|x p IH]; intros s; simpl.
  - split; [intros _; exists s; reflexivity | reflexivity].
  - destruct s as [|y s].
    + split; [discriminate | intros [b H]; discriminate].
    + rewrite andb_true_iff, IH. unfold ch_eqb. rewrite Ascii.eqb_eq.
      split.
      * intros [-> [b ->]]. exists b. reflexivity.
      * intros [b H]. inversion H; subst. split; [reflexivity | eauto].
Qed.

Lemma includes_spec (p s : str) :
  includes p s = true <-> exists a b, s = a ++ p ++ b.
Proof.
  induction s as [|y s IH]; simpl.
  - rewrite orb_false_r, startsWith_spec. split.
    + intros [b H]. exists [], b. exact H.
    + intros (a & b & H). destruct a; simpl in H; [eauto | discriminate].
  - rewrite orb_true_iff, startsWith_spec, IH. split.
    + intros [[b H]|(a & b & H)].
      * exists [], b. exact H.
      * exists (y :: a), b. simpl. rewrite H. reflexivity.
    + intros (a & b & H). destruct a as [|x a]; simpl in H.
      * left. eauto.
      * right. inversion H; subst. eauto.
Qed.

Lemma includes_lower (p n : str) :
  includes p (toLowerCase n) = true <->
  exists a m b, n = a ++ m ++ b /\ toLowerCase m = p.
Proof.
  rewrite includes_spec. unfold toLowerCase. split.
  - intros (a & b & H). apply map_eq_app in H.
    destruct H as (a' & r & -> & Ha & H). apply map_eq_app in H.
    destruct H as (m & b' & -> & Hm & Hb). eauto.
  - intros (a & m & b & -> & <-). rewrite !map_app. eauto.
Qed.

(** X5.  A table is a fact table exactly when its name holds [app], [dm],
    [dwd] or [dws] somewhere, in any letter case; every other name, one
    with [dim] too, is a dimension table. *)
Theorem classifyTable_fact_marks (fullName : str) :
  classifyTable fullName = fact <->
  exists a m b, fullName = a ++ m ++ b /\ In (toLowerCase m) factMarks.
Proof.
  unfold classifyTable, factMarks. split.
  - destruct (includes (lit "app") _) eqn:E1;
      [apply includes_lower in E1; destruct E1 as (a & m & b & H & L);
       intros _; exists a, m, b; rewrite L; simpl; auto 10|].
    destruct (includes (lit "dm") _) eqn:E2;
      [apply includes_lower in E2; destruct E2 as (a & m & b & H & L);
       intros _; exists a, m, b; rewrite L; simpl; auto 10|].
    destruct (includes (lit "dwd") _) eqn:E3;
      [apply includes_lower in E3; destruct E3 as (a & m & b & H & L);
       intros _; exists a, m, b; rewrite L; simpl; auto 10|].
    destruct (includes (lit "dws") _) eqn:E4;
      [apply includes_lower in E4; destruct E4 as (a & m & b & H & L);
       intros _; exists a, m, b; rewrite L; simpl; auto 10|].
    cbn [orb]. discriminate.
  - intros (a & m & b & H & M).
    assert (I : includes (toLowerCase m) (toLowerCase fullName) = true)
      by (apply includes_lower; eauto).
    cbn [map In] in M.
    destruct M as [M|[M|[M|[M|[]]]]]; rewrite <- M in I; rewrite I;
      rewrite ?orb_true_r; reflexivity.
Qed.
(* ================================================================== *)
(** * Replacing the runs of a class of characters *)

Section Runs.

Variable p : ascii -> bool.

(** The first way the greedy repetition of a character test matches
    takes the whole run. *)
Lemma star_loop_run :
  forall n t i pv c,
    length t <= n ->
    exists pv' l,
      star_loop (run (Chr p)) true n (St i pv t) c
      = (St (i + span p t) pv' (skipn (span p t) t), c) :: l.
Proof.
  induction n as [|n IH]; intros t i pv c L.
  - destruct t; [|simpl in L; lia]. simpl. rewrite Nat.add_0_r. eauto.
  - destruct t as [|x t].
    + simpl. rewrite Nat.add_0_r. eauto.
    + assert (R : run (Chr p) (St i pv (x :: t)) c
                  = if p x then [(St (S i) (Some x) t, c)] else [])
        by reflexivity.
      cbn [star_loop span]. rewrite R. destruct (p x) eqn:E.
      * cbn [flat_map fst snd pos].
        assert (N : (S i =? i) = false) by (apply Nat.eqb_neq; lia).
        rewrite N.
        destruct (IH t (S i) (Some x) c) as (pv' & l & ->);
          [simpl in L; lia|].
        exists pv'. eexists. cbn [skipn].
        replace (i + S (span p t)) with (S i + span p t) by lia.
        rewrite app_nil_r. reflexivity.
      * simpl. rewrite Nat.add_0_r. eauto.
Qed.

Lemma run_plus_run (x : ascii) (t : str) (i : nat) (pv : option ascii)
  (c : caps) :
  p x = true ->
  exists pv' l,
    run (plus (Chr p)) (St i pv (x :: t)) c
    = (St (i + span p (x :: t)) pv' (skipn (span p (x :: t)) (x :: t)), c)
      :: l.
Proof.
  intros E. unfold plus.
  assert (R : run (Seq (Chr p) (Star true (Chr p))) (St i pv (x :: t)) c
              = star_loop (run (Chr p)) true (length t)
                  (St (S i) (Some x) t) c ++ []).
  { cbn [run step rest]. rewrite E. reflexivity. }
  rewrite R. cbn [span]. rewrite E.
  destruct (@star_loop_run (length t) t (S i) (Some x) c (le_n _))
    as (pv' & l & ->).
  exists pv'. eexists. cbn [skipn].
  replace (i + S (span p t)) with (S i + span p t) by lia.
  rewrite app_nil_r. reflexivity.
Qed.

Lemma run_plus_none (t : str) (i : nat) (pv : option ascii) (c : caps) :
  match t with [] => True | x :: _ => p x = false end ->
  run (plus (Chr p)) (St i pv t) c = [].
Proof.
  intros E. unfold plus.
  destruct t as [|x t]; [reflexivity|].
  cbn [run step rest]. rewrite E. reflexivity.
Qed.

(** The leftmost match of [r+] for a character test [r]: it starts at
    the first character that passes and takes the run. *)
Lemma search_at_plus :
  forall t i pv,
    search_at (plus (Chr p)) i pv t
    = let k := span (fun c => negb (p c)) t in
      match skipn k t with
      | [] => None
      | _ :: _ => Some (Match (i + k) (i + k + span p (skipn k t)) [])
      end.
Proof.
  induction t as [|x t IH]; intros i pv.
  - cbn [search_at]. rewrite run_plus_none by exact I. reflexivity.
  - cbn [search_at span]. destruct (p x) eqn:E; cbn [negb].
    + destruct (@run_plus_run x t i pv [] E) as (pv' & l & ->).
      cbn [skipn pos]. rewrite Nat.add_0_r. reflexivity.
    + rewrite run_plus_none by exact E. rewrite IH. cbn zeta.
      cbn [skipn]. destruct (skipn _ t); [reflexivity|].
      apply f_equal. apply f_equal3; [lia | lia | reflexivity].
Qed.

Lemma span_le (t : str) : span p t <= length t.
Proof.
  induction t as [|y t IH]; simpl; [lia|]. destruct (p y); simpl; lia.
Qed.

Lemma squeeze_free (rep : str) (t : str) :
  skipn (span (fun c => negb (p c)) t) t = [] ->
  squeeze p rep false t = t.
Proof.
  induction t as [|x t IH]; simpl; [reflexivity|].
  destruct (p x); simpl; [discriminate|]. intros H. rewrite IH; auto.
Qed.

Lemma squeeze_seen (rep : str) (t : str) :
  squeeze p rep true t = squeeze p rep false (skipn (span p t) t).
Proof.
  induction t as [|x t IH]; simpl; [reflexivity|].
  destruct (p x) eqn:E; simpl; [exact IH | rewrite E; reflexivity].
Qed.

Lemma squeeze_next (rep : str) (t : str) :
  let k := span (fun c => negb (p c)) t in
  skipn k t <> [] ->
  squeeze p rep false t
  = firstn k t ++ rep
    ++ squeeze p rep false (skipn (k + span p (skipn k t)) t)
  /\ 0 < span p (skipn k t)
  /\ k + span p (skipn k t) <= length t.
Proof.
  induction t as [|x t IH]; cbn zeta; [intros H; exfalso; apply H; reflexivity|].
  cbn [span]. destruct (p x) eqn:E; cbn [negb].
  - intros _. cbn [skipn firstn app plus span squeeze]. rewrite E.
    cbn [Nat.add skipn]. split; [|split].
    + rewrite squeeze_seen. reflexivity.
    + lia.
    + pose proof (span_le t). simpl. lia.
  - cbn [skipn]. intros H. destruct (IH H) as (A & B & C).
    cbn [squeeze firstn]. rewrite E. cbn [Nat.add skipn app length].
    split; [rewrite A; reflexivity|]. split; [exact B | lia].
Qed.

Lemma replace_loop_squeeze (rep : str) (s : str) :
  forall fuel from,
    from <= length s -> length s - from < fuel ->
    replace_loop fuel (plus (Chr p)) (fun _ => rep) from s
    = squeeze p rep false (skipn from s).
Proof.
  induction fuel as [|fuel IH]; intros from L F; [lia|].
  cbn [replace_loop]. unfold exec_from, state_at.
  assert (Lt : (length s <? from) = false) by (apply Nat.ltb_ge; exact L).
  rewrite Lt. cbn [pos prev rest]. rewrite search_at_plus. cbn zeta.
  set (t := skipn from s).
  set (k := span (fun c => negb (p c)) t).
  destruct (skipn k t) as [|y u] eqn:Ek.
  - symmetry. apply squeeze_free. exact Ek.
  - assert (Ne : skipn k t <> []) by (rewrite Ek; discriminate).
    destruct (@squeeze_next rep t Ne) as (A & B & C).
    fold k in A, B, C. rewrite Ek in A, B, C.
    cbn [index stop].
    assert (Lk : length t = length s - from) by (unfold t; apply length_skipn).
    assert (N : (from + k + span p (y :: u) =? from + k) = false)
      by (apply Nat.eqb_neq; lia).
    rewrite N, IH by lia.
    rewrite A. f_equal.
    + rewrite (@substring_le from (from + k) s) by lia.
      replace (from + k - from) with k by lia. reflexivity.
    + f_equal. unfold t. rewrite skipn_skipn. f_equal. f_equal. lia.
Qed.

End Runs.

(** [/\s+/g] replaced by one space, as a function on lists. *)
Lemma replace_spaces_squeeze (s : str) :
  replace_all re_spaces (lit " ") s = squeeze is_space (lit " ") false s.
Proof.
  unfold replace_all, re_spaces, sp.
  rewrite replace_loop_squeeze by lia. reflexivity.
Qed.

(* ================================================================== *)
(** * [normalizeWhitespace] *)

Lemma squeeze_spaced (s : str) :
  (single_spaced (squeeze is_space (lit " ") true s) = true
   /\ match squeeze is_space (lit " ") true s with
      | [] => True
      | d :: _ => is_space d = false
      end)
  /\ single_spaced (squeeze is_space (lit " ") false s) = true.
Proof.
  induction s as [|c s [[A B] C]]; [simpl; auto|].
  cbn [squeeze]. destruct (is_space c) eqn:E.
  - split; [split; assumption|].
    change (lit " " ++ squeeze is_space (lit " ") true s)
      with (" "%char :: squeeze is_space (lit " ") true s).
    cbn [single_spaced]. rewrite A.
    destruct (squeeze is_space (lit " ") true s); [reflexivity|].
    rewrite B. reflexivity.
  - cbn [single_spaced]. rewrite E, C. auto.
Qed.

Lemma single_spaced_tail (c : ascii) (t : str) :
  single_spaced (c :: t) = true -> single_spaced t = true.
Proof. cbn [single_spaced]. intros H. apply andb_true_iff in H. tauto. Qed.

Lemma single_spaced_suffix (a b : str) :
  single_spaced (a ++ b) = true -> single_spaced b = true.
Proof.
  induction a as [|c a IH]; [auto|]. intros H.
  apply IH. exact (single_spaced_tail _ _ H).
Qed.

Lemma single_spaced_prefix (a b : str) :
  single_spaced (a ++ b) = true -> single_spaced a = true.
Proof.
  induction a as [|c a IH]; [reflexivity|].
  change ((c :: a) ++ b) with (c :: (a ++ b)). cbn [single_spaced].
  intros H. apply andb_true_iff in H. destruct H as [H1 H2].
  rewrite (IH H2), andb_true_r. destruct (is_space c); [|reflexivity].
  apply andb_true_iff in H1. destruct H1 as [H1 H3]. rewrite H1.
  destruct a; [reflexivity | exact H3].
Qed.

Lemma trimStart_suffix (s : str) : exists a, s = a ++ trimStart s.
Proof.
  induction s as [|c s [a IH]]; [exists []; reflexivity|]. simpl.
  destruct (is_space c); [|exists []; reflexivity].
  exists (c :: a). simpl. rewrite <- IH. reflexivity.
Qed.

Lemma trimEnd_prefix (s : str) : exists b, s = trimEnd s ++ b.
Proof.
  unfold trimEnd. destruct (trimStart_suffix (rev s)) as [a H].
  exists (rev a). rewrite <- rev_app_distr, <- H, rev_involutive.
  reflexivity.
Qed.

Lemma single_spaced_trim (s : str) :
  single_spaced s = true -> single_spaced (trim s) = true.
Proof.
  intros H. unfold trim.
  destruct (trimStart_suffix s) as [a Ha].
  destruct (trimEnd_prefix (trimStart s)) as [b Hb].
  rewrite Ha in H. apply single_spaced_suffix in H.
  rewrite Hb in H. apply single_spaced_prefix in H. exact H.
Qed.

Lemma squeeze_fixed (s : str) :
  single_spaced s = true -> squeeze is_space (lit " ") false s = s.
Proof.
  induction s as [|c s IH]; [reflexivity|]. cbn [single_spaced squeeze].
  intros H. apply andb_true_iff in H. destruct H as [H1 H2].
  specialize (IH H2). destruct (is_space c) eqn:E.
  - apply andb_true_iff in H1. destruct H1 as [Hc Hn].
    unfold ch_eqb in Hc. apply Ascii.eqb_eq in Hc. subst c.
    change (lit " " ++ squeeze is_space (lit " ") true s)
      with (" "%char :: squeeze is_space (lit " ") true s).
    f_equal. destruct s as [|d s]; [reflexivity|].
    cbn [squeeze] in *. apply negb_true_iff in Hn. rewrite Hn in *.
    exact IH.
  - rewrite IH. reflexivity.
Qed.

Lemma solid_squeeze (seen : bool) (s : str) :
  solid (squeeze is_space (lit " ") seen s) = solid s.
Proof.
  revert seen. induction s as [|c s IH]; intros seen; [reflexivity|].
  cbn [squeeze]. unfold solid in *. cbn [filter].
  destruct (is_space c) eqn:E; cbn [negb].
  - destruct seen; [apply IH|].
    change (lit " " ++ squeeze is_space (lit " ") true s)
      with (" "%char :: squeeze is_space (lit " ") true s).
    cbn [filter]. change (is_space " "%char) with true. cbn [negb].
    apply IH.
  - cbn [filter]. rewrite E. cbn [negb]. rewrite IH. reflexivity.
Qed.

Lemma solid_trimStart (s : str) : solid (trimStart s) = solid s.
Proof.
  induction s as [|c s IH]; [reflexivity|]. cbn [trimStart].
  destruct (is_space c) eqn:E; [|reflexivity].
  rewrite IH. unfold solid. cbn [filter]. rewrite E. reflexivity.
Qed.

Lemma solid_trim (s : str) : solid (trim s) = solid s.
Proof.
  unfold trim, trimEnd. unfold solid at 1.
  rewrite filter_rev. fold (solid (trimStart (rev (trimStart s)))).
  rewrite solid_trimStart. unfold solid at 1.
  rewrite filter_rev, rev_involutive. apply solid_trimStart.
Qed.

(** X6.  The text [normalizeWhitespace] returns has white space only as
    single space characters between other characters, none at its ends;
    its other characters are those of the text given, in order; and
    normalizing it again changes nothing. *)
Theorem normalizeWhitespace_normal (sql : str) :
  single_spaced (normalizeWhitespace sql) = true
  /\ trim (normalizeWhitespace sql) = normalizeWhitespace sql
  /\ solid (normalizeWhitespace sql) = solid sql
  /\ normalizeWhitespace (normalizeWhitespace sql) = normalizeWhitespace sql.
Proof.
  unfold normalizeWhitespace. rewrite replace_spaces_squeeze.
  assert (S1 : single_spaced
                 (trim (squeeze is_space (lit " ") false sql)) = true)
    by (apply single_spaced_trim, squeeze_spaced).
  split; [exact S1|]. split; [apply trim_idem|].
  split; [rewrite solid_trim; apply solid_squeeze|].
  rewrite replace_spaces_squeeze, (squeeze_fixed _ S1). apply trim_idem.
Qed.
(* ================================================================== *)
(** * [removeComments] *)

Lemma run_seq_eq (r1 r2 : regex) (st : state) (c : caps) :
  run (Seq r1 r2) st c
  = flat_map (fun sc => run r2 (fst sc) (snd sc)) (run r1 st c).
Proof. reflexivity. Qed.

(** A literal matches only where the text starts with it. *)
Lemma run_literal_none (w : str) :
  forall st c,
    startsWith w (rest st) = false ->
    run (seqs (map (fun x => Chr (only x)) w)) st c = [].
Proof.
  induction w as [|x w IH]; intros st c H; [discriminate H|].
  destruct st as [i pv t].
  assert (R : run (Chr (only x)) (St i pv t) c
              = match t with
                | [] => []
                | y :: t' =>
                    if only x y then [(St (S i) (Some y) t', c)] else []
                end) by (destruct t; reflexivity).
  assert (Sym : forall y, only x y = ch_eqb x y).
  { intros y. unfold only, ch_eqb. apply Ascii.eqb_sym. }
  cbn [rest] in H. destruct w as [|x2 w].
  - cbn [map seqs]. rewrite R. destruct t as [|y t']; [reflexivity|].
    cbn [startsWith] in H. rewrite andb_true_r in H.
    rewrite Sym, H. reflexivity.
  - change (seqs (map (fun x => Chr (only x)) (x :: x2 :: w)))
      with (Seq (Chr (only x))
              (seqs (map (fun x => Chr (only x)) (x2 :: w)))).
    rewrite run_seq_eq, R. destruct t as [|y t']; [reflexivity|].
    cbn [startsWith] in H. rewrite Sym.
    destruct (ch_eqb x y); [|reflexivity].
    cbn [andb] in H. cbn [flat_map fst snd].
    rewrite (IH (St (S i) (Some y) t') c H). reflexivity.
Qed.

(** A pattern that begins with a literal finds nothing in a text that
    does not include the literal. *)
Lemma search_at_literal_none (w : string) (r : regex) :
  forall t i pv,
    includes (lit w) t = false ->
    search_at (Seq (tx w) r) i pv t = None.
Proof.
  induction t as [|x t IH]; intros i pv H; cbn [includes] in H;
    apply orb_false_iff in H; destruct H as [H1 H2]; cbn [search_at];
    rewrite run_seq_eq; unfold tx.
  - rewrite run_literal_none by exact H1. reflexivity.
  - rewrite run_literal_none by exact H1. cbn [flat_map].
    apply IH. exact H2.
Qed.

Lemma replace_all_literal_none (w : string) (r : regex) (repl s : str) :
  includes (lit w) s = false ->
  replace_all (Seq (tx w) r) repl s = s.
Proof.
  intros H. unfold replace_all. rewrite Nat.add_1_r. cbn [replace_loop].
  unfold exec_from, state_at. cbn [Nat.ltb Nat.leb pos prev rest skipn].
  rewrite (search_at_literal_none w r s 0 None H). reflexivity.
Qed.

(** X7.  Removing comments never makes a text longer or adds a closing
    parenthesis, and a text that holds neither two hyphens in a row nor
    a slash followed by a star is returned as it is. *)
Theorem removeComments_plain (sql : str) :
  length (removeComments sql) <= length sql
  /\ closers (removeComments sql) <= closers sql
  /\ (includes (lit "--") sql = false ->
      includes (lit "/*") sql = false ->
      removeComments sql = sql).
Proof.
  unfold removeComments, replace_all.
  destruct (@replace_loop_bound re_line_comment [] sql) with
    (fuel := length sql + 1) (from := 0) as [Q1 L1];
    try (simpl; lia); try reflexivity.
  set (s1 := replace_loop (length sql + 1) re_line_comment (fun _ => []) 0
               sql) in *.
  destruct (@replace_loop_bound re_block_comment [] s1) with
    (fuel := length s1 + 1) (from := 0) as [Q2 L2];
    try (simpl; lia); try reflexivity.
  cbn [skipn] in Q1, Q2. split; [lia|]. split; [lia|].
  intros H1 H2.
  assert (E1 : s1 = sql)
    by (exact (@replace_all_literal_none "--" _ [] sql H1)).
  rewrite E1. exact (@replace_all_literal_none "/*" _ [] sql H2).
Qed.
(* ================================================================== *)
(** * [splitByUnion] *)

(** A sequence of character tests matches only where the text passes
    them. *)
Lemma run_tests_none (ps : list (ascii -> bool)) :
  forall st c,
    startsWithP ps (rest st) = false ->
    run (seqs (map Chr ps)) st c = [].
Proof.
  induction ps as [|q ps IH]; intros st c H; [discriminate H|].
  destruct st as [i pv t].
  assert (R : run (Chr q) (St i pv t) c
              = match t with
                | [] => []
                | y :: t' => if q y then [(St (S i) (Some y) t', c)] else []
                end) by (destruct t; reflexivity).
  cbn [rest] in H. destruct ps as [|q2 ps].
  - cbn [map seqs]. rewrite R. destruct t as [|y t']; [reflexivity|].
    cbn [startsWithP] in H. rewrite andb_true_r in H. rewrite H.
    reflexivity.
  - change (seqs (map Chr (q :: q2 :: ps)))
      with (Seq (Chr q) (seqs (map Chr (q2 :: ps)))).
    rewrite run_seq_eq, R. destruct t as [|y t']; [reflexivity|].
    cbn [startsWithP] in H. destruct (q y); [|reflexivity].
    cbn [andb] in H. cbn [flat_map fst snd].
    rewrite (IH (St (S i) (Some y) t') c H). reflexivity.
Qed.

Lemma kw_tests (w : string) :
  kw w = seqs (map Chr (map ci (lit w))).
Proof. unfold kw. rewrite map_map. reflexivity. Qed.

(** An anchored pattern that begins with a keyword finds nothing in a
    text that does not start with the keyword. *)
Lemma exec_keyword_none (w : string) (r : regex) (t : str) :
  startsWithP (map ci (lit w)) t = false ->
  exec (Seq Bol (Seq (kw w) r)) t = None.
Proof.
  intros H. unfold exec, exec_from, state_at.
  cbn [Nat.ltb Nat.leb length pos prev rest skipn].
  assert (R : run (Seq Bol (Seq (kw w) r)) (St 0 None t) [] = []).
  { assert (B : run Bol (St 0 None t) [] = [(St 0 None t, [])])
      by reflexivity.
    rewrite run_seq_eq, B. cbn [flat_map fst snd].
    rewrite run_seq_eq, kw_tests, run_tests_none by exact H.
    reflexivity. }
  destruct t as [|x t]; cbn [search_at]; rewrite R; [reflexivity|].
  apply search_at_anchored. apply anchored_bol.
Qed.

Lemma nth_error_skipn_cons (s : str) (i : nat) (c : ascii) :
  nth_error s i = Some c -> skipn i s = c :: skipn (S i) s.
Proof.
  revert i. induction s as [|x s IH]; intros [|i] H; try discriminate.
  - inversion H. reflexivity.
  - simpl in *. apply IH. exact H.
Qed.

(** The loop of [splitByUnion] over a text that holds no UNION. *)
Lemma splitByUnion_loop_plain (sql : str) :
  forall fuel i depth current parts det,
    includesP (map ci (lit "UNION")) (skipn i sql) = false ->
    length sql - i < fuel ->
    splitByUnion_loop fuel sql i depth current parts det
    = let parts' :=
        if truthy (trim (current ++ skipn i sql))
        then push_trimmed parts (current ++ skipn i sql) else parts in
      Ok (parts', if 1 <? length parts' then det else None).
Proof.
  induction fuel as [|fuel IH]; intros i depth current parts det H F; [lia|].
  cbn [splitByUnion_loop]. destruct (nth_error sql i) as [c|] eqn:E.
  - rewrite (nth_error_skipn_cons _ _ E) in H. cbn [includesP] in H.
    apply orb_false_iff in H. destruct H as [H1 H2].
    unfold substring_from. rewrite (nth_error_skipn_cons _ _ E).
    assert (Ua : exec re_union_all (c :: skipn (S i) sql) = None)
      by (apply (exec_keyword_none "UNION"); exact H1).
    assert (U : exec re_union (c :: skipn (S i) sql) = None)
      by (apply (exec_keyword_none "UNION"); exact H1).
    rewrite Ua, U.
    assert (Li : i < length sql) by (apply nth_error_Some; congruence).
    match goal with
    | |- context [if ?b then None else None] => destruct b
    end; rewrite IH by (assumption || lia); rewrite <- app_assoc;
      reflexivity.
  - apply nth_error_None in E. rewrite skipn_all2 by exact E.
    rewrite app_nil_r. reflexivity.
Qed.

Lemma ci_lower (x c : ascii) :
  In x (lit "UNION") -> ci x c = ch_eqb (lower_ch x) (lower_ch c).
Proof.
  intros H. simpl in H.
  destruct H as [<-|[<-|[<-|[<-|[<-|[]]]]]];
    destruct c as [[] [] [] [] [] [] [] []]; reflexivity.
Qed.

Lemma startsWithP_lower (w t : str) :
  incl w (lit "UNION") ->
  startsWithP (map ci w) t = startsWith (toLowerCase w) (toLowerCase t).
Proof.
  revert t. induction w as [|x w IH]; intros t I; [reflexivity|].
  destruct t as [|c t]; [reflexivity|]. cbn [map startsWithP].
  change (toLowerCase (x :: w)) with (lower_ch x :: toLowerCase w).
  change (toLowerCase (c :: t)) with (lower_ch c :: toLowerCase t).
  cbn [startsWith]. rewrite ci_lower by (apply I; left; reflexivity).
  rewrite IH by (intros y Hy; apply I; right; exact Hy). reflexivity.
Qed.

Lemma includesP_lower (t : str) :
  includesP (map ci (lit "UNION")) t
  = includes (lit "union") (toLowerCase t).
Proof.
  induction t as [|c t IH].
  - reflexivity.
  - cbn [includesP]. rewrite IH, startsWithP_lower by apply incl_refl.
    reflexivity.
Qed.

Lemma trimmed_push (parts : list str) (current : str) :
  Forall (fun p => trim p = p) parts ->
  Forall (fun p => trim p = p) (push_trimmed parts current).
Proof.
  intros F. apply Forall_app. split; [exact F|].
  constructor; [apply trim_idem | constructor].
Qed.

Lemma splitByUnion_loop_shape (fuel : nat) (sql : str) :
  forall i depth current parts det ps ut,
    splitByUnion_loop fuel sql i depth current parts det = Ok (ps, ut) ->
    Forall (fun p => trim p = p) parts ->
    Forall (fun p => trim p = p) ps
    /\ (ut <> None -> 1 < length ps).
Proof.
  induction fuel as [|fuel IH]; intros i depth current parts det ps ut;
    simpl; [discriminate|].
  destruct (nth_error sql i) as [c|].
  - set (d := if ch_eqb c c_rparen then _ else _).
    destruct (if (d =? 0)%Z then exec re_union_all _ else None) as [ua|];
      [|destruct (if (d =? 0)%Z then exec re_union _ else None) as [u|]];
      intros H F; eapply IH; try exact H; try exact F;
      apply trimmed_push; exact F.
  - intros H F. inversion H; subst; clear H. split.
    + destruct (truthy (trim current)); [apply trimmed_push|]; exact F.
    + destruct (1 <? length _) eqn:L; [|congruence].
      intros _. apply Nat.ltb_lt. exact L.
Qed.

(** X8.  [splitByUnion] returns; every part has no white space around it;
    the operator is reported exactly when there is more than one part;
    and a text that does not hold the word UNION, in any letter case, is
    one part, the trimmed text, or none when the text is blank. *)
Theorem splitByUnion_parts_and_operator (sql : str) :
  (exists parts unionType,
      splitByUnion sql = Ok (parts, unionType)
      /\ Forall (fun p => trim p = p) parts
      /\ (unionType = None <-> length parts <= 1))
  /\ (includes (lit "union") (toLowerCase sql) = false ->
      splitByUnion sql
      = Ok (if truthy (trim sql) then [trim sql] else [], None)).
Proof.
  split.
  - destruct (splitByUnion_total sql) as [[parts ut] E].
    exists parts, ut. split; [exact E|].
    destruct (@splitByUnion_loop_shape _ _ _ _ _ _ _ _ _ E (Forall_nil _))
      as [T U].
    split; [exact T|]. split.
    + intros ->. destruct (Nat.le_gt_cases (length parts) 1) as [L|L];
        [exact L|].
      destruct (@splitByUnion_type _ _ _ E L) as [t Ht]. discriminate.
    + intros L. destruct ut as [t|]; [|reflexivity].
      assert (1 < length parts) by (apply U; discriminate). lia.
  - intros H. unfold splitByUnion.
    rewrite splitByUnion_loop_plain;
      [|cbn [skipn]; rewrite includesP_lower; exact H | lia].
    cbn [skipn app]. unfold push_trimmed.
    destruct (truthy (trim sql)); reflexivity.
Qed.
(* ================================================================== *)
(** * The records of [replaceSubqueries] *)

Lemma of_nat_inj (n m : nat) : of_nat n = of_nat m -> n = m.
Proof.
  assert (G : forall k,
             option_map Nat.of_uint
               (NilZero.uint_of_string
                  (NilZero.string_of_uint (Nat.to_uint k))) = Some k).
  { intros k. pose proof (DecimalNat.Unsigned.of_to k) as O.
    destruct (Nat.to_uint k) eqn:E;
      try (rewrite NilZero.usu by discriminate; simpl; f_equal; exact O).
    simpl in O. subst k. reflexivity. }
  unfold of_nat, lit. intros H.
  apply (f_equal string_of_list_ascii) in H.
  rewrite !string_of_list_ascii_of_string in H.
  pose proof (G n) as Gn. rewrite H, G in Gn. congruence.
Qed.

Lemma placeholderOf_inj (n m : nat) :
  placeholderOf n = placeholderOf m -> n = m.
Proof.
  unfold placeholderOf. intros H. apply app_inv_head in H.
  apply app_inv_tail in H. apply of_nat_inj. exact H.
Qed.

Lemma NoDup_placeholders (a n : nat) :
  NoDup (map placeholderOf (seq a n)).
Proof.
  revert a. induction n as [|n IH]; intros a; simpl; constructor.
  - intros H. apply in_map_iff in H. destruct H as (k & E & Hk).
    apply placeholderOf_inj in E. apply in_seq in Hk. lia.
  - apply IH.
Qed.

Lemma firstSubquery_select (result : str) (ms : list rmatch) (m : rmatch)
  (close : nat) (body : str) :
  firstSubquery result ms = Some (m, close, body) ->
  test re_select_head body = true /\ trim body = body.
Proof.
  induction ms as [|m0 ms IH]; simpl; [discriminate|].
  destruct (findMatchingParen result (open_of m0)) as [cl|]; [|exact IH].
  destruct (test re_select_head (trim _)) eqn:T; [|exact IH].
  intros H. inversion H; subst. split; [exact T | apply trim_idem].
Qed.

Lemma numbered_push (r : Replaced) (result : str) (info : SubInfo) :
  numbered r ->
  entry_ok (placeholderOf (rp_counter r), info) ->
  numbered (mkReplaced result (S (rp_counter r))
              (rp_subs r ++ [(placeholderOf (rp_counter r), info)])).
Proof.
  intros (A & B & C) E. unfold numbered. cbn [rp_counter rp_subs].
  rewrite length_app, map_app, B, A. cbn [length map fst].
  rewrite Nat.add_1_r, seq_S, map_app. cbn [map Nat.add].
  split; [reflexivity|]. split; [reflexivity|].
  apply Forall_app. split; [exact C|]. rewrite A in E.
  constructor; [exact E | constructor].
Qed.

Lemma replaceFrom_loop_numbered :
  forall fuel r r',
    replaceFrom_loop fuel r = Ok r' -> numbered r -> numbered r'.
Proof.
  induction fuel as [|fuel IH]; intros r r'; cbn [replaceFrom_loop];
    [discriminate|].
  intros H N. bind_inv H as ms E.
  destruct (firstSubquery (rp_result r) ms) as [[[m close] body]|] eqn:Fs.
  - apply IH in H; [exact H|]. apply numbered_push; [exact N|].
    destruct (@firstSubquery_select _ _ _ _ _ Fs) as [T1 T2].
    unfold entry_ok. cbn [snd si_body si_context si_joinType
                            si_joinCondition].
    repeat split; assumption.
  - inversion H; subst. exact N.
Qed.

Lemma replaceJoin_loop_numbered :
  forall fuel r r',
    replaceJoin_loop fuel r = Ok r' -> numbered r -> numbered r'.
Proof.
  induction fuel as [|fuel IH]; intros r r'; cbn [replaceJoin_loop];
    [discriminate|].
  intros H N. bind_inv H as ms E.
  destruct (firstSubquery (rp_result r) ms) as [[[m close] body]|] eqn:Fs.
  - bind_inv H as cond Ec.
    apply IH in H; [exact H|]. apply numbered_push; [exact N|].
    destruct (@firstSubquery_select _ _ _ _ _ Fs) as [T1 T2].
    unfold entry_ok. cbn [snd si_body si_context si_joinType
                            si_joinCondition].
    split; [exact T1|]. split; [exact T2|]. split; [eauto|].
    exists cond. split; [reflexivity|].
    destruct (exec re_alias_on _) as [am|].
    + bind_inv Ec as g Eg. inversion Ec. apply trim_idem.
    + inversion Ec. reflexivity.
  - inversion H; subst. exact N.
Qed.

(** X9.  [replaceSubqueries] returns; the k-th subquery it records has the
    placeholder with the number k as its key, so that no two records
    share a key; and every record is a trimmed SELECT with the join type
    and the condition its place calls for. *)
Theorem replaceSubqueries_records (sql : str) :
  exists r,
    replaceSubqueries sql = Ok r
    /\ map fst (rp_subs r)
       = map placeholderOf (seq 0 (length (rp_subs r)))
    /\ NoDup (map fst (rp_subs r))
    /\ Forall entry_ok (rp_subs r).
Proof.
  destruct (replaceSubqueries_spec sql) as (r & E & _).
  exists r. split; [exact E|].
  unfold replaceSubqueries in E. bind_inv E as r1 E1.
  assert (N0 : numbered (mkReplaced sql 0 []))
    by (repeat split; constructor).
  pose proof (@replaceFrom_loop_numbered _ _ _ E1 N0) as N1.
  destruct (@replaceJoin_loop_numbered _ _ _ E N1) as (A & B & C).
  split; [exact B|]. split; [|exact C].
  rewrite B. apply NoDup_placeholders.
Qed.

(* ================================================================== *)
(** * A text without a closing parenthesis has no subquery *)

Lemma closers_nth (s : str) (i : nat) :
  nth_error s i = Some c_rparen -> 0 < closers s.
Proof.
  revert i. induction s as [|c s IH]; intros [|i] H; try discriminate.
  - inversion H; subst. unfold closers. simpl. lia.
  - simpl in H. specialize (IH _ H). unfold closers in *. simpl.
    destruct (ch_eqb c c_rparen); simpl; lia.
Qed.

Lemma firstSubquery_none (result : str) (ms : list rmatch) :
  closers result = 0 -> firstSubquery result ms = None.
Proof.
  intros Z. induction ms as [|m ms IH]; [reflexivity|]. simpl.
  destruct (findMatchingParen result (open_of m)) as [close|] eqn:F;
    [|exact IH].
  apply findMatchingParen_spec in F. destruct F as (_ & _ & F).
  apply closers_nth in F. lia.
Qed.

(** X10.  A text with no closing parenthesis is left as it is and no subquery
    is recorded, whatever stands after its FROM and JOIN. *)
Theorem replaceSubqueries_unclosed (sql : str) :
  closers sql = 0 -> replaceSubqueries sql = Ok (mkReplaced sql 0 []).
Proof.
  intros Z. unfold replaceSubqueries.
  assert (F : replaceFrom_loop (length sql + 1) (mkReplaced sql 0 [])
              = Ok (mkReplaced sql 0 [])).
  { rewrite Nat.add_1_r. cbn [replaceFrom_loop rp_result].
    destruct (@exec_all_total fromSubRegex sql) as (ms & -> & _);
      [change (min_len fromSubRegex) with 5; lia|].
    cbn [bind]. rewrite firstSubquery_none by exact Z. reflexivity. }
  rewrite F. cbn [bind rp_result]. rewrite Nat.add_1_r.
  cbn [replaceJoin_loop rp_result].
  destruct (@exec_all_total joinSubRegex sql) as (ms & -> & _);
    [change (min_len joinSubRegex) with 5; lia|].
  cbn [bind]. rewrite firstSubquery_none by exact Z. reflexivity.
Qed.

Lemma replaceSubqueries_unclosed_witness :
  closers (lit "SELECT a FROM (SELECT b FROM t") = 0
  /\ replaceSubqueries (lit "SELECT a FROM (SELECT b FROM t")
     = Ok (mkReplaced (lit "SELECT a FROM (SELECT b FROM t") 0 []).
Proof.
  split; [reflexivity|].
  apply replaceSubqueries_unclosed. reflexivity.
Defined.
(* ================================================================== *)
(** * [cleanName] *)

Lemma ch_eqb_true (a b : ascii) : ch_eqb a b = true -> a = b.
Proof. apply Ascii.eqb_eq. Qed.

Lemma quote_not_space (q : ascii) : is_quote q = true -> is_space q = false.
Proof.
  unfold is_quote. intros H. apply orb_true_iff in H.
  destruct H as [H|H]; [apply orb_true_iff in H; destruct H as [H|H]|];
    apply ch_eqb_true in H; subst q; reflexivity.
Qed.

Lemma trimStart_spaces (a t : str) :
  forallb is_space a = true -> trimStart (a ++ t) = trimStart t.
Proof.
  induction a as [|x a IH]; cbn [forallb app trimStart]; [reflexivity|].
  intros H. apply andb_true_iff in H. destruct H as [Hx Ha].
  rewrite Hx. exact (IH Ha).
Qed.

Lemma forallb_rev (p : ascii -> bool) (s : str) :
  forallb p (rev s) = forallb p s.
Proof.
  induction s as [|x s IH]; [reflexivity|]. cbn [rev forallb].
  rewrite forallb_app, IH. cbn [forallb]. rewrite andb_true_r.
  apply andb_comm.
Qed.

(** A quoted name between white space, trimmed. *)
Lemma trim_quoted (q : ascii) (s a b : str) :
  is_quote q = true -> forallb is_space a = true ->
  forallb is_space b = true ->
  trim (a ++ q :: s ++ q :: b) = q :: s ++ [q].
Proof.
  intros Hq Ha Hb. pose proof (quote_not_space q Hq) as Nq.
  unfold trim. rewrite (@trimStart_spaces _ _ Ha).
  rewrite (@trimStart_fixed _ _ Nq). unfold trimEnd.
  replace (rev (q :: s ++ q :: b)) with (rev b ++ q :: rev s ++ [q]).
  - rewrite trimStart_spaces by (rewrite forallb_rev; exact Hb).
    rewrite (@trimStart_fixed _ _ Nq). cbn [rev].
    rewrite rev_app_distr, rev_involutive. reflexivity.
  - cbn [rev]. rewrite rev_app_distr. cbn [rev].
    rewrite <- !app_assoc. reflexivity.
Qed.

Lemma middle_of_quoted (q : ascii) (s : str) :
  substring 1 (length (q :: s ++ [q]) - 1) (q :: s ++ [q]) = s.
Proof.
  rewrite substring_le by (cbn [length]; rewrite length_app; cbn; lia).
  cbn [length skipn]. rewrite length_app. cbn [length].
  replace (S (length s + 1) - 1 - 1) with (length s) by lia.
  rewrite firstn_app, Nat.sub_diag, firstn_all. cbn [firstn].
  apply app_nil_r.
Qed.

Lemma ends_of (t : str) :
  2 <= length t ->
  exists first mid last, t = first :: mid ++ [last].
Proof.
  intros L. destruct t as [|x t]; [cbn in L; lia|].
  destruct (exists_last (l := t)) as (mid & last & ->).
  - intros ->. cbn in L. lia.
  - eauto.
Qed.

Lemma head_rev_ends (x y : ascii) (mid : str) :
  head (rev (x :: mid ++ [y])) = Some y.
Proof. cbn [rev]. rewrite rev_app_distr. reflexivity. Qed.

(** X11.  [cleanName] takes one pair of quotation marks off a name, with the
    white space around the marks: a name put between two double quotes,
    two single quotes or two backticks comes back as it was, also when
    it holds white space or marks itself.  A name that is not between
    such a pair when trimmed is trimmed only. *)
Theorem cleanName_unquotes (name : str) :
  (forall q s a b,
      is_quote q = true ->
      forallb is_space a = true -> forallb is_space b = true ->
      name = a ++ q :: s ++ q :: b ->
      cleanName name = s)
  /\ ((forall q s, is_quote q = true -> trim name <> q :: s ++ [q]) ->
      cleanName name = trim name).
Proof.
  split.
  - intros q s a b Hq Ha Hb ->. unfold cleanName.
    replace (truthy (a ++ q :: s ++ q :: b)) with true
      by (destruct a; reflexivity).
    cbn [negb]. rewrite (@trim_quoted _ s _ _ Hq Ha Hb).
    replace (2 <=? length (q :: s ++ [q])) with true
      by (symmetry; apply Nat.leb_le; cbn [length]; rewrite length_app;
          cbn; lia).
    rewrite head_rev_ends. cbn [head].
    assert (C : (ch_eqb q c_dquote && ch_eqb q c_dquote)
                || (ch_eqb q c_squote && ch_eqb q c_squote)
                || (ch_eqb q c_bquote && ch_eqb q c_bquote) = true).
    { rewrite !andb_diag. exact Hq. }
    rewrite C. apply middle_of_quoted.
  - intros N. unfold cleanName.
    destruct name as [|c name]; [reflexivity|]. cbn [truthy negb].
    set (t := trim (c :: name)) in *.
    destruct (2 <=? length t) eqn:L; [|reflexivity].
    apply Nat.leb_le in L.
    destruct (ends_of t L) as (x & mid & y & E). rewrite E.
    rewrite head_rev_ends. cbn [head].
    destruct ((ch_eqb x c_dquote && ch_eqb y c_dquote)
              || (ch_eqb x c_squote && ch_eqb y c_squote)
              || (ch_eqb x c_bquote && ch_eqb y c_bquote)) eqn:C;
      [|reflexivity].
    exfalso. apply (N x mid).
    + unfold is_quote.
      repeat (apply orb_true_iff in C; destruct C as [C|C]);
        apply andb_true_iff in C; destruct C as [C _]; rewrite C;
        rewrite ?orb_true_r; reflexivity.
    + rewrite E. f_equal. f_equal. f_equal.
      repeat (apply orb_true_iff in C; destruct C as [C|C]);
        apply andb_true_iff in C; destruct C as [C1 C2];
        apply ch_eqb_true in C1, C2; congruence.
Qed.
(* ================================================================== *)
(** * Keywords behind a prefix of a pattern *)

Lemma ci_lower_letter (x c : ascii) :
  In x (lit "ABCDEFGHIJKLMNOPQRSTUVWXYZ") ->
  ci x c = ch_eqb (lower_ch x) (lower_ch c).
Proof.
  intros H. cbn in H.
  repeat (destruct H as [<-|H];
          [destruct c as [[] [] [] [] [] [] [] []]; reflexivity|]).
  destruct H.
Qed.

Lemma startsWithP_lower_word (w t : str) :
  incl w (lit "ABCDEFGHIJKLMNOPQRSTUVWXYZ") ->
  startsWithP (map ci w) t = startsWith (toLowerCase w) (toLowerCase t).
Proof.
  revert t. induction w as [|x w IH]; intros t I; [reflexivity|].
  destruct t as [|c t]; [reflexivity|]. cbn [map startsWithP].
  change (toLowerCase (x :: w)) with (lower_ch x :: toLowerCase w).
  change (toLowerCase (c :: t)) with (lower_ch c :: toLowerCase t).
  cbn [startsWith]. rewrite ci_lower_letter by (apply I; left; reflexivity).
  rewrite IH by (intros y Hy; apply I; right; exact Hy). reflexivity.
Qed.

Lemma includesP_lower_word (w t : str) :
  incl w (lit "ABCDEFGHIJKLMNOPQRSTUVWXYZ") ->
  includesP (map ci w) t = includes (toLowerCase w) (toLowerCase t).
Proof.
  intros I. induction t as [|c t IH].
  - cbn [includesP]. rewrite startsWithP_lower_word by exact I. reflexivity.
  - cbn [includesP]. rewrite IH, startsWithP_lower_word by exact I.
    reflexivity.
Qed.

Lemma includesP_skipn (ps : list (ascii -> bool)) (t : str) (k : nat) :
  ps <> [] -> includesP ps t = false -> startsWithP ps (skipn k t) = false.
Proof.
  intros N. revert k. induction t as [|x t IH]; intros k H.
  - rewrite skipn_nil. destruct ps; [contradiction | reflexivity].
  - cbn [includesP] in H. apply orb_false_iff in H. destruct H as [H1 H2].
    destruct k as [|k]; [exact H1 | apply IH, H2].
Qed.

Lemma flat_map_nil {A B : Type} (f : A -> list B) (l : list A) :
  (forall x, In x l -> f x = []) -> flat_map f l = [].
Proof.
  induction l as [|x l IH]; intros H; [reflexivity|]. cbn [flat_map].
  rewrite (H x (or_introl eq_refl)), IH; [reflexivity|].
  intros y Hy. apply H. right. exact Hy.
Qed.

(** A pattern with a keyword behind a prefix matches nowhere in a text
    that does not hold the keyword. *)
Lemma run_keyword_behind (r1 r2 : regex) (w : string) (st : state)
  (c : caps) :
  lit w <> [] ->
  includesP (map ci (lit w)) (rest st) = false ->
  run (Seq r1 (Seq (kw w) r2)) st c = [].
Proof.
  intros N H. rewrite run_seq_eq. apply flat_map_nil.
  intros [st1 c1] H1. cbn [fst snd].
  destruct (@run_adv _ _ _ _ _ H1) as (k & (_ & R & _) & _).
  rewrite run_seq_eq, kw_tests, run_tests_none; [reflexivity|].
  rewrite R. apply includesP_skipn; [|exact H].
  destruct (lit w); [contradiction | discriminate].
Qed.

Lemma exec_keyword_behind (r1 r2 : regex) (w : string) (t : str) :
  lit w <> [] ->
  includesP (map ci (lit w)) t = false ->
  exec (Seq Bol (Seq r1 (Seq (kw w) r2))) t = None.
Proof.
  intros N H. unfold exec, exec_from, state_at.
  cbn [Nat.ltb Nat.leb length pos prev rest skipn].
  assert (R : run (Seq Bol (Seq r1 (Seq (kw w) r2))) (St 0 None t) [] = []).
  { assert (B : run Bol (St 0 None t) [] = [(St 0 None t, [])])
      by reflexivity.
    rewrite run_seq_eq, B. cbn [flat_map fst snd].
    rewrite run_keyword_behind by assumption. reflexivity. }
  destruct t as [|x t]; cbn [search_at]; rewrite R; [reflexivity|].
  apply search_at_anchored. apply anchored_bol.
Qed.

(** The match an anchored pattern finds is the first way the pattern
    matches at the start of the text. *)
Lemma exec_anchored_first (r : regex) (s : str) (m : rmatch) :
  anchored r -> exec r s = Some m ->
  index m = 0
  /\ exists st', In (st', groups m) (run r (St 0 None s) [])
                 /\ stop m = pos st'.
Proof.
  intros A. unfold exec, exec_from, state_at.
  cbn [Nat.ltb Nat.leb length pos prev rest skipn].
  destruct s as [|x t]; cbn [search_at].
  - destruct (run r (St 0 None []) []) as [|[st' c] l] eqn:R; [discriminate|].
    intros H. inversion H; subst; clear H. cbn.
    split; [reflexivity|]. exists st'. split; [left|]; reflexivity.
  - destruct (run r (St 0 None (x :: t)) []) as [|[st' c] l] eqn:R.
    + rewrite (search_at_anchored A). discriminate.
    + intros H. inversion H; subst; clear H. cbn.
      split; [reflexivity|]. exists st'. split; [left|]; reflexivity.
Qed.

(** A match of a pattern that ends in a test of one character ends with
    a character that passes the test. *)
Lemma run_last_test (r : regex) :
  forall p st c st' c',
    last_test r = Some p ->
    In (st', c') (run r st c) ->
    exists k x, adv (S k) st st'
                /\ nth_error (rest st) k = Some x /\ p x = true.
Proof.
  induction r
    as [|q|r1 IH1 r2 IH2|r1 IH1 r2 IH2|g r0 IH|g r0 IH|b r0 IH| | | |];
    intros p st c st' c' L H; try discriminate L.
  - cbn [last_test] in L. inversion L; subst q; clear L.
    cbn [run] in H. unfold step in H.
    destruct (rest st) as [|x t] eqn:R; [destruct H|].
    destruct (p x) eqn:Px; [|destruct H]. destruct H as [H|[]].
    inversion H; subst; clear H. exists 0, x.
    split; [|split; [reflexivity | exact Px]].
    unfold adv. cbn [pos rest]. rewrite R. cbn. repeat split; lia.
  - cbn [last_test] in L. rewrite run_seq_eq in H.
    apply in_flat_map in H. destruct H as ([st1 c1] & H1 & H2).
    cbn [fst snd] in H2.
    destruct (@run_adv _ _ _ _ _ H1) as (k1 & A1 & _).
    destruct (IH2 _ _ _ _ _ L H2) as (k2 & x & A2 & N2 & Px).
    exists (k1 + k2), x. split; [|split; [|exact Px]].
    + replace (S (k1 + k2)) with (k1 + S k2) by lia.
      eapply adv_trans; eassumption.
    + destruct A1 as (_ & R1 & L1). rewrite R1 in N2.
      rewrite nth_error_skipn in N2. exact N2.
  - cbn [last_test] in L. cbn [run] in H. apply in_map_iff in H.
    destruct H as ([st1 c1] & E & H1). inversion E; subst; clear E.
    exact (IH _ _ _ _ _ L H1).
Qed.

(* ================================================================== *)
(** * [extractCTEs] *)

Lemma cte_name_opens (tail : str) (m : rmatch) :
  exec re_cte_name tail = Some m ->
  exists k, length (whole tail m) = S k
            /\ nth_error tail k = Some c_lparen.
Proof.
  intros E.
  assert (A : anchored re_cte_name) by (apply anchored_bol).
  destruct (@exec_anchored_first _ _ _ A E) as (I0 & st' & Hr & Hs).
  destruct (@run_last_test re_cte_name (only c_lparen) _ _ _ _ eq_refl Hr)
    as (k & x & (P & _) & N & Px).
  cbn [pos rest] in P, N.
  destruct (whole_length (exec_spec _ _ E)) as [W _].
  exists k. split; [lia|].
  unfold only in Px. apply ch_eqb_true in Px. subst x. exact N.
Qed.

Lemma extractCTEs_loop_shape (sql : str) :
  forall fuel pos ctes cs rem,
    extractCTEs_loop fuel sql pos ctes = Ok (cs, rem) ->
    Forall (cte_body_ok sql) ctes ->
    Forall (cte_body_ok sql) cs
    /\ (rem = sql \/ exists p, rem = trim (skipn p sql)).
Proof.
  induction fuel as [|fuel IH]; intros pos ctes cs rem H F;
    cbn [extractCTEs_loop] in H; [discriminate H|].
  destruct (pos <? length sql);
    [|inversion H; subst; split; [exact F | left; reflexivity]].
  unfold substring_from in H.
  destruct (exec re_cte_name (skipn pos sql)) as [nm|] eqn:En;
    [|inversion H; subst; split; [exact F | left; reflexivity]].
  bind_inv H as rawName Eg.
  destruct (@cte_name_opens _ _ En) as (k & Lw & Nk).
  rewrite Lw in H.
  replace (pos + S k - 1) with (pos + k) in H by lia.
  rewrite nth_error_skipn in Nk.
  destruct (findMatchingParen sql (pos + k)) as [close|] eqn:Ef;
    [|inversion H; subst; split; [exact F | left; reflexivity]].
  assert (F' : Forall (cte_body_ok sql)
                 (ctes ++ [mkNamed (cleanName rawName)
                             (trim (substring (pos + k + 1) close sql))])).
  { apply Forall_app. split; [exact F|]. constructor; [|constructor].
    exists (pos + k), close. split; [exact Nk|]. split; [exact Ef|].
    cbn [nm_body]. rewrite Nat.add_1_r. reflexivity. }
  destruct (exec re_cte_comma (skipn (close + 1) sql)) as [cm|] eqn:Ec.
  - exact (IH _ _ _ _ H F').
  - inversion H; subst. split; [exact F'|]. right. eauto.
Qed.

(** X12.  [extractCTEs] returns.  The body of every CTE it extracts is the
    trimmed text between an opening parenthesis of the text and the
    parenthesis that closes it; what it leaves is the whole text, WITH
    clause and all (so when the list of CTEs breaks off), or the
    trimmed text behind a CTE; and from a text that does not hold the
    word WITH, in any letter case, nothing is extracted. *)
Theorem extractCTEs_bodies (sql : str) :
  exists ctes remainingSQL,
    extractCTEs sql = Ok (ctes, remainingSQL)
    /\ Forall (cte_body_ok sql) ctes
    /\ (remainingSQL = sql
        \/ (ctes <> [] /\ exists p, remainingSQL = trim (skipn p sql)))
    /\ (includes (lit "with") (toLowerCase sql) = false ->
        ctes = [] /\ remainingSQL = sql).
Proof.
  destruct (extractCTEs_total sql) as [[cs rem] E]. exists cs, rem.
  split; [exact E|]. unfold extractCTEs in E.
  destruct (exec re_with sql) as [wm|] eqn:Ew.
  - destruct (@extractCTEs_loop_shape sql _ _ _ _ _ E (Forall_nil _))
      as [F R].
    split; [exact F|]. split.
    + destruct R as [R|R]; [left; exact R|].
      destruct cs as [|c cs]; [|right; split; [discriminate | exact R]].
      left. clear F R. revert E.
      generalize (length (whole sql wm)). generalize (length sql + 1).
      intros fuel. induction fuel as [|fuel IH]; intros pos H;
        cbn [extractCTEs_loop] in H; [discriminate H|].
      destruct (pos <? length sql); [|inversion H; reflexivity].
      destruct (exec re_cte_name _) as [nm|]; [|inversion H; reflexivity].
      bind_inv H as rawName Eg.
      destruct (findMatchingParen sql _) as [close|];
        [|inversion H; reflexivity].
      destruct (exec re_cte_comma _) as [cm|].
      * exfalso. clear IH.
        assert (G : forall fuel pos ctes cs rem,
                   extractCTEs_loop fuel sql pos ctes = Ok (cs, rem) ->
                   exists more, cs = ctes ++ more).
        { clear. induction fuel as [|fuel IH]; intros pos ctes cs rem H;
            cbn [extractCTEs_loop] in H; [discriminate H|].
          destruct (pos <? length sql);
            [|inversion H; exists []; rewrite app_nil_r; reflexivity].
          destruct (exec re_cte_name _) as [nm|];
            [|inversion H; exists []; rewrite app_nil_r; reflexivity].
          bind_inv H as rawName Eg.
          destruct (findMatchingParen sql _) as [close|];
            [|inversion H; exists []; rewrite app_nil_r; reflexivity].
          destruct (exec re_cte_comma _) as [cm|].
          - destruct (IH _ _ _ _ H) as [more ->].
            rewrite <- app_assoc. eauto.
          - inversion H. eauto. }
        destruct (G _ _ _ _ _ H) as [more M]. destruct more; discriminate M.
      * inversion H.
    + intros N. exfalso.
      change re_with
        with (Seq Bol (Seq (star sp) (Seq (kw "WITH") (plus sp)))) in Ew.
      rewrite (@exec_keyword_behind (star sp) (plus sp) "WITH" sql) in Ew;
        [discriminate Ew | discriminate |].
      rewrite (@includesP_lower_word (lit "WITH") sql); [exact N|].
      intros x Hx. cbn in Hx. cbn. tauto.
  - inversion E; subst. split; [constructor|]. split; [left; reflexivity|].
    intros _. split; reflexivity.
Qed.
(* ================================================================== *)
(** * [preprocessTempTables] *)

(** A match of a pattern that closes with a group and the end of the
    text: the group is the last capture made, and it reaches from where
    its pattern began to match to the end of the text. *)
Lemma run_final_group (r : regex) :
  forall k r0 st c st' c',
    final_group r = Some (k, r0) ->
    In (st', c') (run r st c) ->
    exists j st1 c1 c0,
      adv j st st1
      /\ In (st', c0) (run r0 st1 c1)
      /\ c' = (k, (pos st1, pos st')) :: c0
      /\ rest st' = [].
Proof.
  induction r
    as [|q|r1 IH1 r2 IH2|r1 IH1 r2 IH2|g r0' IH|g r0' IH|b r0' IH| | | |];
    intros k r0 st c st' c' L H; try discriminate L.
  rewrite run_seq_eq in H. apply in_flat_map in H.
  destruct H as ([st1 c1] & H1 & H2). cbn [fst snd] in H2.
  assert (Rec : final_group r2 = Some (k, r0) ->
                exists j st2 c2 c0,
                  adv j st st2 /\ In (st', c0) (run r0 st2 c2)
                  /\ c' = (k, (pos st2, pos st')) :: c0 /\ rest st' = []).
  { intros L2. destruct (@run_adv _ _ _ _ _ H1) as (k1 & A1 & _).
    destruct (IH2 _ _ _ _ _ _ L2 H2) as (j & st2 & c2 & c0 & A2 & R).
    exists (k1 + j), st2, c2, c0. split; [|exact R].
    eapply adv_trans; eassumption. }
  destruct r1; try (apply Rec; exact L).
  destruct r2; try (apply Rec; exact L).
  cbn [final_group] in L. inversion L; subst; clear L Rec.
  cbn [run] in H1, H2. apply in_map_iff in H1.
  destruct H1 as ([st0 c0] & E & H0). inversion E; subst; clear E.
  destruct (rest st1) eqn:R; [|destruct H2].
  destruct H2 as [H2|[]]. inversion H2; subst; clear H2. cbn [fst snd].
  exists 0, st, c, c0. split; [apply adv_refl|]. auto.
Qed.

Lemma run_tests_some (ps : list (ascii -> bool)) (st st' : state)
  (c c' : caps) :
  In (st', c') (run (seqs (map Chr ps)) st c) ->
  startsWithP ps (rest st) = true.
Proof.
  intros H. destruct (startsWithP ps (rest st)) eqn:S; [reflexivity|].
  rewrite (run_tests_none ps st c S) in H. destruct H.
Qed.

Lemma startsWithP_nonempty (ps : list (ascii -> bool)) (t : str) :
  ps <> [] -> startsWithP ps t = true -> t <> [].
Proof. destruct ps; [contradiction|]. destruct t; discriminate. Qed.

(** What [createTableRegex] captures as its second group. *)
Lemma createTable_body (stmt : str) (m : rmatch) :
  exec createTableRegex stmt = Some m ->
  exists a,
    group stmt m 2 = Some (skipn a stmt)
    /\ select_or_with (skipn a stmt) = true.
Proof.
  intros E.
  assert (A : anchored createTableRegex) by (apply anchored_bol).
  destruct (@exec_anchored_first _ _ _ A E) as (I0 & st' & Hr & Hs).
  destruct (@run_final_group createTableRegex 2 _ _ _ _ _ eq_refl Hr)
    as (j & st1 & c1 & c0 & (P1 & R1 & L1) & H0 & Ec & Re).
  cbn [pos rest] in P1, R1, L1.
  destruct (@run_adv _ _ _ _ _ Hr) as (n & (Pn & Rn & Ln) & _).
  cbn [pos rest] in Pn, Rn, Ln.
  assert (En : pos st' = length stmt).
  { rewrite Re in Rn. symmetry in Rn.
    apply (f_equal (@length ascii)) in Rn. rewrite length_skipn in Rn.
    cbn [length] in Rn. lia. }
  exists j. split.
  - unfold group. rewrite Ec. cbn [lookup Nat.eqb]. rewrite P1, En.
    cbn [Nat.add]. f_equal. rewrite substring_le by lia.
    rewrite <- (length_skipn j stmt). apply firstn_all.
  - change (In (st', c0)
              (run (Seq (Alt (kw "SELECT") (kw "WITH")) (plus (Chr any)))
                 st1 c1)) in H0.
    rewrite run_seq_eq in H0. apply in_flat_map in H0.
    destruct H0 as ([st2 c2] & H2 & _).
    change (In (st2, c2)
              (run (kw "SELECT") st1 c1 ++ run (kw "WITH") st1 c1)) in H2.
    apply in_app_iff in H2. unfold select_or_with. apply orb_true_iff.
    rewrite <- R1.
    destruct H2 as [H2|H2]; [left|right]; rewrite kw_tests in H2;
      apply run_tests_some in H2;
      rewrite startsWithP_lower_word in H2;
      try exact H2; intros x Hx; cbn in Hx; cbn; tauto.
Qed.

Lemma select_or_with_head (t : str) :
  select_or_with t = true ->
  exists x t', t = x :: t' /\ is_space x = false
               /\ ch_eqb c_lparen x = false.
Proof.
  destruct t as [|x t']; [discriminate|]. intros H. exists x, t'.
  split; [reflexivity|]. unfold select_or_with in H.
  change (toLowerCase (x :: t')) with (lower_ch x :: toLowerCase t') in H.
  destruct x as [[] [] [] [] [] [] [] []];
    try (split; reflexivity); cbn in H; discriminate H.
Qed.

Lemma trimEnd_of_trim (s : str) : trim s = s -> trimEnd s = s.
Proof.
  intros H. rewrite <- H at 1. unfold trim. rewrite trimEnd_idem. exact H.
Qed.

Lemma trimEnd_suffix (a b : str) :
  trimEnd (a ++ b) = a ++ b -> b <> [] -> trimEnd b = b.
Proof.
  unfold trimEnd. intros H N.
  apply (f_equal (@rev ascii)) in H. rewrite rev_involutive in H.
  rewrite rev_app_distr in H.
  destruct (rev b) as [|y rb] eqn:Rb.
  - apply (f_equal (@rev ascii)) in Rb. rewrite rev_involutive in Rb.
    contradiction.
  - cbn [app] in H.
    assert (Sy : is_space y = false).
    { destruct (is_space y) eqn:S; [|reflexivity]. exfalso.
      cbn [trimStart] in H. rewrite S in H.
      pose proof (length_trimStart (rb ++ rev a)) as L.
      rewrite H in L. cbn [length] in L. lia. }
    rewrite (@trimStart_fixed _ _ Sy), <- Rb. apply rev_involutive.
Qed.

(** The tail of a trimmed statement from a SELECT or WITH on has no
    white space around it and no parenthesis in front. *)
Lemma tail_of_statement (stmt : str) (a : nat) :
  trim stmt = stmt -> select_or_with (skipn a stmt) = true ->
  trim (skipn a stmt) = skipn a stmt
  /\ truthy (skipn a stmt) = true
  /\ startsWith [c_lparen] (skipn a stmt) = false.
Proof.
  intros T S. destruct (select_or_with_head _ S) as (x & t' & E & Sx & Px).
  assert (Te : trimEnd (skipn a stmt) = skipn a stmt).
  { apply trimEnd_suffix with (a := firstn a stmt).
    - rewrite firstn_skipn. apply trimEnd_of_trim, T.
    - rewrite E. discriminate. }
  rewrite E in *. split; [|split].
  - unfold trim. rewrite (@trimStart_fixed _ _ Sx). exact Te.
  - reflexivity.
  - cbn [startsWith]. rewrite Px. reflexivity.
Qed.

Lemma preprocessTempTables_step_cases (temps : list Named)
  (others : list str) (stmt : str) :
  trimmed stmt ->
  (test createTableRegex stmt = true
   /\ exists t a,
        preprocessTempTables_step (temps, others) stmt
        = Ok (temps ++ [t], others)
        /\ select_or_with (nm_body t) = true
        /\ nm_body t = skipn a stmt)
  \/ (test createTableRegex stmt = false
      /\ preprocessTempTables_step (temps, others) stmt
         = Ok (temps, others ++ [stmt])).
Proof.
  intros [N T]. unfold preprocessTempTables_step, test.
  destruct (exec createTableRegex stmt) as [m|] eqn:E.
  - left. split; [reflexivity|].
    destruct (@exec_defines createTableRegex 1 _ _ ltac:(group_defined) E)
      as (g & -> & _). cbn [bind must].
    destruct (@createTable_body _ _ E) as (a & G & S).
    unfold group_or_empty. rewrite G.
    destruct (@tail_of_statement stmt a T S) as (Tt & Tr & Sp).
    rewrite Tr, Tt, Sp. cbn [andb].
    eexists. exists a. split; [reflexivity|]. cbn [nm_body]. auto.
  - right. split; [reflexivity|]. rewrite T.
    destruct stmt; [contradiction | reflexivity].
Qed.

Lemma preprocessTempTables_fold (all : list str) (stmts : list str) :
  Forall trimmed stmts -> incl stmts all ->
  forall temps others,
  exists new,
    fold_res preprocessTempTables_step stmts (temps, others)
    = Ok (temps ++ new,
          others ++ filter (fun s => negb (test createTableRegex s)) stmts)
    /\ length new = length (filter (test createTableRegex) stmts)
    /\ Forall (fun t =>
                 select_or_with (nm_body t) = true
                 /\ exists stmt a,
                      In stmt all /\ test createTableRegex stmt = true
                      /\ nm_body t = skipn a stmt) new.
Proof.
  induction stmts as [|stmt stmts IH]; intros F I temps others.
  - exists []. cbn [fold_res filter length]. rewrite !app_nil_r.
    split; [reflexivity|]. split; [reflexivity | constructor].
  - inversion F as [|? ? Fs Fr]; subst.
    assert (Is : In stmt all) by (apply I; left; reflexivity).
    assert (Ir : incl stmts all) by (intros x Hx; apply I; right; exact Hx).
    cbn [fold_res filter].
    destruct (@preprocessTempTables_step_cases temps others stmt Fs)
      as [(Tt & t & a & -> & S & B)|(Tf & ->)]; cbn [bind].
    + destruct (IH Fr Ir (temps ++ [t]) others) as (new & -> & L & Fn).
      rewrite Tt. cbn [negb length]. exists (t :: new).
      rewrite <- app_assoc. split; [reflexivity|].
      split; [cbn [length]; rewrite L; reflexivity|].
      constructor; [|exact Fn]. split; [exact S|]. exists stmt, a. auto.
    + destruct (IH Fr Ir temps (others ++ [stmt])) as (new & -> & L & Fn).
      rewrite Tf. cbn [negb]. exists new. rewrite <- app_assoc.
      split; [reflexivity|]. split; [exact L | exact Fn].
Qed.

(** X13.  [preprocessTempTables] returns.  It makes one temp table of every
    statement its pattern matches and leaves the other statements, in
    their order, joined by a semicolon and a line feed.  The body of a
    temp table is the end of its statement from a SELECT or WITH on, in
    any letter case: it never starts with a parenthesis, so that the
    removal of parentheses around a body never applies. *)
Theorem preprocessTempTables_partition (sql : str) :
  exists tempTables,
    preprocessTempTables sql
    = Ok (tempTables,
          join_with semicolon_newline
            (filter (fun s => negb (test createTableRegex s))
                    (splitStatements sql)))
    /\ length tempTables
       = length (filter (test createTableRegex) (splitStatements sql))
    /\ Forall (temp_body_ok sql) tempTables.
Proof.
  assert (F : Forall trimmed (splitStatements sql)).
  { unfold splitStatements.
    apply if_nonempty_push_trimmed, splitStatements_loop_trimmed.
    constructor. }
  destruct (@preprocessTempTables_fold (splitStatements sql)
              (splitStatements sql) F (incl_refl _) [] [])
    as (new & E & L & Fn).
  exists new. unfold preprocessTempTables. rewrite E. cbn [bind app].
  split; [reflexivity|]. split; [exact L | exact Fn].
Qed.
(* ================================================================== *)
(** * [detectTransformation] *)

(** The match a search finds is the first way the pattern matches at
    some position of the text. *)
Lemma search_at_run (r : regex) :
  forall s p pv m,
    search_at r p pv s = Some m ->
    exists k pv' st',
      In (st', groups m) (run r (St (p + k) pv' (skipn k s)) []).
Proof.
  induction s as [|x t IH]; intros p pv m; cbn [search_at].
  - destruct (run r (St p pv []) []) as [|[st' c] l] eqn:R; [discriminate|].
    intros H. inversion H; subst; clear H. exists 0, pv, st'.
    rewrite Nat.add_0_r. cbn [skipn groups]. rewrite R. left. reflexivity.
  - destruct (run r (St p pv (x :: t)) []) as [|[st' c] l] eqn:R.
    + intros H. destruct (IH _ _ _ H) as (k & pv' & st' & I).
      exists (S k), pv', st'. rewrite Nat.add_succ_r. exact I.
    + intros H. inversion H; subst; clear H. exists 0, pv, st'.
      rewrite Nat.add_0_r. cbn [skipn groups]. rewrite R. left. reflexivity.
Qed.

Lemma In_skipn (k : nat) (s : str) (x : ascii) :
  In x (skipn k s) -> In x s.
Proof.
  intros H. rewrite <- (firstn_skipn k s). apply in_app_iff. right. exact H.
Qed.

(** A pattern that ends in a test of one character finds nothing in a
    text without a character that passes the test. *)
Lemma test_needs (r : regex) (q : ascii -> bool) (s : str) :
  last_test r = Some q ->
  (forall x, In x s -> q x = false) ->
  test r s = false.
Proof.
  intros L N. unfold test, exec, exec_from, state_at.
  cbn [Nat.ltb Nat.leb pos prev rest skipn].
  destruct (search_at r 0 None s) as [m|] eqn:E; [|reflexivity].
  exfalso. destruct (@search_at_run _ _ _ _ _ E) as (k & pv' & st' & I).
  destruct (@run_last_test r q _ _ _ _ L I) as (j & x & _ & Nx & Qx).
  cbn [rest] in Nx. apply nth_error_In, In_skipn in Nx.
  rewrite (N x Nx) in Qx. discriminate Qx.
Qed.

Lemma toUpperCase_paren (s : str) :
  In c_lparen (toUpperCase s) -> In c_lparen s.
Proof.
  unfold toUpperCase. intros H. apply in_flat_map in H.
  destruct H as (c & Hc & H).
  assert (E : c = c_lparen).
  { destruct c as [[] [] [] [] [] [] [] []]; cbn in H;
      repeat (destruct H as [H|H]; [try discriminate H; try reflexivity|]);
      destruct H. }
  subst c. exact Hc.
Qed.

(** A test of one character finds what [existsb] finds. *)
Lemma search_at_chr (q : ascii -> bool) :
  forall s p pv,
    match search_at (Chr q) p pv s with
    | Some _ => true
    | None => false
    end = existsb q s.
Proof.
  induction s as [|x t IH]; intros p pv; [reflexivity|].
  cbn [search_at existsb].
  assert (R : run (Chr q) (St p pv (x :: t)) []
              = if q x then [(St (S p) (Some x) t, [])] else [])
    by reflexivity.
  rewrite R. destruct (q x); [reflexivity | apply IH].
Qed.

Lemma test_chr (q : ascii -> bool) (s : str) :
  test (Chr q) s = existsb q s.
Proof.
  unfold test, exec, exec_from, state_at.
  cbn [Nat.ltb Nat.leb pos prev rest skipn]. apply search_at_chr.
Qed.

(** A sequence of tests matches where the text passes them. *)
Lemma run_tests_found (ps : list (ascii -> bool)) :
  ps <> [] ->
  forall st c,
    startsWithP ps (rest st) = true ->
    run (seqs (map Chr ps)) st c <> [].
Proof.
  induction ps as [|q ps IH]; intros N st c H; [contradiction|].
  destruct st as [i pv t]. cbn [rest] in H.
  destruct t as [|y t']; [discriminate H|]. cbn [startsWithP] in H.
  apply andb_true_iff in H. destruct H as [Hq H].
  assert (R : run (Chr q) (St i pv (y :: t')) c
              = [(St (S i) (Some y) t', c)]).
  { change (run (Chr q) (St i pv (y :: t')) c)
      with (if q y then [(St (S i) (Some y) t', c)] else []).
    rewrite Hq. reflexivity. }
  destruct ps as [|q2 ps].
  - cbn [map seqs]. rewrite R. discriminate.
  - change (seqs (map Chr (q :: q2 :: ps)))
      with (Seq (Chr q) (seqs (map Chr (q2 :: ps)))).
    rewrite run_seq_eq, R. cbn [flat_map fst snd]. rewrite app_nil_r.
    apply IH; [discriminate | exact H].
Qed.

Lemma search_at_tests (ps : list (ascii -> bool)) :
  ps <> [] ->
  forall s p pv,
    match search_at (seqs (map Chr ps)) p pv s with
    | Some _ => true
    | None => false
    end = includesP ps s.
Proof.
  intros N. induction s as [|x t IH]; intros p pv;
    cbn [search_at includesP].
  - destruct (startsWithP ps []) eqn:S.
    + destruct (run _ (St p pv []) []) as [|[st' c] l] eqn:R;
        [|reflexivity].
      exfalso. exact (@run_tests_found ps N (St p pv []) [] S R).
    + rewrite (run_tests_none ps (St p pv []) [] S). reflexivity.
  - destruct (startsWithP ps (x :: t)) eqn:S.
    + destruct (run _ (St p pv (x :: t)) []) as [|[st' c] l] eqn:R;
        [|reflexivity].
      exfalso. exact (@run_tests_found ps N (St p pv (x :: t)) [] S R).
    + rewrite (run_tests_none ps (St p pv (x :: t)) [] S). apply IH.
Qed.

Lemma includesP_only (w s : str) :
  includesP (map only w) s = includes w s.
Proof.
  assert (S : forall w t, startsWithP (map only w) t = startsWith w t).
  { clear. induction w as [|x w IH]; intros t; [reflexivity|].
    destruct t as [|y t]; [reflexivity|]. cbn [map startsWithP startsWith].
    rewrite IH. f_equal. unfold only, ch_eqb. apply Ascii.eqb_sym. }
  induction s as [|y s IH]; cbn [includesP includes]; rewrite S;
    [reflexivity|]. rewrite IH. reflexivity.
Qed.

Lemma test_bars (s : str) : test re_bars s = includes (lit "||") s.
Proof.
  unfold test, exec, exec_from, state_at.
  cbn [Nat.ltb Nat.leb pos prev rest skipn].
  change re_bars with (seqs (map Chr (map only (lit "||")))).
  rewrite search_at_tests by discriminate. apply includesP_only.
Qed.

(** X14.  An expression without an opening parenthesis is never taken for an
    aggregate, a window function, an explode, a type conversion, a null
    handling, a string function or a date function.  It is a
    concatenation when it holds two bars in a row, else a CASE when the
    word stands in it, else arithmetic when it holds one of the four
    operators and is not the lone star, and a plain field otherwise. *)
Theorem detectTransformation_without_call (expr : str) :
  ~ In c_lparen expr ->
  detectTransformation expr
  = Ok (if includes (lit "||") expr then lit "拼接"
        else if test re_case (toUpperCase expr) then lit "条件判断(CASE)"
        else if str_eqb expr (lit "*") then lit "原始字段"
        else if existsb is_arith expr then lit "算术运算"
        else lit "原始字段").
Proof.
  intros N.
  assert (U : forall x, In x (toUpperCase expr) -> only c_lparen x = false).
  { intros x Hx. unfold only. destruct (ch_eqb x c_lparen) eqn:E;
      [|reflexivity].
    apply ch_eqb_true in E. subst x. exfalso.
    apply N, toUpperCase_paren, Hx. }
  assert (P : forall x, In x expr -> only c_lparen x = false).
  { intros x Hx. unfold only. destruct (ch_eqb x c_lparen) eqn:E;
      [|reflexivity].
    apply ch_eqb_true in E. subst x. contradiction. }
  unfold detectTransformation.
  rewrite (@test_needs re_aggregate _ _ eq_refl U).
  rewrite (@test_needs re_over _ _ eq_refl U).
  rewrite (@test_needs re_explode _ _ eq_refl U).
  rewrite (@test_needs re_concat _ _ eq_refl U).
  rewrite (@test_needs re_cast _ _ eq_refl U).
  rewrite (@test_needs re_null _ _ eq_refl U).
  rewrite (@test_needs re_string_fn _ _ eq_refl U).
  rewrite (@test_needs re_date_fn _ _ eq_refl U).
  rewrite (@test_needs re_paren _ _ eq_refl P).
  rewrite test_bars. unfold re_arith. rewrite test_chr.
  cbn [orb negb]. rewrite andb_true_r.
  destruct (includes (lit "||") expr); [reflexivity|].
  destruct (test re_case (toUpperCase expr)); [reflexivity|].
  destruct (str_eqb expr (lit "*")); [reflexivity|].
  destruct (existsb is_arith expr); reflexivity.
Qed.

Lemma detectTransformation_without_call_witness :
  ~ In c_lparen (lit "a.price * b.qty")
  /\ detectTransformation (lit "a.price * b.qty") = Ok (lit "算术运算").
Proof.
  assert (N : ~ In c_lparen (lit "a.price * b.qty")).
  { intros H. cbn in H.
    repeat (destruct H as [H|H]; [discriminate H|]). destruct H. }
  split; [exact N|].
  exact (@detectTransformation_without_call (lit "a.price * b.qty") N).
Defined.
(* ================================================================== *)
(** * The parser: the units of the temp tables and of the CTEs *)

Lemma processTempTables_heads (fuel : nat) (names : list str)
  (ts : list Named) :
  forall i acc sh cs sh',
    processTempTables fuel names ts i acc sh = Ok (cs, sh') ->
    exists new,
      cs = acc ++ new
      /\ map unit_head new = map (fun t => tempHead (nm_name t)) ts
      /\ Forall (fun q => isTempTable q = Some true) new.
Proof.
  induction ts as [|t ts IH]; cbn [processTempTables]; intros i acc sh cs sh' H.
  - inversion H; subst. exists []. rewrite app_nil_r. repeat split.
    constructor.
  - bind_inv H as [parsed sh1] E.
    destruct (processSQL_headed _ _ _ _ _ _ _ _ E) as (_ & Hn & Hc & Hs).
    destruct (IH _ _ _ _ _ H) as (new & -> & Hh & Ht).
    exists (with_temp_id parsed (lit "temp_node_" ++ nm_name t) :: new).
    rewrite <- app_assoc. split; [reflexivity|]. split.
    + cbn [map]. rewrite Hh. f_equal.
      unfold unit_head, tempHead, with_temp_id. cbn [id name isCTE isSubQuery].
      rewrite Hn, Hc, Hs. reflexivity.
    + constructor; [reflexivity | exact Ht].
Qed.

Lemma processCTEs_heads (fuel : nat) (temps names : list str)
  (rawCTEs : list Named) :
  forall i acc sh cs sh',
    processCTEs fuel temps names rawCTEs i acc sh = Ok (cs, sh') ->
    exists new,
      cs = acc ++ new
      /\ map unit_head new
         = map cteHead (combine (seq i (length rawCTEs))
                          (map nm_name rawCTEs)).
Proof.
  induction rawCTEs as [|c rawCTEs IH]; cbn [processCTEs];
    intros i acc sh cs sh' H.
  - inversion H; subst. exists []. rewrite app_nil_r. split; reflexivity.
  - bind_inv H as [parsed sh1] E.
    destruct (processSQL_headed _ _ _ _ _ _ _ _ E) as (Hi & Hn & Hc & Hs).
    destruct (IH _ _ _ _ _ H) as (new & -> & Hh).
    exists (parsed :: new). rewrite <- app_assoc. split; [reflexivity|].
    cbn [map length seq combine]. rewrite Hh. f_equal.
    unfold unit_head, cteHead. cbn [fst snd].
    rewrite Hi, Hn, Hc, Hs. reflexivity.
Qed.

(** X15.  The units [parseSQL] makes for the temp tables and the CTEs of a
    script.  There is one unit for each temp table, in the order of the
    script, then one for each CTE: the unit of a temp table has the id
    [temp_node_] followed by the name of the table, is marked as a temp
    table and is not flagged as a CTE; the unit of the CTE with the
    index [i] has the id [cte_i] and is flagged as a CTE; each has the
    name of its table or CTE.  The main query has the id [main]. *)
Theorem parseSQL_units_named (fuel : nat) (sql : str) (p : ParsedSQL) :
  parseSQL fuel sql = Ok p ->
  map unit_head (ctes p)
  = map tempHead (tempNamesOf sql)
    ++ map cteHead (combine (seq 0 (length (cteNamesOf sql)))
                      (cteNamesOf sql))
  /\ (forall q, In q (firstn (length (tempNamesOf sql)) (ctes p)) ->
                isTempTable q = Some true)
  /\ unit_head (mainQuery p) = (lit "main", mainLabel, false, false).
Proof.
  unfold parseSQL, tempNamesOf, cteNamesOf. intros H.
  bind_inv H as [temps after] E0. rewrite E0.
  bind_inv H as [raw remaining] E1. rewrite E1.
  bind_inv H as [ctes1 sh1] E2. bind_inv H as [ctes2 sh2] E3.
  bind_inv H as [mainq sh3] E4. inversion H; subst p; clear H.
  cbn [ctes mainQuery].
  destruct (processTempTables_heads _ _ _ _ _ _ E2) as (n1 & -> & H1 & T1).
  destruct (processCTEs_heads _ _ _ _ _ _ _ E3) as (n2 & -> & H2).
  cbn [app] in *.
  assert (L1 : length n1 = length temps).
  { rewrite <- (length_map unit_head), H1, length_map. reflexivity. }
  split; [|split].
  - rewrite map_app, H1, H2, map_map, !length_map. reflexivity.
  - rewrite length_map, <- L1, firstn_app, Nat.sub_diag, firstn_all.
    cbn [firstn]. rewrite app_nil_r. apply Forall_forall. exact T1.
  - destruct (processSQL_headed _ _ _ _ _ _ _ _ E4) as (Hi & Hn & Hc & Hs).
    unfold unit_head. rewrite Hi, Hn, Hc, Hs. reflexivity.
Qed.

Lemma parseSQL_units_named_witness :
  parseSQL 2 example_script = Ok example_parsed
  /\ map unit_head (ctes example_parsed)
     = [(lit "cte_0", lit "c", true, false)].
Proof.
  assert (H : parseSQL 2 example_script = Ok example_parsed)
    by (vm_compute; reflexivity).
  split; [exact H|].
  exact (proj1 (@parseSQL_units_named 2 example_script example_parsed H)).
Defined.
(* ================================================================== *)
(** * The graph assembler: source nodes *)

Lemma existsb_id (sid : str) (ns : list Node) :
  existsb (fun n => str_eqb (n_id n) sid) ns = true <-> In sid (ids_of ns).
Proof.
  unfold ids_of. rewrite existsb_exists, in_map_iff. split.
  - intros (n & Hn & E). apply str_eqb_eq in E. eauto.
  - intros (n & E & Hn). exists n. split; [exact Hn|].
    apply str_eqb_eq. exact E.
Qed.

Lemma ensureSourceNode_cases (tableName alias alias' : str)
  (ns : list Node) :
  let sid := fst (ensureSourceNode tableName alias ns) in
  let ns' := snd (ensureSourceNode tableName alias ns) in
  sid = sourceIdOf tableName
  /\ In sid (ids_of ns')
  /\ ((In sid (ids_of ns) /\ ns' = ns)
      \/ (~ In sid (ids_of ns)
          /\ exists n, ns' = ns ++ [n] /\ n_id n = sid))
  /\ ensureSourceNode tableName alias' ns' = (sid, ns').
Proof.
  unfold ensureSourceNode.
  destruct (existsb _ ns) eqn:E; cbn [fst snd].
  - pose proof (proj1 (existsb_id _ _) E) as I.
    split; [reflexivity|]. split; [exact I|].
    split; [left; split; [exact I | reflexivity]|].
    rewrite E. reflexivity.
  - match goal with
    | |- context [ns ++ [?n]] => set (node := n)
    end.
    assert (Ei : n_id node = sourceIdOf tableName) by reflexivity.
    clearbody node.
    assert (I : In (sourceIdOf tableName) (ids_of (ns ++ [node]))).
    { unfold ids_of. rewrite map_app. apply in_app_iff. right. left.
      exact Ei. }
    split; [reflexivity|]. split; [exact I|]. split.
    + right. split.
      * intros H. apply existsb_id in H. congruence.
      * exists node. split; [reflexivity | exact Ei].
    + rewrite (proj2 (existsb_id _ _) I). reflexivity.
Qed.

(** X16.  [ensureSourceNode] returns the id made from the table name, which
    is the id of a node of the list it leaves; it adds one node, at the
    end, when no node had that id, and none otherwise; and asking again
    for the same table, under any alias, changes nothing. *)
Theorem ensureSourceNode_once (tableName alias alias' : str)
  (ns : list Node) :
  let sid := fst (ensureSourceNode tableName alias ns) in
  let ns' := snd (ensureSourceNode tableName alias ns) in
  sid = sourceIdOf tableName
  /\ In sid (ids_of ns')
  /\ ((In sid (ids_of ns) /\ ns' = ns)
      \/ (~ In sid (ids_of ns)
          /\ exists n, ns' = ns ++ [n] /\ n_id n = sid))
  /\ ensureSourceNode tableName alias' ns' = (sid, ns').
Proof. exact (ensureSourceNode_cases tableName alias alias' ns). Qed.

Lemma ensureSourceNode_grows (t al : str) (ns : list Node) :
  incl (ids_of ns) (ids_of (snd (ensureSourceNode t al ns)))
  /\ In (fst (ensureSourceNode t al ns))
        (ids_of (snd (ensureSourceNode t al ns))).
Proof.
  destruct (ensureSourceNode_cases t al al ns)
    as (_ & I & [[_ E]|[_ (n & E & _)]] & _).
  - split; [rewrite E; apply incl_refl | exact I].
  - split; [|exact I]. rewrite E. unfold ids_of. rewrite map_app.
    apply incl_appl, incl_refl.
Qed.

(* ================================================================== *)
(** * The graph assembler: every edge joins two nodes *)

Lemma wired_grows (ns ns' : list Node) (es : list Edge) :
  incl (ids_of ns) (ids_of ns') -> wired ns es -> wired ns' es.
Proof.
  intros I W e He. destruct (W e He) as [A B]. split; apply I; assumption.
Qed.

Lemma sane_set_nodes (parsed : ParsedSQL) (a : Acc) (ns : list Node) :
  incl (ids_of (nodes a)) (ids_of ns) ->
  sane parsed a -> sane parsed (set_nodes a ns).
Proof.
  intros I [B W]. split; simpl.
  - intros x Hx. apply I, B, Hx.
  - eapply wired_grows; eassumption.
Qed.

Lemma wired_push (ns : list Node) (es : list Edge) (i s t : str)
  (y : EdgeStyle) :
  In s (ids_of ns) -> In t (ids_of ns) -> wired ns es ->
  wired ns (es ++ [mkEdge i s t y]).
Proof.
  intros Hs Ht W e He. apply in_app_iff in He.
  destruct He as [He|[<-|[]]]; [apply W, He | split; assumption].
Qed.

Lemma sane_addEdge (parsed : ParsedSQL) (s t : str) (u : bool) (l : str)
  (a : Acc) :
  In s (ids_of (nodes a)) -> In t (ids_of (nodes a)) ->
  sane parsed a -> sane parsed (addEdge s t u l a).
Proof.
  intros Hs Ht [B W]. unfold addEdge.
  destruct (mem _ (addedEdges a)); [split; assumption|].
  split; [exact B|]. cbn [nodes edges].
  destruct u; apply wired_push; assumption.
Qed.

Lemma sane_pushJoinEdge (parsed : ParsedSQL) (s t : str) (a : Acc) :
  In s (ids_of (nodes a)) -> In t (ids_of (nodes a)) ->
  sane parsed a -> sane parsed (pushJoinEdge s t a).
Proof.
  intros Hs Ht [B W]. unfold pushJoinEdge.
  destruct (negb _); [|split; assumption].
  split; [exact B|]. cbn [nodes edges]. apply wired_push; assumption.
Qed.

Lemma nodes_addEdge (s t : str) (u : bool) (l : str) (a : Acc) :
  nodes (addEdge s t u l a) = nodes a.
Proof. unfold addEdge. destruct (mem _ _); reflexivity. Qed.

Lemma nodes_pushJoinEdge (s t : str) (a : Acc) :
  nodes (pushJoinEdge s t a) = nodes a.
Proof. unfold pushJoinEdge. destruct (negb _); reflexivity. Qed.

Section Wiring.

Variable parsed : ParsedSQL.

Lemma known_is_based (p : str -> bool) (v : str) :
  defined (first_entry p (nodeIdMap parsed)) = Some v ->
  In v (ids_of (initialNodes parsed)).
Proof.
  intros H. apply defined_some, first_entry_value, nodeIdMap_values in H.
  unfold unit_ids in H. unfold initialNodes, ids_of.
  rewrite map_app in H. rewrite !map_app, !map_map. cbn [n_id].
  apply in_app_iff in H. rewrite !in_app_iff. tauto.
Qed.

(** The node a table name stands for: a unit, or a source node. *)
Lemma resolved_is_node (p : str -> bool) (t al : str) (a : Acc) :
  based parsed (nodes a) ->
  let r := match defined (first_entry p (nodeIdMap parsed)) with
           | Some v => (v, nodes a)
           | None => ensureSourceNode t al (nodes a)
           end in
  incl (ids_of (nodes a)) (ids_of (snd r)) /\ In (fst r) (ids_of (snd r)).
Proof.
  intros B. destruct (defined _) as [v|] eqn:E; cbn zeta.
  - split; [apply incl_refl|]. apply B. exact (known_is_based _ E).
  - apply ensureSourceNode_grows.
Qed.

Variable sq : SubQuery.
Hypothesis unit_has_node : In (id sq) (ids_of (initialNodes parsed)).

Lemma fromTable_node (ts : list TableRef) (ns : list Node) :
  based parsed ns ->
  incl (ids_of ns) (ids_of (snd (fromTable parsed sq ts ns)))
  /\ forall v, fst (fromTable parsed sq ts ns) = Some v ->
               In v (ids_of (snd (fromTable parsed sq ts ns))).
Proof.
  intros B. induction ts as [|t ts IH]; cbn [fromTable].
  - split; [apply incl_refl | discriminate].
  - destruct (defined _) as [v|] eqn:E.
    + destruct (negb _); [|exact IH]. cbn [fst snd].
      split; [apply incl_refl|]. intros w Hw. inversion Hw; subst.
      apply B. exact (known_is_based _ E).
    + destruct (negb _); [|exact IH].
      pose proof (ensureSourceNode_grows (tr_name t) (tr_alias t) ns)
        as [G I].
      destruct (ensureSourceNode _ _ ns) as [sid ns']. cbn [fst snd] in *.
      split; [exact G|]. intros w Hw. inversion Hw; subst. exact I.
Qed.

Lemma joinStep_sane (f : option str) (st : Acc * list str) (j : JoinInfo) :
  sane_from parsed f st -> sane_from parsed f (joinStep parsed sq f st j).
Proof.
  destruct st as [a h]. unfold sane_from, joinStep. cbn [fst].
  intros [[B W] F].
  pose proof (@resolved_is_node
                (matches2 (getMatchName (tr_name (ji_table j)))
                   (getMatchName (tr_tableName (ji_table j))))
                (tr_name (ji_table j)) (tr_alias (ji_table j)) a B) as R.
  cbn zeta in R.
  destruct (match defined (first_entry _ (nodeIdMap parsed)) with
            | Some v => (v, nodes a)
            | None => ensureSourceNode _ _ (nodes a)
            end) as [src ns].
  cbn [fst snd] in R. destruct R as [G I].
  set (joinId := lit "join_" ++ of_nat (joinNodeCounter a)).
  set (jn := mkNode joinId _).
  set (a1 := mkAcc (ns ++ [jn]) (edges a) (addedEdges a)
               (S (joinNodeCounter a))).
  assert (G1 : incl (ids_of (nodes a)) (ids_of (nodes a1))).
  { unfold a1, ids_of. cbn [nodes]. rewrite map_app.
    intros x Hx. apply in_app_iff. left. apply G. exact Hx. }
  assert (Ij : In joinId (ids_of (nodes a1))).
  { unfold a1, ids_of. cbn [nodes]. rewrite map_app. apply in_app_iff.
    right. left. reflexivity. }
  assert (Is : In src (ids_of (nodes a1))).
  { unfold a1, ids_of. cbn [nodes]. rewrite map_app. apply in_app_iff.
    left. exact I. }
  assert (S1 : sane parsed a1).
  { split; [intros x Hx; apply G1, B, Hx|].
    eapply wired_grows; [exact G1 | exact W]. }
  assert (It : In (id sq) (ids_of (nodes a1)))
    by (apply (proj1 S1), unit_has_node).
  set (a2 := match defined f with
             | Some f0 => pushJoinEdge f0 joinId a1
             | None => a1
             end).
  assert (S2 : sane parsed a2 /\ nodes a2 = nodes a1).
  { unfold a2. destruct (defined f) as [f0|] eqn:Ef; [|split; auto].
    split; [|apply nodes_pushJoinEdge].
    apply sane_pushJoinEdge; [apply G1, F; reflexivity | exact Ij | exact S1]. }
  destruct S2 as [S2 N2].
  cbn [fst]. split.
  - apply sane_pushJoinEdge; rewrite ?nodes_pushJoinEdge, ?N2; try assumption.
    apply sane_pushJoinEdge; rewrite ?N2; assumption.
  - intros v Hv. rewrite !nodes_pushJoinEdge, N2. apply G1, F, Hv.
Qed.

Lemma unionStep_sane (st : Acc * list str) (t : str) :
  sane1 parsed st -> sane1 parsed (unionStep sq st t).
Proof.
  destruct st as [a h]. unfold sane1, unionStep. cbn [fst]. intros S.
  pose proof (ensureSourceNode_grows t [] (nodes a)) as [G I].
  destruct (ensureSourceNode t [] (nodes a)) as [sid ns].
  cbn [fst snd] in *.
  pose proof (sane_set_nodes ns G S) as S1.
  apply sane_addEdge; [exact I | | exact S1].
  apply (proj1 S1), unit_has_node.
Qed.

Lemma dependsStep_sane (st : Acc * list str) (d : str) :
  sane1 parsed st -> sane1 parsed (dependsStep parsed sq st d).
Proof.
  destruct st as [a h]. unfold sane1, dependsStep. cbn [fst]. intros S.
  destruct (existsb _ h); [exact S|].
  destruct (knownNode parsed (getMatchName d)) as [dep|] eqn:E; [|exact S].
  destruct (str_eqb dep (id sq)); [exact S|].
  destruct (mem _ (addedEdges a)); [exact S|].
  cbn [fst]. apply sane_addEdge; [| |exact S].
  - apply (proj1 S). exact (known_is_based _ E).
  - apply (proj1 S), unit_has_node.
Qed.

Lemma tableStep_sane (st : Acc * list str) (t : TableRef) :
  sane1 parsed st -> sane1 parsed (tableStep parsed sq st t).
Proof.
  destruct st as [a h]. unfold sane1, tableStep. cbn [fst]. intros S.
  destruct (existsb _ h); [exact S|].
  destruct (defined (first_entry _ (nodeIdMap parsed))) as [dep|] eqn:E.
  - cbn [fst]. destruct (negb (str_eqb dep (id sq))); [|exact S].
    destruct (negb (mem _ (addedEdges a))); [|exact S].
    apply sane_addEdge; [| |exact S].
    + apply (proj1 S). exact (known_is_based _ E).
    + apply (proj1 S), unit_has_node.
  - pose proof (ensureSourceNode_grows (tr_name t) (tr_alias t) (nodes a))
      as [G I].
    destruct (ensureSourceNode _ _ (nodes a)) as [sid ns].
    cbn [fst snd] in *.
    pose proof (sane_set_nodes ns G S) as S1.
    apply sane_addEdge; [exact I | | exact S1].
    apply (proj1 S1), unit_has_node.
Qed.

Lemma rescueStep_sane (inc : list Edge) (a : Acc) (t : TableRef) :
  sane parsed a -> sane parsed (rescueStep parsed sq inc a t).
Proof.
  unfold rescueStep. intros S.
  destruct (existsb _ inc); [exact S|].
  pose proof (@resolved_is_node
                (matches2 (getMatchName (tr_name t))
                   (getMatchName (tr_tableName t)))
                (tr_name t) (tr_alias t) a (proj1 S)) as R.
  cbn zeta in R.
  destruct (match defined (first_entry _ (nodeIdMap parsed)) with
            | Some v => (v, nodes a)
            | None => ensureSourceNode _ _ (nodes a)
            end) as [src ns].
  cbn [fst snd] in R. destruct R as [G I].
  pose proof (sane_set_nodes ns G S) as S1.
  apply sane_addEdge; [exact I | | exact S1].
  apply (proj1 S1), unit_has_node.
Qed.

Lemma processQuery_sane (a : Acc) :
  sane parsed a -> sane parsed (processQuery parsed sq a).
Proof.
  intros S. unfold processQuery.
  pose proof (@fromTable_node (tables sq) (nodes a) (proj1 S)) as [G F].
  destruct (fromTable parsed sq (tables sq) (nodes a)) as [f ns].
  cbn [fst snd] in G, F.
  set (st1 := fold_left (joinStep parsed sq f) (joins sq) (set_nodes a ns, [])).
  assert (K1 : sane_from parsed f st1).
  { apply fold_left_keeps; [intros; apply joinStep_sane; assumption|].
    split; cbn [fst]; [apply sane_set_nodes; assumption|].
    intros v Hv. apply F. apply defined_some. exact Hv. }
  destruct K1 as [K1 _]. fold (sane1 parsed st1) in K1.
  set (st2 := match unionPhysicalSources_get (id sq) (snd (unionPass parsed))
              with Some p => fold_left (unionStep sq) p st1 | None => st1 end).
  assert (K2 : sane1 parsed st2).
  { unfold st2. destruct (unionPhysicalSources_get _ _); [|exact K1].
    apply fold_left_keeps; [intros; apply unionStep_sane; assumption|].
    exact K1. }
  set (st3 := fold_left (dependsStep parsed sq) (dependsOn sq) st2).
  assert (K3 : sane1 parsed st3).
  { apply fold_left_keeps; [intros; apply dependsStep_sane; assumption|].
    exact K2. }
  set (st4 := fold_left (tableStep parsed sq) (tables sq) st3).
  assert (K4 : sane1 parsed st4).
  { apply fold_left_keeps; [intros; apply tableStep_sane; assumption|].
    exact K3. }
  destruct (_ && _); [|exact K4].
  apply fold_left_keeps; [intros; apply rescueStep_sane; assumption|].
  exact K4.
Qed.

End Wiring.
(* ================================================================== *)
(** * The graph as a whole *)

Lemma wired_ends (ns : list Node) (es es' : list Edge) :
  map endsOf es' = map endsOf es -> wired ns es -> wired ns es'.
Proof.
  intros E W e He.
  assert (I : In (endsOf e) (map endsOf es))
    by (rewrite <- E; apply in_map, He).
  apply in_map_iff in I. destruct I as (e0 & E0 & H0).
  destruct (W e0 H0) as [A B]. unfold endsOf in E0.
  injection E0 as Es Et. rewrite Es in A. rewrite Et in B.
  split; assumption.
Qed.

Lemma main_and_output_based (parsed : ParsedSQL) :
  In (mainId parsed) (ids_of (initialNodes parsed))
  /\ In outputId (ids_of (initialNodes parsed)).
Proof.
  unfold initialNodes, ids_of. rewrite !map_app. cbn [map n_id].
  rewrite !in_app_iff. cbn [In]. tauto.
Qed.

Lemma units_based (parsed : ParsedSQL) (q : SubQuery) :
  In q (ctes parsed ++ subQueries parsed ++ [mainQuery parsed]) ->
  In (id q) (ids_of (initialNodes parsed)).
Proof.
  unfold initialNodes, ids_of. rewrite !map_app, !map_map. cbn [map n_id].
  rewrite !in_app_iff. intros [H|[H|[<-|[]]]].
  - left. apply in_map_iff. exists q. auto.
  - right. left. apply in_map_iff. exists q. auto.
  - right. right. left. reflexivity.
Qed.

(** The invariant of the loop over [allQueries], to the end. *)
Lemma buildFlowElements_sane (parsed : ParsedSQL) :
  incl (allQueries parsed)
       (ctes parsed ++ subQueries parsed ++ [mainQuery parsed]) ->
  based parsed (fst (buildFlowElements parsed))
  /\ wired (fst (buildFlowElements parsed)) (snd (buildFlowElements parsed)).
Proof.
  intros I. unfold buildFlowElements. cbn [fst snd].
  set (step := fun a q => processQuery parsed q a).
  set (a0 := mkAcc (initialNodes parsed) [] [] 0).
  assert (S : forall qs a, incl qs (allQueries parsed) -> sane parsed a ->
                           sane parsed (fold_left step qs a)).
  { induction qs as [|q qs IH]; intros a Hq Sa; [exact Sa|].
    cbn [fold_left]. apply IH; [intros x Hx; apply Hq; right; exact Hx|].
    apply processQuery_sane; [|exact Sa].
    apply units_based, I, Hq. left. reflexivity. }
  assert (S0 : sane parsed a0).
  { split; [apply incl_refl | intros e []]. }
  pose proof (S (allQueries parsed) a0 (incl_refl _) S0) as Sf.
  destruct (main_and_output_based parsed) as [Im Io].
  pose proof (@sane_addEdge parsed (mainId parsed) outputId false []
                _ (proj1 Sf _ Im) (proj1 Sf _ Io) Sf) as [B W].
  split; [exact B|].
  eapply wired_ends; [apply restyleMainOutput_ends | exact W].
Qed.

Lemma parseSQL_units_listed (fuel : nat) (sql : str) (p : ParsedSQL) :
  parseSQL fuel sql = Ok p ->
  incl (allQueries p) (ctes p ++ subQueries p ++ [mainQuery p]).
Proof.
  unfold parseSQL. intros H.
  bind_inv H as [temps after] E0. bind_inv H as [raw remaining] E1.
  bind_inv H as [ctes1 sh1] E2. bind_inv H as [ctes2 sh2] E3.
  bind_inv H as [mainq sh3] E4. inversion H; subst p.
  cbn [allQueries ctes subQueries mainQuery]. apply incl_refl.
Qed.

(** The bookkeeping of the edge keys stays sound over the whole loop
    when the ids of the units are free of [>]. *)
Lemma fold_processQuery_sound (parsed : ParsedSQL) (qs : list SubQuery)
  (a : Acc) :
  (forall q, In q qs -> no_gt (id q)) -> edges_sound a ->
  edges_sound (fold_left (fun a q => processQuery parsed q a) qs a).
Proof.
  revert a. induction qs as [|q qs IH]; cbn [fold_left]; intros a G S;
    [exact S|].
  apply IH; [intros x Hx; apply G; right; exact Hx|].
  apply (@processQuery_sound parsed q (G q (or_introl eq_refl)) a S).
Qed.

Lemma edgeKey_source (s s' t : str) :
  edgeKey s t = edgeKey s' t -> s = s'.
Proof. unfold edgeKey. apply app_inv_tail. Qed.

Lemma addEdge_joins (s t : str) (a : Acc) :
  no_gt t -> edges_sound a ->
  exists e, In e (edges (addEdge s t false [] a))
            /\ source e = s /\ target e = t.
Proof.
  intros Ht [K T]. unfold addEdge.
  destruct (mem (edgeKey s t) (addedEdges a)) eqn:M.
  - apply mem_In in M. destruct (K _ M) as (e & He & E). exists e.
    unfold keyOf in E.
    pose proof (edgeKey_target _ _ (T e He) Ht E) as Et.
    rewrite Et in E. apply edgeKey_source in E. auto.
  - cbn [edges]. eexists. split; [apply in_app_iff; right; left; reflexivity|].
    split; reflexivity.
Qed.

Lemma restyleMainOutput_marks (parsed : ParsedSQL) (es : list Edge)
  (e : Edge) :
  In e es -> source e = mainId parsed -> target e = outputId ->
  exists e', In e' (restyleMainOutput parsed es)
             /\ source e' = mainId parsed /\ target e' = outputId
             /\ style e' = terminal.
Proof.
  intros He Es Et. induction es as [|x es IH]; [destruct He|].
  cbn [restyleMainOutput].
  destruct (str_eqb (source x) (mainId parsed)
            && str_eqb (target x) outputId) eqn:C.
  - apply andb_true_iff in C. destruct C as [C1 C2].
    apply str_eqb_eq in C1, C2.
    eexists. split; [left; reflexivity|]. cbn. auto.
  - destruct He as [->|He].
    + rewrite Es, Et, !str_eqb_refl in C. discriminate C.
    + destruct (IH He) as (e' & He' & R). exists e'. split; [right|]; auto.
Qed.

Lemma graph_main_to_output (parsed : ParsedSQL) :
  (forall q, In q (allQueries parsed) -> no_gt (id q)) ->
  exists e, In e (snd (buildFlowElements parsed))
            /\ source e = mainId parsed /\ target e = outputId
            /\ style e = terminal.
Proof.
  intros G. unfold buildFlowElements. cbn [snd].
  set (a := fold_left _ (allQueries parsed) _).
  assert (S : edges_sound a).
  { apply fold_processQuery_sound; [exact G|].
    split; cbn; [intros k [] | intros e []]. }
  destruct (@addEdge_joins (mainId parsed) outputId a eq_refl S)
    as (e & He & Es & Et).
  exact (restyleMainOutput_marks parsed _ e He Es Et).
Qed.

(** X17.  In the graph of [buildFlowElements], no edge dangles: the source and
    the target of every edge are ids of nodes of the returned node list,
    and every CTE, temp table and subquery, the main query and the
    output have their node there.  This holds for every document whose
    [allQueries] lists units of the document only, whatever the tables,
    joins and dependencies of the units name. *)
Theorem buildFlowElements_edges_join_nodes (parsed : ParsedSQL) :
  incl (allQueries parsed)
       (ctes parsed ++ subQueries parsed ++ [mainQuery parsed]) ->
  let ns := fst (buildFlowElements parsed) in
  let es := snd (buildFlowElements parsed) in
  (forall e, In e es -> In (source e) (ids_of ns) /\ In (target e) (ids_of ns))
  /\ (forall q, In q (ctes parsed ++ subQueries parsed ++ [mainQuery parsed])
                -> In (id q) (ids_of ns))
  /\ In outputId (ids_of ns).
Proof.
  intros I ns es. destruct (@buildFlowElements_sane parsed I) as [B W].
  split; [exact W|]. split.
  - intros q Hq. apply B, units_based, Hq.
  - apply B, main_and_output_based.
Qed.

Lemma buildFlowElements_edges_join_nodes_witness :
  incl (allQueries example_parsed)
       (ctes example_parsed ++ subQueries example_parsed
        ++ [mainQuery example_parsed])
  /\ (forall e, In e (snd (buildFlowElements example_parsed)) ->
        In (source e) (ids_of (fst (buildFlowElements example_parsed)))
        /\ In (target e) (ids_of (fst (buildFlowElements example_parsed)))).
Proof.
  assert (I : incl (allQueries example_parsed)
                (ctes example_parsed ++ subQueries example_parsed
                 ++ [mainQuery example_parsed]))
    by (intros q [<-|[<-|[]]]; cbn; auto).
  split; [exact I|].
  exact (proj1 (@buildFlowElements_edges_join_nodes example_parsed I)).
Defined.

(** X18.  The graph of [buildFlowElements] has an edge from the node of the
    main query to the output node, and it carries the terminal style,
    when the ids of the units are free of [>] (so that no other pair of
    ids has the key of that edge). *)
Theorem buildFlowElements_main_feeds_output (parsed : ParsedSQL) :
  (forall q, In q (allQueries parsed) -> no_gt (id q)) ->
  exists e, In e (snd (buildFlowElements parsed))
            /\ source e = id (mainQuery parsed)
            /\ target e = lit "output"
            /\ style e = terminal.
Proof. intros G. exact (@graph_main_to_output parsed G). Qed.

Lemma buildFlowElements_main_feeds_output_witness :
  (forall q, In q (allQueries example_parsed) -> no_gt (id q))
  /\ exists e, In e (snd (buildFlowElements example_parsed))
               /\ source e = id (mainQuery example_parsed)
               /\ target e = lit "output"
               /\ style e = terminal.
Proof.
  assert (G : forall q, In q (allQueries example_parsed) -> no_gt (id q))
    by (intros q [<-|[<-|[]]]; reflexivity).
  split; [exact G|].
  exact (@buildFlowElements_main_feeds_output example_parsed G).
Defined.

(** X19.  Parser and graph assembler together.  For every script the parser
    accepts, the graph drawn from the parsed document has no dangling
    edge.  When, moreover, the temp tables of the script have names free
    of [>], every unit of the document with a non-empty table list (the
    main query too) has an edge into its node, and the main query has
    its terminal edge into the output node. *)
Theorem parseSQL_graph_connected (fuel : nat) (sql : str) (p : ParsedSQL) :
  parseSQL fuel sql = Ok p ->
  let ns := fst (buildFlowElements p) in
  let es := snd (buildFlowElements p) in
  (forall e, In e es -> In (source e) (ids_of ns) /\ In (target e) (ids_of ns))
  /\ ((forall n, In n (tempNamesOf sql) -> no_gt n) ->
      (forall sq, In sq (allQueries p) -> tables sq <> [] ->
                  exists e, In e es /\ target e = id sq)
      /\ exists e, In e es /\ source e = id (mainQuery p)
                   /\ target e = lit "output" /\ style e = terminal).
Proof.
  intros H ns es. split.
  - exact (proj2 (@buildFlowElements_sane p (@parseSQL_units_listed _ _ _ H))).
  - intros T. destruct (@parseSQL_units_ok _ _ _ H T) as [G F]. split.
    + intros sq Hsq Ht.
      exact (@buildFlowElements_unit_has_incoming_edge p sq G Hsq
               (F sq Hsq) Ht).
    + exact (@graph_main_to_output p G).
Qed.

Lemma parseSQL_graph_connected_witness :
  parseSQL 2 example_script = Ok example_parsed
  /\ (forall n, In n (tempNamesOf example_script) -> no_gt n)
  /\ (forall e, In e (snd (buildFlowElements example_parsed)) ->
        In (source e) (ids_of (fst (buildFlowElements example_parsed)))
        /\ In (target e) (ids_of (fst (buildFlowElements example_parsed))))
  /\ (forall sq, In sq (allQueries example_parsed) -> tables sq <> [] ->
        exists e, In e (snd (buildFlowElements example_parsed))
                  /\ target e = id sq).
Proof.
  assert (H : parseSQL 2 example_script = Ok example_parsed)
    by (vm_compute; reflexivity).
  assert (T : forall n, In n (tempNamesOf example_script) -> no_gt n)
    by (intros n Hn; vm_compute in Hn; destruct Hn).
  split; [exact H|]. split; [exact T|].
  destruct (@parseSQL_graph_connected 2 example_script example_parsed H)
    as [W C].
  split; [exact W|]. exact (proj1 (C T)).
Defined.
(* ================================================================== *)
(** * The parser: what a unit depends on *)

Lemma findKnown_in (p : str -> bool) (known : list str) (d : str) :
  findKnown p known = Some d -> In d known.
Proof.
  unfold findKnown. intros H. apply defined_some in H.
  apply find_some in H. tauto.
Qed.

Lemma addTable_deps (t : TableRef) (known : list str) (r : Refs) :
  incl (rf_dependsOn r) known ->
  incl (rf_dependsOn (addTable t known r)) known.
Proof.
  intros I. unfold addTable.
  destruct (findKnown _ known) as [d|] eqn:E; cbn [rf_dependsOn];
    [|exact I].
  destruct (mem d (rf_dependsOn r)); [exact I|].
  intros x Hx. apply in_app_iff in Hx. destruct Hx as [Hx|[<-|[]]];
    [apply I, Hx | exact (@findKnown_in _ _ _ E)].
Qed.

Lemma fold_res_keeps {A B : Type} (P : A -> Prop) (f : A -> B -> res A) :
  (forall a b a', f a b = Ok a' -> P a -> P a') ->
  forall l a a', fold_res f l a = Ok a' -> P a -> P a'.
Proof.
  intros K. induction l as [|b l IH]; cbn [fold_res]; intros a a' H Pa.
  - inversion H; subst. exact Pa.
  - bind_inv H as a1 E. exact (IH _ _ H (K _ _ _ E Pa)).
Qed.

Lemma simpleUnionBranch_deps (known : list str) (r r' : Refs) (part : str) :
  simpleUnionBranch known r part = Ok r' ->
  incl (rf_dependsOn r) known -> incl (rf_dependsOn r') known.
Proof.
  unfold simpleUnionBranch. intros H I.
  destruct (exec fromRegex part) as [m|]; [|inversion H; subst; exact I].
  bind_inv H as raw E.
  destruct (startsWith placeholderPrefix raw);
    inversion H; subst; [exact I | apply addTable_deps, I].
Qed.

Lemma fromTableStep_deps (normalized : str) (known : list str)
  (r r' : Refs) :
  fromTableStep normalized known r = Ok r' ->
  incl (rf_dependsOn r) known -> incl (rf_dependsOn r') known.
Proof.
  unfold fromTableStep. intros H I.
  destruct (exec fromRegex normalized) as [m|];
    [|inversion H; subst; exact I].
  bind_inv H as raw E.
  destruct (negb (startsWith placeholderPrefix raw));
    inversion H; subst; [apply addTable_deps, I | exact I].
Qed.

Lemma joinMatchStep_deps (normalized : str) (known : list str)
  (st st' : Refs * list JoinInfo) (m : rmatch) :
  joinMatchStep normalized known st m = Ok st' ->
  incl (rf_dependsOn (fst st)) known ->
  incl (rf_dependsOn (fst st')) known.
Proof.
  unfold joinMatchStep. destruct st as [r joins]. intros H I.
  bind_inv H as raw E.
  destruct (startsWith placeholderPrefix raw);
    [inversion H; subst; exact I|].
  bind_inv H as cond E2. inversion H; subst. cbn [fst] in *.
  apply addTable_deps, I.
Qed.

Lemma dedupe_incl (xs : list str) : incl (dedupe xs) xs.
Proof.
  unfold dedupe.
  assert (G : forall ys acc x,
             In x (fold_left (fun acc y => set_add y acc) ys acc) ->
             In x acc \/ In x ys).
  { induction ys as [|y ys IH]; cbn [fold_left]; intros acc x H; [auto|].
    destruct (IH _ _ H) as [H1|H1]; [|right; right; exact H1].
    apply in_set_add in H1. destruct H1 as [->|H1]; [right; left|left];
      auto. }
  intros x Hx. destruct (G _ _ _ Hx) as [[]|H]. exact H.
Qed.

(** The flat parse records known names only. *)
Lemma parseFlatSelect_deps (sql id0 name0 : str) (c s : bool)
  (known : list str) (q : SubQuery) :
  parseFlatSelect sql id0 name0 c s known = Ok q ->
  incl (dependsOn q) known.
Proof.
  unfold parseFlatSelect. intros H.
  bind_inv H as ui E1. bind_inv H as [unionParts ut] E2.
  bind_inv H as refs1 E3. bind_inv H as fs E4. bind_inv H as refs2 E5.
  bind_inv H as jms E6. bind_inv H as [refs js] E7.
  bind_inv H as w E8. bind_inv H as hv E9. bind_inv H as g E10.
  bind_inv H as o E11. inversion H; subst; clear H. cbn [dependsOn].
  intros x Hx. apply dedupe_incl in Hx. revert x Hx.
  change (incl (rf_dependsOn (fst (refs, js))) known).
  eapply (fold_res_keeps
            (fun st : Refs * list JoinInfo =>
               incl (rf_dependsOn (fst st)) known));
    [intros a b a'; apply joinMatchStep_deps | exact E7 |].
  cbn [fst].
  assert (I1 : incl (rf_dependsOn refs1) known).
  { match type of E3 with
    | (if _ then if _ then Ok ?r0 else _ else _) = _ =>
        assert (I0 : incl (rf_dependsOn r0) known)
    end.
    { cbn [rf_dependsOn]. destruct ui as [u|]; [|intros x []].
      destruct (isComplex unionParts); [intros x []|].
      generalize (ui_sources u). intros srcs.
      assert (G : forall srcs acc,
                 incl acc known ->
                 incl (fold_left
                         (fun dependsOn src =>
                            match findKnown
                                    (fun k => str_eqb (getMatchName k)
                                                (getMatchName src))
                                    known with
                            | Some knownMatch =>
                                if mem knownMatch dependsOn then dependsOn
                                else dependsOn ++ [knownMatch]
                            | None => dependsOn
                            end) srcs acc) known).
      { clear. induction srcs as [|src srcs IH]; cbn [fold_left];
          intros acc I; [exact I|]. apply IH.
        destruct (findKnown _ known) as [d|] eqn:E; [|exact I].
        destruct (mem d acc); [exact I|].
        intros x Hx. apply in_app_iff in Hx.
        destruct Hx as [Hx|[<-|[]]];
          [apply I, Hx | exact (@findKnown_in _ _ _ E)]. }
      apply G. intros x []. }
    destruct (1 <? length unionParts);
      [destruct (isComplex unionParts)|];
      try (inversion E3; subst; exact I0).
    eapply (fold_res_keeps (fun r : Refs => incl (rf_dependsOn r) known));
      [intros a b a'; apply simpleUnionBranch_deps | exact E3 | exact I0]. }
  destruct (length unionParts <=? 1);
    [exact (@fromTableStep_deps _ _ _ _ E5 I1) | inversion E5; subst; exact I1].
Qed.

Lemma fixupStep_deps (P : str -> Prop) (pb : list (str * str))
  (known : list str) (q q' : SubQuery) (entry : str * SubInfo) :
  fixupStep pb known q entry = Ok q' ->
  (forall k v, map_get k pb = Some v -> P v) ->
  (forall d, In d (dependsOn q) -> P d) ->
  forall d, In d (dependsOn q') -> P d.
Proof.
  unfold fixupStep. destruct entry as [ph info].
  destruct (map_get _ pb) as [subId|] eqn:G; [|discriminate].
  destruct (match match si_context info, si_joinType info,
                        si_joinCondition info with
                  | ctx_join, Some jt, Some jc =>
                      if truthy jt && truthy jc then Some (jt, jc) else None
                  | _, _, _ => None
                  end with
            | Some (jt, jc) => _
            | None => _
            end) as [ts js].
  intros H V D d Hd. inversion H; subst; clear H. cbn [dependsOn] in Hd.
  assert (F : forall x,
             In x (filter (fun d => negb (str_eqb d (toLowerCase ph)))
                     (dependsOn q)) -> P x).
  { intros x Hx. apply filter_In in Hx. apply D. tauto. }
  destruct (mem subId _); [exact (F d Hd)|].
  apply in_app_iff in Hd. destruct Hd as [Hd|[<-|[]]];
    [exact (F d Hd) | exact (V _ _ G)].
Qed.

Lemma fixup_deps (P : str -> Prop) (pb : list (str * str))
  (known : list str) (subs : list (str * SubInfo)) :
  (forall k v, map_get k pb = Some v -> P v) ->
  forall q q',
    fixup pb known q subs = Ok q' ->
    (forall d, In d (dependsOn q) -> P d) ->
    forall d, In d (dependsOn q') -> P d.
Proof.
  intros V. induction subs as [|e subs IH]; cbn [fixup]; intros q q' H D.
  - inversion H; subst. exact D.
  - bind_inv H as q1 E. apply (IH _ _ H).
    exact (@fixupStep_deps P _ _ _ _ _ E V D).
Qed.

Lemma map_get_map_set (k k' v x : str) (m : list (str * str)) :
  map_get k (map_set k' v m) = Some x -> x = v \/ map_get k m = Some x.
Proof.
  induction m as [|[a b] m IH]; cbn [map_set map_get].
  - destruct (str_eqb k' k); [intros H; inversion H; auto | discriminate].
  - destruct (str_eqb a k') eqn:A; cbn [map_get].
    + apply str_eqb_eq in A. subst a.
      destruct (str_eqb k' k); [intros H; inversion H; auto | auto].
    + destruct (str_eqb a k); [auto | exact IH].
Qed.

Lemma handles_app (l m : list SubQuery) (d : str) :
  In d (handles l) -> In d (handles (l ++ m)).
Proof.
  unfold handles. rewrite !map_app, !in_app_iff. tauto.
Qed.

Lemma ids_handles (l : list SubQuery) (d : str) :
  In d (map id l) -> In d (handles l).
Proof. unfold handles. rewrite in_app_iff. auto. Qed.

(** A unit pushed on the collector, which depends on known names and
    collected units only, leaves the collector fed in order. *)
Lemma fed_in_order_push (names : list str) (l : list SubQuery)
  (u : SubQuery) :
  fed_in_order names l ->
  incl (dependsOn u) (names ++ handles l) ->
  fed_in_order names (l ++ [u]).
Proof.
  intros F I j q d Hj Hd.
  destruct (Nat.lt_ge_cases j (length l)) as [L|L].
  - rewrite nth_error_app1 in Hj by exact L.
    rewrite firstn_app. replace (j - length l) with 0 by lia.
    cbn [firstn]. rewrite app_nil_r. exact (F _ _ _ Hj Hd).
  - rewrite nth_error_app2 in Hj by exact L.
    destruct (j - length l) as [|n] eqn:E;
      [|destruct n; discriminate Hj].
    inversion Hj; subst q. assert (j = length l) by lia. subst j.
    rewrite firstn_app, Nat.sub_diag, firstn_all. cbn [firstn].
    rewrite app_nil_r. apply in_app_iff, I, Hd.
Qed.

Lemma eachSub_feeds (names : list str) (rec : Process)
  (subs : list (str * SubInfo)) :
  heads rec -> feeds names rec ->
  forall known sh known' sh',
    eachSub rec subs known sh = Ok (known', sh') ->
    values_collected sh ->
    fed_in_order names (subQueryCollector sh) ->
    incl known (names ++ handles (subQueryCollector sh)) ->
    (exists more, subQueryCollector sh' = subQueryCollector sh ++ more)
    /\ values_collected sh'
    /\ fed_in_order names (subQueryCollector sh')
    /\ incl known' (known ++ map id (subQueryCollector sh')).
Proof.
  intros Hd R. induction subs as [|[ph info] subs IH]; cbn [eachSub];
    intros known sh known' sh' H V F K.
  - inversion H; subst. split; [exists []; rewrite app_nil_r; reflexivity|].
    split; [exact V|]. split; [exact F|]. apply incl_appl, incl_refl.
  - bind_inv H as [subId sh1] E.
    assert (S1 : (exists more,
                     subQueryCollector sh1 = subQueryCollector sh ++ more)
                 /\ values_collected sh1
                 /\ fed_in_order names (subQueryCollector sh1)
                 /\ In subId (map id (subQueryCollector sh1))).
    { destruct (defined (map_get _ (processedBodies sh))) as [ex|] eqn:G.
      - inversion E; subst.
        split; [exists []; rewrite app_nil_r; reflexivity|].
        split; [exact V|]. split; [exact F|].
        apply defined_some in G. exact (V _ _ G).
      - bind_inv E as [sub sh2] E0. inversion E; subst; clear E.
        destruct (R _ _ _ _ _ _ _ _ _ E0 V F K)
          as ((more & M) & V2 & F2 & D2).
        cbn [subQueryCollector] in M, F2, D2.
        destruct (Hd _ _ _ _ _ _ _ _ _ E0) as (Hi & _).
        cbn [subQueryCollector processedBodies].
        split; [exists (more ++ [sub]); rewrite M, app_assoc; reflexivity|].
        split; [|split].
        + intros k v Hk. cbn [processedBodies subQueryCollector] in *.
          rewrite map_app, in_app_iff.
          apply map_get_map_set in Hk. destruct Hk as [->|Hk].
          * right. left. exact Hi.
          * left. exact (V2 _ _ Hk).
        + apply fed_in_order_push; [exact F2|].
          intros d Hd0. apply D2 in Hd0. apply in_app_iff in Hd0.
          apply in_app_iff. destruct Hd0 as [Hd0|Hd0].
          * apply K in Hd0. apply in_app_iff in Hd0.
            destruct Hd0 as [Hd0|Hd0]; [left; exact Hd0|].
            right. rewrite M. apply handles_app, Hd0.
          * right. apply ids_handles, Hd0.
        + rewrite map_app, in_app_iff. right. left. exact Hi. }
    destruct S1 as ((more1 & M1) & V1 & F1 & I1).
    assert (K1 : incl (if mem subId known then known else known ++ [subId])
                   (names ++ handles (subQueryCollector sh1))).
    { assert (K0 : incl known (names ++ handles (subQueryCollector sh1))).
      { intros d Hd0. apply K in Hd0. apply in_app_iff in Hd0.
        apply in_app_iff. destruct Hd0 as [Hd0|Hd0]; [left; exact Hd0|].
        right. rewrite M1. apply handles_app, Hd0. }
      destruct (mem subId known); [exact K0|].
      intros d Hd0. apply in_app_iff in Hd0.
      destruct Hd0 as [Hd0|[<-|[]]]; [apply K0, Hd0|].
      apply in_app_iff. right. apply ids_handles, I1. }
    destruct (IH _ _ _ _ H V1 F1 K1) as ((more & M) & V' & F' & D').
    split; [exists (more1 ++ more); rewrite M, M1, app_assoc; reflexivity|].
    split; [exact V'|]. split; [exact F'|].
    intros d Hd0. apply D' in Hd0. apply in_app_iff in Hd0.
    apply in_app_iff. destruct Hd0 as [Hd0|Hd0]; [|right; exact Hd0].
    destruct (mem subId known); [left; exact Hd0|].
    apply in_app_iff in Hd0. destruct Hd0 as [Hd0|[<-|[]]];
      [left; exact Hd0|].
    right. rewrite M, map_app, in_app_iff. left. exact I1.
Qed.

Lemma unionBranches_feeds (names : list str) (rec : Process)
  (id0 name0 : str) (known : list str) (parts : list str) :
  heads rec -> feeds names rec ->
  forall i acc sh ids sh',
    unionBranches rec id0 name0 known parts i acc sh = Ok (ids, sh') ->
    values_collected sh ->
    fed_in_order names (subQueryCollector sh) ->
    incl known (names ++ handles (subQueryCollector sh)) ->
    (exists more, subQueryCollector sh' = subQueryCollector sh ++ more)
    /\ values_collected sh'
    /\ fed_in_order names (subQueryCollector sh')
    /\ incl ids (acc ++ map id (subQueryCollector sh')).
Proof.
  intros Hd R. induction parts as [|part parts IH]; cbn [unionBranches];
    intros i acc sh ids sh' H V F K.
  - inversion H; subst. split; [exists []; rewrite app_nil_r; reflexivity|].
    split; [exact V|]. split; [exact F|]. apply incl_appl, incl_refl.
  - bind_inv H as [b sh1] E.
    destruct (R _ _ _ _ _ _ _ _ _ E V F K) as ((more1 & M1) & V1 & F1 & D1).
    destruct (Hd _ _ _ _ _ _ _ _ _ E) as (Hi & _).
    set (sh2 := mkShared (subQueryCollector sh1 ++ [b]) (count sh1)
                  (processedBodies sh1)) in *.
    assert (V2 : values_collected sh2).
    { intros k v Hk. cbn [sh2 processedBodies subQueryCollector] in *.
      rewrite map_app, in_app_iff. left. exact (V1 _ _ Hk). }
    assert (F2 : fed_in_order names (subQueryCollector sh2)).
    { apply fed_in_order_push; [exact F1|].
      intros d Hd0. apply D1 in Hd0. apply in_app_iff in Hd0.
      apply in_app_iff. destruct Hd0 as [Hd0|Hd0].
      - apply K in Hd0. apply in_app_iff in Hd0.
        destruct Hd0 as [Hd0|Hd0]; [left; exact Hd0|].
        right. rewrite M1. apply handles_app, Hd0.
      - right. apply ids_handles, Hd0. }
    assert (K2 : incl known (names ++ handles (subQueryCollector sh2))).
    { intros d Hd0. apply K in Hd0. apply in_app_iff in Hd0.
      apply in_app_iff. destruct Hd0 as [Hd0|Hd0]; [left; exact Hd0|].
      right. cbn [sh2 subQueryCollector]. rewrite M1, <- app_assoc.
      apply handles_app, Hd0. }
    destruct (IH _ _ _ _ _ H V2 F2 K2) as ((more & M) & V' & F' & D').
    split.
    { exists (more1 ++ [b] ++ more). rewrite M.
      cbn [sh2 subQueryCollector]. rewrite M1, <- !app_assoc. reflexivity. }
    split; [exact V'|]. split; [exact F'|].
    intros d Hd0. apply D' in Hd0. rewrite !in_app_iff in Hd0.
    apply in_app_iff. destruct Hd0 as [[Hd0|[<-|[]]]|Hd0]; auto.
    right. rewrite M. cbn [sh2 subQueryCollector].
    rewrite !map_app, !in_app_iff. left. right. left. exact Hi.
Qed.

Lemma processSQL_feeds (names : list str) (fuel : nat) :
  feeds names (processSQL fuel).
Proof.
  induction fuel as [|fuel IH];
    intros sql id0 name0 c s known sh q sh'; cbn [processSQL];
    [discriminate|]. intros H V F K.
  bind_inv H as r E1. bind_inv H as [known1 sh1] E2.
  destruct (@eachSub_feeds names _ (rp_subs r) (processSQL_heads fuel) IH
              _ _ _ _ E2 V F K) as ((more1 & M1) & V1 & F1 & D1).
  bind_inv H as [parts ut] E3.
  assert (Flat :
            (fq <- parseFlatSelect (rp_result r) id0 name0 c s known1 ;;
             q0 <- fixup (processedBodies sh1) known1 fq (rp_subs r) ;;
             Ok (q0, sh1)) = Ok (q, sh') ->
            (exists more,
                subQueryCollector sh' = subQueryCollector sh ++ more)
            /\ values_collected sh'
            /\ fed_in_order names (subQueryCollector sh')
            /\ incl (dependsOn q) (known ++ map id (subQueryCollector sh'))).
  { intros G. bind_inv G as fq E4. bind_inv G as q1 E5.
    inversion G; subst; clear G.
    split; [exists more1; exact M1|]. split; [exact V1|].
    split; [exact F1|].
    unfold incl.
    apply (@fixup_deps
             (fun d => In d (known ++ map id (subQueryCollector sh')))
             _ _ _ (fun k v Hk => proj2 (in_app_iff _ _ _)
                                    (or_intror (V1 k v Hk)))
             _ _ E5).
    intros d Hd0. apply D1.
    exact (@parseFlatSelect_deps _ _ _ _ _ _ _ E4 d Hd0). }
  destruct ((1 <? length parts) && isComplex parts); [destruct ut|].
  - bind_inv H as [ids sh2] E4. inversion H; subst; clear H.
    assert (K1 : incl known1 (names ++ handles (subQueryCollector sh1))).
    { intros d Hd0. apply D1 in Hd0. apply in_app_iff in Hd0.
      apply in_app_iff. destruct Hd0 as [Hd0|Hd0].
      - apply K in Hd0. apply in_app_iff in Hd0.
        destruct Hd0 as [Hd0|Hd0]; [left; exact Hd0|].
        right. rewrite M1. apply handles_app, Hd0.
      - right. apply ids_handles, Hd0. }
    destruct (@unionBranches_feeds names _ id0 name0 known1 parts
                (processSQL_heads fuel) IH _ _ _ _ _ E4 V1 F1 K1)
      as ((more & M) & V' & F' & D').
    split; [exists (more1 ++ more); rewrite M, M1, app_assoc; reflexivity|].
    split; [exact V'|]. split; [exact F'|]. cbn [dependsOn].
    intros d Hd0. apply D' in Hd0. apply in_app_iff. right. exact Hd0.
  - apply (Flat H).
  - apply (Flat H).
Qed.

(* ================================================================== *)
(** * The parser: producers and consumers in [allQueries] *)

Lemma firstn_prefix (j : nat) (a b : list str) :
  j <= length a -> firstn j (a ++ b) = firstn j a.
Proof.
  intros L. rewrite firstn_app. replace (j - length a) with 0 by lia.
  cbn [firstn]. apply app_nil_r.
Qed.

Lemma firstn_in (j : nat) (l : list str) (x : str) :
  In x (firstn j l) -> In x l.
Proof.
  intros H. rewrite <- (firstn_skipn j l). apply in_app_iff. auto.
Qed.

(** The loop over the temp tables: the unit at index [k] depends on the
    first [k] names and on collected units only. *)
Lemma processTempTables_feeds (all : list str) (fuel : nat)
  (names : list str) (ts : list Named) :
  forall i acc sh cs sh',
    processTempTables fuel names ts i acc sh = Ok (cs, sh') ->
    i = length acc ->
    (forall j, j < i + length ts -> incl (firstn j names) (firstn j all)) ->
    values_collected sh ->
    fed_in_order all (subQueryCollector sh) ->
    (forall k u d, nth_error acc k = Some u -> In d (dependsOn u) ->
                   In d (firstn k all)
                   \/ In d (map id (subQueryCollector sh))) ->
    (exists new, cs = acc ++ new /\ map name new = map nm_name ts)
    /\ values_collected sh'
    /\ fed_in_order all (subQueryCollector sh')
    /\ (forall k u d, nth_error cs k = Some u -> In d (dependsOn u) ->
                      In d (firstn k all)
                      \/ In d (map id (subQueryCollector sh'))).
Proof.
  induction ts as [|t ts IH]; cbn [processTempTables];
    intros i acc sh cs sh' H Li N V F A.
  - inversion H; subst. split; [exists []; rewrite app_nil_r; auto|]. auto.
  - bind_inv H as [parsed sh1] E.
    assert (K : incl (firstn i names)
                  (all ++ handles (subQueryCollector sh))).
    { intros d Hd0. apply in_app_iff. left.
      apply (@firstn_in i all), (N i); [cbn [length]; lia | exact Hd0]. }
    destruct (@processSQL_feeds all fuel _ _ _ _ _ _ _ _ _ E V F K)
      as ((more & M) & V1 & F1 & D1).
    destruct (processSQL_headed _ _ _ _ _ _ _ _ E) as (_ & Hn & _).
    set (u0 := with_temp_id parsed (lit "temp_node_" ++ nm_name t)) in *.
    destruct (IH (S i) (acc ++ [u0]) sh1 cs sh' H) as ((new & -> & Nn) & R).
    + rewrite length_app. cbn [length]. lia.
    + intros j Hj. apply N. cbn [length]. lia.
    + exact V1.
    + exact F1.
    + intros k u d Hk Hd0.
      destruct (Nat.lt_ge_cases k (length acc)) as [L|L].
      * rewrite nth_error_app1 in Hk by exact L.
        destruct (A _ _ _ Hk Hd0) as [X|X]; [left; exact X|].
        right. rewrite M, map_app, in_app_iff. left. exact X.
      * rewrite nth_error_app2 in Hk by exact L.
        destruct (k - length acc) as [|n] eqn:Ek;
          [|destruct n; discriminate Hk].
        inversion Hk; subst u. assert (k = i) by lia. subst k.
        cbn [u0 with_temp_id dependsOn] in Hd0.
        apply D1 in Hd0. apply in_app_iff in Hd0.
        destruct Hd0 as [X|X]; [left|right; exact X].
        apply (N i); [cbn [length]; lia | exact X].
    + split; [|exact R]. exists (u0 :: new). rewrite <- app_assoc.
      split; [reflexivity|]. cbn [map]. rewrite Nn. f_equal. exact Hn.
Qed.

(** The loop over the CTEs: the same, with the names of the temp tables
    before those of the CTEs. *)
Lemma processCTEs_feeds (all : list str) (fuel : nat)
  (temps names : list str) (rawCTEs : list Named) :
  forall i acc sh cs sh',
    processCTEs fuel temps names rawCTEs i acc sh = Ok (cs, sh') ->
    length acc = length temps + i ->
    (forall j, j < i + length rawCTEs ->
               incl (temps ++ firstn j names)
                    (firstn (length temps + j) all)) ->
    values_collected sh ->
    fed_in_order all (subQueryCollector sh) ->
    (forall k u d, nth_error acc k = Some u -> In d (dependsOn u) ->
                   In d (firstn k all)
                   \/ In d (map id (subQueryCollector sh))) ->
    (exists new, cs = acc ++ new /\ map name new = map nm_name rawCTEs)
    /\ values_collected sh'
    /\ fed_in_order all (subQueryCollector sh')
    /\ (forall k u d, nth_error cs k = Some u -> In d (dependsOn u) ->
                      In d (firstn k all)
                      \/ In d (map id (subQueryCollector sh'))).
Proof.
  induction rawCTEs as [|t ts IH]; cbn [processCTEs];
    intros i acc sh cs sh' H Li N V F A.
  - inversion H; subst. split; [exists []; rewrite app_nil_r; auto|]. auto.
  - bind_inv H as [parsed sh1] E.
    assert (K : incl (temps ++ firstn i names)
                  (all ++ handles (subQueryCollector sh))).
    { intros d Hd0. apply in_app_iff. left.
      apply (@firstn_in (length temps + i) all), (N i);
        [cbn [length]; lia | exact Hd0]. }
    destruct (@processSQL_feeds all fuel _ _ _ _ _ _ _ _ _ E V F K)
      as ((more & M) & V1 & F1 & D1).
    destruct (processSQL_headed _ _ _ _ _ _ _ _ E) as (_ & Hn & _).
    destruct (IH (S i) (acc ++ [parsed]) sh1 cs sh' H)
      as ((new & -> & Nn) & R).
    + rewrite length_app. cbn [length]. lia.
    + intros j Hj. apply N. cbn [length]. lia.
    + exact V1.
    + exact F1.
    + intros k u d Hk Hd0.
      destruct (Nat.lt_ge_cases k (length acc)) as [L|L].
      * rewrite nth_error_app1 in Hk by exact L.
        destruct (A _ _ _ Hk Hd0) as [X|X]; [left; exact X|].
        right. rewrite M, map_app, in_app_iff. left. exact X.
      * rewrite nth_error_app2 in Hk by exact L.
        destruct (k - length acc) as [|n] eqn:Ek;
          [|destruct n; discriminate Hk].
        inversion Hk; subst u.
        assert (k = length temps + i) by lia. subst k.
        apply D1 in Hd0. apply in_app_iff in Hd0.
        destruct Hd0 as [X|X]; [left|right; exact X].
        apply (N i); [cbn [length]; lia | exact X].
    + split; [|exact R]. exists (parsed :: new). rewrite <- app_assoc.
      split; [reflexivity|]. cbn [map]. rewrite Nn. f_equal. exact Hn.
Qed.

(** C7, as the code has it.  [allQueries] is the list of temp tables
    and CTEs, then the subqueries, then the main query, which is last.
    What a unit depends on stands before it in the list, but for the
    subqueries of a temp table or CTE: every dependency of a temp table
    or CTE is the name, in lower case, of a temp table or CTE before it,
    or the id of a subquery unit; every dependency of a subquery unit is
    such a name or the id, as it is or in lower case, of a subquery unit
    before it; and so is every dependency of the main query. *)
Theorem parseSQL_allQueries_order (fuel : nat) (sql : str) (p : ParsedSQL) :
  parseSQL fuel sql = Ok p ->
  allQueries p = ctes p ++ subQueries p ++ [mainQuery p]
  /\ (forall i q d,
         nth_error (ctes p) i = Some q -> In d (dependsOn q) ->
         In d (lowerNames (firstn i (ctes p)))
         \/ In d (map id (subQueries p)))
  /\ (forall j q d,
         nth_error (subQueries p) j = Some q -> In d (dependsOn q) ->
         In d (lowerNames (ctes p))
         \/ In d (handles (firstn j (subQueries p))))
  /\ (forall d,
         In d (dependsOn (mainQuery p)) ->
         In d (lowerNames (ctes p)) \/ In d (handles (subQueries p))).
Proof.
  unfold parseSQL. intros H.
  bind_inv H as [temps after] E0. bind_inv H as [raw remaining] E1.
  bind_inv H as [ctes1 sh1] E2. bind_inv H as [ctes2 sh2] E3.
  bind_inv H as [mainq sh3] E4. inversion H; subst p; clear H.
  cbn [allQueries ctes subQueries mainQuery].
  set (tn := map (fun t => toLowerCase (nm_name t)) temps) in *.
  set (cn := map (fun c => toLowerCase (nm_name c)) raw) in *.
  set (all := tn ++ cn).
  assert (Lt : length tn = length temps) by apply length_map.
  assert (Lc : length cn = length raw) by apply length_map.
  destruct (@processTempTables_feeds all fuel tn temps 0 [] _ _ _ E2)
    as ((n1 & -> & N1) & V1 & F1 & A1).
  { reflexivity. }
  { intros j Hj. unfold all. rewrite firstn_prefix by (cbn in Hj; lia).
    apply incl_refl. }
  { intros k v Hk. discriminate Hk. }
  { intros j u d Hj. destruct j; discriminate Hj. }
  { intros k u d Hk. destruct k; discriminate Hk. }
  cbn [app] in *.
  assert (L1 : length n1 = length tn).
  { rewrite <- (length_map name), N1, length_map. exact (eq_sym Lt). }
  destruct (@processCTEs_feeds all fuel tn cn raw 0 n1 _ _ _ E3)
    as ((n2 & -> & N2) & V2 & F2 & A2).
  { lia. }
  { intros j Hj. unfold all. rewrite firstn_app.
    replace (length tn + j - length tn) with j by lia.
    replace (firstn (length tn + j) tn) with tn
      by (symmetry; apply firstn_all2; lia).
    apply incl_refl. }
  { exact V1. }
  { exact F1. }
  { exact A1. }
  assert (Nm : lowerNames (n1 ++ n2) = all).
  { unfold lowerNames, all, tn, cn.
    rewrite <- (map_map name toLowerCase), map_app, N1, N2, map_app,
      !map_map. reflexivity. }
  assert (K : incl (tn ++ cn
                    ++ map (fun sq => toLowerCase (id sq))
                         (subQueryCollector sh2))
                (all ++ handles (subQueryCollector sh2))).
  { intros d Hd0. unfold all, handles.
    rewrite !in_app_iff in *. tauto. }
  destruct (@processSQL_feeds all fuel _ _ _ _ _ _ _ _ _ E4 V2 F2 K)
    as ((more & M) & V3 & F3 & D3).
  split; [reflexivity|]. split; [|split].
  - intros i q d Hi Hd0. unfold lowerNames. rewrite <- firstn_map.
    fold (lowerNames (n1 ++ n2)). rewrite Nm.
    destruct (A2 _ _ _ Hi Hd0) as [X|X]; [left; exact X|].
    right. rewrite M, map_app, in_app_iff. left. exact X.
  - rewrite Nm. exact F3.
  - rewrite Nm. intros d Hd0. apply D3 in Hd0.
    rewrite !in_app_iff in Hd0. unfold all. rewrite in_app_iff.
    destruct Hd0 as [[X|[X|X]]|X]; auto.
    + right. rewrite M. apply handles_app. unfold handles.
      apply in_app_iff. right. exact X.
    + right. apply ids_handles, X.
Qed.

Lemma parseSQL_allQueries_order_witness :
  exists p,
    parseSQL 3 cte_subquery_script = Ok p
    /\ allQueries p = ctes p ++ subQueries p ++ [mainQuery p]
    /\ (forall d, In d (dependsOn (mainQuery p)) ->
                  In d (lowerNames (ctes p))
                  \/ In d (handles (subQueries p))).
Proof.
  destruct (parseSQL 3 cte_subquery_script) as [p| |] eqn:E;
    [|vm_compute in E; discriminate E|vm_compute in E; discriminate E].
  exists p. split; [reflexivity|].
  destruct (@parseSQL_allQueries_order 3 cte_subquery_script p E)
    as (A & _ & _ & D).
  split; [exact A | exact D].
Defined.

(** C7 as stated fails twice on a CTE over a subquery.  The main query
    is the last unit of [allQueries], not the one after the CTEs; and
    the CTE, which depends on the subquery, stands before it. *)
Lemma parseSQL_allQueries_consumer_before_producer :
  exists p,
    parseSQL 3 cte_subquery_script = Ok p
    /\ map id (allQueries p)
       = [lit "cte_0"; lit "subquery_0"; lit "main"]
    /\ allQueries p <> ctes p ++ [mainQuery p] ++ subQueries p
    /\ exists consumer producer,
         nth_error (allQueries p) 0 = Some consumer
         /\ nth_error (allQueries p) 1 = Some producer
         /\ In producer (subQueries p)
         /\ In (id producer) (dependsOn consumer).
Proof.
  destruct (parseSQL 3 cte_subquery_script) as [p| |] eqn:E;
    [|vm_compute in E; discriminate E|vm_compute in E; discriminate E].
  exists p. split; [reflexivity|].
  vm_compute in E. inversion E; subst p; clear E.
  split; [reflexivity|]. split.
  - intros H. apply (f_equal (map id)) in H. vm_compute in H.
    discriminate H.
  - eexists. eexists. split; [reflexivity|]. split; [reflexivity|].
    split; [left; reflexivity | left; reflexivity].
Qed.
